(** * json_parser: a shallow embedding of json_parser.h

    The parser of diffstorm/json_parser decodes a JSON text into a flat
    sequence of tokens that carry byte offsets into the input.  This file
    embeds the implementation part of [json_parser.h] function by function
    and proves properties of it.

    Conventions of the embedding.

    - [size_t] and [int] fields are integers of [Z].  The subtractions on
      the configured limits ([max_string - 1] and the like) and the
      conversion of [depth] to [size_t] are reduced modulo [2^64] as in C;
      cursor increments are written without reduction (the cursor never
      passes the end of the buffer by more than one byte).
    - The input is the list of the bytes of the buffer; a read past its
      last byte yields 0, the terminator of a C string, on which the number
      scanner and [strtod] rely.  The field [length] is kept apart from the
      buffer, as in [json_parser_init (parser, json, length)].
    - A handler returns [-1] or [0] together with the state it leaves
      behind.  The recursion of the handlers is bounded by a fuel argument;
      [None] means that the fuel ran out, and [handlers_total] shows that
      the fuel [json_parser_parse] hands out is always enough.
    - The token array lives in a heap block.  [realloc] answers as the
      field [heap] of the state says (failure, growth in place, or a fresh
      block); a store through the address of a token in a block that is no
      longer the live one does not reach the token array. *)

From Stdlib Require Import ZArith List Lia Bool Ascii String.
Import ListNotations.
Open Scope Z_scope.

(** ** Data model *)

Inductive json_error_t : Type :=
| JSON_ERROR_NONE
| JSON_ERROR_INVALID_TOKEN
| JSON_ERROR_UNEXPECTED_CHAR
| JSON_ERROR_MAX_TOKENS
| JSON_ERROR_STRING_TOO_LONG
| JSON_ERROR_INVALID_ESCAPE
| JSON_ERROR_INVALID_UNICODE
| JSON_ERROR_NESTING_DEPTH
| JSON_ERROR_INVALID_NUMBER
| JSON_ERROR_TRAILING_CHARS
| JSON_ERROR_ALLOCATION_FAILED.

Definition json_error_eqb (a b : json_error_t) : bool :=
  match a, b with
  | JSON_ERROR_NONE, JSON_ERROR_NONE
  | JSON_ERROR_INVALID_TOKEN, JSON_ERROR_INVALID_TOKEN
  | JSON_ERROR_UNEXPECTED_CHAR, JSON_ERROR_UNEXPECTED_CHAR
  | JSON_ERROR_MAX_TOKENS, JSON_ERROR_MAX_TOKENS
  | JSON_ERROR_STRING_TOO_LONG, JSON_ERROR_STRING_TOO_LONG
  | JSON_ERROR_INVALID_ESCAPE, JSON_ERROR_INVALID_ESCAPE
  | JSON_ERROR_INVALID_UNICODE, JSON_ERROR_INVALID_UNICODE
  | JSON_ERROR_NESTING_DEPTH, JSON_ERROR_NESTING_DEPTH
  | JSON_ERROR_INVALID_NUMBER, JSON_ERROR_INVALID_NUMBER
  | JSON_ERROR_TRAILING_CHARS, JSON_ERROR_TRAILING_CHARS
  | JSON_ERROR_ALLOCATION_FAILED, JSON_ERROR_ALLOCATION_FAILED => true
  | _, _ => false
  end.

Inductive json_token_type_t : Type :=
| JSON_TOKEN_INVALID
| JSON_TOKEN_OBJECT
| JSON_TOKEN_ARRAY
| JSON_TOKEN_STRING
| JSON_TOKEN_NUMBER
| JSON_TOKEN_TRUE
| JSON_TOKEN_FALSE
| JSON_TOKEN_NULL.

(** The value [strtod] returns, before it is rounded to a binary64:
    [Finite neg m b e] stands for [(-1)^neg * m * b^e] with [b] ten for a
    decimal and two for a hexadecimal subject. *)
Inductive c_double : Type :=
| Finite (neg : bool) (mant : Z) (base : Z) (exp : Z)
| Infinite (neg : bool)
| NotANumber.

(** The union [value] of a token: all bytes zero after [memset], a pointer
    to the buffer of a decoded string, or a double.  [ValueString s]
    holds the bytes [json_parse_string] has written to the buffer before
    the terminator it appends.  The program hands the buffer out as a C
    string, without a length: read that way it ends at its first zero
    byte, so [s] is the string the token points to where [s] holds no
    zero byte. *)
Inductive json_value_t : Type :=
| ValueZero
| ValueString (s : list Z)
| ValueNumber (d : c_double).

Record json_token_t : Type := mk_token {
  type : json_token_type_t;
  value : json_value_t;
  start : Z;
  end_ : Z
}.

(** An answer of the allocator to [malloc] or [realloc]. *)
Inductive alloc_t : Type :=
| AllocFail
| AllocInPlace
| AllocFresh.

Record json_parser_t : Type := mk_parser {
  json : list Z;
  length : Z;
  pos : Z;
  tokens : list json_token_t;
  tokens_block : nat;
  token_cap : Z;
  max_depth : Z;
  max_string : Z;
  error : json_error_t;
  depth : Z;
  heap : list alloc_t
}.

Definition JSON_DEFAULT_MAX_TOKENS : Z := 128.
Definition JSON_DEFAULT_MAX_DEPTH : Z := 32.
Definition JSON_DEFAULT_MAX_STRING : Z := 256.

Definition SIZE_MAX1 : Z := 2 ^ 64.
Definition to_size_t (z : Z) : Z := z mod SIZE_MAX1.
Definition to_char (z : Z) : Z := z mod 256.

(** [token_count] is the number of entries of the array in use. *)
Definition token_count (p : json_parser_t) : Z :=
  Z.of_nat (List.length (tokens p)).

(** Field updates. *)
Definition set_pos (p : json_parser_t) (v : Z) : json_parser_t :=
  mk_parser (json p) (length p) v (tokens p) (tokens_block p) (token_cap p)
            (max_depth p) (max_string p) (error p) (depth p) (heap p).

Definition set_error (p : json_parser_t) (e : json_error_t) : json_parser_t :=
  mk_parser (json p) (length p) (pos p) (tokens p) (tokens_block p)
            (token_cap p) (max_depth p) (max_string p) e (depth p) (heap p).

Definition set_depth (p : json_parser_t) (d : Z) : json_parser_t :=
  mk_parser (json p) (length p) (pos p) (tokens p) (tokens_block p)
            (token_cap p) (max_depth p) (max_string p) (error p) d (heap p).

Definition set_tokens (p : json_parser_t) (ts : list json_token_t)
  : json_parser_t :=
  mk_parser (json p) (length p) (pos p) ts (tokens_block p) (token_cap p)
            (max_depth p) (max_string p) (error p) (depth p) (heap p).

Definition set_store (p : json_parser_t) (blk : nat) (cap : Z)
  : json_parser_t :=
  mk_parser (json p) (length p) (pos p) (tokens p) blk cap
            (max_depth p) (max_string p) (error p) (depth p) (heap p).

Definition set_heap (p : json_parser_t) (h : list alloc_t) : json_parser_t :=
  mk_parser (json p) (length p) (pos p) (tokens p) (tokens_block p)
            (token_cap p) (max_depth p) (max_string p) (error p) (depth p) h.

Definition set_max_depth (p : json_parser_t) (v : Z) : json_parser_t :=
  mk_parser (json p) (length p) (pos p) (tokens p) (tokens_block p)
            (token_cap p) v (max_string p) (error p) (depth p) (heap p).

Definition set_max_string (p : json_parser_t) (v : Z) : json_parser_t :=
  mk_parser (json p) (length p) (pos p) (tokens p) (tokens_block p)
            (token_cap p) (max_depth p) v (error p) (depth p) (heap p).

(** ** Bytes and the C library *)

Definition byte_of_ascii (a : ascii) : Z := Z.of_nat (nat_of_ascii a).

Fixpoint bytes (s : string) : list Z :=
  match s with
  | EmptyString => []
  | String a s' => byte_of_ascii a :: bytes s'
  end.

(** Inputs that contain double quotes are written with apostrophes. *)
Definition requote (b : Z) : Z := if b =? 39 then 34 else b.
Definition text (s : string) : list Z := map requote (bytes s).

(** [parser->json[i]]. *)
Definition byte_at (buf : list Z) (i : Z) : Z := nth (Z.to_nat i) buf 0.

(** [isspace] and [isdigit] of the C locale. *)
Definition isspace (c : Z) : bool :=
  (c =? 32) || ((9 <=? c) && (c <=? 13)).

Definition isdigit (c : Z) : bool := (48 <=? c) && (c <=? 57).

Definition isxdigit (c : Z) : bool :=
  isdigit c || ((97 <=? c) && (c <=? 102)) || ((65 <=? c) && (c <=? 70)).

Definition tolower (c : Z) : Z :=
  if (65 <=? c) && (c <=? 90) then c + 32 else c.

(** *** strtod

    [strtod] belongs to the C library, not to the repository.  The model
    follows ISO C 7.22.1.3 for the C locale: leading white space, an
    optional sign, then a decimal subject (digits with an optional radix
    point and an optional exponent), a hexadecimal subject, INF, INFINITY
    or NAN without regard to case.  It returns the value and the number of
    bytes consumed ([end - start]); no conversion consumes nothing. *)

Fixpoint span (f : Z -> bool) (s : list Z) : list Z * list Z :=
  match s with
  | c :: s' =>
      if f c then let (a, b) := span f s' in (c :: a, b) else ([], s)
  | [] => ([], [])
  end.

Definition digit_value (c : Z) : Z :=
  if isdigit c then c - 48
  else if (97 <=? c) && (c <=? 102) then c - 97 + 10
  else c - 65 + 10.

Definition digits_value (b : Z) (ds : list Z) : Z :=
  fold_left (fun acc c => acc * b + digit_value c) ds 0.

Definition len {A : Type} (l : list A) : Z := Z.of_nat (List.length l).

(** Digits, an optional radix point, digits: the two digit sequences and
    the number of bytes they take with the point. *)
Definition strtod_radix (isd : Z -> bool) (s : list Z)
  : list Z * list Z * Z * list Z :=
  let (i, s1) := span isd s in
  match s1 with
  | 46 :: s2 =>
      let (f, s3) := span isd s2 in (i, f, len i + 1 + len f, s3)
  | _ => (i, [], len i, s1)
  end.

(** The exponent part after the marker [e] or [p]: its value and size. *)
Definition strtod_exponent (marker : Z) (s : list Z) : Z * Z :=
  match s with
  | c :: s1 =>
      if tolower c =? marker then
        let '(sgn, k, s2) :=
          match s1 with
          | 43 :: s2 => (1, 1, s2)
          | 45 :: s2 => (-1, 1, s2)
          | _ => (1, 0, s1)
          end in
        let (ds, _) := span isdigit s2 in
        match ds with
        | [] => (0, 0)
        | _ => (sgn * digits_value 10 ds, 1 + k + len ds)
        end
      else (0, 0)
  | [] => (0, 0)
  end.

Definition strtod_decimal (neg : bool) (s : list Z) : option (c_double * Z) :=
  let '(i, f, n, rest) := strtod_radix isdigit s in
  match i ++ f with
  | [] => None
  | ds =>
      let (e, ne) := strtod_exponent 101 rest in
      Some (Finite neg (digits_value 10 ds) 10 (e - len f), n + ne)
  end.

Definition strtod_hex (neg : bool) (s : list Z) : option (c_double * Z) :=
  match s with
  | 48 :: x :: s1 =>
      if tolower x =? 120 then
        let '(i, f, n, rest) := strtod_radix isxdigit s1 in
        match i ++ f with
        | [] => None
        | ds =>
            let (e, ne) := strtod_exponent 112 rest in
            Some (Finite neg (digits_value 16 ds) 2 (e - 4 * len f),
                  2 + n + ne)
        end
      else None
  | _ => None
  end.

Fixpoint has_prefix (w s : list Z) : bool :=
  match w, s with
  | [], _ => true
  | a :: w', c :: s' => (tolower c =? a) && has_prefix w' s'
  | _ :: _, [] => false
  end.

Definition isnchar (c : Z) : bool :=
  isdigit c || ((97 <=? tolower c) && (tolower c <=? 122)) || (c =? 95).

Definition strtod_special (neg : bool) (s : list Z) : option (c_double * Z) :=
  if has_prefix (bytes "infinity") s then Some (Infinite neg, 8)
  else if has_prefix (bytes "inf") s then Some (Infinite neg, 3)
  else if has_prefix (bytes "nan") s then
    match skipn 3 s with
    | 40 :: s1 =>
        let (cs, s2) := span isnchar s1 in
        match s2 with
        | 41 :: _ => Some (NotANumber, 3 + 1 + len cs + 1)
        | _ => Some (NotANumber, 3)
        end
    | _ => Some (NotANumber, 3)
    end
  else None.

Definition strtod (s : list Z) : c_double * Z :=
  let (ws, s1) := span isspace s in
  let '(neg, k, s2) :=
    match s1 with
    | 43 :: s2 => (false, 1, s2)
    | 45 :: s2 => (true, 1, s2)
    | _ => (false, 0, s1)
    end in
  let subject :=
    match strtod_hex neg s2 with
    | Some r => Some r
    | None =>
        match strtod_decimal neg s2 with
        | Some r => Some r
        | None => strtod_special neg s2
        end
    end in
  match subject with
  | Some (d, n) => (d, len ws + k + n)
  | None => (Finite false 0 10 0, 0)
  end.

(** ** The parser *)

(** The outcome of a handler: its return value and the state it leaves;
    [None] when the fuel is exhausted. *)
Definition result : Type := option (Z * json_parser_t).
Definition handler : Type := json_parser_t -> result.

(** [if (h (parser)) return -1; k] *)
Definition and_then (r : result) (k : handler) : result :=
  match r with
  | None => None
  | Some (rc, p) => if rc =? 0 then k p else Some (-1, p)
  end.

Definition json_set_error (p : json_parser_t) (e : json_error_t)
  : json_parser_t :=
  if json_error_eqb (error p) JSON_ERROR_NONE then set_error p e else p.

Definition json_parser_init (buf : list Z) (length : Z) : json_parser_t :=
  mk_parser buf length 0 [] 1%nat JSON_DEFAULT_MAX_TOKENS
            JSON_DEFAULT_MAX_DEPTH JSON_DEFAULT_MAX_STRING
            JSON_ERROR_NONE 0 [].

Definition json_get_tokens (p : json_parser_t) : list json_token_t * Z :=
  (tokens p, token_count p).

(** [while (pos < length && isspace (json[pos])) pos++], at most
    [length - pos] rounds. *)
Fixpoint skip_whitespace_loop (n : nat) (buf : list Z) (length pos : Z) : Z :=
  match n with
  | O => pos
  | S n' =>
      if (pos <? length) && isspace (byte_at buf pos)
      then skip_whitespace_loop n' buf length (pos + 1)
      else pos
  end.

Definition json_skip_whitespace (p : json_parser_t) : json_parser_t :=
  set_pos p (skip_whitespace_loop (Z.to_nat (length p - pos p))
                                  (json p) (length p) (pos p)).

(** The next answer of the allocator; a request beyond the answers listed
    in [heap] is served with a fresh block. *)
Definition allocate (p : json_parser_t) : alloc_t * json_parser_t :=
  match heap p with
  | [] => (AllocFresh, p)
  | a :: h => (a, set_heap p h)
  end.

(** The address of a token: the block of the array and the index. *)
Record token_ptr : Type := mk_ptr { ptr_block : nat; ptr_index : nat }.

Definition last_token_ptr (p : json_parser_t) : token_ptr :=
  mk_ptr (tokens_block p) (List.length (tokens p) - 1).

Fixpoint update_nth (i : nat) (f : json_token_t -> json_token_t)
  (ts : list json_token_t) : list json_token_t :=
  match ts, i with
  | [], _ => []
  | t :: ts', O => f t :: ts'
  | t :: ts', S i' => t :: update_nth i' f ts'
  end.

(** A store through a token address; it reaches the array only when the
    address lies in the live block. *)
Definition store_token (q : token_ptr) (f : json_token_t -> json_token_t)
  (p : json_parser_t) : json_parser_t :=
  if Nat.eqb (ptr_block q) (tokens_block p)
  then set_tokens p (update_nth (ptr_index q) f (tokens p))
  else p.

Definition with_start (v : Z) (t : json_token_t) : json_token_t :=
  mk_token (type t) (value t) v (end_ t).
Definition with_end (v : Z) (t : json_token_t) : json_token_t :=
  mk_token (type t) (value t) (start t) v.
Definition with_value (v : json_value_t) (t : json_token_t) : json_token_t :=
  mk_token (type t) v (start t) (end_ t).

Definition push_token (p : json_parser_t) (ty : json_token_type_t)
  : json_parser_t :=
  set_tokens p (tokens p ++ [mk_token ty ValueZero (pos p) (pos p)]).

Definition json_add_token (p : json_parser_t) (ty : json_token_type_t)
  : Z * json_parser_t :=
  if token_cap p <=? token_count p then
    let new_cap := to_size_t (token_cap p * 2) in
    match allocate p with
    | (AllocFail, p) => (-1, json_set_error p JSON_ERROR_ALLOCATION_FAILED)
    | (AllocInPlace, p) =>
        (0, push_token (set_store p (tokens_block p) new_cap) ty)
    | (AllocFresh, p) =>
        (0, push_token (set_store p (S (tokens_block p)) new_cap) ty)
    end
  else (0, push_token p ty).

(** The loop that reads four hexadecimal digits into [codepoint]. *)
Fixpoint read_hex4 (n : nat) (p : json_parser_t) (codepoint : Z)
  : Z * json_parser_t * Z :=
  match n with
  | O => (0, p, codepoint)
  | S n' =>
      let c := byte_at (json p) (pos p) in
      let p := set_pos p (pos p + 1) in
      let codepoint := Z.shiftl codepoint 4 in
      if (48 <=? c) && (c <=? 57) then read_hex4 n' p (codepoint + (c - 48))
      else if (97 <=? c) && (c <=? 102)
      then read_hex4 n' p (codepoint + (c - 97 + 10))
      else if (65 <=? c) && (c <=? 70)
      then read_hex4 n' p (codepoint + (c - 65 + 10))
      else (-1, p, codepoint)
  end.

(** The UTF-8 encoding of [codepoint] appended to the buffer, [idx] being
    the number of bytes already in it. *)
Definition utf8_append (p : json_parser_t) (buf : list Z) (codepoint : Z)
  : Z * json_parser_t * list Z :=
  let idx := len buf in
  if codepoint <=? 127 then
    if to_size_t (max_string p - 1) <=? idx then (-1, p, buf)
    else (0, p, buf ++ [to_char codepoint])
  else if codepoint <=? 2047 then
    if to_size_t (max_string p - 2) <=? idx then (-1, p, buf)
    else (0, p, buf ++ [to_char (Z.lor 192 (Z.shiftr codepoint 6));
                        to_char (Z.lor 128 (Z.land codepoint 63))])
  else if codepoint <=? 65535 then
    if to_size_t (max_string p - 3) <=? idx then (-1, p, buf)
    else (0, p, buf ++ [to_char (Z.lor 224 (Z.shiftr codepoint 12));
                        to_char (Z.lor 128 (Z.land (Z.shiftr codepoint 6) 63));
                        to_char (Z.lor 128 (Z.land codepoint 63))])
  else
    if to_size_t (max_string p - 4) <=? idx then (-1, p, buf)
    else (0, p, buf ++ [to_char (Z.lor 240 (Z.shiftr codepoint 18));
                        to_char (Z.lor 128 (Z.land (Z.shiftr codepoint 12) 63));
                        to_char (Z.lor 128 (Z.land (Z.shiftr codepoint 6) 63));
                        to_char (Z.lor 128 (Z.land codepoint 63))]).

Definition json_parse_unicode_escape (p : json_parser_t) (buf : list Z)
  : Z * json_parser_t * list Z :=
  if length p <? pos p + 4 then (-1, p, buf)
  else
    match read_hex4 4 p 0 with
    | (rc, p, codepoint) =>
        if negb (rc =? 0) then (-1, p, buf)
        else if (55296 <=? codepoint) && (codepoint <=? 56319) then
          (* a high surrogate: a low surrogate escape must follow *)
          if (length p <? pos p + 6)
             || negb (byte_at (json p) (pos p) =? 92)
             || negb (byte_at (json p) (pos p + 1) =? 117)
          then (-1, p, buf)
          else
            let p := set_pos p (pos p + 2) in
            match read_hex4 4 p 0 with
            | (rc, p, low_surrogate) =>
                if negb (rc =? 0) then (-1, p, buf)
                else if (low_surrogate <? 56320) || (57343 <? low_surrogate)
                then (-1, p, buf)
                else
                  utf8_append p buf
                    (65536 + Z.shiftl (codepoint - 55296) 10
                     + (low_surrogate - 56320))
            end
        else if (56320 <=? codepoint) && (codepoint <=? 57343)
        then (-1, p, buf)
        else utf8_append p buf codepoint
    end.

(** The byte a backslash escape other than [u] stands for. *)
Definition simple_escape (c : Z) : option Z :=
  if c =? 34 then Some 34
  else if c =? 92 then Some 92
  else if c =? 47 then Some 47
  else if c =? 98 then Some 8
  else if c =? 102 then Some 12
  else if c =? 110 then Some 10
  else if c =? 114 then Some 13
  else if c =? 116 then Some 9
  else None.

(** The [while] loop of [json_parse_string]; [buf] holds the bytes written
    to [buffer] so far, [idx] is their number. *)
Fixpoint string_loop (fuel : nat) (token : token_ptr) (p : json_parser_t)
  (buf : list Z) : result :=
  match fuel with
  | O => None
  | S fuel' =>
      if pos p <? length p then
        let c := byte_at (json p) (pos p) in
        let p := set_pos p (pos p + 1) in
        let put := fun (p : json_parser_t) (c : Z) =>
          if to_size_t (max_string p - 1) <=? len buf
          then Some (-1, json_set_error p JSON_ERROR_STRING_TOO_LONG)
          else string_loop fuel' token p (buf ++ [c]) in
        if c =? 34 then
          Some (0, store_token token
                     (fun t => with_value (ValueString buf)
                                 (with_end (pos p - 1) t)) p)
        else if c =? 92 then
          if length p <=? pos p
          then Some (-1, json_set_error p JSON_ERROR_UNEXPECTED_CHAR)
          else
            let c := byte_at (json p) (pos p) in
            let p := set_pos p (pos p + 1) in
            if c =? 117 then
              match json_parse_unicode_escape p buf with
              | (rc, p, buf) =>
                  if rc =? 0 then string_loop fuel' token p buf
                  else Some (-1, json_set_error p JSON_ERROR_INVALID_UNICODE)
              end
            else
              match simple_escape c with
              | Some c => put p c
              | None => Some (-1, json_set_error p JSON_ERROR_INVALID_ESCAPE)
              end
        else put p c
      else Some (-1, json_set_error p JSON_ERROR_UNEXPECTED_CHAR)
  end.

Definition json_parse_string (fuel : nat) (p : json_parser_t) : result :=
  match json_add_token p JSON_TOKEN_STRING with
  | (rc, p) =>
      if negb (rc =? 0) then Some (-1, p)
      else
        let token := last_token_ptr p in
        let p := store_token token (with_start (pos p + 1)) p in
        match allocate p with
        | (AllocFail, p) =>
            Some (-1, json_set_error p JSON_ERROR_ALLOCATION_FAILED)
        | (_, p) =>
            let p := set_pos p (pos p + 1) in
            string_loop fuel token p []
        end
  end.

(** [while (isdigit ( *p)) p++] on the rest of the buffer at [p]. *)
Fixpoint skip_digits (s : list Z) : list Z :=
  match s with
  | c :: s' => if isdigit c then skip_digits s' else s
  | [] => []
  end.

Definition number_integer (s : list Z) : option (list Z) :=
  if hd 0 s =? 48 then Some (tl s)
  else if isdigit (hd 0 s) then Some (skip_digits (tl s))
  else None.

Definition number_fraction (s : list Z) : option (list Z) :=
  if hd 0 s =? 46 then
    let s := tl s in
    if negb (isdigit (hd 0 s)) then None else Some (skip_digits (tl s))
  else Some s.

Definition number_exponent (s : list Z) : option (list Z) :=
  if (hd 0 s =? 101) || (hd 0 s =? 69) then
    let s := tl s in
    let s := if (hd 0 s =? 43) || (hd 0 s =? 45) then tl s else s in
    if negb (isdigit (hd 0 s)) then None else Some (skip_digits (tl s))
  else Some s.

(** The manual scan of [json_parse_number]: the rest of the buffer at the
    final [p], or [None] where the scan reports an invalid number. *)
Definition number_scan (s : list Z) : option (list Z) :=
  let s := if hd 0 s =? 45 then tl s else s in
  match number_integer s with
  | None => None
  | Some s =>
      match number_fraction s with
      | None => None
      | Some s => number_exponent s
      end
  end.

Definition json_parse_number (p : json_parser_t) : Z * json_parser_t :=
  let start := skipn (Z.to_nat (pos p)) (json p) in
  match number_scan start with
  | None => (-1, json_set_error p JSON_ERROR_INVALID_NUMBER)
  | Some s =>
      let (num, consumed) := strtod start in
      if negb (consumed =? len start - len s)
      then (-1, json_set_error p JSON_ERROR_INVALID_NUMBER)
      else
        match json_add_token p JSON_TOKEN_NUMBER with
        | (rc, p) =>
            if negb (rc =? 0) then (-1, p)
            else
              let token := last_token_ptr p in
              let p := store_token token (with_value (ValueNumber num)) p in
              let p := store_token token (with_start (pos p)) p in
              let p := set_pos p (pos p + (len start - len s)) in
              let p := store_token token (with_end (pos p)) p in
              (0, p)
        end
  end.

(** [strncmp (s, literal, strlen (literal)) == 0]. *)
Fixpoint strncmp_eq (s literal : list Z) : bool :=
  match literal with
  | [] => true
  | a :: literal' => (hd 0 s =? a) && strncmp_eq (tl s) literal'
  end.

Definition json_parse_literal (p : json_parser_t) (literal : list Z)
  (ty : json_token_type_t) : Z * json_parser_t :=
  if length p <? pos p + len literal then (-1, p)
  else if negb (strncmp_eq (skipn (Z.to_nat (pos p)) (json p)) literal)
  then (-1, p)
  else
    let p := set_pos p (pos p + len literal) in
    match json_add_token p ty with
    | (rc, p) => if negb (rc =? 0) then (-1, p) else (0, p)
    end.

(** The bodies of the mutually recursive handlers, with the handlers they
    call as arguments; the fixpoint below ties them together. *)
Definition json_parse_value_body (parse_object parse_array parse_string : handler)
  (p : json_parser_t) : result :=
  let p := json_skip_whitespace p in
  if length p <=? pos p then Some (-1, p)
  else
    let c := byte_at (json p) (pos p) in
    if c =? 123 then parse_object p
    else if c =? 91 then parse_array p
    else if c =? 34 then parse_string p
    else if c =? 116
    then Some (json_parse_literal p (bytes "true") JSON_TOKEN_TRUE)
    else if c =? 102
    then Some (json_parse_literal p (bytes "false") JSON_TOKEN_FALSE)
    else if c =? 110
    then Some (json_parse_literal p (bytes "null") JSON_TOKEN_NULL)
    else if (c =? 45) || isdigit c || (c =? 46)
    then Some (json_parse_number p)
    else Some (-1, json_set_error p JSON_ERROR_INVALID_TOKEN).

(** The closing delimiter has been seen at [pos]: consume it, back-fill
    [end] through the address taken on entry, leave the container. *)
Definition close_container (token : token_ptr) (p : json_parser_t)
  : json_parser_t :=
  let p := set_pos p (pos p + 1) in
  let p := store_token token (with_end (pos p)) p in
  set_depth p (depth p - 1).

(** One round of the [while] loop of [json_parse_object]; [again] is the
    rest of the loop. *)
Definition object_loop_body (parse_string parse_value again : handler)
  (obj_token : token_ptr) (p : json_parser_t) : result :=
  if pos p <? length p then
    let p := json_skip_whitespace p in
    if length p <=? pos p
    then Some (-1, json_set_error p JSON_ERROR_UNEXPECTED_CHAR)
    else if byte_at (json p) (pos p) =? 125
    then Some (0, close_container obj_token p)
    else if negb (byte_at (json p) (pos p) =? 34)
    then Some (-1, json_set_error p JSON_ERROR_UNEXPECTED_CHAR)
    else
      and_then (parse_string p) (fun p =>
        let p := json_skip_whitespace p in
        let c := byte_at (json p) (pos p) in
        let p := set_pos p (pos p + 1) in
        if negb (c =? 58)
        then Some (-1, json_set_error p JSON_ERROR_UNEXPECTED_CHAR)
        else
          and_then (parse_value p) (fun p =>
            let p := json_skip_whitespace p in
            if byte_at (json p) (pos p) =? 125 then again p
            else
              let c := byte_at (json p) (pos p) in
              let p := set_pos p (pos p + 1) in
              if negb (c =? 44)
              then Some (-1, json_set_error p JSON_ERROR_UNEXPECTED_CHAR)
              else again p))
  else Some (-1, json_set_error p JSON_ERROR_UNEXPECTED_CHAR).

(** Entry of a container: the depth check, the token, the opening
    delimiter and the empty container; [loop] is the [while] loop. *)
Definition container_body (ty : json_token_type_t) (closer : Z)
  (loop : token_ptr -> handler) (p : json_parser_t) : result :=
  if max_depth p <=? to_size_t (depth p)
  then Some (-1, json_set_error p JSON_ERROR_NESTING_DEPTH)
  else
    let start_pos := pos p in
    let p := set_depth p (depth p + 1) in
    match json_add_token p ty with
    | (rc, p) =>
        if rc <? 0 then Some (-1, p)
        else
          let token := last_token_ptr p in
          let p := store_token token (with_start start_pos) p in
          let p := store_token token (with_end 0) p in
          let p := set_pos p (pos p + 1) in
          let p := json_skip_whitespace p in
          if byte_at (json p) (pos p) =? closer
          then Some (0, close_container token p)
          else loop token p
    end.

Definition json_parse_object_body : (token_ptr -> handler) -> handler :=
  container_body JSON_TOKEN_OBJECT 125.

(** One round of the [while] loop of [json_parse_array]. *)
Definition array_loop_body (parse_value again : handler)
  (arr_token : token_ptr) (p : json_parser_t) : result :=
  if pos p <? length p then
    let p := json_skip_whitespace p in
    if length p <=? pos p
    then Some (-1, json_set_error p JSON_ERROR_UNEXPECTED_CHAR)
    else if byte_at (json p) (pos p) =? 93
    then Some (0, close_container arr_token p)
    else
      and_then (parse_value p) (fun p =>
        let p := json_skip_whitespace p in
        if byte_at (json p) (pos p) =? 93 then again p
        else if byte_at (json p) (pos p) =? 44 then
          let p := set_pos p (pos p + 1) in
          let p := json_skip_whitespace p in
          if byte_at (json p) (pos p) =? 93
          then Some (-1, json_set_error p JSON_ERROR_UNEXPECTED_CHAR)
          else again p
        else Some (-1, json_set_error p JSON_ERROR_UNEXPECTED_CHAR))
  else Some (-1, json_set_error p JSON_ERROR_UNEXPECTED_CHAR).

Definition json_parse_array_body : (token_ptr -> handler) -> handler :=
  container_body JSON_TOKEN_ARRAY 93.

Fixpoint json_parse_value (fuel : nat) (p : json_parser_t) : result :=
  match fuel with
  | O => None
  | S fuel' =>
      json_parse_value_body (json_parse_object fuel') (json_parse_array fuel')
                            (json_parse_string fuel') p
  end
with json_parse_object (fuel : nat) (p : json_parser_t) : result :=
  match fuel with
  | O => None
  | S fuel' => json_parse_object_body (object_loop fuel') p
  end
with object_loop (fuel : nat) (obj_token : token_ptr) (p : json_parser_t)
  : result :=
  match fuel with
  | O => None
  | S fuel' =>
      object_loop_body (json_parse_string fuel') (json_parse_value fuel')
                       (object_loop fuel' obj_token) obj_token p
  end
with json_parse_array (fuel : nat) (p : json_parser_t) : result :=
  match fuel with
  | O => None
  | S fuel' => json_parse_array_body (array_loop fuel') p
  end
with array_loop (fuel : nat) (arr_token : token_ptr) (p : json_parser_t)
  : result :=
  match fuel with
  | O => None
  | S fuel' =>
      array_loop_body (json_parse_value fuel') (array_loop fuel' arr_token)
                      arr_token p
  end.

(** The fuel of a top-level parse: three units for each byte that is
    left, and three more. *)
Definition parse_fuel (p : json_parser_t) : nat :=
  (3 * Z.to_nat (length p - pos p) + 3)%nat.

Definition json_parser_parse (p : json_parser_t)
  : option (json_error_t * json_parser_t) :=
  let p := set_error p JSON_ERROR_NONE in
  let p := json_skip_whitespace p in
  if length p <=? pos p then
    let p := json_set_error p JSON_ERROR_INVALID_TOKEN in
    Some (error p, p)
  else
    match json_parse_value (parse_fuel p) p with
    | None => None
    | Some (rc, p) =>
        if rc <? 0 then Some (error p, p)
        else
          let p := json_skip_whitespace p in
          let p := if negb (pos p =? length p)
                   then json_set_error p JSON_ERROR_TRAILING_CHARS
                   else p in
          Some (error p, p)
    end.

(** A parse of a text given as a string, from a fresh parser whose
    [length] is the size of the text. *)
Definition parse_text (s : list Z) : option (json_error_t * json_parser_t) :=
  json_parser_parse (json_parser_init s (len s)).

(** * Properties *)

(** ** What the primitive steps leave unchanged *)

(** The part of the state no handler writes: the input and the limits. *)
Definition same_input (p p' : json_parser_t) : Prop :=
  json p' = json p /\ length p' = length p /\
  max_depth p' = max_depth p /\ max_string p' = max_string p.

Lemma same_input_refl p : same_input p p.
Proof. repeat split. Qed.

Lemma same_input_trans p q r :
  same_input p q -> same_input q r -> same_input p r.
Proof. unfold same_input; intuition congruence. Qed.

Section StoreToken.
Variables (q : token_ptr) (f : json_token_t -> json_token_t)
          (p : json_parser_t).

Lemma json_store_token : json (store_token q f p) = json p.
Proof. unfold store_token; destruct Nat.eqb; reflexivity. Qed.
Lemma length_store_token : length (store_token q f p) = length p.
Proof. unfold store_token; destruct Nat.eqb; reflexivity. Qed.
Lemma pos_store_token : pos (store_token q f p) = pos p.
Proof. unfold store_token; destruct Nat.eqb; reflexivity. Qed.
Lemma error_store_token : error (store_token q f p) = error p.
Proof. unfold store_token; destruct Nat.eqb; reflexivity. Qed.
Lemma depth_store_token : depth (store_token q f p) = depth p.
Proof. unfold store_token; destruct Nat.eqb; reflexivity. Qed.
Lemma max_depth_store_token : max_depth (store_token q f p) = max_depth p.
Proof. unfold store_token; destruct Nat.eqb; reflexivity. Qed.
Lemma max_string_store_token : max_string (store_token q f p) = max_string p.
Proof. unfold store_token; destruct Nat.eqb; reflexivity. Qed.
Lemma heap_store_token : heap (store_token q f p) = heap p.
Proof. unfold store_token; destruct Nat.eqb; reflexivity. Qed.
Lemma tokens_block_store_token :
  tokens_block (store_token q f p) = tokens_block p.
Proof. unfold store_token; destruct Nat.eqb; reflexivity. Qed.
Lemma token_cap_store_token : token_cap (store_token q f p) = token_cap p.
Proof. unfold store_token; destruct Nat.eqb; reflexivity. Qed.
End StoreToken.

Section SetError.
Variables (p : json_parser_t) (e : json_error_t).

Lemma json_json_set_error : json (json_set_error p e) = json p.
Proof. unfold json_set_error; destruct json_error_eqb; reflexivity. Qed.
Lemma length_json_set_error : length (json_set_error p e) = length p.
Proof. unfold json_set_error; destruct json_error_eqb; reflexivity. Qed.
Lemma pos_json_set_error : pos (json_set_error p e) = pos p.
Proof. unfold json_set_error; destruct json_error_eqb; reflexivity. Qed.
Lemma depth_json_set_error : depth (json_set_error p e) = depth p.
Proof. unfold json_set_error; destruct json_error_eqb; reflexivity. Qed.
Lemma max_depth_json_set_error :
  max_depth (json_set_error p e) = max_depth p.
Proof. unfold json_set_error; destruct json_error_eqb; reflexivity. Qed.
Lemma max_string_json_set_error :
  max_string (json_set_error p e) = max_string p.
Proof. unfold json_set_error; destruct json_error_eqb; reflexivity. Qed.
Lemma tokens_json_set_error : tokens (json_set_error p e) = tokens p.
Proof. unfold json_set_error; destruct json_error_eqb; reflexivity. Qed.
Lemma heap_json_set_error : heap (json_set_error p e) = heap p.
Proof. unfold json_set_error; destruct json_error_eqb; reflexivity. Qed.
Lemma tokens_block_json_set_error :
  tokens_block (json_set_error p e) = tokens_block p.
Proof. unfold json_set_error; destruct json_error_eqb; reflexivity. Qed.
Lemma token_cap_json_set_error :
  token_cap (json_set_error p e) = token_cap p.
Proof. unfold json_set_error; destruct json_error_eqb; reflexivity. Qed.
End SetError.

Create Rewrite HintDb fields.

#[export] Hint Rewrite
  json_store_token length_store_token pos_store_token error_store_token
  depth_store_token max_depth_store_token max_string_store_token
  heap_store_token tokens_block_store_token token_cap_store_token
  json_json_set_error length_json_set_error pos_json_set_error
  depth_json_set_error max_depth_json_set_error max_string_json_set_error
  tokens_json_set_error heap_json_set_error tokens_block_json_set_error
  token_cap_json_set_error : fields.

(** The error latch: a code other than [JSON_ERROR_NONE] stays. *)
Lemma json_set_error_latched p e :
  error p <> JSON_ERROR_NONE -> error (json_set_error p e) = error p.
Proof.
  unfold json_set_error; destruct (error p) eqn:E; simpl; congruence.
Qed.

Lemma json_set_error_first p e :
  error p = JSON_ERROR_NONE -> error (json_set_error p e) = e.
Proof. unfold json_set_error; intros ->; reflexivity. Qed.

(** ** White space *)

Lemma skip_whitespace_loop_ge n buf l q :
  q <= skip_whitespace_loop n buf l q.
Proof.
  revert q; induction n as [|n IH]; intros q; simpl; [lia|].
  destruct ((q <? l) && isspace (byte_at buf q)); [|lia].
  specialize (IH (q + 1)); lia.
Qed.

Lemma skip_whitespace_loop_le n buf l q :
  q <= l -> skip_whitespace_loop n buf l q <= l.
Proof.
  revert q; induction n as [|n IH]; intros q Hq; simpl; [lia|].
  destruct (q <? l) eqn:E; simpl; [|lia].
  destruct (isspace (byte_at buf q)); [|lia].
  apply IH; lia.
Qed.

Lemma skip_whitespace_loop_stop n buf l q :
  (q <? l) && isspace (byte_at buf q) = false ->
  skip_whitespace_loop n buf l q = q.
Proof. intros H; destruct n; simpl; [reflexivity|now rewrite H]. Qed.

Lemma pos_json_skip_whitespace_ge p : pos p <= pos (json_skip_whitespace p).
Proof. apply skip_whitespace_loop_ge. Qed.

(** At a byte that is not white space, or at the end of the input,
    [json_skip_whitespace] does nothing. *)
Lemma json_skip_whitespace_stop p :
  (pos p <? length p) && isspace (byte_at (json p) (pos p)) = false ->
  json_skip_whitespace p = p.
Proof.
  intros H; unfold json_skip_whitespace.
  rewrite skip_whitespace_loop_stop by exact H. now destruct p.
Qed.

(** ** The cursor only moves forward *)

Ltac split_match H :=
  match type of H with
  | context [match ?x with _ => _ end] => destruct x eqn:?
  end.

Ltac fields := repeat progress (autorewrite with fields in *; cbn in *).

Lemma allocate_fields p a p' :
  allocate p = (a, p') ->
  json p' = json p /\ length p' = length p /\ pos p' = pos p /\
  tokens p' = tokens p /\ tokens_block p' = tokens_block p /\
  token_cap p' = token_cap p /\ max_depth p' = max_depth p /\
  max_string p' = max_string p /\ error p' = error p /\ depth p' = depth p.
Proof.
  unfold allocate; destruct (heap p); intros H; inversion H; subst;
    cbn; repeat split.
Qed.

Lemma json_add_token_fields p ty rc p' :
  json_add_token p ty = (rc, p') ->
  same_input p p' /\ pos p' = pos p /\ depth p' = depth p /\
  (rc = 0 \/ rc = -1) /\
  (error p <> JSON_ERROR_NONE -> error p' = error p) /\
  (rc = 0 -> error p' = error p).
Proof.
  unfold json_add_token, same_input; intros H.
  destruct (token_cap p <=? token_count p).
  - destruct (allocate p) as [a p1] eqn:Ea.
    apply allocate_fields in Ea.
    destruct a; inversion H; subst; fields; intuition (try congruence; try lia).
    rewrite json_set_error_latched; congruence.
  - inversion H; subst; cbn; intuition.
Qed.

(** A handler that leaves the input alone, never moves the cursor back
    and, when it succeeds, has consumed at least one byte. *)
Definition advances (h : handler) : Prop :=
  forall p rc p', h p = Some (rc, p') ->
    same_input p p' /\ pos p <= pos p' /\ (rc = 0 -> pos p < pos p').

Lemma read_hex4_fields n p cp rc p' cp' :
  read_hex4 n p cp = (rc, p', cp') ->
  same_input p p' /\ pos p <= pos p' /\ error p' = error p /\
  depth p' = depth p /\ tokens p' = tokens p /\
  tokens_block p' = tokens_block p.
Proof.
  revert p cp; induction n as [|n IH]; intros p cp H; simpl in H.
  - inversion H; subst. unfold same_input. intuition lia.
  - repeat split_match H;
      first [ apply IH in H; unfold same_input in *; cbn in H;
              intuition (try congruence; try lia)
            | inversion H; subst; unfold same_input; cbn; intuition lia ].
Qed.

Lemma utf8_append_fields p buf cp rc p' buf' :
  utf8_append p buf cp = (rc, p', buf') -> p' = p.
Proof.
  unfold utf8_append; intros H; repeat split_match H; congruence.
Qed.

Lemma json_parse_unicode_escape_fields p buf rc p' buf' :
  json_parse_unicode_escape p buf = (rc, p', buf') ->
  same_input p p' /\ pos p <= pos p' /\ error p' = error p /\
  depth p' = depth p /\ tokens p' = tokens p /\
  tokens_block p' = tokens_block p.
Proof.
  unfold json_parse_unicode_escape; intros H.
  repeat (split_match H;
          try match goal with
              | E : read_hex4 _ _ _ = _ |- _ =>
                  apply read_hex4_fields in E; cbn in E
              end);
    first [ apply utf8_append_fields in H | inversion H ];
    subst; unfold same_input in *; cbn in *;
    intuition (try congruence; try lia).
Qed.

(** What a handler that does not open a container does to the state
    besides the token array: the input, the limits and the depth stay,
    the cursor moves forward, a latched error stays, and success leaves
    the error slot as it was. *)
Definition leaf_step (p : json_parser_t) (rc : Z) (p' : json_parser_t)
  : Prop :=
  same_input p p' /\ pos p <= pos p' /\ depth p' = depth p /\
  (rc = 0 \/ rc = -1) /\
  (error p <> JSON_ERROR_NONE -> error p' = error p) /\
  (rc = 0 -> error p' = error p).

Lemma json_set_error_cases p e :
  error (json_set_error p e) = error p \/
  (error p = JSON_ERROR_NONE /\ error (json_set_error p e) = e).
Proof.
  unfold json_set_error; destruct (error p) eqn:E; simpl; auto.
Qed.

Ltac error_cases :=
  repeat match goal with
         | |- context [error (json_set_error ?p ?e)] =>
             let X := fresh in let Y := fresh in
             destruct (json_set_error_cases p e) as [X|[Y X]];
             rewrite X in *; clear X
         | H : context [error (json_set_error ?p ?e)] |- _ =>
             let X := fresh in let Y := fresh in
             destruct (json_set_error_cases p e) as [X|[Y X]];
             rewrite X in *; clear X
         end.

Ltac leaf_finish :=
  unfold leaf_step, same_input in *; fields; error_cases;
  intuition (try congruence; try lia).

Lemma string_loop_fields fuel token p buf rc p' :
  string_loop fuel token p buf = Some (rc, p') -> leaf_step p rc p'.
Proof.
  revert p buf rc p'; induction fuel as [|fuel IH]; intros p buf rc p' H;
    [discriminate|].
  simpl in H.
  repeat (split_match H;
          try match goal with
              | E : json_parse_unicode_escape _ _ = _ |- _ =>
                  apply json_parse_unicode_escape_fields in E; cbn in E
              end);
    first [ apply IH in H | inversion H; subst ]; leaf_finish.
Qed.

Lemma json_parse_string_fields fuel p rc p' :
  json_parse_string fuel p = Some (rc, p') ->
  leaf_step p rc p' /\ (rc = 0 -> pos p < pos p').
Proof.
  unfold json_parse_string; intros H.
  destruct (json_add_token p JSON_TOKEN_STRING) as [rc1 p1] eqn:Ea.
  apply json_add_token_fields in Ea.
  destruct (negb (rc1 =? 0)) eqn:Erc.
  - inversion H; subst. leaf_finish.
  - destruct (allocate _) as [a p2] eqn:Eal.
    apply allocate_fields in Eal.
    assert (rc1 = 0) by (destruct (rc1 =? 0) eqn:E; [lia|discriminate]).
    destruct a; try (apply string_loop_fields in H);
      try (inversion H; subst); leaf_finish.
Qed.

Lemma len_nonneg {A : Type} (l : list A) : 0 <= len l.
Proof. unfold len; lia. Qed.

Lemma len_cons {A : Type} (a : A) (l : list A) : len (a :: l) = len l + 1.
Proof. unfold len; cbn [List.length]; lia. Qed.

Lemma len_nil {A : Type} : len (@nil A) = 0.
Proof. reflexivity. Qed.

Lemma len_app {A : Type} (l1 l2 : list A) : len (l1 ++ l2) = len l1 + len l2.
Proof. unfold len; rewrite length_app; lia. Qed.

Lemma len_tl_digit s : isdigit (hd 0 s) = true -> len (tl s) = len s - 1.
Proof.
  destruct s; cbn [hd tl]; [discriminate|]. rewrite len_cons; lia.
Qed.

Lemma len_tl_le s : len (@tl Z s) <= len s.
Proof. destruct s; cbn [tl]; rewrite ?len_cons; lia. Qed.

Lemma len_tl_byte s c : hd 0 s = c -> c <> 0 -> len (tl s) = len s - 1.
Proof.
  destruct s; cbn [hd tl]; [congruence|]. rewrite len_cons; lia.
Qed.

Lemma len_skip_digits s : len (skip_digits s) <= len s.
Proof.
  induction s as [|c s IH]; simpl; [lia|].
  destruct (isdigit c); rewrite ?len_cons; lia.
Qed.

Lemma number_integer_len s s' :
  number_integer s = Some s' -> len s' < len s.
Proof.
  unfold number_integer; intros H.
  destruct (hd 0 s =? 48) eqn:E0.
  - inversion H; subst. apply Z.eqb_eq in E0.
    rewrite (len_tl_byte s 48) by (auto; lia). lia.
  - destruct (isdigit (hd 0 s)) eqn:Ed; [|discriminate].
    inversion H; subst.
    pose proof (len_skip_digits (tl s)). rewrite len_tl_digit in *; auto.
    lia.
Qed.

Lemma number_fraction_len s s' :
  number_fraction s = Some s' -> len s' <= len s.
Proof.
  unfold number_fraction; intros H.
  destruct (hd 0 s =? 46); [|inversion H; lia].
  destruct (negb _); [discriminate|]. inversion H; subst.
  pose proof (len_skip_digits (tl (tl s))).
  pose proof (len_tl_le (tl s)). pose proof (len_tl_le s). lia.
Qed.

Lemma number_exponent_len s s' :
  number_exponent s = Some s' -> len s' <= len s.
Proof.
  unfold number_exponent; intros H.
  destruct (_ || _); [|inversion H; lia].
  destruct (negb _); [discriminate|]. inversion H; subst.
  match goal with |- len (skip_digits (tl ?x)) <= _ =>
    pose proof (len_skip_digits (tl x)); pose proof (len_tl_le x);
    assert (len x <= len (tl s))
      by (destruct (_ || _); [apply len_tl_le|lia])
  end.
  pose proof (len_tl_le s). lia.
Qed.

(** The manual scan accepts at least one byte. *)
Lemma number_scan_len s s' : number_scan s = Some s' -> len s' < len s.
Proof.
  unfold number_scan; intros H.
  destruct (number_integer _) as [s1|] eqn:E1; [|discriminate].
  destruct (number_fraction _) as [s2|] eqn:E2; [|discriminate].
  apply number_integer_len in E1. apply number_fraction_len in E2.
  apply number_exponent_len in H.
  assert (len (if hd 0 s =? 45 then tl s else s) <= len s)
    by (destruct (_ =? _); [apply len_tl_le|lia]).
  lia.
Qed.

Lemma json_parse_number_fields p rc p' :
  json_parse_number p = (rc, p') ->
  leaf_step p rc p' /\ (rc = 0 -> pos p < pos p').
Proof.
  unfold json_parse_number; intros H.
  destruct (number_scan _) as [s|] eqn:Es.
  - apply number_scan_len in Es.
    destruct (strtod _) as [num consumed].
    destruct (negb (consumed =? _)).
    + inversion H; subst; leaf_finish.
    + destruct (json_add_token p JSON_TOKEN_NUMBER) as [rc1 p1] eqn:Ea.
      apply json_add_token_fields in Ea.
      destruct (negb (rc1 =? 0)) eqn:Erc; inversion H; subst.
      * leaf_finish.
      * assert (rc1 = 0) by (destruct (rc1 =? 0) eqn:E; [lia|discriminate]).
        leaf_finish.
  - inversion H; subst; leaf_finish.
Qed.

Lemma json_parse_literal_fields p literal ty rc p' :
  json_parse_literal p literal ty = (rc, p') ->
  leaf_step p rc p' /\ (rc = 0 -> pos p' = pos p + len literal).
Proof.
  unfold json_parse_literal; intros H.
  pose proof (len_nonneg literal).
  destruct (length p <? _); [inversion H; subst; leaf_finish|].
  destruct (negb (strncmp_eq _ _)); [inversion H; subst; leaf_finish|].
  destruct (json_add_token _ ty) as [rc1 p1] eqn:Ea.
  apply json_add_token_fields in Ea.
  destruct (negb (rc1 =? 0)) eqn:Erc; inversion H; subst.
  - leaf_finish.
  - assert (rc1 = 0) by (destruct (rc1 =? 0) eqn:E; [lia|discriminate]).
    leaf_finish.
Qed.

(** ** Every handler moves the cursor forward and keeps a latched error *)

(** [step_ok p rc p']: the input and the limits stay, the cursor does not
    move back and has advanced on success, a latched error stays, and a
    handler that succeeds has not written the error slot. *)

Definition step_ok (p : json_parser_t) (rc : Z) (p' : json_parser_t)
  : Prop :=
  same_input p p' /\ pos p <= pos p' /\ (rc = 0 -> pos p < pos p') /\
  (rc = 0 \/ rc = -1) /\
  (error p <> JSON_ERROR_NONE -> error p' = error p) /\
  (rc = 0 -> error p' = error p).

Definition well_behaved (h : handler) : Prop :=
  forall p rc p', h p = Some (rc, p') -> step_ok p rc p'.

Ltac step_finish :=
  unfold step_ok, leaf_step, same_input in *; fields; error_cases; fields;
  repeat match goal with
         | |- context [skip_whitespace_loop ?n ?b ?l ?q] =>
             let X := fresh in
             pose proof (skip_whitespace_loop_ge n b l q) as X;
             generalize dependent (skip_whitespace_loop n b l q); intros
         | _ : context [skip_whitespace_loop ?n ?b ?l ?q] |- _ =>
             let X := fresh in
             pose proof (skip_whitespace_loop_ge n b l q) as X;
             generalize dependent (skip_whitespace_loop n b l q); intros
         end;
  intuition (try congruence; try lia).

Ltac use_callee :=
  match goal with
  | E : json_parse_string _ _ = Some _ |- _ =>
      apply json_parse_string_fields in E
  | E : json_parse_number _ = (_, _) |- _ =>
      apply json_parse_number_fields in E
  | E : json_parse_literal _ _ _ = (_, _) |- _ =>
      apply json_parse_literal_fields in E; cbn [bytes] in E;
      rewrite ?len_cons, ?len_nil in E
  | E : json_add_token _ _ = (_, _) |- _ =>
      apply json_add_token_fields in E
  | Hh : well_behaved ?h, E : ?h _ = Some _ |- _ => apply Hh in E
  | Hh : forall t, well_behaved (?h t), E : ?h _ _ = Some _ |- _ =>
      apply Hh in E
  end.

Ltac run_body H :=
  unfold and_then in H;
  repeat (first [ split_match H | progress (try use_callee) ]);
  try discriminate;
  try match type of H with
      | Some _ = Some _ => inversion H; subst; clear H
      end;
  repeat use_callee.

Lemma json_parse_string_well_behaved fuel :
  well_behaved (json_parse_string fuel).
Proof.
  intros p rc p' H. apply json_parse_string_fields in H. step_finish.
Qed.

Lemma json_parse_value_body_well_behaved po pa ps :
  well_behaved po -> well_behaved pa -> well_behaved ps ->
  well_behaved (json_parse_value_body po pa ps).
Proof.
  intros Ho Ha Hs p rc p' H. unfold json_parse_value_body in H.
  run_body H; step_finish.
Qed.

Lemma close_container_fields token p :
  same_input p (close_container token p) /\
  pos (close_container token p) = pos p + 1 /\
  depth (close_container token p) = depth p - 1 /\
  error (close_container token p) = error p /\
  heap (close_container token p) = heap p.
Proof. unfold close_container, same_input; fields; intuition. Qed.

Ltac use_close :=
  repeat match goal with
         | |- context [close_container ?t ?p] =>
             let X := fresh in
             pose proof (close_container_fields t p) as X;
             generalize dependent (close_container t p); intros
         | _ : context [close_container ?t ?p] |- _ =>
             let X := fresh in
             pose proof (close_container_fields t p) as X;
             generalize dependent (close_container t p); intros
         end.

Lemma container_body_well_behaved ty closer loop :
  (forall t, well_behaved (loop t)) ->
  well_behaved (container_body ty closer loop).
Proof.
  intros Hl p rc p' H. unfold container_body in H.
  run_body H; use_close; step_finish.
Qed.

Lemma object_loop_body_well_behaved ps pv again token :
  well_behaved ps -> well_behaved pv -> well_behaved again ->
  well_behaved (object_loop_body ps pv again token).
Proof.
  intros Hs Hv Ha p rc p' H. unfold object_loop_body in H.
  run_body H; use_close; step_finish.
Qed.

Lemma array_loop_body_well_behaved pv again token :
  well_behaved pv -> well_behaved again ->
  well_behaved (array_loop_body pv again token).
Proof.
  intros Hv Ha p rc p' H. unfold array_loop_body in H.
  run_body H; use_close; step_finish.
Qed.

(** All five handlers, by induction on the fuel. *)
Lemma handlers_well_behaved fuel :
  well_behaved (json_parse_value fuel) /\
  well_behaved (json_parse_object fuel) /\
  (forall t, well_behaved (object_loop fuel t)) /\
  well_behaved (json_parse_array fuel) /\
  (forall t, well_behaved (array_loop fuel t)).
Proof.
  induction fuel as [|fuel (Hv & Ho & Hol & Ha & Hal)].
  - repeat split; intros; discriminate.
  - split; [|split; [|split; [|split]]]; [| |intros t| |intros t];
      cbn [json_parse_value json_parse_object object_loop json_parse_array
           array_loop].
    + apply json_parse_value_body_well_behaved; auto.
      apply json_parse_string_well_behaved.
    + apply container_body_well_behaved; auto.
    + apply object_loop_body_well_behaved; auto.
      apply json_parse_string_well_behaved.
    + apply container_body_well_behaved; auto.
    + apply array_loop_body_well_behaved; auto.
Qed.

Lemma json_parse_value_well_behaved fuel :
  well_behaved (json_parse_value fuel).
Proof. apply handlers_well_behaved. Qed.

(** ** The handlers terminate

    Each round of a loop and each nested value consumes at least one byte
    of the [length - pos] bytes that are left, so three units of fuel for
    each of them are enough. *)

Definition remaining (p : json_parser_t) : nat :=
  Z.to_nat (length p - pos p).

Definition returns (h : handler) (p : json_parser_t) : Prop :=
  exists rc p', h p = Some (rc, p').

Lemma returns_some (h : handler) p rc p' : h p = Some (rc, p') -> returns h p.
Proof. intros H; exists rc, p'; exact H. Qed.

Lemma string_loop_returns fuel token p buf :
  (remaining p < fuel)%nat ->
  exists rc p', string_loop fuel token p buf = Some (rc, p').
Proof.
  revert p buf; induction fuel as [|fuel IH]; intros p buf Hm; [lia|].
  unfold remaining in *. cbn [string_loop].
  destruct (pos p <? length p) eqn:Epos; [|eauto].
  apply Z.ltb_lt in Epos.
  assert (Hput : forall q c, length q = length p -> pos p < pos q ->
            exists rc p',
              (if to_size_t (max_string q - 1) <=? len buf
               then Some (-1, json_set_error q JSON_ERROR_STRING_TOO_LONG)
               else string_loop fuel token q (buf ++ [c])) = Some (rc, p')).
  { intros q c Hl Hq. destruct (_ <=? _); [eauto|]. apply IH. lia. }
  destruct (_ =? 34); [eauto|].
  destruct (_ =? 92); [|apply Hput; cbn; lia].
  destruct (length _ <=? pos _); [eauto|].
  destruct (_ =? 117).
  - destruct (json_parse_unicode_escape _ buf) as [[rc q] buf'] eqn:Eu.
    apply json_parse_unicode_escape_fields in Eu.
    destruct (rc =? 0); [|eauto].
    apply IH. unfold same_input in Eu; cbn in Eu. lia.
  - destruct (simple_escape _); [|eauto]. apply Hput; cbn; lia.
Qed.

Lemma json_parse_string_returns fuel p :
  (remaining p <= fuel)%nat -> (0 < fuel)%nat ->
  returns (json_parse_string fuel) p.
Proof.
  intros Hm Hf. unfold returns, json_parse_string.
  destruct (json_add_token p JSON_TOKEN_STRING) as [rc1 p1] eqn:Ea.
  apply json_add_token_fields in Ea.
  destruct (negb _); [eauto|].
  destruct (allocate _) as [a p2] eqn:Eal. apply allocate_fields in Eal.
  assert (Hr : (remaining (set_pos p2 (pos p2 + 1)) < fuel)%nat).
  { unfold remaining, same_input in *; fields.
    destruct Eal as (? & -> & -> & _). destruct Ea as ((? & -> & _) & -> & _).
    lia. }
  destruct a; eauto using string_loop_returns.
Qed.

Definition returns_below (h : handler) (m : nat) : Prop :=
  forall q, (remaining q <= m)%nat -> returns h q.

Ltac fuel_facts := unfold remaining in *; step_finish.

Lemma json_parse_value_body_returns po pa ps m p :
  (remaining p <= m)%nat ->
  returns_below po m -> returns_below pa m -> returns_below ps m ->
  returns (json_parse_value_body po pa ps) p.
Proof.
  intros Hm Ho Ha Hs. unfold returns, json_parse_value_body.
  assert (Hq : (remaining (json_skip_whitespace p) <= m)%nat) by fuel_facts.
  destruct (_ <=? _); [eauto|].
  destruct (_ =? 123); [apply Ho, Hq|].
  destruct (_ =? 91); [apply Ha, Hq|].
  destruct (_ =? 34); [apply Hs, Hq|].
  repeat (destruct (_ =? _); [destruct (json_parse_literal _ _ _); eauto|]).
  destruct (_ || _); [destruct (json_parse_number _)|]; eauto.
Qed.

Lemma container_body_returns ty closer loop m p :
  (remaining p <= S m)%nat ->
  (forall t, returns_below (loop t) m) ->
  returns (container_body ty closer loop) p.
Proof.
  intros Hm Hl. unfold returns, container_body.
  destruct (_ <=? _); [eauto|].
  destruct (json_add_token _ ty) as [rc1 p1] eqn:Ea.
  apply json_add_token_fields in Ea.
  destruct (rc1 <? 0); [eauto|].
  destruct (_ =? closer); [eauto|].
  apply Hl. fuel_facts.
Qed.

Lemma json_parse_value_body_returns_end po pa ps p :
  remaining p = O -> returns (json_parse_value_body po pa ps) p.
Proof.
  intros Hm. unfold returns, json_parse_value_body.
  destruct (_ <=? _) eqn:E; [eauto|].
  apply Z.leb_gt in E. exfalso. revert E. fuel_facts.
Qed.

Lemma object_loop_body_returns ps pv again t m p :
  (remaining p <= S m)%nat ->
  well_behaved ps -> well_behaved pv ->
  returns_below ps (S m) -> returns_below pv m -> returns_below again m ->
  returns (object_loop_body ps pv again t) p.
Proof.
  intros Hm Hs Hv Rs Rv Ra. unfold returns, object_loop_body, and_then.
  destruct (pos p <? length p); [|eauto].
  destruct (_ <=? _); [eauto|].
  destruct (_ =? 125); [eauto|].
  destruct (negb _); [eauto|].
  destruct (Rs (json_skip_whitespace p)) as (rc1 & p1 & E1); [fuel_facts|].
  rewrite E1. apply Hs in E1.
  destruct (rc1 =? 0) eqn:Erc1; [apply Z.eqb_eq in Erc1|eauto].
  destruct (negb _); [eauto|].
  match goal with |- context [pv ?q] =>
    destruct (Rv q) as (rc2 & p2 & E2); [fuel_facts|]
  end.
  rewrite E2. apply Hv in E2.
  destruct (rc2 =? 0) eqn:Erc2; [apply Z.eqb_eq in Erc2|eauto].
  destruct (_ =? 125); [apply Ra; fuel_facts|].
  destruct (negb _); [eauto|]. apply Ra; fuel_facts.
Qed.

Lemma array_loop_body_returns pv again t m p :
  (remaining p <= S m)%nat ->
  well_behaved pv ->
  returns_below pv (S m) -> returns_below again m ->
  returns (array_loop_body pv again t) p.
Proof.
  intros Hm Hv Rv Ra. unfold returns, array_loop_body, and_then.
  destruct (pos p <? length p); [|eauto].
  destruct (_ <=? _); [eauto|].
  destruct (_ =? 93); [eauto|].
  destruct (Rv (json_skip_whitespace p)) as (rc1 & p1 & E1); [fuel_facts|].
  rewrite E1. apply Hv in E1.
  destruct (rc1 =? 0) eqn:Erc1; [apply Z.eqb_eq in Erc1|eauto].
  destruct (_ =? 93); [apply Ra; fuel_facts|].
  destruct (_ =? 44); [|eauto].
  destruct (_ =? 93); [eauto|]. apply Ra; fuel_facts.
Qed.

Lemma loop_body_returns_end p :
  remaining p = O -> (pos p <? length p) = false.
Proof. unfold remaining; intros H; apply Z.ltb_ge; lia. Qed.

(** With [3 * m] units of fuel, and a few more, a handler returns on every
    state that has at most [m] bytes left. *)
Lemma handlers_total m :
  forall n,
    ((3 * m + 2 <= n)%nat ->
     forall t, returns_below (object_loop n t) m /\
               returns_below (array_loop n t) m) /\
    ((3 * m + 1 <= n)%nat -> returns_below (json_parse_value n) m) /\
    ((3 * m <= n)%nat -> (1 <= m)%nat ->
     returns_below (json_parse_object n) m /\
     returns_below (json_parse_array n) m).
Proof.
  induction m as [|m IH]; intros n.
  - repeat split; intros; try lia; intros q Hq;
      (destruct n as [|f]; [lia|]); assert (Hq0 : remaining q = O) by lia.
    + exists (-1), (json_set_error q JSON_ERROR_UNEXPECTED_CHAR).
      cbn [object_loop]; unfold object_loop_body.
      now rewrite loop_body_returns_end.
    + exists (-1), (json_set_error q JSON_ERROR_UNEXPECTED_CHAR).
      cbn [array_loop]; unfold array_loop_body.
      now rewrite loop_body_returns_end.
    + apply json_parse_value_body_returns_end; exact Hq0.
  - assert (Hc : forall f, (3 * m + 2 <= f)%nat ->
              returns_below (json_parse_object (S f)) (S m) /\
              returns_below (json_parse_array (S f)) (S m)).
    { intros f Hf; split; intros q Hq.
      - apply (container_body_returns JSON_TOKEN_OBJECT 125 (object_loop f)
                 m q Hq).
        intros t; apply (IH f); lia.
      - apply (container_body_returns JSON_TOKEN_ARRAY 93 (array_loop f)
                 m q Hq).
        intros t; apply (IH f); lia. }
    assert (Hs : forall f, (3 * m + 3 <= f)%nat ->
              returns_below (json_parse_string f) (S m)).
    { intros f Hf q Hq. apply json_parse_string_returns; lia. }
    assert (Hv : forall f, (3 * m + 3 <= f)%nat ->
              returns_below (json_parse_value (S f)) (S m)).
    { intros f Hf q Hq.
      destruct f as [|f]; [lia|].
      apply (json_parse_value_body_returns (json_parse_object (S f))
               (json_parse_array (S f)) (json_parse_string (S f))
               (S m) q Hq).
      - apply Hc; lia.
      - apply Hc; lia.
      - apply Hs; lia. }
    split; [|split].
    + intros Hn t. destruct n as [|f]; [lia|].
      destruct f as [|f]; [lia|].
      split; intros q Hq.
      * apply (object_loop_body_returns (json_parse_string (S f))
                 (json_parse_value (S f)) (object_loop (S f) t) t m q Hq).
        -- apply json_parse_string_well_behaved.
        -- apply json_parse_value_well_behaved.
        -- apply Hs; lia.
        -- apply (IH (S f)); lia.
        -- apply (IH (S f)); lia.
      * apply (array_loop_body_returns (json_parse_value (S f))
                 (array_loop (S f) t) t m q Hq).
        -- apply json_parse_value_well_behaved.
        -- apply Hv; lia.
        -- apply (IH (S f)); lia.
    + intros Hn. destruct n as [|f]; [lia|]. apply Hv; lia.
    + intros Hn _. destruct n as [|f]; [lia|]. apply Hc; lia.
Qed.

Lemma json_parse_value_returns p :
  returns (json_parse_value (parse_fuel p)) p.
Proof.
  apply (handlers_total (remaining p) (parse_fuel p)).
  - unfold parse_fuel, remaining; lia.
  - lia.
Qed.

(** [json_parser_parse] returns an error code on every state. *)
Theorem json_parser_parse_total p :
  exists e p', json_parser_parse p = Some (e, p').
Proof.
  unfold json_parser_parse.
  destruct (_ <=? _); [eauto|].
  match goal with |- context [json_parse_value (parse_fuel ?q) ?q] =>
    destruct (json_parse_value_returns q) as (rc & p1 & E); rewrite E
  end.
  destruct (rc <? 0); eauto.
Qed.

(** ** The depth counter *)

Definition depth_ok (p : json_parser_t) : Prop :=
  0 <= depth p <= max_depth p /\ max_depth p < SIZE_MAX1.

(** A handler called between containers keeps the depth within the limit
    and, when it succeeds, gives it back as it found it. *)
Definition keeps_depth (h : handler) : Prop :=
  forall p rc p', h p = Some (rc, p') -> depth_ok p ->
    depth_ok p' /\ (rc = 0 -> depth p' = depth p).

(** The loop of a container runs one level down and leaves that level
    when it succeeds. *)
Definition leaves_level (h : handler) : Prop :=
  forall p rc p', h p = Some (rc, p') -> depth_ok p -> 1 <= depth p ->
    depth_ok p' /\ (rc = 0 -> depth p' = depth p - 1).

Lemma to_size_t_small z :
  0 <= z < 18446744073709551616 -> to_size_t z = z.
Proof. intros H; unfold to_size_t; apply Z.mod_small; exact H. Qed.

Ltac depth_finish :=
  unfold depth_ok, step_ok, leaf_step, same_input in *; fields;
  repeat match goal with
         | H : (_ <=? to_size_t _) = _ |- _ =>
             rewrite to_size_t_small in H by lia;
             first [ apply Z.leb_le in H | apply Z.leb_gt in H ]
         end;
  intuition (try congruence; try lia).

Ltac use_depth :=
  match goal with
  | Hh : keeps_depth ?h, E : ?h ?q = Some _ |- _ =>
      let X := fresh in
      assert (X : depth_ok q) by depth_finish;
      apply (Hh _ _ _ E) in X; clear E
  | Hh : leaves_level ?h, E : ?h ?q = Some _ |- _ =>
      let X := fresh in let Y := fresh in
      assert (X : depth_ok q) by depth_finish;
      assert (Y : 1 <= depth q) by depth_finish;
      apply (Hh _ _ _ E X) in Y; clear E
  | Hh : forall t, leaves_level (?h t), E : ?h ?t ?q = Some _ |- _ =>
      let X := fresh in let Y := fresh in
      assert (X : depth_ok q) by depth_finish;
      assert (Y : 1 <= depth q) by depth_finish;
      apply (Hh _ _ _ _ E X) in Y; clear E
  | E : json_parse_string _ _ = Some _ |- _ =>
      apply json_parse_string_fields in E
  | E : json_parse_number _ = (_, _) |- _ =>
      apply json_parse_number_fields in E
  | E : json_parse_literal _ _ _ = (_, _) |- _ =>
      apply json_parse_literal_fields in E
  | E : json_add_token _ _ = (_, _) |- _ =>
      apply json_add_token_fields in E
  end.

Ltac run_depth H :=
  unfold and_then in H;
  repeat (first [ split_match H | progress (try use_depth) ]);
  try discriminate;
  try match type of H with
      | Some _ = Some _ => inversion H; subst; clear H
      end;
  repeat use_depth.

Lemma json_parse_string_keeps_depth fuel : keeps_depth (json_parse_string fuel).
Proof.
  intros p rc p' H Hd. apply json_parse_string_fields in H. depth_finish.
Qed.

Lemma json_parse_value_body_keeps_depth po pa ps :
  keeps_depth po -> keeps_depth pa -> keeps_depth ps ->
  keeps_depth (json_parse_value_body po pa ps).
Proof.
  intros Ho Ha Hs p rc p' H Hd. unfold json_parse_value_body in H.
  run_depth H; depth_finish.
Qed.

Lemma container_body_keeps_depth ty closer loop :
  (forall t, leaves_level (loop t)) ->
  keeps_depth (container_body ty closer loop).
Proof.
  intros Hl p rc p' H Hd. unfold container_body in H.
  run_depth H; use_close; depth_finish.
Qed.

Lemma object_loop_body_leaves_level ps pv again token :
  keeps_depth ps -> keeps_depth pv -> leaves_level again ->
  leaves_level (object_loop_body ps pv again token).
Proof.
  intros Hs Hv Ha p rc p' H Hd H1. unfold object_loop_body in H.
  run_depth H; use_close; depth_finish.
Qed.

Lemma array_loop_body_leaves_level pv again token :
  keeps_depth pv -> leaves_level again ->
  leaves_level (array_loop_body pv again token).
Proof.
  intros Hv Ha p rc p' H Hd H1. unfold array_loop_body in H.
  run_depth H; use_close; depth_finish.
Qed.

Lemma handlers_keep_depth fuel :
  keeps_depth (json_parse_value fuel) /\
  keeps_depth (json_parse_object fuel) /\
  (forall t, leaves_level (object_loop fuel t)) /\
  keeps_depth (json_parse_array fuel) /\
  (forall t, leaves_level (array_loop fuel t)).
Proof.
  induction fuel as [|fuel (Hv & Ho & Hol & Ha & Hal)].
  - repeat split; intros; discriminate.
  - split; [|split; [|split; [|split]]]; [| |intros t| |intros t];
      cbn [json_parse_value json_parse_object object_loop json_parse_array
           array_loop].
    + apply json_parse_value_body_keeps_depth; auto.
      apply json_parse_string_keeps_depth.
    + apply container_body_keeps_depth; auto.
    + apply object_loop_body_leaves_level; auto.
      apply json_parse_string_keeps_depth.
    + apply container_body_keeps_depth; auto.
    + apply array_loop_body_leaves_level; auto.
Qed.

Lemma json_parse_value_keeps_depth fuel : keeps_depth (json_parse_value fuel).
Proof. apply handlers_keep_depth. Qed.

(** ** Parsing concrete texts *)

(** What a parse reports: the error code, the tokens, the cursor with the
    length of the input, and the depth. *)
Definition parse_error (r : option (json_error_t * json_parser_t))
  : option json_error_t := option_map fst r.

Definition parse_tokens (r : option (json_error_t * json_parser_t))
  : option (list json_token_t) := option_map (fun x => tokens (snd x)) r.

Definition parse_cursor (r : option (json_error_t * json_parser_t))
  : option (Z * Z) := option_map (fun x => (pos (snd x), length (snd x))) r.

(** A string literal and a [\u] escape, byte by byte. *)
Definition quoted (content : list Z) : list Z := 34 :: content ++ [34].
Definition escape_u (hex : string) : list Z := 92 :: 117 :: bytes hex.

(** An array of [n] zeros, [n] at least one: [[0,0,...,0]]. *)
Definition array_of_zeros (n : nat) : list Z :=
  91 :: List.concat (repeat [48; 44] (n - 1)) ++ [48; 93].

(** C1, the code against the claim.  A literal that does not match, and a
    value that is missing at the end of the input, make
    [json_parser_parse] return [JSON_ERROR_NONE]: [json_parse_literal]
    and [json_parse_value] return [-1] there without a call to
    [json_set_error], and [json_parse_literal] leaves the whole state as
    it was. *)
Theorem failed_literal_reports_no_error :
  parse_error (parse_text (text "tru")) = Some JSON_ERROR_NONE /\
  parse_tokens (parse_text (text "tru")) = Some [] /\
  parse_error (parse_text (text "trux")) = Some JSON_ERROR_NONE /\
  parse_error (parse_text (text "{'a':")) = Some JSON_ERROR_NONE /\
  (forall p literal ty,
      (length p <? pos p + len literal) = true ->
      json_parse_literal p literal ty = (-1, p)).
Proof.
  do 4 (split; [vm_compute; reflexivity|]).
  intros p literal ty H. unfold json_parse_literal. now rewrite H.
Qed.

(** C2, the code against the claim.  The array loop rejects a closing
    bracket after a comma, the object loop has no such check: after the
    comma the next round finds the closing brace and succeeds. *)
Theorem object_accepts_trailing_comma :
  parse_error (parse_text (text "[1,]")) = Some JSON_ERROR_UNEXPECTED_CHAR /\
  parse_error (parse_text (text "{'a':1,}")) = Some JSON_ERROR_NONE /\
  parse_tokens (parse_text (text "{'a':1,}")) =
    Some [mk_token JSON_TOKEN_OBJECT ValueZero 0 8;
          mk_token JSON_TOKEN_STRING (ValueString (bytes "a")) 2 3;
          mk_token JSON_TOKEN_NUMBER (ValueNumber (Finite false 1 10 0)) 5 6].
Proof. repeat apply conj; vm_compute; reflexivity. Qed.

(** C3, the code against the claim.  On an object that ends after a key
    the test for the colon reads the byte at [length] and increments the
    cursor: the parse ends with the cursor at [length + 1], without
    reaching the check for trailing characters.  The same happens at the
    test for the comma. *)
Theorem cursor_passes_length :
  parse_error (parse_text (text "{'a'")) = Some JSON_ERROR_UNEXPECTED_CHAR /\
  parse_cursor (parse_text (text "{'a'")) = Some (5, 4) /\
  parse_error (parse_text (text "{'a':1")) = Some JSON_ERROR_UNEXPECTED_CHAR /\
  parse_cursor (parse_text (text "{'a':1")) = Some (7, 6).
Proof. repeat apply conj; vm_compute; reflexivity. Qed.


(** C9, the code against the claim.  An empty container is one token with
    its [end] filled in, and so is an array of 127 elements.  With 128
    elements the token of the last element is the 129th: [json_add_token]
    grows the array with [realloc], [arr_token] still holds the address of
    the token in the old block, and the [end] of the array token in the
    live array keeps the sentinel 0 although the parse succeeds. *)
Theorem container_end_lost_on_growth :
  parse_error (parse_text (text "{}")) = Some JSON_ERROR_NONE /\
  parse_tokens (parse_text (text "{}")) =
    Some [mk_token JSON_TOKEN_OBJECT ValueZero 0 2] /\
  parse_error (parse_text (text "[]")) = Some JSON_ERROR_NONE /\
  parse_tokens (parse_text (text "[]")) =
    Some [mk_token JSON_TOKEN_ARRAY ValueZero 0 2] /\
  option_map (@hd_error _) (parse_tokens (parse_text (array_of_zeros 127))) =
    Some (Some (mk_token JSON_TOKEN_ARRAY ValueZero 0 255)) /\
  parse_error (parse_text (array_of_zeros 128)) = Some JSON_ERROR_NONE /\
  parse_cursor (parse_text (array_of_zeros 128)) = Some (257, 257) /\
  option_map (@hd_error _) (parse_tokens (parse_text (array_of_zeros 128))) =
    Some (Some (mk_token JSON_TOKEN_ARRAY ValueZero 0 0)).
Proof. repeat apply conj; vm_compute; reflexivity. Qed.

(** ** The error latch *)

(** C5.  The error slot during a call of [json_parser_parse].  The call
    clears the slot, and from then on the slot is written at most once,
    with a code other than [JSON_ERROR_NONE]; the code that is returned
    is the slot.  On blank input the one write is
    [JSON_ERROR_INVALID_TOKEN].  Where [json_parse_value] fails, the call
    returns the state the handler has left, untouched, so the code the
    handler has latched at the fault is the code the caller gets.  Where
    it succeeds the slot is still clear, and the one write that may
    follow is [JSON_ERROR_TRAILING_CHARS].  Within the handlers, at every
    depth of the recursion: a run leaves the slot as it found it, or it
    fails and has filled a slot that was clear; so a slot that is filled
    is never overwritten, and [json_set_error] on it does nothing. *)
Theorem error_is_written_once :
  (forall p e p',
      json_parser_parse p = Some (e, p') ->
      e = error p' /\
      error (json_skip_whitespace (set_error p JSON_ERROR_NONE))
      = JSON_ERROR_NONE /\
      ((length p <= pos (json_skip_whitespace (set_error p JSON_ERROR_NONE)) /\
        p' = set_error (json_skip_whitespace (set_error p JSON_ERROR_NONE))
                       JSON_ERROR_INVALID_TOKEN) \/
       (pos (json_skip_whitespace (set_error p JSON_ERROR_NONE)) < length p /\
        exists rc r,
          json_parse_value
            (parse_fuel (json_skip_whitespace (set_error p JSON_ERROR_NONE)))
            (json_skip_whitespace (set_error p JSON_ERROR_NONE))
          = Some (rc, r) /\
          ((rc = -1 /\ p' = r) \/
           (rc = 0 /\ error r = JSON_ERROR_NONE /\
            (p' = json_skip_whitespace r \/
             p' = set_error (json_skip_whitespace r)
                            JSON_ERROR_TRAILING_CHARS)))))) /\
  (forall fuel p rc p',
      json_parse_value fuel p = Some (rc, p') \/
      json_parse_object fuel p = Some (rc, p') \/
      json_parse_array fuel p = Some (rc, p') \/
      json_parse_string fuel p = Some (rc, p') ->
      error p' = error p \/
      (error p = JSON_ERROR_NONE /\ rc = -1 /\
       error p' <> JSON_ERROR_NONE)) /\
  (forall p c, error p <> JSON_ERROR_NONE -> json_set_error p c = p).
Proof.
  split; [|split].
  - intros p e p' H. unfold json_parser_parse in H.
    set (q := json_skip_whitespace (set_error p JSON_ERROR_NONE)) in *.
    assert (Hq : error q = JSON_ERROR_NONE) by reflexivity.
    change (length q) with (length p) in H.
    destruct (length p <=? pos q) eqn:E.
    + apply Z.leb_le in E. unfold json_set_error in H. rewrite Hq in H.
      cbn [json_error_eqb] in H. inversion H; subst.
      split; [reflexivity|]. split; [exact Hq|]. left. split; auto.
    + apply Z.leb_gt in E.
      destruct (json_parse_value (parse_fuel q) q) as [[rc r]|] eqn:V;
        [|discriminate].
      pose proof (json_parse_value_well_behaved _ _ _ _ V)
        as (_ & _ & _ & Hrc & _ & Hok).
      destruct (rc <? 0) eqn:R.
      * apply Z.ltb_lt in R. inversion H; subst.
        split; [reflexivity|]. split; [exact Hq|]. right. split; [exact E|].
        exists rc, p'. split; [reflexivity|]. left. split; [lia|reflexivity].
      * apply Z.ltb_ge in R. assert (rc = 0) by lia. subst rc.
        specialize (Hok eq_refl). rewrite Hq in Hok.
        assert (Hs : error (json_skip_whitespace r) = JSON_ERROR_NONE)
          by exact Hok.
        destruct (negb (pos (json_skip_whitespace r)
                        =? length (json_skip_whitespace r)));
          [unfold json_set_error in H; rewrite Hs in H;
           cbn [json_error_eqb] in H|];
          inversion H; subst;
          (split; [reflexivity|]); (split; [exact Hq|]);
          right; (split; [exact E|]); exists 0, r;
          (split; [reflexivity|]); right; auto.
  - intros fuel p rc p' H.
    assert (S : step_ok p rc p').
    { destruct H as [H|[H|[H|H]]].
      - exact (proj1 (handlers_well_behaved fuel) _ _ _ H).
      - exact (proj1 (proj2 (handlers_well_behaved fuel)) _ _ _ H).
      - exact (proj1 (proj2 (proj2 (proj2 (handlers_well_behaved fuel))))
                 _ _ _ H).
      - exact (json_parse_string_well_behaved fuel _ _ _ H). }
    destruct S as (_ & _ & _ & Hrc & Hk & Hok).
    destruct (json_error_eqb (error p) JSON_ERROR_NONE) eqn:E.
    + assert (Hn : error p = JSON_ERROR_NONE)
        by (destruct (error p); try discriminate; reflexivity).
      destruct Hrc as [->| ->]; [left; auto|].
      destruct (json_error_eqb (error p') JSON_ERROR_NONE) eqn:E'.
      * left. rewrite Hn. destruct (error p'); try discriminate; reflexivity.
      * right. repeat split; auto. intros C. rewrite C in E'. discriminate.
    + left. apply Hk. intros C. rewrite C in E. discriminate.
  - intros p c H. unfold json_set_error.
    destruct (error p); try reflexivity. congruence.
Qed.

(** A text with two faults, an unknown escape and behind it a number
    with a leading zero: the caller gets the code of the first. *)
Lemma error_is_written_once_witness :
  exists p',
    json_parser_parse (json_parser_init (text "['\q',01]") 9)
    = Some (JSON_ERROR_INVALID_ESCAPE, p') /\
    error p' = JSON_ERROR_INVALID_ESCAPE /\
    json_set_error p' JSON_ERROR_INVALID_NUMBER = p'.
Proof.
  destruct (json_parser_parse (json_parser_init (text "['\q',01]") 9))
    as [[e p']|] eqn:E; [|vm_compute in E; discriminate].
  assert (He : e = JSON_ERROR_INVALID_ESCAPE)
    by (vm_compute in E; inversion E; reflexivity).
  subst e. exists p'. split; [reflexivity|].
  destruct error_is_written_once as (H1 & _ & H3).
  destruct (H1 _ _ _ E) as (Hp & _).
  split; [now symmetry|]. apply H3. rewrite <- Hp. discriminate.
Defined.

(** ** Blank input *)

Lemma skip_whitespace_loop_all buf l n q :
  0 <= q <= l -> (Z.to_nat (l - q) <= n)%nat ->
  (forall i, q <= i < l -> isspace (byte_at buf i) = true) ->
  skip_whitespace_loop n buf l q = l.
Proof.
  revert q; induction n as [|n IH]; intros q Hq Hn Hs; simpl.
  - lia.
  - destruct (q <? l) eqn:E; simpl.
    + apply Z.ltb_lt in E. rewrite Hs by lia.
      apply IH; try lia. intros i Hi; apply Hs; lia.
    + apply Z.ltb_ge in E; lia.
Qed.

Lemma forallb_byte_at (f : Z -> bool) s i :
  forallb f s = true -> 0 <= i < len s -> f (byte_at s i) = true.
Proof.
  intros Hf Hi. unfold byte_at. rewrite forallb_forall in Hf.
  apply Hf, nth_In. unfold len in Hi; lia.
Qed.

(** C10.  On an input that is empty or holds white space only,
    [json_parser_parse] returns [JSON_ERROR_INVALID_TOKEN] and the token
    array stays empty. *)
Theorem blank_input_is_invalid_token s :
  forallb isspace s = true ->
  parse_error (parse_text s) = Some JSON_ERROR_INVALID_TOKEN /\
  parse_tokens (parse_text s) = Some [].
Proof.
  intros Hs. unfold parse_text, json_parser_parse, json_skip_whitespace.
  cbn [json_parser_init set_error json length pos set_pos].
  rewrite skip_whitespace_loop_all.
  - rewrite Z.leb_refl. split; reflexivity.
  - pose proof (len_nonneg s); lia.
  - lia.
  - intros i Hi. apply forallb_byte_at; [exact Hs|lia].
Qed.

Lemma blank_input_is_invalid_token_witness :
  parse_error (parse_text [32; 9; 10; 13]) = Some JSON_ERROR_INVALID_TOKEN /\
  parse_tokens (parse_text [32; 9; 10; 13]) = Some [].
Proof.
  apply (blank_input_is_invalid_token [32; 9; 10; 13]). reflexivity.
Defined.

(** ** Reading the input at the cursor *)

(** The rest of the buffer from the cursor on: [parser->json + parser->pos]. *)
Definition suffix_at (p : json_parser_t) : list Z :=
  skipn (Z.to_nat (pos p)) (json p).

Lemma byte_at_suffix p : byte_at (json p) (pos p) = hd 0 (suffix_at p).
Proof.
  unfold byte_at, suffix_at.
  generalize (Z.to_nat (pos p)); generalize (json p).
  induction l as [|c l IH]; intros [|n]; simpl; auto.
Qed.

Lemma skipn_tl {A : Type} (n : nat) (l : list A) :
  skipn (S n) l = tl (skipn n l).
Proof.
  revert l; induction n as [|n IH]; intros [|a l]; try reflexivity.
  change (skipn (S n) l = tl (skipn n l)). apply IH.
Qed.

Lemma skipn_skipn_add {A : Type} (n m : nat) (l : list A) :
  skipn n (skipn m l) = skipn (m + n) l.
Proof.
  revert l; induction m as [|m IH]; intros l; simpl; auto.
  destruct l; simpl; [now destruct n|apply IH].
Qed.

(** The suffix after the cursor has moved forward by [n] bytes. *)
Lemma suffix_at_forward p q n :
  json q = json p -> 0 <= pos p -> 0 <= n -> pos q = pos p + n ->
  suffix_at q = skipn (Z.to_nat n) (suffix_at p).
Proof.
  intros Hj Hp Hn Hq. unfold suffix_at.
  rewrite skipn_skipn_add, Hj, Hq. f_equal. lia.
Qed.

Lemma skipn_len_app {A : Type} (l r : list A) (n : Z) :
  n = len l -> skipn (Z.to_nat n) (l ++ r) = r.
Proof.
  intros ->. unfold len. rewrite Nat2Z.id.
  rewrite skipn_app, skipn_all, Nat.sub_diag. reflexivity.
Qed.

(** Where the suffix starts with a byte that is not white space,
    [json_skip_whitespace] does nothing. *)
Lemma json_skip_whitespace_at p c rest :
  suffix_at p = c :: rest -> isspace c = false -> json_skip_whitespace p = p.
Proof.
  intros Hs Hc. apply json_skip_whitespace_stop.
  rewrite byte_at_suffix, Hs. cbn [hd]. rewrite Hc. apply andb_false_r.
Qed.

Lemma json_skip_whitespace_end p :
  length p <= pos p -> json_skip_whitespace p = p.
Proof.
  intros H. apply json_skip_whitespace_stop.
  apply Z.ltb_ge in H. now rewrite H.
Qed.

(** The value dispatcher on an opening bracket and on a quote. *)
Lemma json_parse_value_array fuel p rest :
  suffix_at p = 91 :: rest -> pos p < length p ->
  json_parse_value (S fuel) p = json_parse_array fuel p.
Proof.
  intros Hs Hl. cbn [json_parse_value]. unfold json_parse_value_body.
  rewrite (json_skip_whitespace_at p 91 rest) by (auto; reflexivity).
  apply Z.leb_gt in Hl. rewrite Hl, byte_at_suffix, Hs. reflexivity.
Qed.

Lemma json_parse_value_string fuel p rest :
  suffix_at p = 34 :: rest -> pos p < length p ->
  json_parse_value (S fuel) p = json_parse_string fuel p.
Proof.
  intros Hs Hl. cbn [json_parse_value]. unfold json_parse_value_body.
  rewrite (json_skip_whitespace_at p 34 rest) by (auto; reflexivity).
  apply Z.leb_gt in Hl. rewrite Hl, byte_at_suffix, Hs. reflexivity.
Qed.

(** With an allocator that does not fail, [json_add_token] appends the
    token and touches nothing but the token array. *)
Lemma json_add_token_ok p ty :
  heap p = [] ->
  exists p1,
    json_add_token p ty = (0, p1) /\
    tokens p1 = tokens p ++ [mk_token ty ValueZero (pos p) (pos p)] /\
    json p1 = json p /\ length p1 = length p /\ pos p1 = pos p /\
    max_depth p1 = max_depth p /\ max_string p1 = max_string p /\
    error p1 = error p /\ depth p1 = depth p /\ heap p1 = [].
Proof.
  intros Hh. unfold json_add_token, allocate. rewrite Hh.
  destruct (_ <=? _); eexists; (split; [reflexivity|]); cbn;
    repeat split; auto.
Qed.

Lemma update_nth_last f ts t :
  update_nth (List.length (ts ++ [t]) - 1) f (ts ++ [t]) = ts ++ [f t].
Proof.
  rewrite length_app; cbn [List.length].
  replace (List.length ts + 1 - 1)%nat with (List.length ts) by lia.
  induction ts as [|a ts IH]; simpl; [reflexivity|]. now rewrite IH.
Qed.

(** A store through the address of the last token, taken in this state. *)
Lemma store_last_token f p ts t :
  tokens p = ts ++ [t] ->
  store_token (last_token_ptr p) f p = set_tokens p (ts ++ [f t]).
Proof.
  intros Ht. unfold store_token, last_token_ptr; cbn [ptr_block ptr_index].
  rewrite Nat.eqb_refl, Ht, update_nth_last. reflexivity.
Qed.

(** ** Nested containers *)

(** [n] opening brackets followed by [n] closing brackets. *)
Definition nested_arrays (n : nat) : list Z := repeat 91 n ++ repeat 93 n.

(** Entry of a container below the depth limit, with an allocator that
    does not fail: the state [q] after the opening delimiter, one level
    down, and the address [token] of the token of the container. *)
Lemma container_body_enter ty closer loop p :
  heap p = [] -> depth_ok p -> depth p < max_depth p ->
  exists q token,
    container_body ty closer loop p =
      (let q := json_skip_whitespace q in
       if byte_at (json q) (pos q) =? closer
       then Some (0, close_container token q)
       else loop token q) /\
    json q = json p /\ length q = length p /\ pos q = pos p + 1 /\
    max_depth q = max_depth p /\ max_string q = max_string p /\
    error q = error p /\ depth q = depth p + 1 /\ heap q = [].
Proof.
  intros Hh (Hd & Hm) Hlt. unfold container_body.
  rewrite to_size_t_small by (unfold SIZE_MAX1 in Hm; cbn in Hm; lia).
  apply Z.leb_gt in Hlt. rewrite Hlt.
  destruct (json_add_token_ok (set_depth p (depth p + 1)) ty Hh)
    as (p1 & -> & Ht & Hj & Hl & Hp & Hmd & Hms & He & Hdp & Hh1).
  cbn [Z.ltb Z.compare].
  eexists; eexists; split; [reflexivity|].
  fields. repeat split; auto. lia.
Qed.

Lemma array_loop_body_close pv again token p rest :
  suffix_at p = 93 :: rest -> pos p < length p ->
  array_loop_body pv again token p = Some (0, close_container token p).
Proof.
  intros Hs Hl. unfold array_loop_body.
  rewrite (json_skip_whitespace_at p 93 rest) by (auto; reflexivity).
  rewrite byte_at_suffix, Hs; cbn [hd].
  apply Z.ltb_lt in Hl. rewrite Hl. apply Z.ltb_lt, Z.leb_gt in Hl.
  rewrite Hl. reflexivity.
Qed.

Lemma array_loop_body_element pv again token p rest :
  suffix_at p = 91 :: rest -> pos p < length p ->
  array_loop_body pv again token p =
    and_then (pv p) (fun p =>
      let p := json_skip_whitespace p in
      if byte_at (json p) (pos p) =? 93 then again p
      else if byte_at (json p) (pos p) =? 44 then
        let p := set_pos p (pos p + 1) in
        let p := json_skip_whitespace p in
        if byte_at (json p) (pos p) =? 93
        then Some (-1, json_set_error p JSON_ERROR_UNEXPECTED_CHAR)
        else again p
      else Some (-1, json_set_error p JSON_ERROR_UNEXPECTED_CHAR)).
Proof.
  intros Hs Hl. unfold array_loop_body.
  rewrite (json_skip_whitespace_at p 91 rest) by (auto; reflexivity).
  rewrite byte_at_suffix, Hs; cbn [hd].
  apply Z.ltb_lt in Hl. rewrite Hl. apply Z.ltb_lt, Z.leb_gt in Hl.
  rewrite Hl. reflexivity.
Qed.

Lemma repeat_app_cons {A : Type} (a : A) (n : nat) (l : list A) :
  repeat a (S n) ++ l = repeat a n ++ a :: l.
Proof.
  induction n as [|n IH]; [reflexivity|].
  change (a :: repeat a (S n) ++ l = a :: repeat a n ++ a :: l).
  now rewrite IH.
Qed.

Lemma len_repeat {A : Type} (a : A) (n : nat) : len (repeat a n) = Z.of_nat n.
Proof. unfold len; now rewrite repeat_length. Qed.

(** [k] nested arrays at the cursor, [k] levels of depth left: the value
    handler consumes them and gives back the depth and the error slot as
    it found them. *)
Lemma nested_arrays_value k :
  forall fuel p rest,
    (3 * k <= fuel)%nat -> (1 <= k)%nat ->
    suffix_at p = repeat 91 k ++ repeat 93 k ++ rest ->
    0 <= pos p -> pos p + 2 * Z.of_nat k <= length p ->
    heap p = [] -> depth_ok p -> depth p + Z.of_nat k <= max_depth p ->
    exists p',
      json_parse_value fuel p = Some (0, p') /\
      json p' = json p /\ length p' = length p /\
      pos p' = pos p + 2 * Z.of_nat k /\ max_depth p' = max_depth p /\
      error p' = error p /\ depth p' = depth p /\ heap p' = [].
Proof.
  induction k as [|k IH]; intros fuel p rest Hf Hk Hs Hp Hl Hh Hd Hm; [lia|].
  destruct fuel as [|[|[|f]]]; try lia.
  rewrite (repeat_app_cons 93 k rest) in Hs. cbn [repeat app] in Hs.
  rewrite (json_parse_value_array _ p _ Hs) by lia.
  cbn [json_parse_array]. unfold json_parse_array_body.
  destruct (container_body_enter JSON_TOKEN_ARRAY 93 (array_loop (S f)) p)
    as (q & token & -> & Hj & Hlq & Hpq & Hmq & _ & Heq & Hdq & Hhq);
    auto; [lia|].
  assert (Hsq : suffix_at q = repeat 91 k ++ repeat 93 k ++ 93 :: rest).
  { rewrite (suffix_at_forward p q 1), Hs by (auto; lia). reflexivity. }
  destruct k as [|k].
  - (* the innermost array *)
    cbn [repeat app] in Hsq.
    rewrite (json_skip_whitespace_at q 93 rest) by (auto; reflexivity).
    cbv zeta. rewrite byte_at_suffix, Hsq. cbn [hd Z.eqb Pos.eqb].
    eexists; split; [reflexivity|].
    destruct (close_container_fields token q)
      as ((-> & -> & -> & _) & -> & -> & -> & ->).
    repeat split; auto; lia.
  - pose proof Hsq as Hsq'. cbn [repeat app] in Hsq.
    rewrite (json_skip_whitespace_at q 91 _ Hsq) by reflexivity.
    cbv zeta. rewrite byte_at_suffix, Hsq. cbn [hd Z.eqb Pos.eqb].
    cbn [array_loop].
    rewrite (array_loop_body_element _ _ _ q _ Hsq) by lia.
    destruct (IH f q (93 :: rest))
      as (p3 & -> & Hj3 & Hl3 & Hp3 & Hm3 & He3 & Hd3 & Hh3);
      try lia; auto.
    { destruct Hd as ((? & ?) & ?). repeat split; try lia. }
    assert (Hs3 : suffix_at p3 = 93 :: rest).
    { rewrite (suffix_at_forward q p3 (2 * Z.of_nat (S k))) by (auto; lia).
      rewrite Hsq', app_assoc. apply skipn_len_app.
      rewrite len_app, !len_repeat. lia. }
    unfold and_then. cbn [Z.eqb].
    rewrite (json_skip_whitespace_at p3 93 rest) by (auto; reflexivity).
    cbv zeta. rewrite byte_at_suffix, Hs3. cbn [hd Z.eqb Pos.eqb].
    destruct f as [|f]; [lia|]. cbn [array_loop].
    rewrite (array_loop_body_close _ _ _ p3 rest) by (auto; lia).
    eexists; split; [reflexivity|].
    destruct (close_container_fields token p3)
      as ((-> & -> & -> & _) & -> & -> & -> & ->).
    repeat split; try congruence; lia.
Qed.

(** More opening brackets at the cursor than levels of depth left: the
    value handler fails and latches [JSON_ERROR_NESTING_DEPTH]. *)
Lemma nested_arrays_too_deep k :
  forall fuel p rest,
    (3 * k <= fuel)%nat -> (1 <= k)%nat ->
    suffix_at p = repeat 91 k ++ rest ->
    0 <= pos p -> pos p + Z.of_nat k <= length p ->
    heap p = [] -> depth_ok p -> max_depth p < depth p + Z.of_nat k ->
    error p = JSON_ERROR_NONE ->
    exists p',
      json_parse_value fuel p = Some (-1, p') /\
      error p' = JSON_ERROR_NESTING_DEPTH.
Proof.
  induction k as [|k IH]; intros fuel p rest Hf Hk Hs Hp Hl Hh Hd Hm He;
    [lia|].
  destruct fuel as [|[|[|f]]]; try lia.
  cbn [repeat app] in Hs.
  rewrite (json_parse_value_array _ p _ Hs) by lia.
  cbn [json_parse_array]. unfold json_parse_array_body.
  destruct (Z_lt_le_dec (depth p) (max_depth p)) as [Hlt|Hge].
  - destruct (container_body_enter JSON_TOKEN_ARRAY 93 (array_loop (S f)) p)
      as (q & token & -> & Hj & Hlq & Hpq & Hmq & _ & Heq & Hdq & Hhq); auto.
    assert (Hsq : suffix_at q = repeat 91 k ++ rest).
    { rewrite (suffix_at_forward p q 1), Hs by (auto; lia). reflexivity. }
    destruct k as [|k]; [lia|]. cbn [repeat app] in Hsq.
    rewrite (json_skip_whitespace_at q 91 _ Hsq) by reflexivity.
    cbv zeta. rewrite byte_at_suffix, Hsq. cbn [hd Z.eqb Pos.eqb].
    cbn [array_loop].
    rewrite (array_loop_body_element _ _ _ q _ Hsq) by lia.
    destruct (IH f q rest) as (p' & -> & He'); try lia; auto; try congruence.
    { destruct Hd as ((? & ?) & ?). repeat split; try lia. }
    exists p'. split; [reflexivity|exact He'].
  - unfold container_body.
    destruct Hd as ((Hd0 & Hd1) & Hd2). unfold SIZE_MAX1 in Hd2; cbn in Hd2.
    rewrite to_size_t_small by lia.
    apply Z.leb_le in Hge. rewrite Hge.
    eexists; split; [reflexivity|]. now apply json_set_error_first.
Qed.

(** A fresh parser on [s] with the limit on the depth set to [m]. *)
Definition parser_with_max_depth (s : list Z) (m : Z) : json_parser_t :=
  set_max_depth (json_parser_init s (len s)) m.

Lemma len_nested_arrays n : len (nested_arrays n) = 2 * Z.of_nat n.
Proof. unfold nested_arrays. rewrite len_app, !len_repeat. lia. Qed.

Lemma nested_at_limit_parses n :
  (1 <= n)%nat -> Z.of_nat n < SIZE_MAX1 ->
  parse_error
    (json_parser_parse (parser_with_max_depth (nested_arrays n) (Z.of_nat n)))
  = Some JSON_ERROR_NONE.
Proof.
  intros Hn Hm. unfold json_parser_parse.
  set (p := set_error _ _).
  assert (Hs : suffix_at p = repeat 91 n ++ repeat 93 n ++ []).
  { rewrite app_nil_r. reflexivity. }
  assert (Hl : length p = 2 * Z.of_nat n) by apply len_nested_arrays.
  assert (Hp : pos p = 0) by reflexivity.
  assert (Hd : depth p = 0) by reflexivity.
  assert (Hmd : max_depth p = Z.of_nat n) by reflexivity.
  assert (Hsk : json_skip_whitespace p = p).
  { destruct n as [|n]; [lia|].
    apply (json_skip_whitespace_at p 91 _ Hs). reflexivity. }
  rewrite Hsk.
  replace (length p <=? pos p) with false
    by (symmetry; apply Z.leb_gt; lia).
  destruct (nested_arrays_value n (parse_fuel p) p [])
    as (p' & -> & _ & Hl' & Hp' & _ & He' & _); auto.
  - unfold parse_fuel. lia.
  - lia.
  - lia.
  - unfold depth_ok. lia.
  - lia.
  - cbn [Z.ltb Z.compare].
    rewrite json_skip_whitespace_end by lia.
    replace (pos p' =? length p') with true
      by (symmetry; apply Z.eqb_eq; lia).
    cbn [negb parse_error option_map fst]. now rewrite He'.
Qed.

Lemma nested_past_limit_fails n :
  Z.of_nat n < SIZE_MAX1 ->
  parse_error
    (json_parser_parse
       (parser_with_max_depth (nested_arrays (S n)) (Z.of_nat n)))
  = Some JSON_ERROR_NESTING_DEPTH.
Proof.
  intros Hm. unfold json_parser_parse.
  set (p := set_error _ _).
  assert (Hs : suffix_at p = repeat 91 (S n) ++ repeat 93 (S n))
    by reflexivity.
  assert (Hl : length p = 2 * Z.of_nat (S n)) by apply len_nested_arrays.
  assert (Hp : pos p = 0) by reflexivity.
  assert (Hd : depth p = 0) by reflexivity.
  assert (Hmd : max_depth p = Z.of_nat n) by reflexivity.
  assert (Hsk : json_skip_whitespace p = p).
  { apply (json_skip_whitespace_at p 91 _ Hs). reflexivity. }
  rewrite Hsk.
  replace (length p <=? pos p) with false
    by (symmetry; apply Z.leb_gt; lia).
  destruct (nested_arrays_too_deep (S n) (parse_fuel p) p (repeat 93 (S n)))
    as (p' & -> & He'); auto.
  - unfold parse_fuel. lia.
  - lia.
  - lia.
  - lia.
  - unfold depth_ok. lia.
  - lia.
  - cbn [Z.ltb Z.compare parse_error option_map fst]. now rewrite He'.
Qed.

Lemma json_parser_parse_keeps_depth p e p' :
  depth_ok p -> json_parser_parse p = Some (e, p') -> depth_ok p'.
Proof.
  unfold json_parser_parse. intros Hd H.
  destruct (_ <=? _).
  - inversion H; subst. depth_finish.
  - destruct (json_parse_value _ _) as [[rc p1]|] eqn:E; [|discriminate].
    match type of E with json_parse_value _ ?q = _ =>
      assert (Hq : depth_ok q) by depth_finish
    end.
    apply (json_parse_value_keeps_depth _ _ _ _ E) in Hq.
    destruct (rc <? 0); inversion H; subst; [tauto|].
    destruct (negb _); depth_finish.
Qed.

(** ** The string decoder on literal bytes and simple escapes *)

(** The content of a string literal without [\u] escapes: a byte that
    stands for itself, or a backslash and the byte after it. *)
Inductive string_item : Type :=
| Plain (c : Z)
| Escape (c : Z).

Definition item_ok (i : string_item) : bool :=
  match i with
  | Plain c => negb (c =? 34) && negb (c =? 92)
  | Escape c => match simple_escape c with Some _ => true | None => false end
  end.

(** The bytes of an item in the input, and the byte it decodes to. *)
Definition item_bytes (i : string_item) : list Z :=
  match i with
  | Plain c => [c]
  | Escape c => [92; c]
  end.

Definition item_value (i : string_item) : Z :=
  match i with
  | Plain c => c
  | Escape c => match simple_escape c with Some d => d | None => c end
  end.

Definition encode (items : list string_item) : list Z :=
  flat_map item_bytes items.

Definition decode (items : list string_item) : list Z :=
  map item_value items.

Lemma len_decode items : len (decode items) = len items.
Proof. unfold len, decode. now rewrite length_map. Qed.

Lemma len_encode_ge items : len items <= len (encode items).
Proof.
  induction items as [|[c|c] items IH]; cbn [encode flat_map item_bytes app].
  - unfold len; cbn [List.length]; lia.
  - rewrite !len_cons. unfold encode in IH. lia.
  - rewrite !len_cons. unfold encode in IH. lia.
Qed.

Lemma simple_escape_not_u c d : simple_escape c = Some d -> (c =? 117) = false.
Proof.
  intros H. destruct (c =? 117) eqn:E; [|reflexivity].
  apply Z.eqb_eq in E; subst; discriminate.
Qed.

Lemma set_pos_set_pos p a b : set_pos (set_pos p a) b = set_pos p b.
Proof. reflexivity. Qed.

(** One byte read at the cursor. *)
Lemma suffix_at_next p c rest :
  suffix_at p = c :: rest -> 0 <= pos p ->
  byte_at (json p) (pos p) = c /\
  suffix_at (set_pos p (pos p + 1)) = rest.
Proof.
  intros Hs Hp. split.
  - now rewrite byte_at_suffix, Hs.
  - rewrite (suffix_at_forward p (set_pos p (pos p + 1)) 1), Hs
      by (auto; lia). reflexivity.
Qed.

(** The loop of [json_parse_string] over items that fit the buffer: it
    copies their values and stops behind them. *)
Lemma string_loop_items items :
  forall fuel token p buf rest,
    forallb item_ok items = true ->
    suffix_at p = encode items ++ rest -> 0 <= pos p ->
    pos p + len (encode items) <= length p ->
    1 <= max_string p < SIZE_MAX1 ->
    len buf + len items <= max_string p - 1 ->
    string_loop (List.length items + fuel) token p buf =
    string_loop fuel token (set_pos p (pos p + len (encode items)))
                (buf ++ decode items).
Proof.
  induction items as [|i items IH];
    intros fuel token p buf rest Hok Hs Hp Hl Hm Hb.
  - cbn [encode flat_map decode map List.length Nat.add].
    rewrite len_nil, Z.add_0_r, app_nil_r. now destruct p.
  - cbn [forallb] in Hok. apply andb_prop in Hok. destruct Hok as [Hi Hok].
    rewrite len_cons in Hb.
    assert (Hsz : to_size_t (max_string p - 1) = max_string p - 1).
    { apply to_size_t_small. unfold SIZE_MAX1 in Hm; cbn in Hm. lia. }
    pose proof (len_nonneg buf) as Hbuf.
    pose proof (len_nonneg items) as Hitems.
    pose proof (len_nonneg (encode items)) as Henc.
    cbn [List.length Nat.add string_loop].
    destruct i as [c|c]; cbn [item_ok] in Hi;
      cbn [encode flat_map item_bytes app] in Hs, Hl |- *;
      fold (encode items) in Hs, Hl |- *;
      rewrite ?len_cons in Hl.
    + (* a byte that stands for itself *)
      apply andb_prop in Hi. destruct Hi as [H34 H92].
      apply negb_true_iff in H34, H92.
      destruct (suffix_at_next p c _ Hs Hp) as (Hc & Hs1).
      replace (pos p <? length p) with true by (symmetry; apply Z.ltb_lt; lia).
      rewrite Hc, H34, H92. cbn [max_string set_pos].
      rewrite Hsz.
      replace (max_string p - 1 <=? len buf) with false
        by (symmetry; apply Z.leb_gt; lia).
      rewrite (IH fuel token (set_pos p (pos p + 1)) (buf ++ [c]) rest);
        auto; cbn [pos set_pos length max_string]; try lia.
      * cbn [decode map item_value]. rewrite <- app_assoc. cbn [app].
        rewrite len_cons, set_pos_set_pos.
        replace (pos p + 1 + len (encode items))
          with (pos p + (len (encode items) + 1)) by lia.
        reflexivity.
      * rewrite len_app, len_cons, len_nil. lia.
    + (* a backslash escape *)
      destruct (simple_escape c) as [d|] eqn:Ed; [|discriminate].
      destruct (suffix_at_next p 92 _ Hs Hp) as (Hc & Hs1).
      destruct (suffix_at_next (set_pos p (pos p + 1)) c _ Hs1)
        as (Hc2 & Hs2); [cbn; lia|].
      cbn [pos set_pos json] in Hc2, Hs2.
      replace (pos p <? length p) with true by (symmetry; apply Z.ltb_lt; lia).
      rewrite Hc. cbn [Z.eqb Pos.eqb length pos set_pos json].
      replace (length p <=? pos p + 1) with false
        by (symmetry; apply Z.leb_gt; lia).
      rewrite Hc2, (simple_escape_not_u c d Ed), Ed.
      cbn [max_string set_pos]. rewrite Hsz.
      replace (max_string p - 1 <=? len buf) with false
        by (symmetry; apply Z.leb_gt; lia).
      rewrite (IH fuel token (set_pos (set_pos p (pos p + 1)) (pos p + 1 + 1))
                 (buf ++ [d]) rest);
        auto; cbn [pos set_pos length max_string]; try lia.
      * cbn [decode map item_value]. rewrite Ed, <- app_assoc. cbn [app].
        rewrite !len_cons, !set_pos_set_pos.
        replace (pos p + 1 + 1 + len (encode items))
          with (pos p + (len (encode items) + 1 + 1)) by lia.
        reflexivity.
      * rewrite len_app, len_cons, len_nil. lia.
Qed.

(** Entry of [json_parse_string] with an allocator that does not fail:
    the token is appended, its [start] set behind the quote, and the loop
    starts behind the quote with an empty buffer. *)
Lemma json_parse_string_enter fuel p :
  heap p = [] ->
  exists q,
    json_parse_string fuel p = string_loop fuel (last_token_ptr q) q [] /\
    tokens q = tokens p ++ [mk_token JSON_TOKEN_STRING ValueZero
                                     (pos p + 1) (pos p)] /\
    json q = json p /\ length q = length p /\ pos q = pos p + 1 /\
    max_string q = max_string p /\ error q = error p.
Proof.
  intros Hh. unfold json_parse_string.
  destruct (json_add_token_ok p JSON_TOKEN_STRING Hh)
    as (p1 & -> & Ht & Hj & Hl & Hp & _ & Hms & He & _ & Hh1).
  cbn [Z.eqb negb].
  rewrite (store_last_token _ p1 _ _ Ht).
  unfold allocate. cbn [heap set_tokens]. rewrite Hh1.
  match goal with |- context [string_loop _ _ ?q0 []] => exists q0 end.
  split.
  - f_equal. unfold last_token_ptr. cbn [tokens tokens_block set_tokens set_pos].
    now rewrite Ht, !length_app.
  - cbn. rewrite Hp. repeat split; auto.
Qed.

(** The closing quote: the token gets its [end] and the decoded bytes. *)
Lemma string_loop_close fuel q x buf rest ts t :
  suffix_at (set_pos q x) = 34 :: rest -> 0 <= x -> x < length q ->
  tokens q = ts ++ [t] ->
  string_loop (S fuel) (last_token_ptr q) (set_pos q x) buf =
  Some (0, set_tokens (set_pos q (x + 1))
             (ts ++ [with_value (ValueString buf) (with_end x t)])).
Proof.
  intros Hs Hx Hl Ht. cbn [string_loop].
  destruct (suffix_at_next _ _ _ Hs Hx) as (Hc & _).
  cbn [pos set_pos length json] in *.
  replace (x <? length q) with true by (symmetry; apply Z.ltb_lt; lia).
  rewrite Hc. cbn [Z.eqb Pos.eqb].
  change (last_token_ptr q) with (last_token_ptr (set_pos q (x + 1))).
  rewrite (store_last_token _ (set_pos q (x + 1)) ts t Ht).
  replace (x + 1 - 1) with x by lia. reflexivity.
Qed.

(** A string literal whose items fit the buffer decodes to their values. *)
Lemma json_parse_string_quoted fuel p items rest :
  heap p = [] -> forallb item_ok items = true ->
  suffix_at p = 34 :: encode items ++ 34 :: rest ->
  0 <= pos p -> pos p + len (encode items) + 2 <= length p ->
  1 <= max_string p < SIZE_MAX1 -> len items <= max_string p - 1 ->
  (List.length items < fuel)%nat ->
  exists p',
    json_parse_string fuel p = Some (0, p') /\
    tokens p' = tokens p ++
      [mk_token JSON_TOKEN_STRING (ValueString (decode items))
                (pos p + 1) (pos p + 1 + len (encode items))] /\
    pos p' = pos p + len (encode items) + 2 /\
    json p' = json p /\ length p' = length p /\ error p' = error p.
Proof.
  intros Hh Hok Hs Hp Hl Hm Hb Hf.
  destruct (json_parse_string_enter fuel p Hh)
    as (q & -> & Ht & Hj & Hlq & Hpq & Hmq & Heq).
  pose proof (len_nonneg (encode items)) as Henc.
  assert (Hsq : suffix_at q = encode items ++ 34 :: rest).
  { rewrite (suffix_at_forward p q 1), Hs by (auto; lia). reflexivity. }
  replace fuel with (List.length items + S (fuel - List.length items - 1))%nat
    by lia.
  rewrite (string_loop_items items _ _ q [] (34 :: rest)); auto;
    try (rewrite ?len_nil; lia).
  cbn [app].
  erewrite (string_loop_close _ q _ _ rest); try exact Ht; try lia.
  - eexists; split; [reflexivity|].
    cbn [tokens set_tokens set_pos pos json length error with_value with_end
         type start value end_].
    rewrite Hpq. repeat split; auto. lia.
  - rewrite (suffix_at_forward q _ (len (encode items))), Hsq;
      cbn [json set_pos pos]; auto; try lia.
    now apply skipn_len_app.
Qed.

(** The buffer is full and one more item follows: the loop fails with
    [JSON_ERROR_STRING_TOO_LONG]. *)
Lemma string_loop_full fuel token p buf i rest :
  item_ok i = true -> suffix_at p = item_bytes i ++ rest -> 0 <= pos p ->
  pos p + len (item_bytes i) <= length p ->
  1 <= max_string p < SIZE_MAX1 -> max_string p - 1 <= len buf ->
  error p = JSON_ERROR_NONE ->
  exists p',
    string_loop (S fuel) token p buf = Some (-1, p') /\
    error p' = JSON_ERROR_STRING_TOO_LONG.
Proof.
  intros Hi Hs Hp Hl Hm Hb He. cbn [string_loop].
  assert (Hsz : to_size_t (max_string p - 1) = max_string p - 1).
  { apply to_size_t_small. unfold SIZE_MAX1 in Hm; cbn in Hm. lia. }
  destruct i as [c|c]; cbn [item_ok item_bytes app] in Hi, Hs, Hl;
    rewrite ?len_cons, ?len_nil in Hl.
  - apply andb_prop in Hi. destruct Hi as [H34 H92].
    apply negb_true_iff in H34, H92.
    destruct (suffix_at_next p c _ Hs Hp) as (Hc & _).
    replace (pos p <? length p) with true by (symmetry; apply Z.ltb_lt; lia).
    rewrite Hc, H34, H92. cbn [max_string set_pos]. rewrite Hsz.
    apply Z.leb_le in Hb. rewrite Hb.
    eexists; split; [reflexivity|]. now apply json_set_error_first.
  - destruct (simple_escape c) as [d|] eqn:Ed; [|discriminate].
    destruct (suffix_at_next p 92 _ Hs Hp) as (Hc & Hs1).
    destruct (suffix_at_next (set_pos p (pos p + 1)) c _ Hs1)
      as (Hc2 & _); [cbn; lia|].
    cbn [pos set_pos json] in Hc2.
    replace (pos p <? length p) with true by (symmetry; apply Z.ltb_lt; lia).
    rewrite Hc. cbn [Z.eqb Pos.eqb length pos set_pos json].
    replace (length p <=? pos p + 1) with false
      by (symmetry; apply Z.leb_gt; lia).
    rewrite Hc2, (simple_escape_not_u c d Ed), Ed.
    cbn [max_string set_pos]. rewrite Hsz.
    apply Z.leb_le in Hb. rewrite Hb.
    eexists; split; [reflexivity|]. now apply json_set_error_first.
Qed.

Lemma forallb_firstn {A : Type} (f : A -> bool) n l :
  forallb f l = true -> forallb f (firstn n l) = true.
Proof.
  revert l; induction n as [|n IH]; intros [|a l]; cbn; auto.
  intros H. apply andb_prop in H. destruct H as [-> H]. now apply IH.
Qed.

(** A string literal with more items than the buffer takes. *)
Lemma json_parse_string_too_long fuel p items rest :
  heap p = [] -> forallb item_ok items = true ->
  suffix_at p = 34 :: encode items ++ rest ->
  0 <= pos p -> pos p + 1 + len (encode items) <= length p ->
  1 <= max_string p < SIZE_MAX1 -> max_string p <= len items ->
  error p = JSON_ERROR_NONE -> (List.length items < fuel)%nat ->
  exists p',
    json_parse_string fuel p = Some (-1, p') /\
    error p' = JSON_ERROR_STRING_TOO_LONG.
Proof.
  intros Hh Hok Hs Hp Hl Hm Hb He Hf.
  destruct (json_parse_string_enter fuel p Hh)
    as (q & -> & Ht & Hj & Hlq & Hpq & Hmq & Heq).
  set (n := Z.to_nat (max_string p - 1)).
  assert (Hn : (n < List.length items)%nat) by (unfold len in Hb; lia).
  destruct (skipn n items) as [|i tail] eqn:Esk.
  { apply (f_equal (@List.length _)) in Esk.
    rewrite length_skipn in Esk. cbn in Esk. lia. }
  assert (Hit : items = firstn n items ++ i :: tail)
    by (now rewrite <- Esk, firstn_skipn).
  assert (Hlen : len (firstn n items) = max_string p - 1).
  { unfold len. rewrite length_firstn. lia. }
  assert (Hi : item_ok i = true).
  { rewrite Hit, forallb_app in Hok. apply andb_prop in Hok.
    destruct Hok as [_ Hok]. cbn in Hok. now apply andb_prop in Hok. }
  assert (Henc : encode items =
                 encode (firstn n items) ++ item_bytes i ++ encode tail).
  { rewrite Hit at 1. unfold encode. rewrite flat_map_app. reflexivity. }
  assert (Hsq : suffix_at q =
                encode (firstn n items) ++ item_bytes i ++ encode tail ++ rest).
  { rewrite (suffix_at_forward p q 1), Hs, Henc by (auto; lia).
    cbn [skipn Z.to_nat Pos.to_nat Pos.iter_op Nat.add].
    now rewrite <- !app_assoc. }
  rewrite Henc, !len_app in Hl.
  pose proof (len_nonneg (encode (firstn n items))).
  pose proof (len_nonneg (item_bytes i)).
  pose proof (len_nonneg (encode tail)).
  replace fuel
    with (List.length (firstn n items)
          + S (fuel - List.length (firstn n items) - 1))%nat
    by (rewrite length_firstn; lia).
  rewrite (string_loop_items (firstn n items) _ _ q []
             (item_bytes i ++ encode tail ++ rest));
    auto using forallb_firstn; try (rewrite ?len_nil; lia).
  apply string_loop_full with (i := i) (rest := encode tail ++ rest); auto;
    cbn [pos set_pos length max_string error]; try lia.
  - rewrite (suffix_at_forward q _ (len (encode (firstn n items)))), Hsq;
      cbn [json set_pos pos]; auto; try lia.
    now apply skipn_len_app.
  - cbn [app]. rewrite len_decode. lia.
  - congruence.
Qed.

(** The input ends where the closing quote should be, or behind a lone
    backslash. *)
Lemma json_parse_string_unterminated fuel p items tail :
  heap p = [] -> forallb item_ok items = true ->
  tail = [] \/ tail = [92] ->
  suffix_at p = 34 :: encode items ++ tail ->
  0 <= pos p -> length p = pos p + 1 + len (encode items) + len tail ->
  1 <= max_string p < SIZE_MAX1 -> len items <= max_string p - 1 ->
  error p = JSON_ERROR_NONE -> (List.length items < fuel)%nat ->
  exists p',
    json_parse_string fuel p = Some (-1, p') /\
    error p' = JSON_ERROR_UNEXPECTED_CHAR.
Proof.
  intros Hh Hok Htail Hs Hp Hl Hm Hb He Hf.
  destruct (json_parse_string_enter fuel p Hh)
    as (q & -> & Ht & Hj & Hlq & Hpq & Hmq & Heq).
  pose proof (len_nonneg (encode items)) as Henc.
  pose proof (len_nonneg tail) as Htl.
  assert (Hsq : suffix_at q = encode items ++ tail).
  { rewrite (suffix_at_forward p q 1), Hs by (auto; lia). reflexivity. }
  replace fuel with (List.length items + S (fuel - List.length items - 1))%nat
    by lia.
  rewrite (string_loop_items items _ _ q [] tail); auto;
    try (rewrite ?len_nil; lia).
  cbn [string_loop pos set_pos length json].
  destruct Htail as [-> | ->]; rewrite ?len_cons, ?len_nil in Hl.
  - replace (pos q + len (encode items) <? length q) with false
      by (symmetry; apply Z.ltb_ge; lia).
    eexists; split; [reflexivity|]. apply json_set_error_first. cbn; congruence.
  - assert (Hs2 : suffix_at (set_pos q (pos q + len (encode items))) = [92]).
    { rewrite (suffix_at_forward q _ (len (encode items))), Hsq;
        cbn [json set_pos pos]; auto; try lia.
      now apply skipn_len_app. }
    destruct (suffix_at_next _ _ _ Hs2) as (Hc & _); [cbn; lia|].
    cbn [json set_pos pos] in Hc.
    replace (pos q + len (encode items) <? length q) with true
      by (symmetry; apply Z.ltb_lt; lia).
    rewrite Hc. cbn [Z.eqb Pos.eqb].
    replace (length q <=? pos q + len (encode items) + 1) with true
      by (symmetry; apply Z.leb_le; lia).
    eexists; split; [reflexivity|]. apply json_set_error_first. cbn; congruence.
Qed.

(** The input ends inside a [\u] escape, with fewer than four bytes behind
    the [u]: the escape handler fails before it reads a digit. *)
Lemma json_parse_string_cut_escape fuel p items tail :
  heap p = [] -> forallb item_ok items = true ->
  len tail < 4 ->
  suffix_at p = 34 :: encode items ++ 92 :: 117 :: tail ->
  0 <= pos p -> length p = pos p + 3 + len (encode items) + len tail ->
  1 <= max_string p < SIZE_MAX1 -> len items <= max_string p - 1 ->
  error p = JSON_ERROR_NONE -> (List.length items < fuel)%nat ->
  exists p',
    json_parse_string fuel p = Some (-1, p') /\
    error p' = JSON_ERROR_INVALID_UNICODE.
Proof.
  intros Hh Hok Htail Hs Hp Hl Hm Hb He Hf.
  destruct (json_parse_string_enter fuel p Hh)
    as (q & -> & Ht & Hj & Hlq & Hpq & Hmq & Heq).
  pose proof (len_nonneg (encode items)) as Henc.
  pose proof (len_nonneg tail) as Htl.
  assert (Hsq : suffix_at q = encode items ++ 92 :: 117 :: tail).
  { rewrite (suffix_at_forward p q 1), Hs by (auto; lia). reflexivity. }
  replace fuel with (List.length items + S (fuel - List.length items - 1))%nat
    by lia.
  rewrite (string_loop_items items _ _ q [] (92 :: 117 :: tail)); auto;
    try (rewrite ?len_nil; lia).
  cbn [string_loop pos set_pos length json].
  assert (Hs2 : suffix_at (set_pos q (pos q + len (encode items)))
                = 92 :: 117 :: tail).
  { rewrite (suffix_at_forward q _ (len (encode items))), Hsq;
      cbn [json set_pos pos]; auto; try lia.
    now apply skipn_len_app. }
  destruct (suffix_at_next _ _ _ Hs2) as (Hc & Hs3); [cbn; lia|].
  destruct (suffix_at_next _ _ _ Hs3) as (Hc2 & _); [cbn; lia|].
  cbn [json set_pos pos] in Hc, Hc2.
  replace (pos q + len (encode items) <? length q) with true
    by (symmetry; apply Z.ltb_lt; lia).
  rewrite Hc. cbn [Z.eqb Pos.eqb].
  replace (length q <=? pos q + len (encode items) + 1) with false
    by (symmetry; apply Z.leb_gt; lia).
  rewrite Hc2. cbn [Z.eqb Pos.eqb].
  unfold json_parse_unicode_escape. cbn [length pos set_pos].
  replace (length q <? pos q + len (encode items) + 1 + 1 + 4) with true
    by (symmetry; apply Z.ltb_lt; lia).
  cbn [Z.eqb]. eexists; split; [reflexivity|].
  apply json_set_error_first. cbn; congruence.
Qed.

(** [json_parser_parse] on an input that starts with a quote. *)
Lemma json_parser_parse_at_quote p0 rest :
  suffix_at p0 = 34 :: rest -> pos p0 < length p0 ->
  json_parser_parse p0 =
  match json_parse_string (parse_fuel p0 - 1)
                          (set_error p0 JSON_ERROR_NONE) with
  | None => None
  | Some (rc, p) =>
      if rc <? 0 then Some (error p, p)
      else
        let p := json_skip_whitespace p in
        let p := if negb (pos p =? length p)
                 then json_set_error p JSON_ERROR_TRAILING_CHARS
                 else p in
        Some (error p, p)
  end.
Proof.
  intros Hs Hl. unfold json_parser_parse.
  set (p := set_error p0 JSON_ERROR_NONE).
  assert (Hsp : suffix_at p = 34 :: rest) by exact Hs.
  rewrite (json_skip_whitespace_at p 34 rest Hsp) by reflexivity.
  replace (length p <=? pos p) with false
    by (symmetry; apply Z.leb_gt; exact Hl).
  replace (parse_fuel p) with (S (parse_fuel p0 - 1))
    by (unfold parse_fuel; cbn [length pos p set_error]; lia).
  now rewrite (json_parse_value_string _ p rest Hsp) by exact Hl.
Qed.

(** A fresh parser on [s] with the limit on decoded strings set to [m]. *)
Definition parser_with_max_string (s : list Z) (m : Z) : json_parser_t :=
  set_max_string (json_parser_init s (len s)) m.

Ltac init_fields :=
  cbn [pos length error heap max_string tokens json set_error
       parser_with_max_string set_max_string json_parser_init].

Section StringBoundary.
Variables (m : Z) (items : list string_item).
Hypothesis Hm : 1 <= m < SIZE_MAX1.
Hypothesis Hok : forallb item_ok items = true.

Let parse (s : list Z) := json_parser_parse (parser_with_max_string s m).

Lemma parse_fuel_string s :
  len (encode items) <= len s ->
  (List.length items < parse_fuel (parser_with_max_string s m) - 1)%nat.
Proof.
  intros H. pose proof (len_encode_ge items) as He.
  unfold parse_fuel. cbn [length pos parser_with_max_string set_max_string
                           json_parser_init].
  unfold len in *. lia.
Qed.

Lemma string_within_limit_parses :
  len items <= m - 1 ->
  parse_error (parse (quoted (encode items))) = Some JSON_ERROR_NONE /\
  parse_tokens (parse (quoted (encode items))) =
    Some [mk_token JSON_TOKEN_STRING (ValueString (decode items))
                   1 (1 + len (encode items))].
Proof.
  intros Hb. unfold parse.
  pose proof (len_nonneg (encode items)) as Henc.
  assert (Hlen : len (quoted (encode items)) = len (encode items) + 2).
  { unfold quoted. rewrite len_cons, len_app, len_cons, len_nil. lia. }
  rewrite (json_parser_parse_at_quote _ (encode items ++ [34]))
    by (try reflexivity; init_fields; lia).
  destruct (json_parse_string_quoted
              (parse_fuel (parser_with_max_string (quoted (encode items)) m) - 1)
              (set_error (parser_with_max_string (quoted (encode items)) m)
                         JSON_ERROR_NONE) items [])
    as (p' & -> & Ht & Hp & _ & Hl & He);
    try (init_fields; first [reflexivity | assumption | lia]).
  - apply parse_fuel_string. lia.
  - cbn [Z.ltb Z.compare]. cbn [pos length set_error parser_with_max_string
      set_max_string json_parser_init error tokens] in Hp, Hl, He, Ht.
    rewrite json_skip_whitespace_end by lia.
    replace (pos p' =? length p') with true
      by (symmetry; apply Z.eqb_eq; lia).
    cbn [negb parse_error parse_tokens option_map fst snd].
    rewrite He, Ht. split; reflexivity.
Qed.

Lemma string_past_limit_fails :
  m <= len items ->
  parse_error (parse (quoted (encode items)))
  = Some JSON_ERROR_STRING_TOO_LONG.
Proof.
  intros Hb. unfold parse.
  pose proof (len_nonneg (encode items)) as Henc.
  assert (Hlen : len (quoted (encode items)) = len (encode items) + 2).
  { unfold quoted. rewrite len_cons, len_app, len_cons, len_nil. lia. }
  rewrite (json_parser_parse_at_quote _ (encode items ++ [34]))
    by (try reflexivity; init_fields; lia).
  destruct (json_parse_string_too_long
              (parse_fuel (parser_with_max_string (quoted (encode items)) m) - 1)
              (set_error (parser_with_max_string (quoted (encode items)) m)
                         JSON_ERROR_NONE) items [34])
    as (p' & -> & He);
    try (init_fields; first [reflexivity | assumption | lia]).
  - apply parse_fuel_string. lia.
  - cbn [Z.ltb Z.compare parse_error option_map fst]. now rewrite He.
Qed.

Lemma string_unterminated_fails tail :
  tail = [] \/ tail = [92] -> len items <= m - 1 ->
  parse_error (parse (34 :: encode items ++ tail))
  = Some JSON_ERROR_UNEXPECTED_CHAR.
Proof.
  intros Htail Hb. unfold parse.
  pose proof (len_nonneg (encode items)) as Henc.
  pose proof (len_nonneg tail) as Htl.
  assert (Hlen : len (34 :: encode items ++ tail)
                 = len (encode items) + 1 + len tail).
  { rewrite len_cons, len_app. lia. }
  rewrite (json_parser_parse_at_quote _ (encode items ++ tail))
    by (try reflexivity; init_fields; lia).
  destruct (json_parse_string_unterminated
              (parse_fuel (parser_with_max_string
                             (34 :: encode items ++ tail) m) - 1)
              (set_error (parser_with_max_string
                            (34 :: encode items ++ tail) m)
                         JSON_ERROR_NONE) items tail)
    as (p' & -> & He);
    try (init_fields; first [reflexivity | assumption | lia]).
  - apply parse_fuel_string. lia.
  - cbn [Z.ltb Z.compare parse_error option_map fst]. now rewrite He.
Qed.

Lemma string_cut_escape_fails tail :
  len tail < 4 -> len items <= m - 1 ->
  parse_error (parse (34 :: encode items ++ 92 :: 117 :: tail))
  = Some JSON_ERROR_INVALID_UNICODE.
Proof.
  intros Htail Hb. unfold parse.
  pose proof (len_nonneg (encode items)) as Henc.
  pose proof (len_nonneg tail) as Htl.
  assert (Hlen : len (34 :: encode items ++ 92 :: 117 :: tail)
                 = len (encode items) + 3 + len tail).
  { rewrite len_cons, len_app, !len_cons. lia. }
  rewrite (json_parser_parse_at_quote _ (encode items ++ 92 :: 117 :: tail))
    by (try reflexivity; init_fields; lia).
  destruct (json_parse_string_cut_escape
              (parse_fuel (parser_with_max_string
                             (34 :: encode items ++ 92 :: 117 :: tail) m) - 1)
              (set_error (parser_with_max_string
                            (34 :: encode items ++ 92 :: 117 :: tail) m)
                         JSON_ERROR_NONE) items tail)
    as (p' & -> & He);
    try (init_fields; first [reflexivity | assumption | lia]).
  - apply parse_fuel_string. lia.
  - cbn [Z.ltb Z.compare parse_error option_map fst]. now rewrite He.
Qed.

End StringBoundary.

(** C7, the claim as it is stated against the code: an input that ends
    inside a [\u] escape reaches the end of the input before the closing
    quote and fails with [JSON_ERROR_INVALID_UNICODE], and so does a
    string whose last decoded byte, the one that does not fit, comes from
    a [\u] escape. *)
Lemma string_errors_inside_unicode_escape :
  parse_error (parse_text (34 :: escape_u "12"))
  = Some JSON_ERROR_INVALID_UNICODE /\
  parse_error (parse_text (34 :: escape_u "12"))
  <> Some JSON_ERROR_UNEXPECTED_CHAR /\
  parse_error (parse_text (quoted (repeat 97 255 ++ escape_u "0041")))
  = Some JSON_ERROR_INVALID_UNICODE /\
  parse_error (parse_text (quoted (repeat 97 255 ++ escape_u "0041")))
  <> Some JSON_ERROR_STRING_TOO_LONG.
Proof.
  split; [vm_compute; reflexivity|].
  split; [vm_compute; discriminate|].
  split; [vm_compute; reflexivity|].
  vm_compute; discriminate.
Qed.

(** ** Unicode escapes *)

(** The value of a sequence of hexadecimal digits. *)
Definition hex_value (cs : list Z) : Z := digits_value 16 cs.

(** The four bytes of the UTF-8 encoding of a code point above [0xFFFF]. *)
Definition utf8_4 (cp : Z) : list Z :=
  [240 + cp / 262144; 128 + (cp / 4096) mod 64; 128 + (cp / 64) mod 64;
   128 + cp mod 64].

Lemma read_hex4_digits cs :
  forall p cp rest,
    forallb isxdigit cs = true -> suffix_at p = cs ++ rest -> 0 <= pos p ->
    read_hex4 (List.length cs) p cp =
    (0, set_pos p (pos p + len cs),
     fold_left (fun acc c => acc * 16 + digit_value c) cs cp).
Proof.
  induction cs as [|c cs IH]; intros p cp rest Hx Hs Hp.
  - cbn. rewrite Z.add_0_r. now destruct p.
  - cbn [forallb] in Hx. apply andb_prop in Hx. destruct Hx as [Hc Hx].
    cbn [app] in Hs. destruct (suffix_at_next p c _ Hs Hp) as (Hb & Hs1).
    cbn [List.length read_hex4]. rewrite Hb.
    rewrite Z.shiftl_mul_pow2 by lia. change (2 ^ 4) with 16.
    assert (Hstep : forall v,
               v = digit_value c ->
               read_hex4 (List.length cs) (set_pos p (pos p + 1))
                         (cp * 16 + v) =
               (0, set_pos p (pos p + len (c :: cs)),
                fold_left (fun acc c0 => acc * 16 + digit_value c0)
                          (c :: cs) cp)).
    { intros v ->. rewrite (IH _ _ rest Hx Hs1) by (cbn; lia).
      rewrite set_pos_set_pos, len_cons. cbn [pos set_pos fold_left].
      replace (pos p + 1 + len cs) with (pos p + (len cs + 1)) by lia.
      reflexivity. }
    unfold isxdigit, isdigit in Hc. unfold digit_value, isdigit in Hstep.
    destruct ((48 <=? c) && (c <=? 57)) eqn:E1; [now apply Hstep|].
    destruct ((97 <=? c) && (c <=? 102)) eqn:E2; [now apply Hstep|].
    destruct ((65 <=? c) && (c <=? 70)) eqn:E3; [now apply Hstep|].
    discriminate.
Qed.

Lemma lor_high_bits a z :
  (a = 128 /\ 0 <= z < 64) \/ (a = 240 /\ 0 <= z < 8) ->
  Z.lor a z = a + z.
Proof.
  intros H.
  assert (Hz : exists n, z = Z.of_nat n /\ (n < 64)%nat)
    by (exists (Z.to_nat z); lia).
  destruct Hz as (n & -> & Hn).
  destruct H as [(-> & _) | (-> & H8)].
  - do 64 (destruct n as [|n]; [reflexivity|]). lia.
  - do 8 (destruct n as [|n]; [reflexivity|]). lia.
Qed.

(** The bytes [json_parse_unicode_escape] writes for a code point of the
    supplementary planes are its UTF-8 encoding. *)
Lemma utf8_append_supplementary p buf cp :
  65536 <= cp <= 1114111 ->
  4 <= max_string p < SIZE_MAX1 -> len buf < max_string p - 4 ->
  utf8_append p buf cp = (0, p, buf ++ utf8_4 cp).
Proof.
  intros Hcp Hm Hb. unfold utf8_append.
  replace (cp <=? 127) with false by (symmetry; apply Z.leb_gt; lia).
  replace (cp <=? 2047) with false by (symmetry; apply Z.leb_gt; lia).
  replace (cp <=? 65535) with false by (symmetry; apply Z.leb_gt; lia).
  rewrite to_size_t_small by (unfold SIZE_MAX1 in Hm; cbn in Hm; lia).
  replace (max_string p - 4 <=? len buf) with false
    by (symmetry; apply Z.leb_gt; lia).
  rewrite !Z.shiftr_div_pow2 by lia.
  change 63 with (Z.ones 6). rewrite !Z.land_ones by lia.
  change (2 ^ 18) with 262144. change (2 ^ 12) with 4096.
  change (2 ^ 6) with 64.
  assert (H1 : 0 <= cp / 262144 < 8).
  { split; [apply Z.div_pos; lia|apply Z.div_lt_upper_bound; lia]. }
  assert (H2 : 0 <= (cp / 4096) mod 64 < 64) by (apply Z.mod_pos_bound; lia).
  assert (H3 : 0 <= (cp / 64) mod 64 < 64) by (apply Z.mod_pos_bound; lia).
  assert (H4 : 0 <= cp mod 64 < 64) by (apply Z.mod_pos_bound; lia).
  rewrite (lor_high_bits 240), !(lor_high_bits 128) by lia.
  unfold to_char, utf8_4.
  repeat match goal with
         | |- context [(?a + ?b) mod 256] =>
             rewrite (Z.mod_small (a + b) 256) by lia
         end.
  reflexivity.
Qed.

Lemma hex_value_fold cs :
  fold_left (fun acc c => acc * 16 + digit_value c) cs 0 = hex_value cs.
Proof. reflexivity. Qed.

(** A high surrogate followed by the escape of a low surrogate. *)
Lemma json_parse_unicode_escape_pair p buf hs ls rest :
  List.length hs = 4%nat -> List.length ls = 4%nat ->
  forallb isxdigit hs = true -> forallb isxdigit ls = true ->
  55296 <= hex_value hs <= 56319 -> 56320 <= hex_value ls <= 57343 ->
  suffix_at p = hs ++ 92 :: 117 :: ls ++ rest ->
  0 <= pos p -> pos p + 10 <= length p ->
  4 <= max_string p < SIZE_MAX1 -> len buf < max_string p - 4 ->
  json_parse_unicode_escape p buf =
  (0, set_pos p (pos p + 10),
   buf ++ utf8_4 (65536 + (hex_value hs - 55296) * 1024
                  + (hex_value ls - 56320))).
Proof.
  intros Lh Ll Xh Xl Hh Hl Hs Hp Hlen Hm Hb.
  assert (Lh' : len hs = 4) by (unfold len; lia).
  assert (Ll' : len ls = 4) by (unfold len; lia).
  unfold json_parse_unicode_escape.
  replace (length p <? pos p + 4) with false
    by (symmetry; apply Z.ltb_ge; lia).
  rewrite <- Lh at 1.
  rewrite (read_hex4_digits hs p 0 _ Xh Hs Hp), hex_value_fold, Lh'.
  cbn [Z.eqb negb].
  replace ((55296 <=? hex_value hs) && (hex_value hs <=? 56319)) with true
    by (symmetry; apply andb_true_intro; split; apply Z.leb_le; lia).
  set (p1 := set_pos p (pos p + 4)).
  assert (Hs1 : suffix_at p1 = 92 :: 117 :: ls ++ rest).
  { unfold p1. rewrite (suffix_at_forward p _ 4), Hs;
      cbn [json set_pos pos]; auto; try lia.
    now apply skipn_len_app. }
  destruct (suffix_at_next p1 _ _ Hs1) as (Hc1 & Hs2); [cbn; lia|].
  destruct (suffix_at_next _ _ _ Hs2) as (Hc2 & Hs3); [cbn; lia|].
  cbn [json pos set_pos] in Hc2. rewrite Hc1, Hc2.
  replace (length p1 <? pos p1 + 6) with false
    by (symmetry; apply Z.ltb_ge; cbn; lia).
  cbn [Z.eqb Pos.eqb negb orb].
  rewrite set_pos_set_pos in Hs3.
  change (pos (set_pos p1 (pos p1 + 1))) with (pos p1 + 1) in Hs3.
  replace (pos p1 + 2) with (pos p1 + 1 + 1) by lia.
  rewrite <- Ll at 1.
  rewrite (read_hex4_digits ls _ 0 _ Xl Hs3), hex_value_fold, Ll'
    by (cbn; lia).
  cbn [Z.eqb negb].
  replace ((hex_value ls <? 56320) || (57343 <? hex_value ls)) with false
    by (symmetry; apply orb_false_intro; apply Z.ltb_ge; lia).
  rewrite Z.shiftl_mul_pow2 by lia. change (2 ^ 10) with 1024.
  rewrite utf8_append_supplementary; cbn [max_string set_pos p1]; try lia.
  unfold p1. rewrite !set_pos_set_pos. cbn [pos set_pos].
  replace (pos p + 4 + 1 + 1 + 4) with (pos p + 10) by lia. reflexivity.
Qed.

(** A high surrogate that no escape of a low surrogate follows. *)
Lemma json_parse_unicode_escape_lone_high p buf hs rest :
  List.length hs = 4%nat -> forallb isxdigit hs = true ->
  55296 <= hex_value hs <= 56319 ->
  suffix_at p = hs ++ rest -> 0 <= pos p -> pos p + 4 <= length p ->
  length p < pos p + 10 \/ hd 0 rest <> 92 \/ hd 0 (tl rest) <> 117 ->
  fst (fst (json_parse_unicode_escape p buf)) = -1.
Proof.
  intros Lh Xh Hh Hs Hp Hlen Hno.
  assert (Lh' : len hs = 4) by (unfold len; lia).
  unfold json_parse_unicode_escape.
  replace (length p <? pos p + 4) with false
    by (symmetry; apply Z.ltb_ge; lia).
  rewrite <- Lh at 1.
  rewrite (read_hex4_digits hs p 0 _ Xh Hs Hp), hex_value_fold, Lh'.
  cbn [Z.eqb negb].
  replace ((55296 <=? hex_value hs) && (hex_value hs <=? 56319)) with true
    by (symmetry; apply andb_true_intro; split; apply Z.leb_le; lia).
  set (p1 := set_pos p (pos p + 4)).
  assert (Hs1 : suffix_at p1 = rest).
  { unfold p1. rewrite (suffix_at_forward p _ 4), Hs;
      cbn [json set_pos pos]; auto; try lia.
    now apply skipn_len_app. }
  assert (Hb1 : byte_at (json p1) (pos p1) = hd 0 rest)
    by (now rewrite byte_at_suffix, Hs1).
  assert (Hb2 : byte_at (json p1) (pos p1 + 1) = hd 0 (tl rest)).
  { change (byte_at (json (set_pos p1 (pos p1 + 1)))
                    (pos (set_pos p1 (pos p1 + 1))) = hd 0 (tl rest)).
    rewrite byte_at_suffix.
    rewrite (suffix_at_forward p1 _ 1), Hs1
      by first [reflexivity | unfold p1; cbn [pos set_pos]; lia].
    now destruct rest. }
  rewrite Hb1, Hb2.
  destruct ((length p1 <? pos p1 + 6) || negb (hd 0 rest =? 92)
            || negb (hd 0 (tl rest) =? 117)) eqn:E; [reflexivity|].
  apply orb_false_elim in E. destruct E as [E E3].
  apply orb_false_elim in E. destruct E as [E1 E2].
  apply Z.ltb_ge in E1. apply negb_false_iff, Z.eqb_eq in E2, E3.
  cbn [length pos set_pos p1] in E1. lia.
Qed.

(** A low surrogate on its own. *)
Lemma json_parse_unicode_escape_lone_low p buf ls rest :
  List.length ls = 4%nat -> forallb isxdigit ls = true ->
  56320 <= hex_value ls <= 57343 ->
  suffix_at p = ls ++ rest -> 0 <= pos p -> pos p + 4 <= length p ->
  fst (fst (json_parse_unicode_escape p buf)) = -1.
Proof.
  intros Ll Xl Hl Hs Hp Hlen.
  assert (Ll' : len ls = 4) by (unfold len; lia).
  unfold json_parse_unicode_escape.
  replace (length p <? pos p + 4) with false
    by (symmetry; apply Z.ltb_ge; lia).
  rewrite <- Ll at 1.
  rewrite (read_hex4_digits ls p 0 _ Xl Hs Hp), hex_value_fold, Ll'.
  cbn [Z.eqb negb].
  replace ((55296 <=? hex_value ls) && (hex_value ls <=? 56319)) with false
    by (symmetry; apply andb_false_intro2; apply Z.leb_gt; lia).
  replace ((56320 <=? hex_value ls) && (hex_value ls <=? 57343)) with true
    by (symmetry; apply andb_true_intro; split; apply Z.leb_le; lia).
  reflexivity.
Qed.

(** A round of the string loop on a [\u] escape. *)
Lemma string_loop_escape_u fuel token p buf rest :
  suffix_at p = 92 :: 117 :: rest -> 0 <= pos p -> pos p + 2 <= length p ->
  string_loop (S fuel) token p buf =
  match json_parse_unicode_escape (set_pos p (pos p + 1 + 1)) buf with
  | (rc, p, buf) =>
      if rc =? 0 then string_loop fuel token p buf
      else Some (-1, json_set_error p JSON_ERROR_INVALID_UNICODE)
  end.
Proof.
  intros Hs Hp Hl. cbn [string_loop].
  destruct (suffix_at_next p _ _ Hs Hp) as (Hc1 & Hs1).
  destruct (suffix_at_next _ _ _ Hs1) as (Hc2 & _); [cbn; lia|].
  cbn [json pos set_pos length] in *.
  replace (pos p <? length p) with true by (symmetry; apply Z.ltb_lt; lia).
  rewrite Hc1. cbn [Z.eqb Pos.eqb].
  replace (length p <=? pos p + 1) with false
    by (symmetry; apply Z.leb_gt; lia).
  rewrite Hc2. reflexivity.
Qed.

(** The string literal that holds one escaped surrogate pair. *)
Lemma json_parse_string_pair fuel p hs ls rest :
  heap p = [] ->
  List.length hs = 4%nat -> List.length ls = 4%nat ->
  forallb isxdigit hs = true -> forallb isxdigit ls = true ->
  55296 <= hex_value hs <= 56319 -> 56320 <= hex_value ls <= 57343 ->
  suffix_at p = 34 :: 92 :: 117 :: hs ++ 92 :: 117 :: ls ++ 34 :: rest ->
  0 <= pos p -> pos p + 14 <= length p ->
  5 <= max_string p < SIZE_MAX1 -> (2 <= fuel)%nat ->
  exists p',
    json_parse_string fuel p = Some (0, p') /\
    tokens p' = tokens p ++
      [mk_token JSON_TOKEN_STRING
         (ValueString (utf8_4 (65536 + (hex_value hs - 55296) * 1024
                               + (hex_value ls - 56320))))
         (pos p + 1) (pos p + 13)] /\
    pos p' = pos p + 14 /\ length p' = length p /\ error p' = error p.
Proof.
  intros Hh Lh Ll Xh Xl Rh Rl Hs Hp Hl Hm Hf.
  destruct (json_parse_string_enter fuel p Hh)
    as (q & -> & Ht & Hj & Hlq & Hpq & Hmq & Heq).
  assert (Hsq : suffix_at q = 92 :: 117 :: hs ++ 92 :: 117 :: ls ++ 34 :: rest).
  { rewrite (suffix_at_forward p q 1), Hs by (auto; lia). reflexivity. }
  destruct fuel as [|[|f]]; try lia.
  rewrite (string_loop_escape_u _ _ q [] _ Hsq) by lia.
  rewrite (json_parse_unicode_escape_pair _ [] hs ls (34 :: rest));
    cbn [pos set_pos length max_string]; auto; try (rewrite ?len_nil; lia).
  2:{ rewrite (suffix_at_forward q _ 2), Hsq by (cbn; auto; lia).
      reflexivity. }
  cbn [Z.eqb app]. rewrite set_pos_set_pos.
  erewrite (string_loop_close _ q _ _ rest); try exact Ht; try lia.
  - eexists; split; [reflexivity|].
    cbn [tokens set_tokens set_pos pos json length error with_value with_end
         type start value end_].
    rewrite Hpq. repeat split; auto; try lia.
    replace (pos p + 1 + 1 + 1 + 10) with (pos p + 13) by lia. reflexivity.
  - rewrite (suffix_at_forward q _ 12), Hsq by (cbn; auto; lia).
    assert (L : len (92 :: 117 :: hs ++ 92 :: 117 :: ls) = 12).
    { rewrite !len_cons, len_app, !len_cons. unfold len. lia. }
    replace (92 :: 117 :: hs ++ 92 :: 117 :: ls ++ 34 :: rest)
      with ((92 :: 117 :: hs ++ 92 :: 117 :: ls) ++ 34 :: rest)
      by (cbn [app]; now rewrite <- !app_assoc).
    now apply skipn_len_app.
Qed.

(** The string literal that starts with a [\u] escape the escape handler
    rejects. *)
Lemma json_parse_string_bad_escape fuel p rest :
  heap p = [] -> suffix_at p = 34 :: 92 :: 117 :: rest ->
  0 <= pos p -> pos p + 3 <= length p ->
  error p = JSON_ERROR_NONE -> (1 <= fuel)%nat ->
  (forall q,
      suffix_at q = rest -> pos q = pos p + 3 -> length q = length p ->
      fst (fst (json_parse_unicode_escape q [])) = -1) ->
  exists p',
    json_parse_string fuel p = Some (-1, p') /\
    error p' = JSON_ERROR_INVALID_UNICODE.
Proof.
  intros Hh Hs Hp Hl He Hf Hbad.
  destruct (json_parse_string_enter fuel p Hh)
    as (q & -> & Ht & Hj & Hlq & Hpq & Hmq & Heq).
  assert (Hsq : suffix_at q = 92 :: 117 :: rest).
  { rewrite (suffix_at_forward p q 1), Hs by (auto; lia). reflexivity. }
  destruct fuel as [|f]; try lia.
  rewrite (string_loop_escape_u _ _ q [] _ Hsq) by lia.
  specialize (Hbad (set_pos q (pos q + 1 + 1))).
  destruct (json_parse_unicode_escape _ []) as [[rc q1] buf1] eqn:E.
  cbn [fst] in Hbad. rewrite Hbad; cbn [pos set_pos length]; try lia.
  - apply json_parse_unicode_escape_fields in E.
    destruct E as (_ & _ & E & _). cbn [error set_pos] in E.
    cbn [Z.eqb]. eexists; split; [reflexivity|].
    apply json_set_error_first. congruence.
  - rewrite (suffix_at_forward q _ 2), Hsq by (cbn; auto; lia). reflexivity.
Qed.

Section SurrogatePairs.
Variables hs ls : list Z.
Hypothesis Lh : List.length hs = 4%nat.
Hypothesis Ll : List.length ls = 4%nat.
Hypothesis Xh : forallb isxdigit hs = true.
Hypothesis Xl : forallb isxdigit ls = true.
Hypothesis Rh : 55296 <= hex_value hs <= 56319.
Hypothesis Rl : 56320 <= hex_value ls <= 57343.

Lemma surrogate_pair_parses :
  parse_error (parse_text (quoted (92 :: 117 :: hs ++ 92 :: 117 :: ls)))
  = Some JSON_ERROR_NONE /\
  parse_tokens (parse_text (quoted (92 :: 117 :: hs ++ 92 :: 117 :: ls)))
  = Some [mk_token JSON_TOKEN_STRING
            (ValueString
               (utf8_4 (65536 + Z.shiftl (hex_value hs - 55296) 10
                        + (hex_value ls - 56320))))
            1 13].
Proof.
  unfold parse_text.
  assert (Hlen : len (quoted (92 :: 117 :: hs ++ 92 :: 117 :: ls)) = 14).
  { unfold quoted.
    rewrite !len_cons, len_app, !len_cons, len_app, !len_cons, len_nil.
    unfold len. lia. }
  rewrite Hlen.
  rewrite (json_parser_parse_at_quote _
             ((92 :: 117 :: hs ++ 92 :: 117 :: ls) ++ [34]))
    by (try reflexivity; cbn [pos length json_parser_init]; lia).
  destruct (json_parse_string_pair
              (parse_fuel (json_parser_init
                 (quoted (92 :: 117 :: hs ++ 92 :: 117 :: ls)) 14) - 1)
              (set_error (json_parser_init
                 (quoted (92 :: 117 :: hs ++ 92 :: 117 :: ls)) 14)
                 JSON_ERROR_NONE) hs ls [])
    as (p' & -> & Ht & Hp & Hl & He); auto;
    try (cbn [pos length max_string set_error json_parser_init];
         unfold JSON_DEFAULT_MAX_STRING, SIZE_MAX1; lia).
  - unfold suffix_at, quoted.
    cbn [pos json set_error json_parser_init Z.to_nat skipn app].
    now rewrite <- !app_assoc.
  - unfold parse_fuel. cbn [pos length json_parser_init]. lia.
  - cbn [Z.ltb Z.compare].
    cbn [pos length set_error json_parser_init error tokens] in Hp, Hl, He, Ht.
    rewrite json_skip_whitespace_end by lia.
    replace (pos p' =? length p') with true
      by (symmetry; apply Z.eqb_eq; lia).
    cbn [negb parse_error parse_tokens option_map fst snd].
    rewrite He, Ht, Z.shiftl_mul_pow2 by lia. split; reflexivity.
Qed.

Lemma lone_surrogate_fails cs :
  cs = hs \/ cs = ls ->
  parse_error (parse_text (quoted (92 :: 117 :: cs)))
  = Some JSON_ERROR_INVALID_UNICODE.
Proof.
  intros Hcs. unfold parse_text.
  assert (Lc : List.length cs = 4%nat) by (destruct Hcs; subst; assumption).
  assert (Hlen : len (quoted (92 :: 117 :: cs)) = 8).
  { unfold quoted. rewrite !len_cons, len_app, !len_cons, len_nil.
    unfold len. lia. }
  rewrite Hlen.
  rewrite (json_parser_parse_at_quote _ ((92 :: 117 :: cs) ++ [34]))
    by (try reflexivity; cbn [pos length json_parser_init]; lia).
  destruct (json_parse_string_bad_escape
              (parse_fuel (json_parser_init (quoted (92 :: 117 :: cs)) 8) - 1)
              (set_error (json_parser_init (quoted (92 :: 117 :: cs)) 8)
                         JSON_ERROR_NONE) (cs ++ [34]))
    as (p' & -> & He); auto;
    try (cbn [pos length set_error json_parser_init]; lia).
  - unfold parse_fuel. cbn [pos length json_parser_init]. lia.
  - intros q Hsq Hpq Hlq.
    cbn [pos length set_error json_parser_init] in Hpq, Hlq.
    destruct Hcs as [-> | ->].
    + apply (json_parse_unicode_escape_lone_high q [] hs [34]); auto; try lia.
    + apply (json_parse_unicode_escape_lone_low q [] ls [34]); auto; lia.
  - cbn [Z.ltb Z.compare parse_error option_map fst]. now rewrite He.
Qed.

End SurrogatePairs.

(** C8.  For every high surrogate [hs] and low surrogate [ls], written
    with four hexadecimal digits each: the string that holds the escape
    of [hs] followed by the escape of [ls] decodes into one String token
    whose bytes are the UTF-8 encoding of
    [0x10000 + ((high - 0xD800) << 10) + (low - 0xDC00)]; the string that
    holds the escape of [hs] alone, or of [ls] alone, fails with
    [JSON_ERROR_INVALID_UNICODE]. *)
Theorem surrogate_pair_decodes hs ls :
  List.length hs = 4%nat -> List.length ls = 4%nat ->
  forallb isxdigit hs = true -> forallb isxdigit ls = true ->
  55296 <= hex_value hs <= 56319 -> 56320 <= hex_value ls <= 57343 ->
  parse_error (parse_text (quoted (92 :: 117 :: hs ++ 92 :: 117 :: ls)))
  = Some JSON_ERROR_NONE /\
  parse_tokens (parse_text (quoted (92 :: 117 :: hs ++ 92 :: 117 :: ls)))
  = Some [mk_token JSON_TOKEN_STRING
            (ValueString
               (utf8_4 (65536 + Z.shiftl (hex_value hs - 55296) 10
                        + (hex_value ls - 56320))))
            1 13] /\
  parse_error (parse_text (quoted (92 :: 117 :: hs)))
  = Some JSON_ERROR_INVALID_UNICODE /\
  parse_error (parse_text (quoted (92 :: 117 :: ls)))
  = Some JSON_ERROR_INVALID_UNICODE.
Proof.
  intros Lh Ll Xh Xl Rh Rl.
  destruct (surrogate_pair_parses hs ls Lh Ll Xh Xl Rh Rl) as (H1 & H2).
  split; [exact H1|]. split; [exact H2|]. split.
  - apply (lone_surrogate_fails hs ls); auto.
  - apply (lone_surrogate_fails hs ls); auto.
Qed.

(** The pair [D800 DC00] is U+10000, the bytes [F0 90 80 80]. *)
Lemma surrogate_pair_decodes_witness :
  parse_error (parse_text (quoted (escape_u "D800" ++ escape_u "DC00")))
  = Some JSON_ERROR_NONE /\
  parse_tokens (parse_text (quoted (escape_u "D800" ++ escape_u "DC00")))
  = Some [mk_token JSON_TOKEN_STRING (ValueString [240; 144; 128; 128])
                   1 13] /\
  parse_error (parse_text (quoted (escape_u "D800")))
  = Some JSON_ERROR_INVALID_UNICODE /\
  parse_error (parse_text (quoted (escape_u "DC00")))
  = Some JSON_ERROR_INVALID_UNICODE.
Proof.
  apply (surrogate_pair_decodes (bytes "D800") (bytes "DC00"));
    try reflexivity; vm_compute; split; discriminate.
Defined.

(** * Further properties of the handlers *)

(** ** The token array: how many tokens a parse can add *)

Lemma length_update_nth i f ts :
  List.length (update_nth i f ts) = List.length ts.
Proof.
  revert i; induction ts as [|t ts IH]; intros [|i]; simpl; auto.
Qed.

Lemma length_tokens_store_token q f p :
  List.length (tokens (store_token q f p)) = List.length (tokens p).
Proof.
  unfold store_token; destruct Nat.eqb; cbn; auto using length_update_nth.
Qed.

Lemma tokens_close_container_length token p :
  List.length (tokens (close_container token p)) = List.length (tokens p).
Proof.
  unfold close_container. cbn. now rewrite length_tokens_store_token.
Qed.

Lemma tokens_block_close_container token p :
  tokens_block (close_container token p) = tokens_block p.
Proof. unfold close_container. cbn. now fields. Qed.

(** What [json_add_token] does to the array: one token more in the live
    block or in a fresh one, or nothing where [realloc] fails. *)
Lemma json_add_token_tokens p ty rc p' :
  json_add_token p ty = (rc, p') ->
  pos p' = pos p /\
  (tokens_block p <= tokens_block p')%nat /\
  ((rc = 0 /\ tokens p' = tokens p ++ [mk_token ty ValueZero (pos p) (pos p)])
   \/ (rc = -1 /\ tokens p' = tokens p)).
Proof.
  unfold json_add_token; intros H.
  destruct (token_cap p <=? token_count p).
  - destruct (allocate p) as [a p1] eqn:Ea.
    apply allocate_fields in Ea.
    destruct Ea as (_ & _ & Hp & Ht & Hb & _).
    destruct a; inversion H; subst; fields; rewrite ?Hp, ?Ht, ?Hb;
      repeat split; auto.
  - inversion H; subst; cbn; auto.
Qed.

(** [grows p rc p']: the cursor has not moved back, the array has not
    shrunk, and it has gained at most one token for each byte consumed,
    and one more where the handler fails. *)
Definition grows (p : json_parser_t) (rc : Z) (p' : json_parser_t) : Prop :=
  pos p <= pos p' /\
  (tokens_block p <= tokens_block p')%nat /\
  len (tokens p) <= len (tokens p') /\
  len (tokens p') - len (tokens p) <= pos p' - pos p + 1 /\
  (rc = 0 -> len (tokens p') - len (tokens p) <= pos p' - pos p).

Definition growing (h : handler) : Prop :=
  forall p rc p', h p = Some (rc, p') -> grows p rc p'.

Create Rewrite HintDb store.

#[export] Hint Rewrite
  length_tokens_store_token tokens_close_container_length
  tokens_block_close_container tokens_block_store_token
  pos_store_token length_app : store.

Ltac whitespace_facts :=
  repeat match goal with
         | |- context [skip_whitespace_loop ?n ?b ?l ?q] =>
             let X := fresh in
             pose proof (skip_whitespace_loop_ge n b l q) as X;
             generalize dependent (skip_whitespace_loop n b l q); intros
         | _ : context [skip_whitespace_loop ?n ?b ?l ?q] |- _ =>
             let X := fresh in
             pose proof (skip_whitespace_loop_ge n b l q) as X;
             generalize dependent (skip_whitespace_loop n b l q); intros
         end.

Ltac store_rewrite :=
  repeat match goal with
         | H : ?x = ?x |- _ => clear H
         end;
  repeat progress
    (rewrite ?length_tokens_store_token, ?tokens_close_container_length,
       ?tokens_block_close_container, ?tokens_block_store_token,
       ?pos_store_token, ?length_app in *;
     cbn in *).

Ltac grows_finish :=
  unfold grows, leaf_step, same_input, len in *; fields;
  repeat match goal with
         | H : _ /\ _ |- _ => destruct H
         | H : _ \/ _ |- _ => destruct H
         end;
  subst; use_close; store_rewrite;
  repeat match goal with
         | H : tokens _ = _ |- _ => rewrite H in *; clear H
         end;
  store_rewrite; fields; whitespace_facts;
  repeat match goal with
         | H : _ /\ _ |- _ => destruct H
         end;
  repeat split; try lia.

Lemma string_loop_grows fuel token p buf rc p' :
  string_loop fuel token p buf = Some (rc, p') ->
  pos p <= pos p' /\ tokens_block p' = tokens_block p /\
  List.length (tokens p') = List.length (tokens p).
Proof.
  revert p buf rc p'; induction fuel as [|fuel IH]; intros p buf rc p' H;
    [discriminate|].
  simpl in H.
  repeat (split_match H;
          try match goal with
              | E : json_parse_unicode_escape _ _ = _ |- _ =>
                  apply json_parse_unicode_escape_fields in E; cbn in E
              end);
    first [ apply IH in H | inversion H; subst ];
    fields; autorewrite with store in *; cbn in *;
    repeat match goal with
           | H : _ /\ _ |- _ => destruct H
           end;
    repeat split; try congruence; try lia.
Qed.

Lemma json_parse_string_grows fuel : growing (json_parse_string fuel).
Proof.
  intros p rc p' H. unfold json_parse_string in H.
  destruct (json_add_token p JSON_TOKEN_STRING) as [rc1 p1] eqn:Ea.
  apply json_add_token_tokens in Ea.
  destruct (negb (rc1 =? 0)) eqn:Erc.
  - inversion H; subst. destruct Ea as (? & ? & [[? ?]|[? ?]]);
      [subst; discriminate|]. grows_finish.
  - destruct (allocate _) as [a p2] eqn:Eal.
    apply allocate_fields in Eal.
    assert (rc1 = 0) by (destruct (rc1 =? 0) eqn:E; [lia|discriminate]).
    destruct Ea as (? & ? & [[_ Ht]|[? ?]]); [|lia].
    destruct a; try (apply string_loop_grows in H; cbn in H);
      try (inversion H; subst);
      autorewrite with store in *;
      destruct Eal as (_ & _ & Hp2 & Ht2 & Hb2 & _);
      autorewrite with store in *;
      unfold grows, len; fields;
      repeat match goal with
             | H : _ /\ _ |- _ => destruct H
             end;
      rewrite ?Ht2, ?Hb2, ?Hp2 in *; autorewrite with store in *;
      rewrite ?Ht in *; autorewrite with store in *; cbn [List.length] in *;
      repeat split; try lia.
Qed.

Lemma json_parse_number_grows p rc p' :
  json_parse_number p = (rc, p') -> grows p rc p'.
Proof.
  unfold json_parse_number; intros H.
  destruct (number_scan _) as [s|] eqn:Es.
  - apply number_scan_len in Es.
    destruct (strtod _) as [num consumed].
    destruct (negb (consumed =? _)).
    + inversion H; subst; grows_finish.
    + destruct (json_add_token p JSON_TOKEN_NUMBER) as [rc1 p1] eqn:Ea.
      apply json_add_token_tokens in Ea.
      destruct (negb (rc1 =? 0)) eqn:Erc; inversion H; subst; grows_finish.
  - inversion H; subst; grows_finish.
Qed.

Lemma json_parse_literal_grows p literal ty rc p' :
  1 <= len literal ->
  json_parse_literal p literal ty = (rc, p') -> grows p rc p'.
Proof.
  unfold json_parse_literal; intros Hl H.
  destruct (length p <? _); [inversion H; subst; grows_finish|].
  destruct (negb (strncmp_eq _ _)); [inversion H; subst; grows_finish|].
  destruct (json_add_token _ ty) as [rc1 p1] eqn:Ea.
  apply json_add_token_tokens in Ea. cbn in Ea.
  destruct (negb (rc1 =? 0)) eqn:Erc; inversion H; subst; grows_finish.
Qed.

Ltac use_growing :=
  match goal with
  | E : json_parse_number _ = (_, _) |- _ =>
      apply json_parse_number_grows in E
  | E : json_parse_literal _ _ _ = (_, _) |- _ =>
      apply json_parse_literal_grows in E; [|vm_compute; discriminate]
  | E : json_add_token _ _ = (_, _) |- _ =>
      apply json_add_token_tokens in E
  | Hh : growing ?h, E : ?h _ = Some _ |- _ => apply Hh in E
  | Hh : forall t, growing (?h t), E : ?h _ _ = Some _ |- _ =>
      apply Hh in E
  end.

Ltac run_growing H :=
  unfold and_then in H;
  repeat (first [ split_match H | progress (try use_growing) ]);
  try discriminate;
  try match type of H with
      | Some _ = Some _ => inversion H; subst; clear H
      end;
  repeat use_growing.

Lemma json_parse_value_body_grows po pa ps :
  growing po -> growing pa -> growing ps ->
  growing (json_parse_value_body po pa ps).
Proof.
  intros Ho Ha Hs p rc p' H. unfold json_parse_value_body in H.
  run_growing H; grows_finish.
Qed.

Lemma container_body_grows ty closer loop :
  (forall t, growing (loop t)) -> growing (container_body ty closer loop).
Proof.
  intros Hl p rc p' H. unfold container_body in H.
  run_growing H; grows_finish.
Qed.

Lemma object_loop_body_grows ps pv again token :
  growing ps -> growing pv -> growing again ->
  growing (object_loop_body ps pv again token).
Proof.
  intros Hs Hv Ha p rc p' H. unfold object_loop_body in H.
  run_growing H; grows_finish.
Qed.

Lemma array_loop_body_grows pv again token :
  growing pv -> growing again -> growing (array_loop_body pv again token).
Proof.
  intros Hv Ha p rc p' H. unfold array_loop_body in H.
  run_growing H; grows_finish.
Qed.

Lemma handlers_grow fuel :
  growing (json_parse_value fuel) /\
  growing (json_parse_object fuel) /\
  (forall t, growing (object_loop fuel t)) /\
  growing (json_parse_array fuel) /\
  (forall t, growing (array_loop fuel t)).
Proof.
  induction fuel as [|fuel (Hv & Ho & Hol & Ha & Hal)].
  - repeat split; intros; discriminate.
  - split; [|split; [|split; [|split]]]; [| |intros t| |intros t];
      cbn [json_parse_value json_parse_object object_loop json_parse_array
           array_loop].
    + apply json_parse_value_body_grows; auto.
      apply json_parse_string_grows.
    + apply container_body_grows; auto.
    + apply object_loop_body_grows; auto.
      apply json_parse_string_grows.
    + apply container_body_grows; auto.
    + apply array_loop_body_grows; auto.
Qed.

(** ** The token array: what is in it stays *)

Lemma firstn_update_nth n i f ts :
  (n <= i)%nat -> firstn n (update_nth i f ts) = firstn n ts.
Proof.
  revert n i; induction ts as [|t ts IH]; intros [|n] [|i] H; simpl; auto;
    try lia.
  f_equal. apply IH. lia.
Qed.

Lemma firstn_tokens_store_token n q f p :
  (n <= ptr_index q)%nat ->
  firstn n (tokens (store_token q f p)) = firstn n (tokens p).
Proof.
  intros H. unfold store_token; destruct Nat.eqb; cbn;
    auto using firstn_update_nth.
Qed.

Lemma firstn_tokens_close_container n token p :
  (n <= ptr_index token)%nat ->
  firstn n (tokens (close_container token p)) = firstn n (tokens p).
Proof.
  intros H. unfold close_container. cbn.
  now rewrite firstn_tokens_store_token.
Qed.

Lemma firstn_app_left {A : Type} n (l r : list A) :
  (n <= List.length l)%nat -> firstn n (l ++ r) = firstn n l.
Proof.
  intros H. rewrite firstn_app.
  replace (n - List.length l)%nat with O by lia.
  cbn. apply app_nil_r.
Qed.

(** [kept n p p']: the first [n] tokens of [p] are the first [n] tokens
    of [p']. *)
Definition kept (n : nat) (p p' : json_parser_t) : Prop :=
  (n <= List.length (tokens p))%nat ->
  firstn n (tokens p') = firstn n (tokens p) /\
  (n <= List.length (tokens p'))%nat.

Definition keeping (n : nat) (h : handler) : Prop :=
  forall p rc p', h p = Some (rc, p') -> kept n p p'.

Lemma kept_trans n p q r : kept n p q -> kept n q r -> kept n p r.
Proof. unfold kept; intros H1 H2 H. intuition congruence. Qed.

Lemma kept_with n p p' :
  ((n <= List.length (tokens p))%nat -> kept n p p') -> kept n p p'.
Proof. unfold kept; tauto. Qed.

Lemma kept_tokens n p q : tokens q = tokens p -> kept n p q.
Proof. unfold kept; intros ->; auto. Qed.

Lemma kept_store_token n q f p :
  (n <= ptr_index q)%nat -> kept n p (store_token q f p).
Proof.
  intros H Hn. rewrite firstn_tokens_store_token, length_tokens_store_token;
    auto.
Qed.

Lemma kept_close_container n token p :
  (n <= ptr_index token)%nat -> kept n p (close_container token p).
Proof.
  intros H Hn.
  rewrite firstn_tokens_close_container, tokens_close_container_length; auto.
Qed.

Lemma kept_json_add_token n p ty rc p' :
  json_add_token p ty = (rc, p') -> kept n p p'.
Proof.
  intros H Hn. apply json_add_token_tokens in H.
  destruct H as (_ & _ & [[_ ->]|[_ ->]]); auto.
  rewrite firstn_app_left, length_app; auto. split; auto. lia.
Qed.

(** The address of the token [json_add_token] has appended lies above
    the tokens that were there. *)
Lemma json_add_token_last n p ty p' :
  json_add_token p ty = (0, p') -> (n <= List.length (tokens p))%nat ->
  (n <= ptr_index (last_token_ptr p'))%nat.
Proof.
  intros H Hn. apply json_add_token_tokens in H.
  destruct H as (_ & _ & [[_ Ht]|[? _]]); [|lia].
  unfold last_token_ptr; cbn [ptr_index]. rewrite Ht, length_app. cbn. lia.
Qed.

Lemma string_loop_kept n fuel token p buf rc p' :
  (n <= ptr_index token)%nat ->
  string_loop fuel token p buf = Some (rc, p') -> kept n p p'.
Proof.
  intros Hn.
  revert p buf rc p'; induction fuel as [|fuel IH]; intros p buf rc p' H;
    [discriminate|].
  simpl in H.
  repeat (split_match H;
          try match goal with
              | E : json_parse_unicode_escape _ _ = _ |- _ =>
                  apply json_parse_unicode_escape_fields in E; cbn in E;
                  destruct E as (_ & _ & _ & _ & E & _)
              end);
    first [ apply IH in H; refine (kept_trans _ _ _ _ _ H);
            apply kept_tokens; fields; congruence
          | inversion H; subst;
            first [ refine (kept_trans _ _ _ _ _
                              (kept_store_token n _ _ _ Hn));
                    apply kept_tokens; reflexivity
                  | apply kept_tokens; fields; congruence ] ].
Qed.

Lemma json_parse_string_kept n fuel : keeping n (json_parse_string fuel).
Proof.
  intros p rc p' H. unfold json_parse_string in H.
  destruct (json_add_token p JSON_TOKEN_STRING) as [rc1 p1] eqn:Ea.
  pose proof (kept_json_add_token n _ _ _ _ Ea) as K1.
  destruct (negb (rc1 =? 0)) eqn:Erc.
  - inversion H; subst. exact K1.
  - assert (rc1 = 0) by (destruct (rc1 =? 0) eqn:E; [lia|discriminate]).
    subst rc1. apply kept_with; intros Hn.
    pose proof (json_add_token_last n _ _ _ Ea Hn) as Hlast.
    refine (kept_trans _ _ _ _ K1 _).
    refine (kept_trans _ _ _ _ (kept_store_token n _ _ _ Hlast) _).
    destruct (allocate _) as [a p2] eqn:Eal.
    apply allocate_fields in Eal.
    destruct Eal as (_ & _ & _ & Ht2 & _).
    refine (kept_trans _ _ p2 _ (kept_tokens _ _ _ Ht2) _).
    destruct a; try (apply (string_loop_kept n) in H; [|exact Hlast]);
      try (inversion H; subst; apply kept_tokens; fields; reflexivity);
      exact H.
Qed.

Lemma json_parse_number_kept n p rc p' :
  json_parse_number p = (rc, p') -> kept n p p'.
Proof.
  unfold json_parse_number; intros H.
  destruct (number_scan _) as [s|] eqn:Es.
  - destruct (strtod _) as [num consumed].
    destruct (negb (consumed =? _)).
    + inversion H; subst. apply kept_tokens; fields; reflexivity.
    + destruct (json_add_token p JSON_TOKEN_NUMBER) as [rc1 p1] eqn:Ea.
      pose proof (kept_json_add_token n _ _ _ _ Ea) as K1.
      destruct (negb (rc1 =? 0)) eqn:Erc; inversion H; subst; auto.
      assert (rc1 = 0) by (destruct (rc1 =? 0) eqn:E; [lia|discriminate]).
      subst rc1. apply kept_with; intros Hn.
      pose proof (json_add_token_last n _ _ _ Ea Hn) as Hlast.
      refine (kept_trans _ _ _ _ K1 _).
      refine (kept_trans _ _ _ _ (kept_store_token n _ _ _ Hlast) _).
      refine (kept_trans _ _ _ _ (kept_store_token n _ _ _ Hlast) _).
      refine (kept_trans _ _ _ _ _ (kept_store_token n _ _ _ Hlast)).
      apply kept_tokens. reflexivity.
  - inversion H; subst. apply kept_tokens; fields; reflexivity.
Qed.

Lemma json_parse_literal_kept n p literal ty rc p' :
  json_parse_literal p literal ty = (rc, p') -> kept n p p'.
Proof.
  unfold json_parse_literal; intros H.
  destruct (length p <? _); [inversion H; subst; now apply kept_tokens|].
  destruct (negb (strncmp_eq _ _)); [inversion H; subst; now apply kept_tokens|].
  destruct (json_add_token _ ty) as [rc1 p1] eqn:Ea.
  apply (kept_json_add_token n) in Ea.
  destruct (negb (rc1 =? 0)) eqn:Erc; inversion H; subst; exact Ea.
Qed.

Ltac kept_chain :=
  repeat match goal with
         | |- kept _ ?p ?p => apply kept_tokens; reflexivity
         | H : kept _ ?q ?r |- kept _ _ ?r =>
             apply (kept_trans _ _ q); [clear H|exact H]
         | |- kept _ _ (close_container ?t ?q) =>
             apply (kept_trans _ _ q);
             [|apply kept_close_container; assumption]
         | |- kept _ _ (store_token ?t ?f ?q) =>
             apply (kept_trans _ _ q);
             [|apply kept_store_token; assumption]
         | |- kept _ _ (json_set_error ?q ?e) =>
             apply (kept_trans _ _ q);
             [|apply kept_tokens; apply tokens_json_set_error]
         | |- kept _ _ (set_pos ?q _) =>
             apply (kept_trans _ _ q); [|apply kept_tokens; reflexivity]
         | |- kept _ _ (set_depth ?q _) =>
             apply (kept_trans _ _ q); [|apply kept_tokens; reflexivity]
         | |- kept _ _ (json_skip_whitespace ?q) =>
             apply (kept_trans _ _ q); [|apply kept_tokens; reflexivity]
         end.

Ltac use_keeping :=
  match goal with
  | E : json_parse_number _ = (_, _) |- kept ?n _ _ =>
      apply (json_parse_number_kept n) in E
  | E : json_parse_literal _ _ _ = (_, _) |- kept ?n _ _ =>
      apply (json_parse_literal_kept n) in E
  | Hh : keeping _ ?h, E : ?h _ = Some _ |- _ => apply Hh in E
  end.

Ltac run_keeping H :=
  unfold and_then in H;
  repeat (first [ split_match H | progress (try use_keeping) ]);
  try discriminate;
  try match type of H with
      | Some _ = Some _ => inversion H; subst; clear H
      end;
  repeat use_keeping.

Lemma json_parse_value_body_kept n po pa ps :
  keeping n po -> keeping n pa -> keeping n ps ->
  keeping n (json_parse_value_body po pa ps).
Proof.
  intros Ho Ha Hs p rc p' H. unfold json_parse_value_body in H.
  run_keeping H; kept_chain.
Qed.

Lemma container_body_kept n ty closer loop :
  (forall t, (n <= ptr_index t)%nat -> keeping n (loop t)) ->
  keeping n (container_body ty closer loop).
Proof.
  intros Hl p rc p' H. unfold container_body in H.
  destruct (max_depth p <=? _); [inversion H; subst; kept_chain|].
  destruct (json_add_token _ ty) as [rc1 p1] eqn:Ea.
  pose proof (kept_json_add_token n _ _ _ _ Ea) as K1.
  destruct (rc1 <? 0) eqn:Erc; [inversion H; subst; kept_chain|].
  apply kept_with; intros Hn.
  assert (rc1 = 0).
  { apply json_add_token_tokens in Ea. apply Z.ltb_ge in Erc.
    destruct Ea as (_ & _ & [[? _]|[? _]]); lia. }
  subst rc1. pose proof (json_add_token_last n _ _ _ Ea Hn) as Hlast.
  specialize (Hl _ Hlast).
  destruct (_ =? closer).
  - inversion H; subst. kept_chain.
  - apply Hl in H. kept_chain.
Qed.

Lemma object_loop_body_kept n ps pv again token :
  (n <= ptr_index token)%nat ->
  keeping n ps -> keeping n pv -> keeping n again ->
  keeping n (object_loop_body ps pv again token).
Proof.
  intros Hn Hs Hv Ha p rc p' H. unfold object_loop_body in H.
  run_keeping H; kept_chain.
Qed.

Lemma array_loop_body_kept n pv again token :
  (n <= ptr_index token)%nat ->
  keeping n pv -> keeping n again ->
  keeping n (array_loop_body pv again token).
Proof.
  intros Hn Hv Ha p rc p' H. unfold array_loop_body in H.
  run_keeping H; kept_chain.
Qed.

Lemma handlers_keep_tokens n fuel :
  keeping n (json_parse_value fuel) /\
  keeping n (json_parse_object fuel) /\
  (forall t, (n <= ptr_index t)%nat -> keeping n (object_loop fuel t)) /\
  keeping n (json_parse_array fuel) /\
  (forall t, (n <= ptr_index t)%nat -> keeping n (array_loop fuel t)).
Proof.
  induction fuel as [|fuel (Hv & Ho & Hol & Ha & Hal)].
  - repeat split; repeat intro; discriminate.
  - split; [|split; [|split; [|split]]]; [| |intros t Ht| |intros t Ht];
      cbn [json_parse_value json_parse_object object_loop json_parse_array
           array_loop].
    + apply json_parse_value_body_kept; auto.
      apply json_parse_string_kept.
    + apply container_body_kept; auto.
    + apply object_loop_body_kept; auto.
      apply json_parse_string_kept.
    + apply container_body_kept; auto.
    + apply array_loop_body_kept; auto.
Qed.

(** ** The error codes the handlers report *)

(** [reports p p']: the allocator stays exhausted, and the error slot is
    as it was or has been written once, with a code that is neither
    [JSON_ERROR_MAX_TOKENS] nor [JSON_ERROR_TRAILING_CHARS], and with
    [JSON_ERROR_ALLOCATION_FAILED] only if the allocator can fail. *)
Definition reports (p p' : json_parser_t) : Prop :=
  (heap p = [] -> heap p' = []) /\
  (error p' = error p \/
   (error p = JSON_ERROR_NONE /\
    error p' <> JSON_ERROR_NONE /\
    error p' <> JSON_ERROR_MAX_TOKENS /\
    error p' <> JSON_ERROR_TRAILING_CHARS /\
    (heap p = [] -> error p' <> JSON_ERROR_ALLOCATION_FAILED))).

Definition reporting (h : handler) : Prop :=
  forall p rc p', h p = Some (rc, p') -> reports p p'.

Lemma reports_refl p : reports p p.
Proof. unfold reports; auto. Qed.

Lemma reports_trans p q r : reports p q -> reports q r -> reports p r.
Proof.
  unfold reports. intros (H1 & [E1|E1]) (H2 & [E2|E2]); split; auto.
  - left; congruence.
  - right. rewrite <- E1. intuition.
  - right. rewrite E2. intuition.
  - right. destruct E1 as (? & ? & _), E2 as (? & _). congruence.
Qed.

Lemma reports_fields p q :
  heap q = heap p -> error q = error p -> reports p q.
Proof. unfold reports; intros -> ->; auto. Qed.

Lemma reports_json_set_error p e :
  e <> JSON_ERROR_NONE -> e <> JSON_ERROR_MAX_TOKENS ->
  e <> JSON_ERROR_TRAILING_CHARS -> e <> JSON_ERROR_ALLOCATION_FAILED ->
  reports p (json_set_error p e).
Proof.
  intros. unfold reports. rewrite heap_json_set_error. split; auto.
  destruct (json_set_error_cases p e) as [->|[? ->]]; auto.
  right; intuition.
Qed.

Lemma reports_store_token q f p : reports p (store_token q f p).
Proof. apply reports_fields; now fields. Qed.

Lemma reports_close_container token p : reports p (close_container token p).
Proof.
  apply reports_fields; apply close_container_fields.
Qed.

Lemma reports_allocate p a p' :
  allocate p = (a, p') ->
  error p' = error p /\ (heap p = [] -> heap p' = [] /\ a = AllocFresh).
Proof.
  unfold allocate. destruct (heap p) eqn:E; intros H; inversion H; subst;
    cbn; split; auto; discriminate.
Qed.

Lemma reports_json_add_token p ty rc p' :
  json_add_token p ty = (rc, p') -> reports p p'.
Proof.
  unfold json_add_token; intros H.
  destruct (token_cap p <=? token_count p).
  - destruct (allocate p) as [a p1] eqn:Ea.
    apply reports_allocate in Ea. destruct Ea as (He & Hh).
    destruct a; inversion H; subst; unfold reports; fields.
    + split; [intros X; apply Hh in X; destruct X; discriminate|].
      destruct (json_set_error_cases p1 JSON_ERROR_ALLOCATION_FAILED)
        as [->|[? ->]]; [now left|right].
      repeat split; try congruence; try discriminate.
      intros X; apply Hh in X; destruct X; discriminate.
    + split; [intros X; apply Hh in X; destruct X; discriminate|now left].
    + split; [intros X; apply Hh in X; tauto|now left].
  - inversion H; subst; apply reports_fields; reflexivity.
Qed.

Lemma reports_read_hex4 n p cp rc p' cp' :
  read_hex4 n p cp = (rc, p', cp') -> heap p' = heap p.
Proof.
  revert p cp; induction n as [|n IH]; intros p cp H; simpl in H.
  - now inversion H.
  - repeat split_match H;
      first [ apply IH in H; exact H | now inversion H ].
Qed.

Lemma reports_json_parse_unicode_escape p buf rc p' buf' :
  json_parse_unicode_escape p buf = (rc, p', buf') ->
  heap p' = heap p /\ error p' = error p.
Proof.
  intros H. split; [|now apply json_parse_unicode_escape_fields in H].
  unfold json_parse_unicode_escape in H.
  repeat (split_match H;
          try match goal with
              | E : read_hex4 _ _ _ = _ |- _ =>
                  apply reports_read_hex4 in E; cbn in E
              end);
    first [ apply utf8_append_fields in H | inversion H ];
    subst; cbn in *; congruence.
Qed.

Ltac reports_chain :=
  repeat match goal with
         | |- reports ?p ?p => apply reports_refl
         | H : reports ?q ?r |- reports _ ?r =>
             apply (reports_trans _ q); [clear H|exact H]
         | |- reports _ (close_container ?t ?q) =>
             apply (reports_trans _ q); [|apply reports_close_container]
         | |- reports _ (store_token ?t ?f ?q) =>
             apply (reports_trans _ q); [|apply reports_store_token]
         | |- reports _ (json_set_error ?q ?e) =>
             apply (reports_trans _ q);
             [|apply reports_json_set_error; discriminate]
         | |- reports _ (set_pos ?q _) =>
             apply (reports_trans _ q);
             [|apply reports_fields; reflexivity]
         | |- reports _ (set_depth ?q _) =>
             apply (reports_trans _ q);
             [|apply reports_fields; reflexivity]
         | |- reports _ (json_skip_whitespace ?q) =>
             apply (reports_trans _ q);
             [|apply reports_fields; reflexivity]
         end.

Lemma string_loop_reports fuel token p buf rc p' :
  string_loop fuel token p buf = Some (rc, p') -> reports p p'.
Proof.
  revert p buf rc p'; induction fuel as [|fuel IH]; intros p buf rc p' H;
    [discriminate|].
  simpl in H.
  repeat (split_match H;
          try match goal with
              | E : json_parse_unicode_escape _ _ = _ |- _ =>
                  apply reports_json_parse_unicode_escape in E; cbn in E;
                  destruct E
              end);
    first [ apply IH in H | inversion H; subst ];
    reports_chain;
    apply reports_fields; assumption.
Qed.

Lemma json_parse_string_reports fuel : reporting (json_parse_string fuel).
Proof.
  intros p rc p' H. unfold json_parse_string in H.
  destruct (json_add_token p JSON_TOKEN_STRING) as [rc1 p1] eqn:Ea.
  apply reports_json_add_token in Ea.
  destruct (negb (rc1 =? 0)) eqn:Erc.
  - inversion H; subst. exact Ea.
  - destruct (allocate _) as [a p2] eqn:Eal.
    apply reports_allocate in Eal. fields. destruct Eal as (He & Hh).
    apply (reports_trans _ _ _ Ea).
    destruct a.
    + inversion H; subst. split.
      * intros X. apply Hh in X. destruct X; discriminate.
      * fields.
        destruct (json_set_error_cases p2 JSON_ERROR_ALLOCATION_FAILED)
          as [->|[? ->]]; [now left|right].
        repeat split; try congruence; try discriminate.
        intros X. apply Hh in X. destruct X; discriminate.
    + apply string_loop_reports in H.
      apply (reports_trans _ p2); [split; [tauto|left; exact He]|].
      reports_chain.
    + apply string_loop_reports in H.
      apply (reports_trans _ p2); [split; [tauto|left; exact He]|].
      reports_chain.
Qed.

Lemma json_parse_number_reports p rc p' :
  json_parse_number p = (rc, p') -> reports p p'.
Proof.
  unfold json_parse_number; intros H.
  destruct (number_scan _) as [s|] eqn:Es.
  - destruct (strtod _) as [num consumed].
    destruct (negb (consumed =? _)).
    + inversion H; subst. reports_chain.
    + destruct (json_add_token p JSON_TOKEN_NUMBER) as [rc1 p1] eqn:Ea.
      apply reports_json_add_token in Ea.
      destruct (negb (rc1 =? 0)) eqn:Erc; inversion H; subst; reports_chain.
  - inversion H; subst. reports_chain.
Qed.

Lemma json_parse_literal_reports p literal ty rc p' :
  json_parse_literal p literal ty = (rc, p') -> reports p p'.
Proof.
  unfold json_parse_literal; intros H.
  destruct (length p <? _); [inversion H; subst; reports_chain|].
  destruct (negb (strncmp_eq _ _)); [inversion H; subst; reports_chain|].
  destruct (json_add_token _ ty) as [rc1 p1] eqn:Ea.
  apply reports_json_add_token in Ea.
  destruct (negb (rc1 =? 0)) eqn:Erc; inversion H; subst; reports_chain.
Qed.

Ltac use_reporting :=
  match goal with
  | E : json_parse_number _ = (_, _) |- _ =>
      apply json_parse_number_reports in E
  | E : json_parse_literal _ _ _ = (_, _) |- _ =>
      apply json_parse_literal_reports in E
  | E : json_add_token _ _ = (_, _) |- _ =>
      apply reports_json_add_token in E
  | Hh : reporting ?h, E : ?h _ = Some _ |- _ => apply Hh in E
  | Hh : forall t, reporting (?h t), E : ?h _ _ = Some _ |- _ =>
      apply Hh in E
  end.

Ltac run_reporting H :=
  unfold and_then in H;
  repeat (first [ split_match H | progress (try use_reporting) ]);
  try discriminate;
  try match type of H with
      | Some _ = Some _ => inversion H; subst; clear H
      end;
  repeat use_reporting.

Lemma json_parse_value_body_reports po pa ps :
  reporting po -> reporting pa -> reporting ps ->
  reporting (json_parse_value_body po pa ps).
Proof.
  intros Ho Ha Hs p rc p' H. unfold json_parse_value_body in H.
  run_reporting H; reports_chain.
Qed.

Lemma container_body_reports ty closer loop :
  (forall t, reporting (loop t)) -> reporting (container_body ty closer loop).
Proof.
  intros Hl p rc p' H. unfold container_body in H.
  run_reporting H; reports_chain.
Qed.

Lemma object_loop_body_reports ps pv again token :
  reporting ps -> reporting pv -> reporting again ->
  reporting (object_loop_body ps pv again token).
Proof.
  intros Hs Hv Ha p rc p' H. unfold object_loop_body in H.
  run_reporting H; reports_chain.
Qed.

Lemma array_loop_body_reports pv again token :
  reporting pv -> reporting again ->
  reporting (array_loop_body pv again token).
Proof.
  intros Hv Ha p rc p' H. unfold array_loop_body in H.
  run_reporting H; reports_chain.
Qed.

Lemma handlers_report fuel :
  reporting (json_parse_value fuel) /\
  reporting (json_parse_object fuel) /\
  (forall t, reporting (object_loop fuel t)) /\
  reporting (json_parse_array fuel) /\
  (forall t, reporting (array_loop fuel t)).
Proof.
  induction fuel as [|fuel (Hv & Ho & Hol & Ha & Hal)].
  - repeat split; repeat intro; discriminate.
  - split; [|split; [|split; [|split]]]; [| |intros t| |intros t];
      cbn [json_parse_value json_parse_object object_loop json_parse_array
           array_loop].
    + apply json_parse_value_body_reports; auto.
      apply json_parse_string_reports.
    + apply container_body_reports; auto.
    + apply object_loop_body_reports; auto.
      apply json_parse_string_reports.
    + apply container_body_reports; auto.
    + apply array_loop_body_reports; auto.
Qed.

(** ** The payload of a token fits its type *)

(** The member of the union [value] that is live in a token: a String
    token holds a null pointer or a decoded string, a Number token a
    double, and the union of any other token is zero. *)
Definition token_ok (t : json_token_t) : bool :=
  match type t, value t with
  | JSON_TOKEN_INVALID, _ => false
  | JSON_TOKEN_STRING, (ValueZero | ValueString _) => true
  | JSON_TOKEN_NUMBER, ValueNumber _ => true
  | (JSON_TOKEN_OBJECT | JSON_TOKEN_ARRAY | JSON_TOKEN_TRUE
     | JSON_TOKEN_FALSE | JSON_TOKEN_NULL), ValueZero => true
  | _, _ => false
  end.

Definition tokens_ok (p : json_parser_t) : Prop :=
  forallb token_ok (tokens p) = true.

Definition sound (p p' : json_parser_t) : Prop := tokens_ok p -> tokens_ok p'.

Definition sounding (h : handler) : Prop :=
  forall p rc p', h p = Some (rc, p') -> sound p p'.

Lemma sound_refl p : sound p p.
Proof. unfold sound; auto. Qed.

Lemma sound_trans p q r : sound p q -> sound q r -> sound p r.
Proof. unfold sound; auto. Qed.

Lemma sound_tokens p q : tokens q = tokens p -> sound p q.
Proof. unfold sound, tokens_ok; intros ->; auto. Qed.

Lemma forallb_update_nth (ok : json_token_t -> bool) i f ts :
  (forall t, ok t = true -> ok (f t) = true) ->
  forallb ok ts = true -> forallb ok (update_nth i f ts) = true.
Proof.
  intros Hf. revert i; induction ts as [|t ts IH]; intros [|i] H; simpl in *;
    auto; apply andb_prop in H; destruct H as [H1 H2];
    apply andb_true_intro; auto.
Qed.

(** A store of [start] or [end] leaves the payload alone. *)
Lemma sound_store_token q f p :
  (forall t, token_ok t = true -> token_ok (f t) = true) ->
  sound p (store_token q f p).
Proof.
  intros Hf. unfold sound, tokens_ok, store_token.
  destruct Nat.eqb; cbn; auto using forallb_update_nth.
Qed.

Lemma token_ok_with_start v t : token_ok t = true -> token_ok (with_start v t) = true.
Proof. auto. Qed.

Lemma token_ok_with_end v t : token_ok t = true -> token_ok (with_end v t) = true.
Proof. auto. Qed.

Lemma sound_close_container token p : sound p (close_container token p).
Proof.
  unfold close_container.
  apply (sound_trans _ (store_token token (with_end (pos p + 1))
                          (set_pos p (pos p + 1)))).
  - apply (sound_trans _ (set_pos p (pos p + 1))); [now apply sound_tokens|].
    apply sound_store_token, token_ok_with_end.
  - now apply sound_tokens.
Qed.

(** The tokens after [json_add_token] has appended one and the handler
    has stored into it through its address. *)
Lemma sound_last_token p ty f p1 q :
  json_add_token p ty = (0, p1) ->
  token_ok (f (mk_token ty ValueZero (pos p) (pos p))) = true ->
  tokens q = tokens (store_token (last_token_ptr p1) f p1) ->
  sound p q.
Proof.
  intros Ea Hok Hq. apply json_add_token_tokens in Ea.
  destruct Ea as (_ & _ & [[_ Ht]|[? _]]); [|lia].
  rewrite (store_last_token _ _ _ _ Ht) in Hq. cbn in Hq.
  unfold sound, tokens_ok. rewrite Hq, forallb_app. cbn. rewrite Hok.
  intros ->; reflexivity.
Qed.

Lemma store_token_store_token q f g p :
  store_token q f (store_token q g p) = store_token q (fun t => f (g t)) p.
Proof.
  unfold store_token. destruct (Nat.eqb (ptr_block q) (tokens_block p)) eqn:E;
    cbn; rewrite E; [|reflexivity].
  unfold set_tokens; cbn. f_equal.
  generalize (ptr_index q). induction (tokens p) as [|t ts IH]; intros [|i];
    simpl; auto. now rewrite IH.
Qed.

Lemma tokens_store_token_same q f p p1 :
  tokens p1 = tokens p -> tokens_block p1 = tokens_block p ->
  tokens (store_token q f p1) = tokens (store_token q f p).
Proof.
  intros Ht Hb. unfold store_token. rewrite Hb.
  destruct Nat.eqb; cbn; congruence.
Qed.

(** The loop of [json_parse_string] writes the token array once, at the
    closing quote. *)
Lemma string_loop_tokens fuel token p buf rc p' :
  string_loop fuel token p buf = Some (rc, p') ->
  tokens p' = tokens p \/
  exists b e,
    tokens p' =
    tokens (store_token token
              (fun t => with_value (ValueString b) (with_end e t)) p).
Proof.
  revert p buf rc p'; induction fuel as [|fuel IH]; intros p buf rc p' H;
    [discriminate|].
  simpl in H.
  repeat (split_match H;
          try match goal with
              | E : json_parse_unicode_escape _ _ = _ |- _ =>
                  apply json_parse_unicode_escape_fields in E; cbn in E;
                  destruct E as (_ & _ & _ & _ & ? & ?)
              end);
    first [ apply IH in H; destruct H as [H|(b & e & H)];
            [left; rewrite H; fields; congruence
            |right; exists b, e; rewrite H;
             apply tokens_store_token_same; fields; congruence]
          | inversion H; subst;
            first [ left; fields; congruence
                  | right; eexists; eexists;
                    apply tokens_store_token_same; reflexivity ] ].
Qed.

Lemma json_parse_string_sound fuel : sounding (json_parse_string fuel).
Proof.
  intros p rc p' H. unfold json_parse_string in H.
  destruct (json_add_token p JSON_TOKEN_STRING) as [rc1 p1] eqn:Ea.
  destruct (negb (rc1 =? 0)) eqn:Erc.
  - inversion H; subst. apply json_add_token_tokens in Ea.
    destruct Ea as (_ & _ & [[? _]|[_ Ht]]); [subst; discriminate|].
    now apply sound_tokens.
  - assert (rc1 = 0) by (destruct (rc1 =? 0) eqn:E; [lia|discriminate]).
    subst rc1.
    destruct (allocate _) as [a p2] eqn:Eal.
    apply allocate_fields in Eal.
    destruct Eal as (_ & _ & _ & Ht2 & Hb2 & _).
    assert (K : forall q, tokens q = tokens p2 -> sound p q).
    { intros q Hq.
      apply (sound_last_token p JSON_TOKEN_STRING
               (with_start (pos p1 + 1)) p1); auto. congruence. }
    destruct a;
      try (inversion H; subst; apply K; fields; reflexivity);
      apply string_loop_tokens in H; destruct H as [H|(b & e & H)];
      try (apply K; rewrite H; reflexivity);
      apply (sound_last_token p JSON_TOKEN_STRING
               (fun t => with_value (ValueString b)
                           (with_end e (with_start (pos p1 + 1) t))) p1);
      auto;
      rewrite H,
        <- (store_token_store_token (last_token_ptr p1)
              (fun t => with_value (ValueString b) (with_end e t))
              (with_start (pos p1 + 1)) p1);
      apply tokens_store_token_same; cbn; auto.
Qed.

Lemma json_parse_number_sound p rc p' :
  json_parse_number p = (rc, p') -> sound p p'.
Proof.
  unfold json_parse_number; intros H.
  destruct (number_scan _) as [s|] eqn:Es.
  - destruct (strtod _) as [num consumed].
    destruct (negb (consumed =? _)).
    + inversion H; subst. apply sound_tokens; fields; reflexivity.
    + destruct (json_add_token p JSON_TOKEN_NUMBER) as [rc1 p1] eqn:Ea.
      destruct (negb (rc1 =? 0)) eqn:Erc; inversion H; subst.
      * apply json_add_token_tokens in Ea.
        destruct Ea as (_ & _ & [[? _]|[_ Ht]]); [subst; discriminate|].
        now apply sound_tokens.
      * assert (rc1 = 0) by (destruct (rc1 =? 0) eqn:E; [lia|discriminate]).
        subst rc1.
        match goal with
        | |- sound _ (store_token ?q ?f3 (set_pos (store_token ?q ?f2
                        (store_token ?q ?f1 ?p1)) ?x)) =>
            apply (sound_last_token p JSON_TOKEN_NUMBER
                     (fun t => f3 (f2 (f1 t))) p1); auto;
            rewrite <- (store_token_store_token q f3 (fun t => f2 (f1 t)) p1),
              <- (store_token_store_token q f2 f1 p1);
            apply tokens_store_token_same; cbn; now fields
        end.
  - inversion H; subst. apply sound_tokens; fields; reflexivity.
Qed.

Lemma json_parse_literal_sound p literal ty rc p' :
  token_ok (mk_token ty ValueZero 0 0) = true ->
  json_parse_literal p literal ty = (rc, p') -> sound p p'.
Proof.
  unfold json_parse_literal; intros Hty H.
  destruct (length p <? _); [inversion H; subst; apply sound_refl|].
  destruct (negb (strncmp_eq _ _)); [inversion H; subst; apply sound_refl|].
  destruct (json_add_token _ ty) as [rc1 p1] eqn:Ea.
  apply json_add_token_tokens in Ea. cbn in Ea.
  destruct Ea as (_ & _ & [[_ Ht]|[_ Ht]]);
    (destruct (negb (rc1 =? 0)); inversion H; subst;
     unfold sound, tokens_ok; rewrite Ht, ?forallb_app; cbn;
     try (intros ->); destruct ty; auto; discriminate).
Qed.

Ltac sound_chain :=
  repeat match goal with
         | |- sound ?p ?p => apply sound_refl
         | H : sound ?q ?r |- sound _ ?r =>
             apply (sound_trans _ q); [clear H|exact H]
         | |- sound _ (close_container ?t ?q) =>
             apply (sound_trans _ q); [|apply sound_close_container]
         | |- sound _ (store_token ?t (with_start _) ?q) =>
             apply (sound_trans _ q);
             [|apply sound_store_token, token_ok_with_start]
         | |- sound _ (store_token ?t (with_end _) ?q) =>
             apply (sound_trans _ q);
             [|apply sound_store_token, token_ok_with_end]
         | |- sound _ (json_set_error ?q ?e) =>
             apply (sound_trans _ q);
             [|apply sound_tokens; apply tokens_json_set_error]
         | |- sound _ (set_pos ?q _) =>
             apply (sound_trans _ q); [|apply sound_tokens; reflexivity]
         | |- sound _ (set_depth ?q _) =>
             apply (sound_trans _ q); [|apply sound_tokens; reflexivity]
         | |- sound _ (json_skip_whitespace ?q) =>
             apply (sound_trans _ q); [|apply sound_tokens; reflexivity]
         end.

Lemma sound_json_add_token p ty rc p' :
  token_ok (mk_token ty ValueZero 0 0) = true ->
  json_add_token p ty = (rc, p') -> sound p p'.
Proof.
  intros Hty Ea. apply json_add_token_tokens in Ea.
  destruct Ea as (_ & _ & [[_ Ht]|[_ Ht]]);
    unfold sound, tokens_ok; rewrite Ht, ?forallb_app; cbn;
    try (intros ->); destruct ty; auto; discriminate.
Qed.

Ltac use_sounding :=
  match goal with
  | E : json_parse_number _ = (_, _) |- _ =>
      apply json_parse_number_sound in E
  | E : json_parse_literal _ _ _ = (_, _) |- _ =>
      apply json_parse_literal_sound in E; [|reflexivity]
  | E : json_add_token _ _ = (_, _) |- _ =>
      apply sound_json_add_token in E; [|assumption]
  | Hh : sounding ?h, E : ?h _ = Some _ |- _ => apply Hh in E
  | Hh : forall t, sounding (?h t), E : ?h _ _ = Some _ |- _ =>
      apply Hh in E
  end.

Ltac run_sounding H :=
  unfold and_then in H;
  repeat (first [ split_match H | progress (try use_sounding) ]);
  try discriminate;
  try match type of H with
      | Some _ = Some _ => inversion H; subst; clear H
      end;
  repeat use_sounding.

Lemma json_parse_value_body_sound po pa ps :
  sounding po -> sounding pa -> sounding ps ->
  sounding (json_parse_value_body po pa ps).
Proof.
  intros Ho Ha Hs p rc p' H. unfold json_parse_value_body in H.
  run_sounding H; sound_chain.
Qed.

Lemma container_body_sound ty closer loop :
  token_ok (mk_token ty ValueZero 0 0) = true ->
  (forall t, sounding (loop t)) -> sounding (container_body ty closer loop).
Proof.
  intros Hty Hl p rc p' H. unfold container_body in H.
  run_sounding H; sound_chain.
Qed.

Lemma object_loop_body_sound ps pv again token :
  sounding ps -> sounding pv -> sounding again ->
  sounding (object_loop_body ps pv again token).
Proof.
  intros Hs Hv Ha p rc p' H. unfold object_loop_body in H.
  run_sounding H; sound_chain.
Qed.

Lemma array_loop_body_sound pv again token :
  sounding pv -> sounding again ->
  sounding (array_loop_body pv again token).
Proof.
  intros Hv Ha p rc p' H. unfold array_loop_body in H.
  run_sounding H; sound_chain.
Qed.

Lemma handlers_sound fuel :
  sounding (json_parse_value fuel) /\
  sounding (json_parse_object fuel) /\
  (forall t, sounding (object_loop fuel t)) /\
  sounding (json_parse_array fuel) /\
  (forall t, sounding (array_loop fuel t)).
Proof.
  induction fuel as [|fuel (Hv & Ho & Hol & Ha & Hal)].
  - repeat split; repeat intro; discriminate.
  - split; [|split; [|split; [|split]]]; [| |intros t| |intros t];
      cbn [json_parse_value json_parse_object object_loop json_parse_array
           array_loop].
    + apply json_parse_value_body_sound; auto.
      apply json_parse_string_sound.
    + apply container_body_sound; auto.
    + apply object_loop_body_sound; auto.
      apply json_parse_string_sound.
    + apply container_body_sound; auto.
    + apply array_loop_body_sound; auto.
Qed.

(** ** The cursor stays within the buffer *)

(** The field [length] is the size of the buffer, and the cursor is in
    it or at its end. *)
Definition in_bounds (p : json_parser_t) : Prop :=
  length p = len (json p) /\ 0 <= pos p <= length p.

(** [bounded_step p rc p']: the handler has left the cursor at most one
    byte behind the end of the buffer, and within it where it succeeds. *)
Definition bounded_step (p : json_parser_t) (rc : Z) (p' : json_parser_t)
  : Prop :=
  length p' = len (json p') /\ length p' = length p /\
  pos p <= pos p' /\ pos p' <= length p + 1 /\
  (rc = 0 -> pos p' <= length p).

Definition bounded (h : handler) : Prop :=
  forall p rc p', h p = Some (rc, p') -> in_bounds p -> bounded_step p rc p'.

(** A container handler is entered at its opening delimiter. *)
Definition bounded_inside (h : handler) : Prop :=
  forall p rc p', h p = Some (rc, p') -> in_bounds p -> pos p < length p ->
    bounded_step p rc p'.

(** A byte other than the terminator lies in the buffer. *)
Lemma byte_at_range buf i : byte_at buf i <> 0 -> 0 <= i -> i < len buf.
Proof.
  intros H Hi. unfold byte_at in H.
  destruct (Z_lt_le_dec i (len buf)) as [|Hge]; [assumption|].
  exfalso. apply H. apply nth_overflow. unfold len in Hge. lia.
Qed.

Lemma skip_whitespace_loop_bound n buf l q :
  q <= skip_whitespace_loop n buf l q /\
  (q <= l -> skip_whitespace_loop n buf l q <= l).
Proof.
  split; [apply skip_whitespace_loop_ge|apply skip_whitespace_loop_le].
Qed.

Lemma read_hex4_pos n p cp rc p' cp' :
  read_hex4 n p cp = (rc, p', cp') -> pos p' <= pos p + Z.of_nat n.
Proof.
  revert p cp; induction n as [|n IH]; intros p cp H.
  - inversion H; subst. cbn. lia.
  - cbn [read_hex4] in H.
    repeat split_match H;
      first [ apply IH in H; cbn [pos set_pos] in H; lia
            | inversion H; subst; cbn [pos set_pos]; lia ].
Qed.

Lemma json_parse_unicode_escape_bound p buf rc p' buf' :
  json_parse_unicode_escape p buf = (rc, p', buf') ->
  json p' = json p /\ length p' = length p /\ pos p <= pos p' /\
  (pos p <= length p -> pos p' <= length p).
Proof.
  intros H. pose proof (json_parse_unicode_escape_fields _ _ _ _ _ H) as F.
  destruct F as ((Hj & Hl & _) & Hp & _).
  repeat split; auto. intros Hb.
  unfold json_parse_unicode_escape in H.
  destruct (length p <? pos p + 4) eqn:E1; [inversion H; subst; lia|].
  apply Z.ltb_ge in E1.
  destruct (read_hex4 4 p 0) as [[rc1 p1] cp1] eqn:R1.
  pose proof (read_hex4_pos _ _ _ _ _ _ R1) as B1.
  apply read_hex4_fields in R1. destruct R1 as ((_ & L1 & _) & P1 & _).
  destruct (negb (rc1 =? 0)); [inversion H; subst; lia|].
  destruct (_ && _).
  - destruct (_ || _) eqn:E2; [inversion H; subst; lia|].
    apply orb_false_iff in E2. destruct E2 as [E2 _].
    apply orb_false_iff in E2. destruct E2 as [E2 _].
    apply Z.ltb_ge in E2.
    destruct (read_hex4 4 _ 0) as [[rc2 p2] cp2] eqn:R2.
    pose proof (read_hex4_pos _ _ _ _ _ _ R2) as B2. cbn in B2.
    destruct (negb (rc2 =? 0)); [inversion H; subst; lia|].
    destruct (_ || _); [inversion H; subst; lia|].
    apply utf8_append_fields in H. subst. lia.
  - destruct (_ && _); [inversion H; subst; lia|].
    apply utf8_append_fields in H. subst. lia.
Qed.

Ltac bool_facts :=
  repeat match goal with
         | H : negb _ = true |- _ => apply negb_true_iff in H
         | H : negb _ = false |- _ => apply negb_false_iff in H
         | H : (_ =? _) = true |- _ => apply Z.eqb_eq in H
         | H : (_ =? _) = false |- _ => apply Z.eqb_neq in H
         | H : (_ <=? _) = true |- _ => apply Z.leb_le in H
         | H : (_ <=? _) = false |- _ => apply Z.leb_gt in H
         | H : (_ <? _) = true |- _ => apply Z.ltb_lt in H
         | H : (_ <? _) = false |- _ => apply Z.ltb_ge in H
         end.

Ltac byte_facts :=
  repeat match goal with
         | H : context [byte_at ?b ?i] |- _ =>
             let X := fresh in
             pose proof (byte_at_range b i) as X;
             generalize dependent (byte_at b i); intros
         end.

Ltac space_facts :=
  repeat match goal with
         | |- context [skip_whitespace_loop ?n ?b ?l ?q] =>
             let X := fresh in
             pose proof (skip_whitespace_loop_bound n b l q) as X;
             generalize dependent (skip_whitespace_loop n b l q); intros
         | _ : context [skip_whitespace_loop ?n ?b ?l ?q] |- _ =>
             let X := fresh in
             pose proof (skip_whitespace_loop_bound n b l q) as X;
             generalize dependent (skip_whitespace_loop n b l q); intros
         end.

Ltac bounds_solve :=
  unfold in_bounds, bounded_step in *; bool_facts; use_close; byte_facts;
  unfold same_input in *; fields; space_facts;
  repeat match goal with
         | H : _ /\ _ |- _ => destruct H
         end;
  repeat match goal with
         | H : json _ = json _ |- _ => try rewrite H in *; clear H
         end;
  repeat split; try congruence; try lia.

Lemma string_loop_bounded fuel token p buf rc p' :
  string_loop fuel token p buf = Some (rc, p') ->
  in_bounds p -> bounded_step p rc p'.
Proof.
  revert p buf rc p'; induction fuel as [|fuel IH]; intros p buf rc p' H Hb;
    [discriminate|].
  simpl in H.
  repeat (split_match H;
          try match goal with
              | E : json_parse_unicode_escape _ _ = _ |- _ =>
                  apply json_parse_unicode_escape_bound in E; cbn in E
              end);
    first [ apply IH in H; [|bounds_solve] | inversion H; subst ];
    bounds_solve.
Qed.

Lemma json_add_token_bound p ty rc p' :
  json_add_token p ty = (rc, p') ->
  json p' = json p /\ length p' = length p /\ pos p' = pos p.
Proof.
  intros H. apply json_add_token_fields in H.
  unfold same_input in H. intuition.
Qed.

Lemma json_parse_string_bounded fuel :
  bounded_inside (json_parse_string fuel).
Proof.
  intros p rc p' H Hb Hlt. unfold json_parse_string in H.
  destruct (json_add_token p JSON_TOKEN_STRING) as [rc1 p1] eqn:Ea.
  apply json_add_token_bound in Ea.
  destruct (negb (rc1 =? 0)) eqn:Erc.
  - inversion H; subst. bounds_solve.
  - destruct (allocate _) as [a p2] eqn:Eal.
    apply allocate_fields in Eal.
    destruct a; try (apply string_loop_bounded in H; [|bounds_solve]);
      try (inversion H; subst); bounds_solve.
Qed.

Lemma len_skipn {A : Type} (n : Z) (l : list A) :
  0 <= n <= len l -> len (skipn (Z.to_nat n) l) = len l - n.
Proof. intros H. unfold len in *. rewrite length_skipn. lia. Qed.

Lemma json_parse_number_bounded p rc p' :
  json_parse_number p = (rc, p') -> in_bounds p -> bounded_step p rc p'.
Proof.
  unfold json_parse_number; intros H Hb.
  assert (Hs : len (skipn (Z.to_nat (pos p)) (json p)) = length p - pos p).
  { destruct Hb as (Hl & Hp). rewrite len_skipn; lia. }
  destruct (number_scan _) as [s|] eqn:Es.
  - apply number_scan_len in Es. pose proof (len_nonneg s).
    destruct (strtod _) as [num consumed].
    destruct (negb (consumed =? _)).
    + inversion H; subst; bounds_solve.
    + destruct (json_add_token p JSON_TOKEN_NUMBER) as [rc1 p1] eqn:Ea.
      apply json_add_token_bound in Ea.
      destruct (negb (rc1 =? 0)) eqn:Erc; inversion H; subst;
        rewrite ?Hs in *; bounds_solve.
  - inversion H; subst; bounds_solve.
Qed.

Lemma json_parse_literal_bounded p literal ty rc p' :
  json_parse_literal p literal ty = (rc, p') ->
  in_bounds p -> bounded_step p rc p'.
Proof.
  unfold json_parse_literal; intros H Hb.
  pose proof (len_nonneg literal).
  destruct (length p <? _) eqn:E1; [inversion H; subst; bounds_solve|].
  destruct (negb (strncmp_eq _ _)); [inversion H; subst; bounds_solve|].
  destruct (json_add_token _ ty) as [rc1 p1] eqn:Ea.
  apply json_add_token_bound in Ea. cbn in Ea.
  destruct (negb (rc1 =? 0)) eqn:Erc; inversion H; subst; bounds_solve.
Qed.

Ltac use_bounded :=
  match goal with
  | E : json_parse_number ?q = (_, _) |- _ =>
      let X := fresh in
      assert (X : in_bounds q) by bounds_solve;
      apply (json_parse_number_bounded _ _ _ E) in X; clear E
  | E : json_parse_literal ?q _ _ = (_, _) |- _ =>
      let X := fresh in
      assert (X : in_bounds q) by bounds_solve;
      apply (json_parse_literal_bounded _ _ _ _ _ E) in X; clear E
  | E : json_add_token _ _ = (_, _) |- _ =>
      apply json_add_token_bound in E
  | Hh : bounded ?h, E : ?h ?q = Some _ |- _ =>
      let X := fresh in
      assert (X : in_bounds q) by bounds_solve;
      apply (Hh _ _ _ E) in X; clear E
  | Hh : bounded_inside ?h, E : ?h ?q = Some _ |- _ =>
      let X := fresh in let Y := fresh in
      assert (X : in_bounds q) by bounds_solve;
      assert (Y : pos q < length q) by bounds_solve;
      apply (Hh _ _ _ E X) in Y; clear E
  | Hh : forall t, bounded (?h t), E : ?h ?t0 ?q = Some _ |- _ =>
      let X := fresh in
      assert (X : in_bounds q) by bounds_solve;
      apply (Hh t0 _ _ _ E) in X; clear E
  end.

Ltac run_bounded H :=
  unfold and_then in H;
  repeat (first [ split_match H | progress (try use_bounded) ]);
  try discriminate;
  try match type of H with
      | Some _ = Some _ => inversion H; subst; clear H
      end;
  repeat use_bounded.

Lemma json_parse_value_body_bounded po pa ps :
  bounded_inside po -> bounded_inside pa -> bounded_inside ps ->
  bounded (json_parse_value_body po pa ps).
Proof.
  intros Ho Ha Hs p rc p' H Hb. unfold json_parse_value_body in H.
  run_bounded H; bounds_solve.
Qed.

Lemma container_body_bounded ty closer loop :
  closer <> 0 -> (forall t, bounded (loop t)) ->
  bounded_inside (container_body ty closer loop).
Proof.
  intros Hc Hl p rc p' H Hb Hlt. unfold container_body in H.
  run_bounded H; bounds_solve.
Qed.

Lemma object_loop_body_bounded ps pv again token :
  bounded_inside ps -> bounded pv -> bounded again ->
  bounded (object_loop_body ps pv again token).
Proof.
  intros Hs Hv Ha p rc p' H Hb. unfold object_loop_body in H.
  run_bounded H; bounds_solve.
Qed.

Lemma array_loop_body_bounded pv again token :
  bounded pv -> bounded again -> bounded (array_loop_body pv again token).
Proof.
  intros Hv Ha p rc p' H Hb. unfold array_loop_body in H.
  run_bounded H; bounds_solve.
Qed.

Lemma handlers_bounded fuel :
  bounded (json_parse_value fuel) /\
  bounded_inside (json_parse_object fuel) /\
  (forall t, bounded (object_loop fuel t)) /\
  bounded_inside (json_parse_array fuel) /\
  (forall t, bounded (array_loop fuel t)).
Proof.
  induction fuel as [|fuel (Hv & Ho & Hol & Ha & Hal)].
  - repeat split; repeat intro; discriminate.
  - split; [|split; [|split; [|split]]]; [| |intros t| |intros t];
      cbn [json_parse_value json_parse_object object_loop json_parse_array
           array_loop].
    + apply json_parse_value_body_bounded; auto.
      apply json_parse_string_bounded.
    + apply container_body_bounded; auto. discriminate.
    + apply object_loop_body_bounded; auto.
      apply json_parse_string_bounded.
    + apply container_body_bounded; auto. discriminate.
    + apply array_loop_body_bounded; auto.
Qed.

(** ** A whole parse *)

(** The steps of [json_parser_parse] around the call of
    [json_parse_value]: the state [q] the value handler starts in and the
    state it leaves. *)
Lemma json_parser_parse_cases p e p' q :
  q = json_skip_whitespace (set_error p JSON_ERROR_NONE) ->
  json_parser_parse p = Some (e, p') ->
  e = error p' /\
  ((length q <= pos q /\ p' = json_set_error q JSON_ERROR_INVALID_TOKEN) \/
   (pos q < length q /\
    exists rc r,
      json_parse_value (parse_fuel q) q = Some (rc, r) /\
      ((rc < 0 /\ p' = r) \/
       (0 <= rc /\
        (p' = json_skip_whitespace r \/
         p' = json_set_error (json_skip_whitespace r)
                             JSON_ERROR_TRAILING_CHARS))))).
Proof.
  unfold json_parser_parse. intros Hq H. rewrite <- Hq in H.
  destruct (length q <=? pos q) eqn:E.
  - apply Z.leb_le in E. inversion H; subst. split; auto.
  - apply Z.leb_gt in E.
    destruct (json_parse_value (parse_fuel q) q) as [[rc r]|] eqn:V;
      [|discriminate].
    destruct (rc <? 0) eqn:R.
    + apply Z.ltb_lt in R. inversion H; subst. split; auto.
      right. split; auto. exists rc, p'. auto.
    + apply Z.ltb_ge in R. inversion H; subst. split; auto.
      right. split; auto. exists rc, r. split; auto. right. split; auto.
      destruct (negb _); auto.
Qed.

(** X1.  [json_parser_parse] terminates: on every parser state it
    returns, and the code it returns is the one it leaves in the error
    slot.  Each round of a loop and each nested value consumes at least
    one byte, so the recursion is bounded by the bytes that are left. *)
Theorem parse_always_returns p :
  exists e p', json_parser_parse p = Some (e, p') /\ e = error p'.
Proof.
  unfold json_parser_parse.
  destruct (_ <=? _); [eauto|].
  match goal with |- context [json_parse_value (parse_fuel ?q) ?q] =>
    destruct (json_parse_value_returns q) as (rc & p1 & E); rewrite E
  end.
  destruct (rc <? 0); eauto.
Qed.

Lemma in_bounds_start p :
  in_bounds p -> in_bounds (json_skip_whitespace (set_error p JSON_ERROR_NONE)).
Proof. intros H. bounds_solve. Qed.

Lemma json_parser_parse_bounded p e p' :
  in_bounds p -> json_parser_parse p = Some (e, p') ->
  json p' = json p /\ length p' = length p /\
  pos p <= pos p' <= length p + 1.
Proof.
  intros Hb H.
  pose proof (in_bounds_start p Hb) as Hq.
  destruct (json_parser_parse_cases p e p' _ eq_refl H)
    as (_ & [(Hl & ->)|(Hl & rc & r & V & C)]).
  - bounds_solve.
  - pose proof (json_parse_value_well_behaved _ _ _ _ V) as W.
    pose proof (proj1 (handlers_bounded _) _ _ _ V Hq) as B.
    destruct C as [(_ & ->)|(Hrc & [->| ->])];
      destruct W as ((Hj & _) & _ & _ & Hr & _); cbn in Hj; bounds_solve.
Qed.

(** X2.  The cursor stays within the buffer.  From a state whose cursor
    lies in a buffer of [length] bytes, a value handler and a whole parse
    leave the input and [length] as they were, never move the cursor
    back, and leave it at most one byte behind the end of the buffer (on
    the terminator the buffer of a C string ends with); a handler that
    succeeds leaves it within the buffer. *)
Theorem cursor_stays_in_buffer p :
  in_bounds p ->
  (forall fuel rc p',
      json_parse_value fuel p = Some (rc, p') ->
      json p' = json p /\ length p' = length p /\
      pos p <= pos p' <= length p + 1 /\
      (rc = 0 -> pos p' <= length p)) /\
  (forall e p',
      json_parser_parse p = Some (e, p') ->
      json p' = json p /\ length p' = length p /\
      pos p <= pos p' <= length p + 1).
Proof.
  intros Hb. split.
  - intros fuel rc p' V.
    pose proof (json_parse_value_well_behaved _ _ _ _ V) as W.
    pose proof (proj1 (handlers_bounded _) _ _ _ V Hb) as B.
    destruct W as ((Hj & _) & _). bounds_solve.
  - intros e p'. now apply json_parser_parse_bounded.
Qed.

Lemma cursor_stays_in_buffer_witness :
  in_bounds (json_parser_init (text "{'a'") 4) /\
  (forall e p',
      json_parser_parse (json_parser_init (text "{'a'") 4) = Some (e, p') ->
      json p' = text "{'a'" /\ length p' = 4 /\ 0 <= pos p' <= 4 + 1).
Proof.
  assert (Hb : in_bounds (json_parser_init (text "{'a'") 4))
    by (unfold in_bounds; cbn; lia).
  split; [exact Hb|].
  exact (proj2 (cursor_stays_in_buffer _ Hb)).
Defined.

Lemma firstn_all_app {A : Type} (l l' : list A) :
  firstn (List.length l) l' = l -> exists added, l' = l ++ added.
Proof.
  intros H. exists (skipn (List.length l) l').
  rewrite <- H at 1. symmetry. apply firstn_skipn.
Qed.

Lemma kept_all p q p' :
  tokens q = tokens p -> kept (List.length (tokens p)) q p' ->
  exists added, tokens p' = tokens p ++ added.
Proof.
  intros Hq K. unfold kept in K. rewrite Hq in K.
  destruct (K (le_n _)) as (H & _).
  rewrite firstn_all in H. now apply firstn_all_app.
Qed.

(** X3.  Tokens are only appended.  The tokens that are in the array
    when a value handler starts are still there, unchanged and in the
    same places, when it returns, whether it succeeds or fails: a handler
    writes only the tokens it has appended itself.  The same holds for a
    whole parse. *)
Theorem earlier_tokens_are_kept p :
  (forall fuel rc p',
      json_parse_value fuel p = Some (rc, p') ->
      exists added, tokens p' = tokens p ++ added) /\
  (forall e p',
      json_parser_parse p = Some (e, p') ->
      exists added, tokens p' = tokens p ++ added).
Proof.
  split.
  - intros fuel rc p' V. apply (kept_all p p); [reflexivity|].
    exact (proj1 (handlers_keep_tokens _ _) _ _ _ V).
  - intros e p' H.
    destruct (json_parser_parse_cases p e p' _ eq_refl H)
      as (_ & [(Hl & ->)|(Hl & rc & r & V & C)]).
    + exists []. fields. now rewrite app_nil_r.
    + apply (proj1 (handlers_keep_tokens (List.length (tokens p)) _)) in V.
      apply kept_all in V; [|reflexivity].
      destruct V as (added & V). exists added.
      destruct C as [(_ & ->)|(_ & [->| ->])]; fields; exact V.
Qed.

Lemma json_parser_parse_grows p e p' :
  json_parser_parse p = Some (e, p') ->
  pos p <= pos p' /\
  len (tokens p) <= len (tokens p') /\
  len (tokens p') - len (tokens p) <= pos p' - pos p + 1.
Proof.
  intros H.
  destruct (json_parser_parse_cases p e p' _ eq_refl H)
    as (_ & [(Hl & ->)|(Hl & rc & r & V & C)]).
  - fields. whitespace_facts. lia.
  - apply (proj1 (handlers_grow _)) in V.
    destruct C as [(_ & ->)|(_ & [->| ->])]; grows_finish.
Qed.

(** X4.  One token for each byte at most.  A value handler that
    succeeds has appended no more tokens than it has consumed bytes; one
    that fails, and a whole parse, at most one more.  So the count that
    [json_get_tokens] reports after a parse is bounded by the size of
    the input, and by the cursor. *)
Theorem token_count_is_bounded p :
  (forall fuel rc p',
      json_parse_value fuel p = Some (rc, p') ->
      snd (json_get_tokens p) <= snd (json_get_tokens p') /\
      snd (json_get_tokens p') - snd (json_get_tokens p)
        <= pos p' - pos p + 1 /\
      (rc = 0 ->
       snd (json_get_tokens p') - snd (json_get_tokens p) <= pos p' - pos p)) /\
  (forall e p',
      json_parser_parse p = Some (e, p') ->
      snd (json_get_tokens p) <= snd (json_get_tokens p') /\
      snd (json_get_tokens p') - snd (json_get_tokens p)
        <= pos p' - pos p + 1).
Proof.
  unfold json_get_tokens, token_count; cbn [snd]. split.
  - intros fuel rc p' V. apply (proj1 (handlers_grow _)) in V.
    unfold grows, len in V. intuition.
  - intros e p' H. apply json_parser_parse_grows in H. unfold len in H.
    intuition.
Qed.

Lemma json_parser_parse_reports p e p' :
  json_parser_parse p = Some (e, p') ->
  e <> JSON_ERROR_MAX_TOKENS /\
  (heap p = [] -> heap p' = [] /\ e <> JSON_ERROR_ALLOCATION_FAILED).
Proof.
  intros H.
  destruct (json_parser_parse_cases p e p' _ eq_refl H)
    as (-> & [(Hl & ->)|(Hl & rc & r & V & C)]).
  - unfold json_set_error; cbn. split; [discriminate|].
    intros Hh; split; [exact Hh|discriminate].
  - apply (proj1 (handlers_report _)) in V.
    destruct V as (Vh & Ve). cbn in Vh, Ve.
    assert (K : error r <> JSON_ERROR_MAX_TOKENS /\
                (heap p = [] ->
                 heap r = [] /\ error r <> JSON_ERROR_ALLOCATION_FAILED)).
    { destruct Ve as [->|(_ & _ & ? & _ & ?)]; split; auto; try discriminate.
      intros Hh; split; auto. discriminate. }
    destruct C as [(_ & ->)|(_ & [->| ->])]; fields; auto.
    destruct (json_set_error_cases (json_skip_whitespace r)
                JSON_ERROR_TRAILING_CHARS) as [->|[_ ->]];
      cbn; auto.
    split; [discriminate|]. intros Hh; split; [now apply K|discriminate].
Qed.

(** X5.  The codes a parse reports.  [json_parser_parse] never returns
    [JSON_ERROR_MAX_TOKENS]: the library has no limit on the number of
    tokens, the array is grown instead.  It returns
    [JSON_ERROR_ALLOCATION_FAILED] only if the allocator fails: with an
    allocator that serves every request it does not. *)
Theorem max_tokens_is_never_reported p e p' :
  json_parser_parse p = Some (e, p') ->
  e <> JSON_ERROR_MAX_TOKENS /\
  (heap p = [] -> e <> JSON_ERROR_ALLOCATION_FAILED).
Proof.
  intros H. apply json_parser_parse_reports in H.
  split; [tauto|]. intros Hh. now apply H.
Qed.

Lemma earlier_tokens_are_kept_witness :
  exists rc p',
    json_parse_value 20
      (mk_parser (text "[1,2]") 5 3
         [mk_token JSON_TOKEN_ARRAY ValueZero 0 0;
          mk_token JSON_TOKEN_NUMBER (ValueNumber (Finite false 1 10 0)) 1 2]
         1 128 32 256 JSON_ERROR_NONE 1 []) = Some (rc, p') /\
    exists added,
      tokens p' =
      [mk_token JSON_TOKEN_ARRAY ValueZero 0 0;
       mk_token JSON_TOKEN_NUMBER (ValueNumber (Finite false 1 10 0)) 1 2]
      ++ added.
Proof.
  eexists; eexists. split; [vm_compute; reflexivity|].
  apply (proj1 (earlier_tokens_are_kept
                  (mk_parser (text "[1,2]") 5 3
                     [mk_token JSON_TOKEN_ARRAY ValueZero 0 0;
                      mk_token JSON_TOKEN_NUMBER
                        (ValueNumber (Finite false 1 10 0)) 1 2]
                     1 128 32 256 JSON_ERROR_NONE 1 [])) 20%nat 0).
  vm_compute; reflexivity.
Defined.

Lemma token_count_is_bounded_witness :
  exists e p',
    json_parser_parse (json_parser_init (text "[1,[true,'a']]") 14)
    = Some (e, p') /\
    snd (json_get_tokens (json_parser_init (text "[1,[true,'a']]") 14))
    <= snd (json_get_tokens p') /\
    snd (json_get_tokens p')
    - snd (json_get_tokens (json_parser_init (text "[1,[true,'a']]") 14))
    <= pos p' - 0 + 1.
Proof.
  eexists; eexists. split; [vm_compute; reflexivity|].
  apply (proj2 (token_count_is_bounded
                  (json_parser_init (text "[1,[true,'a']]") 14))
               JSON_ERROR_NONE).
  vm_compute; reflexivity.
Defined.

Lemma max_tokens_is_never_reported_witness :
  exists e p',
    json_parser_parse (json_parser_init (array_of_zeros 128) 257)
    = Some (e, p') /\
    e <> JSON_ERROR_MAX_TOKENS /\
    (heap (json_parser_init (array_of_zeros 128) 257) = [] ->
     e <> JSON_ERROR_ALLOCATION_FAILED).
Proof.
  eexists; eexists. split; [vm_compute; reflexivity|].
  eapply (max_tokens_is_never_reported
            (json_parser_init (array_of_zeros 128) 257) JSON_ERROR_NONE).
  vm_compute; reflexivity.
Defined.

(** ** Releasing the parser *)

(** [free (tokens[i].value.string)] for a String token: the buffer that is
    released, none for a null pointer.  Where the union of a String token
    holds a double there is no address to pass to [free], and the call is
    undefined: [None]. *)
Definition free_string (t : json_token_t) : option (list (list Z)) :=
  match type t with
  | JSON_TOKEN_STRING =>
      match value t with
      | ValueZero => Some []
      | ValueString s => Some [s]
      | ValueNumber _ => None
      end
  | _ => Some []
  end.

(** The loop of [json_parser_free] over the tokens in use. *)
Fixpoint free_strings (ts : list json_token_t) : option (list (list Z)) :=
  match ts with
  | [] => Some []
  | t :: ts' =>
      match free_string t, free_strings ts' with
      | Some a, Some b => Some (a ++ b)
      | _, _ => None
      end
  end.

(** [memset (parser, 0, sizeof ( *parser))]: no input, no token array, all
    counters and limits zero. *)
Definition parser_zero (h : list alloc_t) : json_parser_t :=
  mk_parser [] 0 0 [] 0 0 0 0 JSON_ERROR_NONE 0 h.

(** [json_parser_free]: the buffers released and the state left. *)
Definition json_parser_free (p : json_parser_t)
  : option (list (list Z) * json_parser_t) :=
  match free_strings (tokens p) with
  | Some released => Some (released, parser_zero (heap p))
  | None => None
  end.

(** The decoded strings the tokens hold. *)
Definition decoded_strings (ts : list json_token_t) : list (list Z) :=
  flat_map (fun t => match value t with ValueString s => [s] | _ => [] end) ts.

Lemma free_strings_ok ts :
  forallb token_ok ts = true -> free_strings ts = Some (decoded_strings ts).
Proof.
  induction ts as [|t ts IH]; cbn [forallb free_strings]; [reflexivity|].
  intros H. apply andb_prop in H. destruct H as [Ht Hts].
  rewrite (IH Hts). cbn [decoded_strings flat_map].
  unfold token_ok in Ht. unfold free_string.
  destruct (type t), (value t); try discriminate; reflexivity.
Qed.

Lemma json_parser_parse_sound p e p' :
  json_parser_parse p = Some (e, p') -> tokens_ok p -> tokens_ok p'.
Proof.
  intros H.
  destruct (json_parser_parse_cases p e p' _ eq_refl H)
    as (_ & [(Hl & ->)|(Hl & rc & r & V & C)]).
  - unfold tokens_ok. now fields.
  - apply (proj1 (handlers_sound _)) in V.
    destruct C as [(_ & ->)|(_ & [->| ->])]; unfold tokens_ok in *; fields;
      exact V.
Qed.

(** X6.  The payload of a token fits its type.  After a value handler or
    a whole parse, whatever the outcome, every token in the array is of a
    type other than [JSON_TOKEN_INVALID]; a Number token holds the double
    [strtod] returned, a String token holds the decoded string or, where
    its string did not parse, a null pointer, and the union of every
    other token is zero. *)
Theorem payload_fits_type p :
  tokens_ok p ->
  (forall fuel rc p', json_parse_value fuel p = Some (rc, p') -> tokens_ok p') /\
  (forall e p', json_parser_parse p = Some (e, p') -> tokens_ok p').
Proof.
  intros Hp. split.
  - intros fuel rc p' V. exact (proj1 (handlers_sound _) _ _ _ V Hp).
  - intros e p' H. exact (json_parser_parse_sound p e p' H Hp).
Qed.

Lemma payload_fits_type_witness :
  tokens_ok (json_parser_init (text "{'k':[1.5,'x',null,'y") 21) /\
  exists e p',
    json_parser_parse (json_parser_init (text "{'k':[1.5,'x',null,'y") 21)
    = Some (e, p') /\
    tokens_ok p'.
Proof.
  split; [reflexivity|].
  eexists; eexists. split; [vm_compute; reflexivity|].
  apply (proj2 (payload_fits_type
                  (json_parser_init (text "{'k':[1.5,'x',null,'y") 21)
                  eq_refl) JSON_ERROR_UNEXPECTED_CHAR).
  vm_compute; reflexivity.
Defined.

(** X7.  [json_parser_free] after a parse.  Whatever text a fresh parser
    has parsed and whatever the outcome, [json_parser_free] passes to
    [free] only null pointers and decoded strings, releases every decoded
    string the tokens hold, and leaves a zeroed state: it holds no
    tokens, a second [json_parser_free] releases nothing, and a parse on
    it returns [JSON_ERROR_INVALID_TOKEN] without reading the input. *)
Theorem free_after_parse s e p' :
  parse_text s = Some (e, p') ->
  exists q,
    json_parser_free p' = Some (decoded_strings (tokens p'), q) /\
    json_get_tokens q = ([], 0) /\
    json_parser_free q = Some ([], q) /\
    parse_error (json_parser_parse q) = Some JSON_ERROR_INVALID_TOKEN /\
    parse_tokens (json_parser_parse q) = Some [].
Proof.
  intros H. apply json_parser_parse_sound in H; [|reflexivity].
  exists (parser_zero (heap p')). unfold json_parser_free.
  rewrite (free_strings_ok _ H). repeat split.
Qed.

Lemma free_after_parse_witness :
  exists e p' q,
    parse_text (text "['a',1,'b") = Some (e, p') /\
    json_parser_free p' = Some ([bytes "a"], q) /\
    json_get_tokens q = ([], 0) /\
    json_parser_free q = Some ([], q) /\
    parse_error (json_parser_parse q) = Some JSON_ERROR_INVALID_TOKEN /\
    parse_tokens (json_parser_parse q) = Some [].
Proof.
  destruct (parse_text (text "['a',1,'b")) as [[e p']|] eqn:E;
    [|vm_compute in E; discriminate].
  destruct (free_after_parse _ e p' E) as (q & F).
  exists e, p', q. split; [reflexivity|].
  assert (D : decoded_strings (tokens p') = [bytes "a"]).
  { vm_compute in E. inversion E; subst. reflexivity. }
  rewrite D in F. exact F.
Defined.

(** ** The message of an error code *)

(** [json_error_string]; the [default] branch of the [switch] is not
    reached with a code of the enumeration. *)
Definition json_error_string (e : json_error_t) : string :=
  match e with
  | JSON_ERROR_NONE => "No error"
  | JSON_ERROR_INVALID_TOKEN => "Invalid token"
  | JSON_ERROR_UNEXPECTED_CHAR => "Unexpected character"
  | JSON_ERROR_MAX_TOKENS => "Max tokens exceeded"
  | JSON_ERROR_STRING_TOO_LONG => "String too long"
  | JSON_ERROR_INVALID_ESCAPE => "Invalid escape sequence"
  | JSON_ERROR_INVALID_UNICODE => "Invalid Unicode escape"
  | JSON_ERROR_NESTING_DEPTH => "Nesting depth exceeded"
  | JSON_ERROR_INVALID_NUMBER => "Invalid number format"
  | JSON_ERROR_TRAILING_CHARS => "Trailing characters"
  | JSON_ERROR_ALLOCATION_FAILED => "Memory allocation failed"
  end.

(** X8.  The messages tell the codes apart: two codes have the same
    message only if they are the same code, and no code of the
    enumeration has the message of the [default] branch. *)
Theorem json_error_string_distinct a b :
  String.eqb (json_error_string a) (json_error_string b) = json_error_eqb a b /\
  String.eqb (json_error_string a) "Unknown error" = false.
Proof. destruct a, b; split; reflexivity. Qed.

(** * Further properties of strings *)

(** [json_parse_string] on a literal that starts with items that fit the
    buffer: the loop has copied their values and stands behind them. *)
Lemma json_parse_string_items fuel p items rest :
  heap p = [] -> forallb item_ok items = true ->
  suffix_at p = 34 :: encode items ++ rest ->
  0 <= pos p -> pos p + 1 + len (encode items) <= length p ->
  1 <= max_string p < SIZE_MAX1 -> len items <= max_string p - 1 ->
  (List.length items < fuel)%nat ->
  exists q,
    json_parse_string fuel p =
      string_loop (fuel - List.length items) (last_token_ptr q)
        (set_pos q (pos p + 1 + len (encode items))) (decode items) /\
    suffix_at (set_pos q (pos p + 1 + len (encode items))) = rest /\
    tokens q = tokens p ++ [mk_token JSON_TOKEN_STRING ValueZero
                                     (pos p + 1) (pos p)] /\
    json q = json p /\ length q = length p /\
    max_string q = max_string p /\ error q = error p.
Proof.
  intros Hh Hok Hs Hp Hl Hm Hb Hf.
  destruct (json_parse_string_enter fuel p Hh)
    as (q & -> & Ht & Hj & Hlq & Hpq & Hmq & Heq).
  pose proof (len_nonneg (encode items)) as Henc.
  assert (Hsq : suffix_at q = encode items ++ rest).
  { rewrite (suffix_at_forward p q 1), Hs by (auto; lia). reflexivity. }
  exists q. split; [|split; [|repeat split; auto]].
  - replace fuel with (List.length items + (fuel - List.length items))%nat
      at 1 by lia.
    rewrite (string_loop_items items _ _ q [] rest); auto;
      try (rewrite ?len_nil; lia).
    rewrite Hpq. reflexivity.
  - rewrite (suffix_at_forward q _ (len (encode items))), Hsq;
      cbn [json set_pos pos]; auto; try lia.
    now apply skipn_len_app.
Qed.

(** A round of the string loop on a backslash that no escape character
    follows. *)
Lemma string_loop_invalid_escape fuel token p buf c rest :
  suffix_at p = 92 :: c :: rest -> 0 <= pos p -> pos p + 2 <= length p ->
  simple_escape c = None -> c <> 117 ->
  string_loop (S fuel) token p buf =
  Some (-1, json_set_error (set_pos p (pos p + 1 + 1))
              JSON_ERROR_INVALID_ESCAPE).
Proof.
  intros Hs Hp Hl Hc Hu. cbn [string_loop].
  destruct (suffix_at_next p _ _ Hs Hp) as (Hc1 & Hs1).
  destruct (suffix_at_next _ _ _ Hs1) as (Hc2 & _); [cbn; lia|].
  cbn [json pos set_pos length] in *.
  replace (pos p <? length p) with true by (symmetry; apply Z.ltb_lt; lia).
  rewrite Hc1. cbn [Z.eqb Pos.eqb].
  replace (length p <=? pos p + 1) with false
    by (symmetry; apply Z.leb_gt; lia).
  rewrite Hc2. apply Z.eqb_neq in Hu. rewrite Hu, Hc.
  now rewrite set_pos_set_pos.
Qed.

Lemma parse_fuel_text s items :
  len (encode items) <= len s ->
  (List.length items < parse_fuel (json_parser_init s (len s)) - 1)%nat.
Proof.
  intros H. pose proof (len_encode_ge items) as He.
  unfold parse_fuel. cbn [length pos json_parser_init].
  unfold len in *. lia.
Qed.

Lemma default_max_string : 1 <= JSON_DEFAULT_MAX_STRING < SIZE_MAX1.
Proof. unfold JSON_DEFAULT_MAX_STRING, SIZE_MAX1. lia. Qed.

(** X9.  A backslash followed by a byte that is neither one of the
    eight escape characters nor [u] ends the parse with
    [JSON_ERROR_INVALID_ESCAPE], wherever it stands in a string of
    literal bytes and simple escapes that fits the buffer and whatever
    follows it. *)
Theorem unknown_escape_is_rejected items c tail :
  forallb item_ok items = true -> len items <= 255 ->
  simple_escape c = None -> c <> 117 ->
  parse_error (parse_text (34 :: encode items ++ 92 :: c :: tail))
  = Some JSON_ERROR_INVALID_ESCAPE.
Proof.
  intros Hok Hb Hc Hu. unfold parse_text.
  pose proof (len_nonneg (encode items)) as Henc.
  pose proof (len_nonneg tail) as Htl.
  assert (Hlen : len (34 :: encode items ++ 92 :: c :: tail)
                 = len (encode items) + 3 + len tail).
  { rewrite len_cons, len_app, !len_cons. lia. }
  rewrite (json_parser_parse_at_quote _ (encode items ++ 92 :: c :: tail))
    by (try reflexivity; cbn [pos length json_parser_init]; lia).
  destruct (json_parse_string_items
              (parse_fuel (json_parser_init
                             (34 :: encode items ++ 92 :: c :: tail)
                             (len (34 :: encode items ++ 92 :: c :: tail))) - 1)
              (set_error (json_parser_init
                            (34 :: encode items ++ 92 :: c :: tail)
                            (len (34 :: encode items ++ 92 :: c :: tail)))
                         JSON_ERROR_NONE) items (92 :: c :: tail))
    as (q & -> & Hs & Ht & Hj & Hl & Hm & He);
    try (cbn [pos length error heap max_string tokens json set_error
              json_parser_init];
         first [reflexivity | assumption | apply default_max_string
               | unfold JSON_DEFAULT_MAX_STRING; lia | lia]).
  - apply parse_fuel_text. lia.
  - cbn [pos length set_error json_parser_init error] in Hs, Hl, He |- *.
    match goal with |- context [string_loop ?f _ _ _] =>
      replace f with (S (f - 1)) by
        (pose proof (parse_fuel_text
                       (34 :: encode items ++ 92 :: c :: tail) items);
         lia)
    end.
    rewrite (string_loop_invalid_escape _ _ _ _ c tail Hs);
      cbn [pos set_pos length]; auto; try lia.
    cbn [Z.ltb Z.compare parse_error option_map fst].
    rewrite json_set_error_first by (cbn; congruence). reflexivity.
Qed.

Lemma unknown_escape_is_rejected_witness :
  parse_error (parse_text (34 :: bytes "ab" ++ 92 :: 120 :: bytes "41"
                              ++ [34]))
  = Some JSON_ERROR_INVALID_ESCAPE.
Proof.
  apply (unknown_escape_is_rejected [Plain 97; Plain 98] 120
           (bytes "41" ++ [34])).
  - reflexivity.
  - vm_compute; discriminate.
  - reflexivity.
  - discriminate.
Defined.

(** ** Every byte string has a literal *)

(** The escape table read backwards: a writer of string literals.  The
    quote, the backslash and the five control characters of the table are
    escaped, every other byte stands for itself. *)
Definition escape_item (c : Z) : string_item :=
  if c =? 34 then Escape 34
  else if c =? 92 then Escape 92
  else if c =? 8 then Escape 98
  else if c =? 12 then Escape 102
  else if c =? 10 then Escape 110
  else if c =? 13 then Escape 114
  else if c =? 9 then Escape 116
  else Plain c.

Definition escape_string (bs : list Z) : list Z := encode (map escape_item bs).

Lemma escape_item_ok c :
  item_ok (escape_item c) = true /\ item_value (escape_item c) = c.
Proof.
  unfold escape_item.
  destruct (c =? 34) eqn:E1; [apply Z.eqb_eq in E1; subst; split; reflexivity|].
  destruct (c =? 92) eqn:E2; [apply Z.eqb_eq in E2; subst; split; reflexivity|].
  destruct (c =? 8) eqn:E3; [apply Z.eqb_eq in E3; subst; split; reflexivity|].
  destruct (c =? 12) eqn:E4; [apply Z.eqb_eq in E4; subst; split; reflexivity|].
  destruct (c =? 10) eqn:E5; [apply Z.eqb_eq in E5; subst; split; reflexivity|].
  destruct (c =? 13) eqn:E6; [apply Z.eqb_eq in E6; subst; split; reflexivity|].
  destruct (c =? 9) eqn:E7; [apply Z.eqb_eq in E7; subst; split; reflexivity|].
  cbn [item_ok item_value]. now rewrite E1, E2.
Qed.

Lemma escape_items_ok bs :
  forallb item_ok (map escape_item bs) = true /\
  decode (map escape_item bs) = bs.
Proof.
  induction bs as [|c bs (IH1 & IH2)]; [split; reflexivity|].
  destruct (escape_item_ok c) as (H1 & H2).
  cbn [map forallb]. rewrite H1, IH1. split; [reflexivity|].
  unfold decode in *. cbn [map]. now rewrite H2, IH2.
Qed.

(** A byte sequence without a zero byte: what a C string can hold. *)
Definition no_nul (bs : list Z) : bool :=
  forallb (fun b => negb (b =? 0)) bs.

(** X10.  Writing and reading back.  For every sequence of at most 255
    bytes none of which is zero, the literal that escapes the quote, the
    backslash and the control characters of the escape table and copies
    every other byte parses into one String token whose decoded string is
    the sequence itself, and whose span is the content between the
    quotes. *)
Theorem string_round_trip bs :
  len bs <= 255 -> no_nul bs = true ->
  parse_error (parse_text (quoted (escape_string bs))) = Some JSON_ERROR_NONE /\
  parse_tokens (parse_text (quoted (escape_string bs))) =
    Some [mk_token JSON_TOKEN_STRING (ValueString bs)
                   1 (1 + len (escape_string bs))].
Proof.
  intros Hb _. destruct (escape_items_ok bs) as (Hok & Hd).
  pose proof (string_within_limit_parses 256 (map escape_item bs)
                default_max_string Hok) as H.
  rewrite Hd in H. apply H. unfold len in *. rewrite length_map. lia.
Qed.

Lemma string_round_trip_witness :
  parse_tokens (parse_text (quoted (bytes "a\\\nb"))) =
    Some [mk_token JSON_TOKEN_STRING (ValueString [97; 92; 10; 98]) 1 7].
Proof.
  apply (string_round_trip [97; 92; 10; 98]);
    [vm_compute; discriminate|reflexivity].
Defined.

(** ** Escapes of the basic multilingual plane *)

(** The UTF-8 encoding of a code point up to [0xFFFF]: one, two or three
    bytes. *)
Definition utf8_bmp (cp : Z) : list Z :=
  if cp <? 128 then [cp]
  else if cp <? 2048 then [192 + cp / 64; 128 + cp mod 64]
  else [224 + cp / 4096; 128 + (cp / 64) mod 64; 128 + cp mod 64].

Lemma lor_lead_bits a z :
  (a = 192 /\ 0 <= z < 32) \/ (a = 224 /\ 0 <= z < 16) ->
  Z.lor a z = a + z.
Proof.
  intros H.
  assert (Hz : exists n, z = Z.of_nat n /\ (n < 32)%nat)
    by (exists (Z.to_nat z); lia).
  destruct Hz as (n & -> & Hn).
  destruct H as [(-> & _) | (-> & H8)].
  - do 32 (destruct n as [|n]; [reflexivity|]). lia.
  - do 16 (destruct n as [|n]; [reflexivity|]). lia.
Qed.

(** The bytes [json_parse_unicode_escape] writes for a code point of the
    basic plane are its UTF-8 encoding. *)
Lemma utf8_append_bmp p buf cp :
  0 <= cp <= 65535 ->
  4 <= max_string p < SIZE_MAX1 -> len buf < max_string p - 3 ->
  utf8_append p buf cp = (0, p, buf ++ utf8_bmp cp).
Proof.
  intros Hcp Hm Hb. unfold utf8_append, utf8_bmp.
  rewrite !to_size_t_small by (unfold SIZE_MAX1 in Hm; cbn in Hm; lia).
  destruct (cp <=? 127) eqn:E1.
  - apply Z.leb_le in E1.
    replace (cp <? 128) with true by (symmetry; apply Z.ltb_lt; lia).
    replace (max_string p - 1 <=? len buf) with false
      by (symmetry; apply Z.leb_gt; lia).
    unfold to_char. rewrite Z.mod_small by lia. reflexivity.
  - apply Z.leb_gt in E1.
    replace (cp <? 128) with false by (symmetry; apply Z.ltb_ge; lia).
    rewrite !Z.shiftr_div_pow2 by lia.
    change 63 with (Z.ones 6). rewrite !Z.land_ones by lia.
    change (2 ^ 12) with 4096. change (2 ^ 6) with 64.
    assert (H3 : 0 <= (cp / 64) mod 64 < 64) by (apply Z.mod_pos_bound; lia).
    assert (H4 : 0 <= cp mod 64 < 64) by (apply Z.mod_pos_bound; lia).
    destruct (cp <=? 2047) eqn:E2.
    + apply Z.leb_le in E2.
      replace (cp <? 2048) with true by (symmetry; apply Z.ltb_lt; lia).
      replace (max_string p - 2 <=? len buf) with false
        by (symmetry; apply Z.leb_gt; lia).
      assert (H1 : 0 <= cp / 64 < 32).
      { split; [apply Z.div_pos; lia|apply Z.div_lt_upper_bound; lia]. }
      rewrite (lor_lead_bits 192), (lor_high_bits 128) by lia.
      unfold to_char.
      repeat match goal with
             | |- context [(?a + ?b) mod 256] =>
                 rewrite (Z.mod_small (a + b) 256) by lia
             end.
      reflexivity.
    + apply Z.leb_gt in E2.
      replace (cp <? 2048) with false by (symmetry; apply Z.ltb_ge; lia).
      replace (cp <=? 65535) with true by (symmetry; apply Z.leb_le; lia).
      replace (max_string p - 3 <=? len buf) with false
        by (symmetry; apply Z.leb_gt; lia).
      assert (H1 : 0 <= cp / 4096 < 16).
      { split; [apply Z.div_pos; lia|apply Z.div_lt_upper_bound; lia]. }
      rewrite (lor_lead_bits 224), !(lor_high_bits 128) by lia.
      unfold to_char.
      repeat match goal with
             | |- context [(?a + ?b) mod 256] =>
                 rewrite (Z.mod_small (a + b) 256) by lia
             end.
      reflexivity.
Qed.

Lemma digit_value_range c : isxdigit c = true -> 0 <= digit_value c < 16.
Proof.
  unfold isxdigit, digit_value, isdigit.
  destruct ((48 <=? c) && (c <=? 57)) eqn:E1; [lia|].
  destruct ((97 <=? c) && (c <=? 102)) eqn:E2; [lia|].
  destruct ((65 <=? c) && (c <=? 70)) eqn:E3; [lia|discriminate].
Qed.

Lemma hex_value_range cs :
  List.length cs = 4%nat -> forallb isxdigit cs = true ->
  0 <= hex_value cs <= 65535.
Proof.
  intros L X.
  destruct cs as [|a [|b [|c [|d [|]]]]]; try discriminate.
  cbn [forallb] in X.
  repeat (apply andb_prop in X; destruct X as [? X]).
  repeat match goal with
         | H : isxdigit _ = true |- _ => apply digit_value_range in H
         end.
  unfold hex_value, digits_value. cbn [fold_left]. lia.
Qed.

(** An escape of a code point that is no surrogate. *)
Lemma json_parse_unicode_escape_bmp p buf cs rest :
  List.length cs = 4%nat -> forallb isxdigit cs = true ->
  hex_value cs < 55296 \/ 57343 < hex_value cs ->
  suffix_at p = cs ++ rest -> 0 <= pos p -> pos p + 4 <= length p ->
  4 <= max_string p < SIZE_MAX1 -> len buf < max_string p - 3 ->
  json_parse_unicode_escape p buf =
  (0, set_pos p (pos p + 4), buf ++ utf8_bmp (hex_value cs)).
Proof.
  intros L X R Hs Hp Hl Hm Hb.
  pose proof (hex_value_range cs L X) as Hr.
  assert (L' : len cs = 4) by (unfold len; lia).
  unfold json_parse_unicode_escape.
  replace (length p <? pos p + 4) with false
    by (symmetry; apply Z.ltb_ge; lia).
  rewrite <- L at 1.
  rewrite (read_hex4_digits cs p 0 _ X Hs Hp), hex_value_fold, L'.
  cbn [Z.eqb negb].
  replace ((55296 <=? hex_value cs) && (hex_value cs <=? 56319)) with false.
  2:{ symmetry. apply andb_false_iff.
      destruct R; [left; apply Z.leb_gt|right; apply Z.leb_gt]; lia. }
  replace ((56320 <=? hex_value cs) && (hex_value cs <=? 57343)) with false.
  2:{ symmetry. apply andb_false_iff.
      destruct R; [left; apply Z.leb_gt|right; apply Z.leb_gt]; lia. }
  now rewrite utf8_append_bmp by (cbn [max_string set_pos]; lia).
Qed.

(** The string literal that holds one such escape. *)
Lemma json_parse_string_bmp fuel p cs rest :
  heap p = [] ->
  List.length cs = 4%nat -> forallb isxdigit cs = true ->
  hex_value cs < 55296 \/ 57343 < hex_value cs ->
  suffix_at p = 34 :: 92 :: 117 :: cs ++ 34 :: rest ->
  0 <= pos p -> pos p + 8 <= length p ->
  5 <= max_string p < SIZE_MAX1 -> (2 <= fuel)%nat ->
  exists p',
    json_parse_string fuel p = Some (0, p') /\
    tokens p' = tokens p ++
      [mk_token JSON_TOKEN_STRING (ValueString (utf8_bmp (hex_value cs)))
                (pos p + 1) (pos p + 7)] /\
    pos p' = pos p + 8 /\ length p' = length p /\ error p' = error p.
Proof.
  intros Hh L X R Hs Hp Hl Hm Hf.
  destruct (json_parse_string_enter fuel p Hh)
    as (q & -> & Ht & Hj & Hlq & Hpq & Hmq & Heq).
  assert (Hsq : suffix_at q = 92 :: 117 :: cs ++ 34 :: rest).
  { rewrite (suffix_at_forward p q 1), Hs by (auto; lia). reflexivity. }
  destruct fuel as [|[|f]]; try lia.
  rewrite (string_loop_escape_u _ _ q [] _ Hsq) by lia.
  rewrite (json_parse_unicode_escape_bmp _ [] cs (34 :: rest));
    cbn [pos set_pos length max_string]; auto; try (rewrite ?len_nil; lia).
  2:{ rewrite (suffix_at_forward q _ 2), Hsq by (cbn; auto; lia).
      reflexivity. }
  cbn [Z.eqb app]. rewrite set_pos_set_pos.
  erewrite (string_loop_close _ q _ _ rest); try exact Ht; try lia.
  - eexists; split; [reflexivity|].
    cbn [tokens set_tokens set_pos pos json length error with_value with_end
         type start value end_].
    rewrite Hpq. repeat split; auto; try lia.
    replace (pos p + 1 + 1 + 1 + 4) with (pos p + 7) by lia. reflexivity.
  - rewrite (suffix_at_forward q _ 6), Hsq by (cbn; auto; lia).
    assert (L' : len (92 :: 117 :: cs) = 6).
    { rewrite !len_cons. unfold len. lia. }
    replace (92 :: 117 :: cs ++ 34 :: rest)
      with ((92 :: 117 :: cs) ++ 34 :: rest) by reflexivity.
    now apply skipn_len_app.
Qed.

(** X11.  A [\u] escape of four hexadecimal digits whose value is
    neither zero nor a surrogate decodes to the UTF-8 encoding of that
    code point: one byte below [0x80], two bytes below [0x800], three
    bytes otherwise. *)
Theorem bmp_escape_decodes cs :
  List.length cs = 4%nat -> forallb isxdigit cs = true ->
  hex_value cs <> 0 ->
  hex_value cs < 55296 \/ 57343 < hex_value cs ->
  parse_error (parse_text (quoted (92 :: 117 :: cs))) = Some JSON_ERROR_NONE /\
  parse_tokens (parse_text (quoted (92 :: 117 :: cs))) =
    Some [mk_token JSON_TOKEN_STRING (ValueString (utf8_bmp (hex_value cs)))
                   1 7].
Proof.
  intros L X _ R. unfold parse_text.
  assert (Hlen : len (quoted (92 :: 117 :: cs)) = 8).
  { unfold quoted. rewrite !len_cons, len_app, !len_cons, len_nil.
    unfold len. lia. }
  rewrite Hlen.
  rewrite (json_parser_parse_at_quote _ ((92 :: 117 :: cs) ++ [34]))
    by (try reflexivity; cbn [pos length json_parser_init]; lia).
  destruct (json_parse_string_bmp
              (parse_fuel (json_parser_init (quoted (92 :: 117 :: cs)) 8) - 1)
              (set_error (json_parser_init (quoted (92 :: 117 :: cs)) 8)
                         JSON_ERROR_NONE) cs [])
    as (p' & -> & Ht & Hp & Hl & He); auto;
    try (cbn [pos length max_string set_error json_parser_init];
         unfold JSON_DEFAULT_MAX_STRING, SIZE_MAX1; lia).
  - unfold parse_fuel. cbn [pos length json_parser_init]. lia.
  - cbn [Z.ltb Z.compare].
    cbn [pos length set_error json_parser_init error tokens] in Hp, Hl, He, Ht.
    rewrite json_skip_whitespace_end by lia.
    replace (pos p' =? length p') with true
      by (symmetry; apply Z.eqb_eq; lia).
    cbn [negb parse_error parse_tokens option_map fst snd].
    rewrite He, Ht. split; reflexivity.
Qed.

(** The euro sign U+20AC is [E2 82 AC], U+00E9 is [C3 A9], and U+0041 is
    the letter [A]. *)
Lemma bmp_escape_decodes_witness :
  parse_tokens (parse_text (quoted (escape_u "20AC"))) =
    Some [mk_token JSON_TOKEN_STRING (ValueString [226; 130; 172]) 1 7] /\
  parse_tokens (parse_text (quoted (escape_u "00e9"))) =
    Some [mk_token JSON_TOKEN_STRING (ValueString [195; 169]) 1 7] /\
  parse_tokens (parse_text (quoted (escape_u "0041"))) =
    Some [mk_token JSON_TOKEN_STRING (ValueString [65]) 1 7].
Proof.
  split; [|split].
  - apply (bmp_escape_decodes (bytes "20AC")); try reflexivity.
    + vm_compute; discriminate.
    + left. vm_compute; reflexivity.
  - apply (bmp_escape_decodes (bytes "00e9")); try reflexivity.
    + vm_compute; discriminate.
    + left. vm_compute; reflexivity.
  - apply (bmp_escape_decodes (bytes "0041")); try reflexivity.
    + vm_compute; discriminate.
    + left. vm_compute; reflexivity.
Defined.

(** ** Escapes that are no hexadecimal number *)

Lemma read_hex4_bad cs :
  forall p cp rest,
    forallb isxdigit cs = false -> suffix_at p = cs ++ rest -> 0 <= pos p ->
    fst (fst (read_hex4 (List.length cs) p cp)) = -1.
Proof.
  induction cs as [|c cs IH]; intros p cp rest Hx Hs Hp; [discriminate|].
  cbn [forallb] in Hx. cbn [app] in Hs.
  destruct (suffix_at_next p c _ Hs Hp) as (Hb & Hs1).
  cbn [List.length read_hex4]. rewrite Hb.
  unfold isxdigit, isdigit in Hx.
  destruct ((48 <=? c) && (c <=? 57)) eqn:E1;
    [apply (IH _ _ rest); cbn [pos set_pos]; auto; lia|].
  destruct ((97 <=? c) && (c <=? 102)) eqn:E2;
    [apply (IH _ _ rest); cbn [pos set_pos]; auto; lia|].
  destruct ((65 <=? c) && (c <=? 70)) eqn:E3;
    [apply (IH _ _ rest); cbn [pos set_pos]; auto; lia|].
  reflexivity.
Qed.

Lemma json_parse_unicode_escape_bad p buf cs rest :
  List.length cs = 4%nat -> forallb isxdigit cs = false ->
  suffix_at p = cs ++ rest -> 0 <= pos p ->
  fst (fst (json_parse_unicode_escape p buf)) = -1.
Proof.
  intros L X Hs Hp. unfold json_parse_unicode_escape.
  destruct (length p <? pos p + 4); [reflexivity|].
  pose proof (read_hex4_bad cs p 0 rest X Hs Hp) as H. rewrite L in H.
  destruct (read_hex4 4 p 0) as [[rc p1] cp1]. cbn [fst] in H. subst rc.
  reflexivity.
Qed.

(** X12.  A [\u] that is followed by four bytes one of which is no
    hexadecimal digit ends the parse with [JSON_ERROR_INVALID_UNICODE],
    whatever the four bytes and the rest of the input are. *)
Theorem bad_hex_digit_is_rejected cs rest :
  List.length cs = 4%nat -> forallb isxdigit cs = false ->
  parse_error (parse_text (34 :: 92 :: 117 :: cs ++ rest))
  = Some JSON_ERROR_INVALID_UNICODE.
Proof.
  intros L X. unfold parse_text.
  pose proof (len_nonneg rest) as Hr.
  assert (Hlen : len (34 :: 92 :: 117 :: cs ++ rest) = 7 + len rest).
  { rewrite !len_cons, len_app. unfold len. lia. }
  rewrite (json_parser_parse_at_quote _ (92 :: 117 :: cs ++ rest))
    by (try reflexivity; cbn [pos length json_parser_init]; lia).
  destruct (json_parse_string_bad_escape
              (parse_fuel (json_parser_init (34 :: 92 :: 117 :: cs ++ rest)
                             (len (34 :: 92 :: 117 :: cs ++ rest))) - 1)
              (set_error (json_parser_init (34 :: 92 :: 117 :: cs ++ rest)
                            (len (34 :: 92 :: 117 :: cs ++ rest)))
                         JSON_ERROR_NONE) (cs ++ rest))
    as (p' & -> & He); auto;
    try (cbn [pos length set_error json_parser_init]; lia).
  - unfold parse_fuel. cbn [pos length json_parser_init]. lia.
  - intros q Hsq Hpq Hlq.
    cbn [pos length set_error json_parser_init] in Hpq, Hlq.
    apply (json_parse_unicode_escape_bad q [] cs rest); auto. lia.
  - cbn [Z.ltb Z.compare parse_error option_map fst]. now rewrite He.
Qed.

Lemma bad_hex_digit_is_rejected_witness :
  parse_error (parse_text (quoted (escape_u "12G4")))
  = Some JSON_ERROR_INVALID_UNICODE.
Proof.
  apply (bad_hex_digit_is_rejected (bytes "12G4") [34]); reflexivity.
Defined.

(** * Further properties of numbers *)

(** ** The numbers of the JSON grammar *)

(** A number as the grammar of JSON writes it: an optional minus, the
    digits of the integer part, the digits behind the point (none where
    there is no fraction), and an exponent with its marker [e] or [E],
    its sign (nothing, [+] or [-]) and its digits. *)
Record json_number : Type := mk_number {
  negative : bool;
  integer : list Z;
  fraction : list Z;
  exponent : option (Z * list Z * list Z)
}.

Definition digits (ds : list Z) : bool := forallb isdigit ds.

Definition is_nil (ds : list Z) : bool :=
  match ds with [] => true | _ => false end.

(** The integer part is one zero or starts with another digit; an
    exponent has at least one digit. *)
Definition number_ok (n : json_number) : bool :=
  match integer n with
  | [] => false
  | d :: ds => isdigit d && digits ds && (negb (d =? 48) || is_nil ds)
  end
  && digits (fraction n)
  && match exponent n with
     | None => true
     | Some (m, sg, ds) =>
         ((m =? 101) || (m =? 69))
         && match sg with
            | [] => true
            | [c] => (c =? 43) || (c =? 45)
            | _ => false
            end
         && digits ds && negb (is_nil ds)
     end.

Definition fraction_part (f : list Z) : list Z :=
  match f with [] => [] | _ => 46 :: f end.

Definition exponent_part (e : option (Z * list Z * list Z)) : list Z :=
  match e with
  | None => []
  | Some (m, sg, ds) => m :: sg ++ ds
  end.

Definition fraction_bytes (n : json_number) : list Z :=
  fraction_part (fraction n).

Definition exponent_bytes (n : json_number) : list Z :=
  exponent_part (exponent n).

Definition number_bytes (n : json_number) : list Z :=
  (if negative n then [45] else [])
  ++ integer n ++ fraction_bytes n ++ exponent_bytes n.

Definition exponent_value (n : json_number) : Z :=
  match exponent n with
  | None => 0
  | Some (_, sg, ds) =>
      (if is_nil sg then 1 else if hd 0 sg =? 45 then -1 else 1)
      * digits_value 10 ds
  end.

(** The number that is written: the digits of the integer part and of
    the fraction, times ten to the exponent less the digits of the
    fraction. *)
Definition number_value (n : json_number) : c_double :=
  Finite (negative n) (digits_value 10 (integer n ++ fraction n)) 10
         (exponent_value n - len (fraction n)).

(** The byte behind a number does not continue it. *)
Definition number_end (rest : list Z) : bool :=
  let c := hd 0 rest in
  negb (isdigit c || (c =? 46) || (c =? 101) || (c =? 69)
        || (c =? 120) || (c =? 88)).

Lemma span_digits ds rest :
  digits ds = true -> isdigit (hd 0 rest) = false ->
  span isdigit (ds ++ rest) = (ds, rest) /\ skip_digits (ds ++ rest) = rest.
Proof.
  intros Hd Hr. induction ds as [|d ds IH]; cbn [app].
  - destruct rest as [|c rest]; [split; reflexivity|].
    cbn [hd] in Hr. cbn [span skip_digits]. rewrite Hr. split; reflexivity.
  - cbn [digits forallb] in Hd. apply andb_prop in Hd. destruct Hd as [H1 H2].
    destruct (IH H2) as (IH1 & IH2).
    cbn [span skip_digits]. rewrite H1, IH1, IH2. split; reflexivity.
Qed.

Lemma isdigit_range c : isdigit c = true -> 48 <= c <= 57.
Proof. unfold isdigit. lia. Qed.

(** The parts of a number that is well formed. *)
Lemma number_ok_parts n :
  number_ok n = true ->
  (exists d ds, integer n = d :: ds /\ isdigit d = true /\ digits ds = true /\
                (d <> 48 \/ ds = [])) /\
  digits (fraction n) = true /\
  (exponent n = None \/
   exists m sg d ds,
     exponent n = Some (m, sg, d :: ds) /\ (m = 101 \/ m = 69) /\
     (sg = [] \/ sg = [43] \/ sg = [45]) /\
     isdigit d = true /\ digits ds = true).
Proof.
  unfold number_ok. intros H.
  apply andb_prop in H. destruct H as [H He].
  apply andb_prop in H. destruct H as [Hi Hf].
  split; [|split; [exact Hf|]].
  - destruct (integer n) as [|d ds]; [discriminate|].
    apply andb_prop in Hi. destruct Hi as [Hi H0].
    apply andb_prop in Hi. destruct Hi as [Hd Hds].
    exists d, ds. repeat split; auto.
    apply orb_prop in H0. destruct H0 as [H0|H0].
    + left. apply negb_true_iff, Z.eqb_neq in H0. exact H0.
    + right. now destruct ds.
  - destruct (exponent n) as [[[m sg] ds]|]; [right|now left].
    apply andb_prop in He. destruct He as [He Hn].
    apply andb_prop in He. destruct He as [He Hds].
    apply andb_prop in He. destruct He as [Hm Hsg].
    destruct ds as [|d ds]; [discriminate|].
    cbn [digits forallb] in Hds. apply andb_prop in Hds.
    destruct Hds as [Hd Hds].
    exists m, sg, d, ds. repeat split; auto.
    + apply orb_prop in Hm. destruct Hm as [Hm|Hm]; apply Z.eqb_eq in Hm; auto.
    + destruct sg as [|c [|]]; auto; try discriminate.
      apply orb_prop in Hsg.
      destruct Hsg as [Hc|Hc]; apply Z.eqb_eq in Hc; subst; auto.
Qed.

Lemma number_end_hd rest :
  number_end rest = true ->
  isdigit (hd 0 rest) = false /\ hd 0 rest <> 46 /\ hd 0 rest <> 101 /\
  hd 0 rest <> 69 /\ hd 0 rest <> 120 /\ hd 0 rest <> 88.
Proof.
  unfold number_end. cbv zeta. intros H. apply negb_true_iff in H.
  repeat (apply orb_false_elim in H; destruct H as [H ?]).
  repeat match goal with
         | X : (_ =? _) = false |- _ => apply Z.eqb_neq in X
         end.
  auto 10.
Qed.

(** The exponent part, read by the scan and by [strtod]. *)
Lemma exponent_bytes_read n rest :
  number_ok n = true -> number_end rest = true ->
  number_exponent (exponent_bytes n ++ rest) = Some rest /\
  strtod_exponent 101 (exponent_bytes n ++ rest)
  = (exponent_value n, len (exponent_bytes n)) /\
  isdigit (hd 0 (exponent_bytes n ++ rest)) = false /\
  hd 0 (exponent_bytes n ++ rest) <> 46 /\
  hd 0 (exponent_bytes n ++ rest) <> 120 /\
  hd 0 (exponent_bytes n ++ rest) <> 88.
Proof.
  intros Hok Hend.
  destruct (number_ok_parts n Hok) as (_ & _ & He).
  destruct (number_end_hd rest Hend) as (Hd & H46 & H101 & H69 & H120 & H88).
  unfold exponent_bytes, exponent_part, exponent_value.
  destruct He as [-> | (m & sg & d & ds & -> & Hm & Hsg & Hd1 & Hds)].
  - cbn [app]. repeat split; auto.
    + unfold number_exponent.
      apply Z.eqb_neq in H101, H69. now rewrite H101, H69.
    + unfold strtod_exponent. destruct rest as [|c rest]; [reflexivity|].
      cbn [hd] in *.
      replace (tolower c =? 101) with false; [reflexivity|].
      symmetry. apply Z.eqb_neq. unfold tolower.
      destruct ((65 <=? c) && (c <=? 90)); lia.
  - assert (Hspan := span_digits (d :: ds) rest).
    cbn [digits forallb] in Hspan. rewrite Hd1 in Hspan.
    destruct (Hspan Hds Hd) as (Hsp & Hsk). clear Hspan.
    cbn [app] in Hsp. cbn [app skip_digits] in Hsk. rewrite Hd1 in Hsk.
    pose proof (isdigit_range d Hd1) as Hr.
    assert (Hm' : tolower m = 101) by (destruct Hm; subst; reflexivity).
    assert (Hm2 : (m =? 101) || (m =? 69) = true)
      by (destruct Hm; subst; reflexivity).
    repeat split; try (destruct Hm; subst; cbn; (reflexivity || lia)).
    + unfold number_exponent. cbn [app hd tl]. rewrite Hm2.
      destruct Hsg as [-> | [-> | ->]]; cbn [app hd tl].
      * replace ((d =? 43) || (d =? 45)) with false
          by (symmetry; apply orb_false_intro; apply Z.eqb_neq; lia).
        cbn [hd tl]. rewrite Hd1. cbn [negb]. now rewrite Hsk.
      * cbn [Z.eqb Pos.eqb orb hd tl]. rewrite Hd1. cbn [negb].
        now rewrite Hsk.
      * cbn [Z.eqb Pos.eqb orb hd tl]. rewrite Hd1. cbn [negb].
        now rewrite Hsk.
    + unfold strtod_exponent. cbn [app]. rewrite Hm', Z.eqb_refl.
      destruct Hsg as [-> | [-> | ->]]; cbn [app is_nil hd].
      * destruct (Z.eq_dec d 43); [lia|]. destruct (Z.eq_dec d 45); [lia|].
        assert (X : forall T (a b c0 : T),
                   match d :: ds ++ rest with
                   | 43 :: _ => a | 45 :: _ => b | _ => c0 end = c0).
        { intros T a b c0.
          assert (Hc : d = 48 \/ d = 49 \/ d = 50 \/ d = 51 \/ d = 52 \/
                       d = 53 \/ d = 54 \/ d = 55 \/ d = 56 \/ d = 57) by lia.
          repeat (destruct Hc as [-> | Hc]; [reflexivity|]).
          subst; reflexivity. }
        rewrite X. rewrite Hsp.
        rewrite ?len_cons, ?len_nil. f_equal; lia.
      * rewrite Hsp. cbn [Z.eqb Pos.eqb]. rewrite ?len_cons, ?len_nil.
        f_equal; lia.
      * rewrite Hsp. cbn [Z.eqb Pos.eqb]. rewrite ?len_cons, ?len_nil.
        f_equal; lia.
Qed.

(** The fraction, read by the scan and by [strtod] behind the digits of
    the integer part. *)
Lemma fraction_bytes_read n r3 :
  number_ok n = true ->
  isdigit (hd 0 r3) = false -> hd 0 r3 <> 46 ->
  hd 0 r3 <> 120 -> hd 0 r3 <> 88 ->
  number_fraction (fraction_bytes n ++ r3) = Some r3 /\
  (forall i : list Z,
      match fraction_bytes n ++ r3 with
      | 46 :: s2 =>
          let (f, s3) := span isdigit s2 in (i, f, len i + 1 + len f, s3)
      | _ => (i, [], len i, fraction_bytes n ++ r3)
      end = (i, fraction n, len i + len (fraction_bytes n), r3)) /\
  isdigit (hd 0 (fraction_bytes n ++ r3)) = false /\
  hd 0 (fraction_bytes n ++ r3) <> 120 /\
  hd 0 (fraction_bytes n ++ r3) <> 88.
Proof.
  intros Hok Hd H46 H120 H88.
  destruct (number_ok_parts n Hok) as (_ & Hf & _).
  unfold fraction_bytes, fraction_part.
  destruct (fraction n) as [|f fs] eqn:Ef.
  - cbn [app]. repeat split; auto.
    + unfold number_fraction. apply Z.eqb_neq in H46. now rewrite H46.
    + intros i. rewrite len_nil, Z.add_0_r.
      destruct r3 as [|c r3]; [reflexivity|]. cbn [hd] in H46.
      destruct (Z.eq_dec c 46); [contradiction|].
      destruct c as [|c|c]; try reflexivity.
      do 6 (destruct c as [c|c|]; try reflexivity). contradiction.
  - destruct (span_digits (f :: fs) r3 Hf Hd) as (Hsp & Hsk).
    cbn [app] in Hsp. cbn [app skip_digits] in Hsk.
    cbn [digits forallb] in Hf. apply andb_prop in Hf. destruct Hf as [Hf1 Hf2].
    rewrite Hf1 in Hsk.
    cbn [app hd]. repeat split; try reflexivity; try lia.
    + unfold number_fraction. cbn [hd tl Z.eqb Pos.eqb]. rewrite Hf1.
      cbn [negb]. now rewrite Hsk.
    + intros i. rewrite Hsp. rewrite !len_cons. f_equal. f_equal. lia.
Qed.

(** The integer part. *)
Lemma integer_read n r2 :
  number_ok n = true ->
  isdigit (hd 0 r2) = false -> hd 0 r2 <> 120 -> hd 0 r2 <> 88 ->
  number_integer (integer n ++ r2) = Some r2 /\
  span isdigit (integer n ++ r2) = (integer n, r2) /\
  strtod_hex (negative n) (integer n ++ r2) = None /\
  isdigit (hd 0 (integer n ++ r2)) = true.
Proof.
  intros Hok Hd H120 H88.
  destruct (number_ok_parts n Hok) as ((d & ds & Hi & Hd1 & Hds & H0) & _).
  rewrite Hi.
  assert (Hall : digits (d :: ds) = true)
    by (cbn [digits forallb]; now rewrite Hd1).
  destruct (span_digits (d :: ds) r2 Hall Hd) as (Hsp & Hsk).
  cbn [app skip_digits] in Hsk. rewrite Hd1 in Hsk.
  pose proof (isdigit_range d Hd1) as Hr.
  repeat split; auto.
  - unfold number_integer. cbn [app hd tl].
    destruct (d =? 48) eqn:E.
    + apply Z.eqb_eq in E. destruct H0 as [H0| ->]; [contradiction|].
      reflexivity.
    + rewrite Hd1. now rewrite Hsk.
  - unfold strtod_hex. cbn [app].
    destruct (Z.eq_dec d 48) as [->|Hne].
    + destruct H0 as [H0| ->]; [contradiction|]. cbn [app].
      destruct r2 as [|x r2]; [reflexivity|]. cbn [hd] in *.
      replace (tolower x =? 120) with false; [reflexivity|].
      symmetry. apply Z.eqb_neq. unfold tolower.
      destruct ((65 <=? x) && (x <=? 90)); lia.
    + assert (Hc : d = 49 \/ d = 50 \/ d = 51 \/ d = 52 \/
                   d = 53 \/ d = 54 \/ d = 55 \/ d = 56 \/ d = 57) by lia.
      repeat (destruct Hc as [-> | Hc]; [reflexivity|]).
      subst; reflexivity.
Qed.

Lemma isdigit_not_space c : isdigit c = true -> isspace c = false.
Proof. unfold isdigit, isspace. lia. Qed.

Lemma len_number_bytes n :
  len (number_bytes n) =
  (if negative n then 1 else 0) + len (integer n) + len (fraction_bytes n)
  + len (exponent_bytes n).
Proof.
  unfold number_bytes. rewrite !len_app.
  destruct (negative n); rewrite ?len_cons, ?len_nil; lia.
Qed.

(** The scan and [strtod] on a number of the grammar: both stop behind
    it, and [strtod] returns the number that is written. *)
Lemma number_bytes_read n rest :
  number_ok n = true -> number_end rest = true ->
  number_scan (number_bytes n ++ rest) = Some rest /\
  strtod (number_bytes n ++ rest) = (number_value n, len (number_bytes n)).
Proof.
  intros Hok Hend.
  destruct (exponent_bytes_read n rest Hok Hend)
    as (E1 & E2 & E3 & E4 & E5 & E6).
  destruct (fraction_bytes_read n _ Hok E3 E4 E5 E6) as (F1 & F2 & F3 & F4 & F5).
  destruct (integer_read n _ Hok F3 F4 F5) as (I1 & I2 & I3 & I4).
  destruct (number_ok_parts n Hok) as ((d & ds & Hi & Hd1 & _) & _).
  pose proof (isdigit_range d Hd1) as Hr.
  set (r1 := integer n ++ fraction_bytes n ++ exponent_bytes n ++ rest) in *.
  assert (Hr1 : r1 = d :: ds ++ fraction_bytes n ++ exponent_bytes n ++ rest)
    by (unfold r1; now rewrite Hi).
  assert (Hbytes : number_bytes n ++ rest
                   = (if negative n then [45] else []) ++ r1).
  { unfold number_bytes, r1. now rewrite <- !app_assoc. }
  assert (Hdec : strtod_decimal (negative n) r1
                 = Some (number_value n,
                         len (integer n) + len (fraction_bytes n)
                         + len (exponent_bytes n))).
  { unfold strtod_decimal, strtod_radix. rewrite I2, F2, E2.
    unfold number_value.
    destruct (integer n ++ fraction n) eqn:Eif.
    - rewrite Hi in Eif. discriminate.
    - rewrite <- Eif. reflexivity. }
  rewrite Hbytes. split.
  - unfold number_scan.
    replace (if hd 0 ((if negative n then [45] else []) ++ r1) =? 45
             then tl ((if negative n then [45] else []) ++ r1)
             else (if negative n then [45] else []) ++ r1) with r1.
    + now rewrite I1, F1, E1.
    + destruct (negative n); cbn [app hd tl]; [reflexivity|].
      rewrite Hr1. cbn [hd].
      replace (d =? 45) with false by (symmetry; apply Z.eqb_neq; lia).
      reflexivity.
  - unfold strtod. rewrite len_number_bytes.
    destruct (negative n); cbn [app].
    + cbn [span isspace Z.eqb Z.leb Z.compare Pos.compare Pos.compare_cont
           andb orb Pos.eqb].
      rewrite I3, Hdec. rewrite len_nil. f_equal. lia.
    + rewrite Hr1. cbn [span]. rewrite (isdigit_not_space d Hd1).
      rewrite <- Hr1.
      assert (X : forall T (a b c0 : T),
                 match d with 43 => a | 45 => b | _ => c0 end = c0).
      { intros T a b c0.
        assert (Hc : d = 48 \/ d = 49 \/ d = 50 \/ d = 51 \/ d = 52 \/
                     d = 53 \/ d = 54 \/ d = 55 \/ d = 56 \/ d = 57) by lia.
        repeat (destruct Hc as [-> | Hc]; [reflexivity|]).
        subst; reflexivity. }
      rewrite X. cbv beta iota zeta. rewrite I3, Hdec.
      rewrite (@len_nil Z). f_equal.
Qed.

(** A store through the address of the last token, in a state that
    holds as many tokens in the same block. *)
Lemma store_last_token_later f p q ts t t' :
  tokens p = ts ++ [t] -> tokens_block q = tokens_block p ->
  tokens q = ts ++ [t'] ->
  store_token (last_token_ptr p) f q = set_tokens q (ts ++ [f t']).
Proof.
  intros Ht Hb Hq. unfold store_token, last_token_ptr.
  cbn [ptr_block ptr_index]. rewrite Hb, Nat.eqb_refl, Ht, Hq.
  replace (List.length (ts ++ [t])) with (List.length (ts ++ [t']))
    by (rewrite !length_app; reflexivity).
  now rewrite update_nth_last.
Qed.

(** The value dispatcher on a minus sign, a point or a digit. *)
Lemma json_parse_value_number fuel p c rest :
  suffix_at p = c :: rest -> pos p < length p ->
  c = 45 \/ c = 46 \/ isdigit c = true ->
  json_parse_value (S fuel) p = Some (json_parse_number p).
Proof.
  intros Hs Hl Hc. cbn [json_parse_value]. unfold json_parse_value_body.
  assert (Hr : c = 45 \/ c = 46 \/ 48 <= c <= 57)
    by (destruct Hc as [Hc|[Hc|Hc]]; auto; right; right;
        now apply isdigit_range).
  rewrite (json_skip_whitespace_at p c rest) by (auto; unfold isspace; lia).
  apply Z.leb_gt in Hl. rewrite Hl, byte_at_suffix, Hs. cbn [hd].
  replace (c =? 123) with false by (symmetry; apply Z.eqb_neq; lia).
  replace (c =? 91) with false by (symmetry; apply Z.eqb_neq; lia).
  replace (c =? 34) with false by (symmetry; apply Z.eqb_neq; lia).
  replace (c =? 116) with false by (symmetry; apply Z.eqb_neq; lia).
  replace (c =? 102) with false by (symmetry; apply Z.eqb_neq; lia).
  replace (c =? 110) with false by (symmetry; apply Z.eqb_neq; lia).
  replace ((c =? 45) || isdigit c || (c =? 46)) with true; [reflexivity|].
  symmetry. destruct Hc as [-> | [-> | ->]]; try reflexivity.
  now rewrite orb_true_r.
Qed.

(** [json_parse_number] on a number of the grammar, with an allocator
    that does not fail. *)
Lemma json_parse_number_accepts p n rest :
  number_ok n = true -> number_end rest = true ->
  heap p = [] -> suffix_at p = number_bytes n ++ rest ->
  exists p',
    json_parse_number p = (0, p') /\
    tokens p' = tokens p ++
      [mk_token JSON_TOKEN_NUMBER (ValueNumber (number_value n))
                (pos p) (pos p + len (number_bytes n))] /\
    pos p' = pos p + len (number_bytes n) /\
    json p' = json p /\ length p' = length p /\ error p' = error p /\
    depth p' = depth p /\ heap p' = [].
Proof.
  intros Hok Hend Hh Hs.
  destruct (number_bytes_read n rest Hok Hend) as (Hscan & Hstr).
  unfold json_parse_number. fold (suffix_at p). rewrite Hs, Hscan, Hstr.
  rewrite len_app.
  replace (len (number_bytes n) =? len (number_bytes n) + len rest - len rest)
    with true by (symmetry; apply Z.eqb_eq; lia).
  cbn [negb].
  destruct (json_add_token_ok p JSON_TOKEN_NUMBER Hh)
    as (p1 & -> & Ht & Hj & Hl & Hp & _ & _ & He & Hd & Hh1).
  cbn [Z.eqb negb].
  rewrite (store_last_token _ p1 _ _ Ht).
  rewrite (store_last_token_later _ p1 (set_tokens p1 _) _ _ _ Ht eq_refl
             eq_refl).
  rewrite (store_last_token_later _ p1
             (set_pos (set_tokens (set_tokens p1 _) _) _) _ _ _ Ht
             eq_refl eq_refl).
  eexists; split; [reflexivity|].
  cbn. rewrite Hp.
  replace (pos p + (len (number_bytes n) + len rest - len rest))
    with (pos p + len (number_bytes n)) by lia.
  repeat split; auto.
Qed.

(** [json_parser_parse] on an input that starts with a number. *)
Lemma json_parser_parse_at_number p0 c rest :
  suffix_at p0 = c :: rest -> pos p0 < length p0 ->
  c = 45 \/ c = 46 \/ isdigit c = true ->
  json_parser_parse p0 =
  match json_parse_number (set_error p0 JSON_ERROR_NONE) with
  | (rc, p) =>
      if rc <? 0 then Some (error p, p)
      else
        let p := json_skip_whitespace p in
        let p := if negb (pos p =? length p)
                 then json_set_error p JSON_ERROR_TRAILING_CHARS
                 else p in
        Some (error p, p)
  end.
Proof.
  intros Hs Hl Hc. unfold json_parser_parse.
  set (p := set_error p0 JSON_ERROR_NONE).
  assert (Hsp : suffix_at p = c :: rest) by exact Hs.
  assert (Hsp' : isspace c = false).
  { destruct Hc as [-> | [-> | Hc]]; try reflexivity.
    now apply isdigit_not_space. }
  rewrite (json_skip_whitespace_at p c rest Hsp Hsp').
  replace (length p <=? pos p) with false
    by (symmetry; apply Z.leb_gt; exact Hl).
  replace (parse_fuel p) with (S (parse_fuel p0 - 1))
    by (unfold parse_fuel; cbn [length pos p set_error]; lia).
  rewrite (json_parse_value_number _ p c rest Hsp) by (auto; exact Hl).
  now destruct (json_parse_number p).
Qed.

Lemma number_bytes_first n :
  number_ok n = true ->
  exists c rest,
    number_bytes n = c :: rest /\ (c = 45 \/ c = 46 \/ isdigit c = true).
Proof.
  intros Hok.
  destruct (number_ok_parts n Hok) as ((d & ds & Hi & Hd1 & _) & _).
  unfold number_bytes. rewrite Hi. destruct (negative n); cbn [app].
  - eexists; eexists; split; [reflexivity|now left].
  - eexists; eexists; split; [reflexivity|now right; right].
Qed.

(** X13.  Every number of the JSON grammar is accepted: an optional
    minus, an integer part that is one zero or starts with another
    digit, an optional fraction of at least one digit and an optional
    exponent of at least one digit parse into one Number token that
    spans the whole text and holds the number that is written.  The
    manual scan and the cross-check against [strtod] agree on all of
    them. *)
Theorem json_numbers_are_accepted n :
  number_ok n = true ->
  parse_error (parse_text (number_bytes n)) = Some JSON_ERROR_NONE /\
  parse_tokens (parse_text (number_bytes n)) =
    Some [mk_token JSON_TOKEN_NUMBER (ValueNumber (number_value n))
                   0 (len (number_bytes n))].
Proof.
  intros Hok. unfold parse_text.
  destruct (number_bytes_first n Hok) as (c & rest & Hb & Hc).
  pose proof (len_nonneg rest) as Hr.
  assert (Hlen : 0 < len (number_bytes n))
    by (rewrite Hb, len_cons; lia).
  rewrite (json_parser_parse_at_number _ c rest);
    cbn [pos length json_parser_init]; auto.
  destruct (json_parse_number_accepts
              (set_error (json_parser_init (number_bytes n)
                            (len (number_bytes n))) JSON_ERROR_NONE) n [])
    as (p' & -> & Ht & Hp & _ & Hl & He & _); auto.
  - unfold suffix_at. cbn. now rewrite app_nil_r.
  - cbn [Z.ltb Z.compare].
    cbn [pos length set_error json_parser_init error tokens] in Hp, Hl, He, Ht.
    rewrite json_skip_whitespace_end by lia.
    replace (pos p' =? length p') with true
      by (symmetry; apply Z.eqb_eq; lia).
    cbn [negb parse_error parse_tokens option_map fst snd].
    rewrite He, Ht. split; reflexivity.
Qed.

(** [-12.50e+3] is the number [-1250 * 10 ^ (3 - 2)], and [0] is zero. *)
Lemma json_numbers_are_accepted_witness :
  parse_tokens (parse_text (bytes "-12.50e+3")) =
    Some [mk_token JSON_TOKEN_NUMBER (ValueNumber (Finite true 1250 10 1))
                   0 9] /\
  parse_tokens (parse_text (bytes "0")) =
    Some [mk_token JSON_TOKEN_NUMBER (ValueNumber (Finite false 0 10 0)) 0 1].
Proof.
  split.
  - apply (json_numbers_are_accepted
             (mk_number true (bytes "12") (bytes "50")
                        (Some (101, [43], bytes "3")))).
    reflexivity.
  - apply (json_numbers_are_accepted (mk_number false (bytes "0") [] None)).
    reflexivity.
Defined.

(** ** Only numbers of the grammar are accepted *)

Lemma skip_digits_split s :
  exists ds, s = ds ++ skip_digits s /\ digits ds = true.
Proof.
  induction s as [|c s (ds & IH1 & IH2)]; [exists []; split; reflexivity|].
  cbn [skip_digits]. destruct (isdigit c) eqn:E.
  - exists (c :: ds). cbn [app digits forallb]. rewrite E.
    split; [now rewrite <- IH1|exact IH2].
  - exists []. split; reflexivity.
Qed.

Lemma hd_cons s c : hd 0 s = c -> c <> 0 -> s = c :: tl s.
Proof. destruct s; cbn; intros; [congruence|now subst]. Qed.

Lemma isdigit_hd s : isdigit (hd 0 s) = true -> s = hd 0 s :: tl s.
Proof.
  intros H. apply hd_cons; [reflexivity|].
  apply isdigit_range in H. lia.
Qed.

(** What the manual scan accepts is a number of the grammar. *)
Lemma number_scan_sound s s' :
  number_scan s = Some s' ->
  exists n, number_ok n = true /\ s = number_bytes n ++ s'.
Proof.
  unfold number_scan. intros H.
  set (s0 := if hd 0 s =? 45 then tl s else s) in H.
  destruct (number_integer s0) as [s1|] eqn:E1; [|discriminate].
  destruct (number_fraction s1) as [s2|] eqn:E2; [|discriminate].
  (* the integer part *)
  assert (Hi : exists i,
             s0 = i ++ s1 /\
             match i with
             | [] => false
             | d :: ds => isdigit d && digits ds && (negb (d =? 48) || is_nil ds)
             end = true).
  { unfold number_integer in E1.
    destruct (hd 0 s0 =? 48) eqn:E0.
    - apply Z.eqb_eq in E0. inversion E1; subst s1.
      exists [48]. split; [|reflexivity].
      apply (hd_cons s0 48 E0). lia.
    - destruct (isdigit (hd 0 s0)) eqn:Ed; [|discriminate].
      inversion E1; subst s1.
      destruct (skip_digits_split (tl s0)) as (ds & Hds & Hok).
      exists (hd 0 s0 :: ds). split.
      + cbn [app]. rewrite <- Hds. now apply isdigit_hd.
      + rewrite Ed, Hok, E0. reflexivity. }
  (* the fraction *)
  assert (Hf : exists f,
             s1 = fraction_part f ++ s2 /\
             digits f = true).
  { unfold number_fraction in E2.
    destruct (hd 0 s1 =? 46) eqn:E46.
    - apply Z.eqb_eq in E46.
      destruct (isdigit (hd 0 (tl s1))) eqn:Ed; [|discriminate].
      inversion E2; subst s2.
      destruct (skip_digits_split (tl (tl s1))) as (ds & Hds & Hok).
      exists (hd 0 (tl s1) :: ds). split.
      + cbn [fraction_part app]. rewrite <- Hds, <- (isdigit_hd _ Ed).
        apply (hd_cons s1 46 E46). lia.
      + unfold digits in *. cbn [forallb]. now rewrite Ed.
    - inversion E2; subst s2. exists []. split; reflexivity. }
  (* the exponent *)
  assert (He : exists e,
             s2 = exponent_part e ++ s' /\
             match e with
             | None => true
             | Some (m, sg, ds) =>
                 ((m =? 101) || (m =? 69))
                 && match sg with
                    | [] => true
                    | [c] => (c =? 43) || (c =? 45)
                    | _ => false
                    end
                 && digits ds && negb (is_nil ds)
             end = true).
  { unfold number_exponent in H.
    destruct ((hd 0 s2 =? 101) || (hd 0 s2 =? 69)) eqn:Em.
    - assert (Hm : s2 = hd 0 s2 :: tl s2).
      { apply hd_cons; [reflexivity|].
        apply orb_prop in Em. destruct Em as [Em|Em];
          apply Z.eqb_eq in Em; lia. }
      set (t := tl s2) in *.
      destruct ((hd 0 t =? 43) || (hd 0 t =? 45)) eqn:Es.
      + assert (Ht : t = hd 0 t :: tl t).
        { apply hd_cons; [reflexivity|].
          apply orb_prop in Es. destruct Es as [Es|Es];
            apply Z.eqb_eq in Es; lia. }
        destruct (isdigit (hd 0 (tl t))) eqn:Ed; [|discriminate].
        inversion H; subst s'.
        destruct (skip_digits_split (tl (tl t))) as (ds & Hds & Hok).
        exists (Some (hd 0 s2, [hd 0 t], hd 0 (tl t) :: ds)). split.
        * cbn [exponent_part app].
          rewrite <- Hds, <- (isdigit_hd _ Ed), <- Ht. exact Hm.
        * rewrite Em, Es. unfold digits in *. cbn [forallb is_nil negb].
          now rewrite Ed, Hok.
      + destruct (isdigit (hd 0 t)) eqn:Ed; [|discriminate].
        inversion H; subst s'.
        destruct (skip_digits_split (tl t)) as (ds & Hds & Hok).
        exists (Some (hd 0 s2, [], hd 0 t :: ds)). split.
        * cbn [exponent_part app].
          rewrite <- Hds, <- (isdigit_hd _ Ed). exact Hm.
        * rewrite Em. unfold digits in *. cbn [forallb is_nil negb].
          now rewrite Ed, Hok.
    - inversion H; subst s'. exists None. split; reflexivity. }
  destruct Hi as (i & Hi & Hiok), Hf as (f & Hf & Hfok), He as (e & He & Heok).
  exists (mk_number (hd 0 s =? 45) i f e). split.
  - unfold number_ok. cbn [integer fraction exponent].
    now rewrite Hiok, Hfok, Heok.
  - unfold number_bytes, fraction_bytes, exponent_bytes.
    cbn [negative integer fraction exponent].
    rewrite <- !app_assoc, <- He, <- Hf, <- Hi. unfold s0.
    destruct (hd 0 s =? 45) eqn:E45; [|reflexivity].
    apply Z.eqb_eq in E45. cbn [app]. apply (hd_cons s 45 E45). lia.
Qed.

(** X14.  Only numbers of the JSON grammar are accepted.  Where
    [json_parse_number] succeeds, the bytes it has consumed are a number
    of the grammar: an optional minus, an integer part without a leading
    zero, an optional fraction and an optional exponent with at least
    one digit each. *)
Theorem accepted_numbers_are_json p p' :
  0 <= pos p -> json_parse_number p = (0, p') ->
  exists n,
    number_ok n = true /\
    suffix_at p = number_bytes n ++ suffix_at p' /\
    pos p' = pos p + len (number_bytes n).
Proof.
  unfold json_parse_number. fold (suffix_at p). intros Hp H.
  destruct (number_scan (suffix_at p)) as [s|] eqn:Es; [|discriminate].
  destruct (number_scan_sound _ _ Es) as (n & Hok & Hs).
  destruct (strtod (suffix_at p)) as [num consumed].
  destruct (negb _); [discriminate|].
  destruct (json_add_token p JSON_TOKEN_NUMBER) as [rc1 p1] eqn:Ea.
  apply json_add_token_fields in Ea.
  destruct Ea as ((Hj & _) & Hp1 & _).
  destruct (negb (rc1 =? 0)); [discriminate|].
  inversion H; subst p'; clear H.
  assert (Hlen : len (suffix_at p) - len s = len (number_bytes n)).
  { rewrite Hs at 1. rewrite len_app. lia. }
  rewrite Hlen. pose proof (len_nonneg (number_bytes n)) as Hn.
  match goal with |- context [suffix_at ?q0 = _ ++ suffix_at ?q1] =>
    set (q := q1)
  end.
  assert (Hjq : json q = json p) by (unfold q; now fields).
  assert (Hpq : pos q = pos p + len (number_bytes n))
    by (unfold q; fields; lia).
  exists n. split; [exact Hok|]. split; [|exact Hpq].
  rewrite (suffix_at_forward p q (len (number_bytes n)) Hjq Hp Hn Hpq).
  rewrite Hs at 2. rewrite skipn_len_app by reflexivity. exact Hs.
Qed.

Lemma accepted_numbers_are_json_witness :
  exists p' n,
    json_parse_number (json_parser_init (bytes "6.02e23]") 8) = (0, p') /\
    number_ok n = true /\
    bytes "6.02e23]" = number_bytes n ++ suffix_at p' /\
    pos p' = 0 + len (number_bytes n).
Proof.
  destruct (json_parse_number (json_parser_init (bytes "6.02e23]") 8))
    as [rc p'] eqn:E.
  assert (Hrc : rc = 0) by (vm_compute in E; now inversion E).
  subst rc.
  destruct (accepted_numbers_are_json
              (json_parser_init (bytes "6.02e23]") 8) p' (Z.le_refl 0) E)
    as (n & H).
  exists p', n. split; [reflexivity|exact H].
Defined.

(** ** Texts that are no numbers *)

(** A text that starts like a number and that the scan rejects, or on
    which the scan and [strtod] stop at different places, is an invalid
    number. *)
Lemma parse_text_invalid_number s c rest :
  s = c :: rest -> c = 45 \/ c = 46 \/ isdigit c = true ->
  number_scan s = None \/
  (exists s', number_scan s = Some s' /\ snd (strtod s) <> len s - len s') ->
  parse_error (parse_text s) = Some JSON_ERROR_INVALID_NUMBER.
Proof.
  intros Hs Hc Hbad. unfold parse_text.
  pose proof (len_nonneg rest) as Hr.
  assert (Hlen : 0 < len s) by (rewrite Hs, len_cons; lia).
  rewrite (json_parser_parse_at_number _ c rest);
    cbn [pos length json_parser_init]; auto.
  unfold json_parse_number.
  cbn [pos json set_error json_parser_init Z.to_nat skipn].
  destruct Hbad as [-> | (s' & -> & Hne)].
  - reflexivity.
  - destruct (strtod s) as [num consumed]. cbn [snd] in Hne.
    apply Z.eqb_neq in Hne. rewrite Hne. reflexivity.
Qed.

Lemma strtod_exponent_size m s : 0 <= snd (strtod_exponent m s).
Proof.
  unfold strtod_exponent. destruct s as [|c s1]; [cbn; lia|].
  destruct (tolower c =? m); [|cbn; lia].
  assert (K : forall sgn k s2, 0 <= k ->
             0 <= snd (let (ds, _) := span isdigit s2 in
                       match ds with
                       | [] => (0, 0)
                       | _ :: _ => (sgn * digits_value 10 ds, 1 + k + len ds)
                       end)).
  { intros sgn k s2 Hk. destruct (span isdigit s2) as [ds r].
    destruct ds; cbn [snd]; [lia|]. pose proof (len_nonneg (z :: ds)). lia. }
  destruct s1 as [|x s2]; [apply (K 1 0 []); lia|].
  destruct (Z.eq_dec x 43) as [->|H43]; [apply (K 1 1 s2); lia|].
  destruct (Z.eq_dec x 45) as [->|H45]; [apply (K (-1) 1 s2); lia|].
  replace (match x :: s2 with
           | 43 :: s3 => (1, 1, s3)
           | 45 :: s3 => (-1, 1, s3)
           | _ => (1, 0, x :: s2)
           end) with (1, 0, x :: s2); [apply (K 1 0 (x :: s2)); lia|].
  destruct x as [|x|x]; try reflexivity.
  do 6 (destruct x as [x|x|]; try reflexivity); contradiction.
Qed.

(** [strtod] reads through a leading zero: on a zero followed by a
    digit it consumes both. *)
Lemma strtod_leading_zero (neg : bool) d rest :
  isdigit d = true ->
  (if neg then 1 else 0) + 2
  <= snd (strtod ((if neg then [45] else []) ++ 48 :: d :: rest)).
Proof.
  intros Hd. pose proof (isdigit_range d Hd) as Hr.
  assert (Hdec : forall b,
             exists v k, strtod_decimal b (48 :: d :: rest) = Some (v, k) /\
                         2 <= k).
  { intros b. unfold strtod_decimal, strtod_radix. cbn [span].
    replace (isdigit 48) with true by reflexivity. rewrite Hd.
    destruct (span isdigit rest) as [a r].
    pose proof (len_nonneg a) as Ha.
    destruct r as [|c r].
    - pose proof (strtod_exponent_size 101 []) as He.
      destruct (strtod_exponent 101 []) as [e ne]. cbn [snd] in He.
      cbn [app]. eexists; eexists; split; [reflexivity|].
      rewrite !len_cons. lia.
    - destruct (Z.eq_dec c 46) as [->|Hc].
      + destruct (span isdigit r) as [f s3].
        pose proof (strtod_exponent_size 101 s3) as He.
        destruct (strtod_exponent 101 s3) as [e ne]. cbn [snd] in He.
        cbn [app]. eexists; eexists; split; [reflexivity|].
        pose proof (len_nonneg f). rewrite !len_cons. lia.
      + replace (match c :: r with
                 | 46 :: s2 =>
                     let (f, s3) := span isdigit s2 in
                     (48 :: d :: a, f, len (48 :: d :: a) + 1 + len f, s3)
                 | _ => (48 :: d :: a, [], len (48 :: d :: a), c :: r)
                 end)
          with (48 :: d :: a, @nil Z, len (48 :: d :: a), c :: r).
        * pose proof (strtod_exponent_size 101 (c :: r)) as He.
          destruct (strtod_exponent 101 (c :: r)) as [e ne]. cbn [snd] in He.
          cbn [app]. eexists; eexists; split; [reflexivity|].
          rewrite !len_cons. lia.
        * destruct c as [|c|c]; try reflexivity.
          do 6 (destruct c as [c|c|]; try reflexivity); contradiction. }
  assert (Hhex : forall b, strtod_hex b (48 :: d :: rest) = None).
  { intros b. unfold strtod_hex.
    replace (tolower d =? 120) with false; [reflexivity|].
    symmetry. apply Z.eqb_neq. unfold tolower.
    destruct ((65 <=? d) && (d <=? 90)) eqn:E; lia. }
  unfold strtod. destruct neg; cbn [app span isspace Z.eqb Z.leb Z.compare
    Pos.compare Pos.compare_cont andb orb Pos.eqb].
  - rewrite Hhex. destruct (Hdec true) as (v & k & -> & Hk).
    cbn [snd]. unfold len. cbn [List.length]. lia.
  - rewrite Hhex. destruct (Hdec false) as (v & k & -> & Hk).
    cbn [snd]. unfold len. cbn [List.length]. lia.
Qed.

(** X15.  A leading zero is rejected.  A zero that is followed by a
    digit, with or without a minus before it, ends the parse with
    [JSON_ERROR_INVALID_NUMBER], whatever follows: the manual scan stops
    behind the zero, [strtod] reads on, and the cross-check of the two
    fails. *)
Theorem leading_zero_is_rejected (neg : bool) d rest :
  isdigit d = true ->
  parse_error (parse_text ((if neg then [45] else []) ++ 48 :: d :: rest))
  = Some JSON_ERROR_INVALID_NUMBER.
Proof.
  intros Hd. pose proof (isdigit_range d Hd) as Hr.
  pose proof (strtod_leading_zero neg d rest Hd) as Hst.
  pose proof (len_nonneg rest) as Hrest.
  assert (Hscan : number_scan ((if neg then [45] else []) ++ 48 :: d :: rest)
                  = Some (d :: rest)).
  { unfold number_scan.
    replace (if hd 0 ((if neg then [45] else []) ++ 48 :: d :: rest) =? 45
             then tl ((if neg then [45] else []) ++ 48 :: d :: rest)
             else (if neg then [45] else []) ++ 48 :: d :: rest)
      with (48 :: d :: rest) by (now destruct neg).
    change (number_integer (48 :: d :: rest)) with (Some (d :: rest)).
    assert (Hf : number_fraction (d :: rest) = Some (d :: rest)).
    { unfold number_fraction. cbn [hd].
      replace (d =? 46) with false by (symmetry; apply Z.eqb_neq; lia).
      reflexivity. }
    assert (He : number_exponent (d :: rest) = Some (d :: rest)).
    { unfold number_exponent. cbn [hd].
      replace (d =? 101) with false by (symmetry; apply Z.eqb_neq; lia).
      replace (d =? 69) with false by (symmetry; apply Z.eqb_neq; lia).
      reflexivity. }
    cbv beta iota. rewrite Hf. cbv beta iota. exact He. }
  destruct neg; cbn [app] in *.
  - apply (parse_text_invalid_number _ 45 (48 :: d :: rest)); auto.
    right. exists (d :: rest). split; [exact Hscan|].
    rewrite !len_cons. lia.
  - apply (parse_text_invalid_number _ 48 (d :: rest)); auto.
    right. exists (d :: rest). split; [exact Hscan|].
    rewrite !len_cons. lia.
Qed.

Lemma leading_zero_is_rejected_witness :
  parse_error (parse_text (bytes "-007.5")) = Some JSON_ERROR_INVALID_NUMBER.
Proof.
  apply (leading_zero_is_rejected true 48 (bytes "7.5")). reflexivity.
Defined.

Lemma number_scan_unsigned n r :
  number_ok n = true ->
  number_scan ((if negative n then [45] else []) ++ integer n ++ r) =
  match number_integer (integer n ++ r) with
  | None => None
  | Some s =>
      match number_fraction s with
      | None => None
      | Some s => number_exponent s
      end
  end.
Proof.
  intros Hok.
  destruct (number_ok_parts n Hok) as ((d & ds & Hi & Hd1 & _) & _).
  pose proof (isdigit_range d Hd1) as Hr.
  unfold number_scan.
  replace (if hd 0 ((if negative n then [45] else []) ++ integer n ++ r) =? 45
           then tl ((if negative n then [45] else []) ++ integer n ++ r)
           else (if negative n then [45] else []) ++ integer n ++ r)
    with (integer n ++ r); [reflexivity|].
  destruct (negative n); cbn [app hd tl]; [reflexivity|].
  rewrite Hi. cbn [app hd].
  replace (d =? 45) with false by (symmetry; apply Z.eqb_neq; lia).
  reflexivity.
Qed.

(** X16.  Numbers that are cut short are rejected.  Each of these ends
    the parse with [JSON_ERROR_INVALID_NUMBER], whatever follows: a text
    that starts with a point; a minus that no digit follows; an integer
    part followed by a point that no digit follows; and a number
    followed by an exponent marker, with or without a sign, that no
    digit follows. *)
Theorem cut_numbers_are_rejected :
  (forall rest,
      parse_error (parse_text (46 :: rest)) = Some JSON_ERROR_INVALID_NUMBER) /\
  (forall rest,
      isdigit (hd 0 rest) = false ->
      parse_error (parse_text (45 :: rest)) = Some JSON_ERROR_INVALID_NUMBER) /\
  (forall n rest,
      number_ok n = true -> fraction n = [] -> exponent n = None ->
      isdigit (hd 0 rest) = false ->
      parse_error (parse_text (number_bytes n ++ 46 :: rest))
      = Some JSON_ERROR_INVALID_NUMBER) /\
  (forall n m sg rest,
      number_ok n = true -> exponent n = None ->
      m = 101 \/ m = 69 -> sg = [] \/ sg = [43] \/ sg = [45] ->
      isdigit (hd 0 rest) = false ->
      (sg = [] -> hd 0 rest <> 43 /\ hd 0 rest <> 45) ->
      parse_error (parse_text (number_bytes n ++ m :: sg ++ rest))
      = Some JSON_ERROR_INVALID_NUMBER).
Proof.
  split; [|split; [|split]].
  - intros rest.
    apply (parse_text_invalid_number _ 46 rest); auto.
  - intros rest Hd.
    apply (parse_text_invalid_number _ 45 rest); auto. left.
    unfold number_scan. cbn [hd tl Z.eqb Pos.eqb].
    unfold number_integer. rewrite Hd.
    replace (hd 0 rest =? 48) with false; [reflexivity|].
    symmetry. apply Z.eqb_neq. intros E. rewrite E in Hd. discriminate.
  - intros n rest Hok Hf He Hd.
    destruct (number_bytes_first n Hok) as (c & r0 & Hb & Hc).
    apply (parse_text_invalid_number _ c (r0 ++ 46 :: rest)); auto.
    { rewrite Hb. reflexivity. }
    left. unfold number_bytes, fraction_bytes, exponent_bytes.
    rewrite Hf, He. cbn [fraction_part exponent_part app].
    rewrite app_nil_r, <- app_assoc, (number_scan_unsigned n _ Hok).
    destruct (integer_read n (46 :: rest) Hok) as (-> & _);
      try reflexivity; try (cbn [hd]; lia).
    unfold number_fraction. cbn [hd tl Z.eqb Pos.eqb]. now rewrite Hd.
  - intros n m sg rest Hok He Hm Hsg Hd Hs.
    destruct (number_bytes_first n Hok) as (c & r0 & Hb & Hc).
    apply (parse_text_invalid_number _ c (r0 ++ m :: sg ++ rest)); auto.
    { rewrite Hb. reflexivity. }
    left. unfold number_bytes, exponent_bytes.
    rewrite He. cbn [exponent_part].
    rewrite app_nil_r, <- !app_assoc, (number_scan_unsigned n _ Hok).
    assert (Hh : isdigit (hd 0 (m :: sg ++ rest)) = false /\
                 hd 0 (m :: sg ++ rest) <> 46 /\
                 hd 0 (m :: sg ++ rest) <> 120 /\
                 hd 0 (m :: sg ++ rest) <> 88)
      by (destruct Hm; subst; cbn [hd]; repeat split; (reflexivity || lia)).
    destruct Hh as (H1 & H2 & H3 & H4).
    destruct (fraction_bytes_read n _ Hok H1 H2 H3 H4)
      as (F1 & _ & F3 & F4 & F5).
    destruct (integer_read n _ Hok F3 F4 F5) as (-> & _).
    rewrite F1. unfold number_exponent. cbn [hd tl].
    replace ((m =? 101) || (m =? 69)) with true
      by (destruct Hm; subst; reflexivity).
    destruct Hsg as [-> | [-> | ->]]; cbn [app hd tl Z.eqb Pos.eqb orb].
    + destruct (Hs eq_refl) as (H43 & H45).
      apply Z.eqb_neq in H43, H45. rewrite H43, H45. cbn [orb].
      now rewrite Hd.
    + now rewrite Hd.
    + now rewrite Hd.
Qed.

Lemma cut_numbers_are_rejected_witness :
  parse_error (parse_text (bytes ".5")) = Some JSON_ERROR_INVALID_NUMBER /\
  parse_error (parse_text (bytes "-x")) = Some JSON_ERROR_INVALID_NUMBER /\
  parse_error (parse_text (bytes "12.]")) = Some JSON_ERROR_INVALID_NUMBER /\
  parse_error (parse_text (bytes "1.5e+,")) = Some JSON_ERROR_INVALID_NUMBER.
Proof.
  destruct cut_numbers_are_rejected as (H1 & H2 & H3 & H4).
  split; [|split; [|split]].
  - apply (H1 (bytes "5")).
  - apply (H2 (bytes "x")). reflexivity.
  - apply (H3 (mk_number false (bytes "12") [] None) (bytes "]"));
      reflexivity.
  - apply (H4 (mk_number false (bytes "1") (bytes "5") None) 101 [43]
              (bytes ",")); auto; try reflexivity.
    intros; discriminate.
Defined.

(** * Further properties of containers *)

(** ** Chains of arrays and objects *)

(** A chain of containers, each the only element or the only member of
    the one around it. *)
Inductive container_kind : Type :=
| InArray
| InObject.

(** The text of a chain, outermost first: an array is [[...]], an object
    is [{"k":...}], the innermost container is empty. *)
Fixpoint nested (ks : list container_kind) : list Z :=
  match ks with
  | [] => []
  | InArray :: ks' => 91 :: nested ks' ++ [93]
  | InObject :: ks' =>
      match ks' with
      | [] => [123; 125]
      | _ :: _ => 123 :: 34 :: 107 :: 34 :: 58 :: nested ks' ++ [125]
      end
  end.



(** At the depth limit a container fails before it reads anything. *)
Lemma container_body_too_deep ty closer loop p :
  depth_ok p -> max_depth p <= depth p -> error p = JSON_ERROR_NONE ->
  exists p',
    container_body ty closer loop p = Some (-1, p') /\
    error p' = JSON_ERROR_NESTING_DEPTH.
Proof.
  intros ((Hd0 & Hd1) & Hd2) Hge He. unfold container_body.
  unfold SIZE_MAX1 in Hd2; cbn in Hd2.
  rewrite to_size_t_small by lia.
  apply Z.leb_le in Hge. rewrite Hge.
  eexists; split; [reflexivity|]. now apply json_set_error_first.
Qed.

(** The value dispatcher on an opening brace. *)
Lemma json_parse_value_object fuel p rest :
  suffix_at p = 123 :: rest -> pos p < length p ->
  json_parse_value (S fuel) p = json_parse_object fuel p.
Proof.
  intros Hs Hl. cbn [json_parse_value]. unfold json_parse_value_body.
  rewrite (json_skip_whitespace_at p 123 rest) by (auto; reflexivity).
  apply Z.leb_gt in Hl. rewrite Hl, byte_at_suffix, Hs. reflexivity.
Qed.

(** The rounds of the container loops the chains go through. *)

Lemma array_loop_body_value pv again token p c rest :
  suffix_at p = c :: rest -> isspace c = false -> (c =? 93) = false ->
  pos p < length p ->
  array_loop_body pv again token p =
    and_then (pv p) (fun p =>
      let p := json_skip_whitespace p in
      if byte_at (json p) (pos p) =? 93 then again p
      else if byte_at (json p) (pos p) =? 44 then
        let p := set_pos p (pos p + 1) in
        let p := json_skip_whitespace p in
        if byte_at (json p) (pos p) =? 93
        then Some (-1, json_set_error p JSON_ERROR_UNEXPECTED_CHAR)
        else again p
      else Some (-1, json_set_error p JSON_ERROR_UNEXPECTED_CHAR)).
Proof.
  intros Hs Hc H93 Hl. unfold array_loop_body.
  rewrite (json_skip_whitespace_at p c rest) by auto.
  rewrite byte_at_suffix, Hs; cbn [hd]. rewrite H93.
  apply Z.ltb_lt in Hl. rewrite Hl. apply Z.ltb_lt, Z.leb_gt in Hl.
  rewrite Hl. reflexivity.
Qed.

Lemma object_loop_body_close ps pv again token p rest :
  suffix_at p = 125 :: rest -> pos p < length p ->
  object_loop_body ps pv again token p = Some (0, close_container token p).
Proof.
  intros Hs Hl. unfold object_loop_body.
  rewrite (json_skip_whitespace_at p 125 rest) by (auto; reflexivity).
  rewrite byte_at_suffix, Hs; cbn [hd].
  apply Z.ltb_lt in Hl. rewrite Hl. apply Z.ltb_lt, Z.leb_gt in Hl.
  rewrite Hl. reflexivity.
Qed.

Lemma object_loop_body_member ps pv again token p rest :
  suffix_at p = 34 :: rest -> pos p < length p ->
  object_loop_body ps pv again token p =
    and_then (ps p) (fun p =>
      let p := json_skip_whitespace p in
      let c := byte_at (json p) (pos p) in
      let p := set_pos p (pos p + 1) in
      if negb (c =? 58)
      then Some (-1, json_set_error p JSON_ERROR_UNEXPECTED_CHAR)
      else
        and_then (pv p) (fun p =>
          let p := json_skip_whitespace p in
          if byte_at (json p) (pos p) =? 125 then again p
          else
            let c := byte_at (json p) (pos p) in
            let p := set_pos p (pos p + 1) in
            if negb (c =? 44)
            then Some (-1, json_set_error p JSON_ERROR_UNEXPECTED_CHAR)
            else again p)).
Proof.
  intros Hs Hl. unfold object_loop_body.
  rewrite (json_skip_whitespace_at p 34 rest) by (auto; reflexivity).
  rewrite byte_at_suffix, Hs; cbn [hd].
  apply Z.ltb_lt in Hl. rewrite Hl. apply Z.ltb_lt, Z.leb_gt in Hl.
  rewrite Hl. reflexivity.
Qed.

Lemma nested_starts ks :
  ks <> [] ->
  exists c tl, nested ks = c :: tl /\ (c = 91 \/ c = 123).
Proof.
  destruct ks as [|[|] ks]; [congruence| |]; intros _.
  - eexists; eexists; split; [reflexivity|]. now left.
  - destruct ks; eexists; eexists; (split; [reflexivity|]); now right.
Qed.

Lemma len_nested_ge ks : len ks <= len (nested ks).
Proof.
  induction ks as [|[|] ks IH]; cbn [nested].
  - unfold len; cbn [List.length]; lia.
  - rewrite !len_cons, len_app, len_cons, len_nil. lia.
  - destruct ks as [|k ks].
    + unfold len; cbn [List.length]; lia.
    + rewrite !len_cons, len_app, !len_cons, len_nil in *. lia.
Qed.

(** The state a handler leaves when it has consumed [n] bytes and given
    everything else back. *)
Definition consumed (p : json_parser_t) (n : Z) (p' : json_parser_t) : Prop :=
  json p' = json p /\ length p' = length p /\ pos p' = pos p + n /\
  max_depth p' = max_depth p /\ max_string p' = max_string p /\
  error p' = error p /\ depth p' = depth p /\ heap p' = [].

Lemma close_container_consumed token p q n :
  json q = json p -> length q = length p -> pos q = pos p + n ->
  max_depth q = max_depth p -> max_string q = max_string p ->
  error q = error p -> depth q = depth p + 1 -> heap q = [] ->
  consumed p (n + 1) (close_container token q).
Proof.
  intros Hj Hl Hp Hmd Hms He Hd Hh.
  destruct (close_container_fields token q)
    as ((Hj' & Hl' & Hmd' & Hms') & Hp' & Hd' & He' & Hh').
  unfold consumed. repeat split; try congruence; lia.
Qed.

(** A chain of containers at the cursor, with as many levels of depth
    left as the chain is long: the value handler consumes the chain and
    gives back the depth and the error slot as it found them. *)
Lemma nested_value ks :
  forall fuel p rest,
    ks <> [] -> (3 * List.length ks <= fuel)%nat ->
    suffix_at p = nested ks ++ rest ->
    0 <= pos p -> pos p + len (nested ks) <= length p ->
    heap p = [] -> depth_ok p -> depth p + len ks <= max_depth p ->
    2 <= max_string p < SIZE_MAX1 ->
    exists p',
      json_parse_value fuel p = Some (0, p') /\
      consumed p (len (nested ks)) p'.
Proof.
  induction ks as [|k ks IH];
    intros fuel p rest Hne Hf Hs Hp Hl Hh Hd Hm Hms; [congruence|].
  destruct fuel as [|[|[|f]]]; cbn [List.length] in Hf; try lia.
  rewrite len_cons in Hm.
  pose proof (len_nonneg ks) as Hks.
  pose proof (len_nonneg (nested ks)) as Hnk.
  destruct k.
  - (* an array *)
    cbn [nested app] in Hs, Hl |- *. rewrite <- app_assoc in Hs.
    cbn [app] in Hs. rewrite ?len_cons, ?len_app, ?len_cons, ?(@len_nil Z) in Hl |- *.
    rewrite (json_parse_value_array _ p _ Hs) by lia.
    cbn [json_parse_array]. unfold json_parse_array_body.
    destruct (container_body_enter JSON_TOKEN_ARRAY 93 (array_loop (S f)) p)
      as (q & token & -> & Hj & Hlq & Hpq & Hmq & Hsq' & Heq & Hdq & Hhq);
      auto; [lia|].
    assert (Hsq : suffix_at q = nested ks ++ 93 :: rest).
    { rewrite (suffix_at_forward p q 1), Hs by (auto; lia). reflexivity. }
    destruct ks as [|k' ks'].
    + (* the innermost container *)
      cbn [nested app] in Hsq.
      rewrite (json_skip_whitespace_at q 93 rest) by (auto; reflexivity).
      cbv zeta. rewrite byte_at_suffix, Hsq. cbn [hd Z.eqb Pos.eqb].
      eexists; split; [reflexivity|].
      cbn [nested]. rewrite len_nil.
      replace (0 + 1 + 1) with (1 + 1) by lia.
      now apply close_container_consumed.
    + destruct (nested_starts (k' :: ks')) as (c & tl & Ec & Hc);
        [congruence|].
      pose proof Hsq as Hsqc. rewrite Ec in Hsqc. cbn [app] in Hsqc.
      assert (Hcs : isspace c = false /\ (c =? 93) = false)
        by (destruct Hc; subst; split; reflexivity).
      destruct Hcs as (Hsp & H93).
      rewrite (json_skip_whitespace_at q c _ Hsqc Hsp).
      cbv zeta. rewrite byte_at_suffix, Hsqc. cbn [hd]. rewrite H93.
      cbn [array_loop].
      rewrite (array_loop_body_value _ _ _ q c _ Hsqc Hsp H93) by lia.
      assert (A1 : k' :: ks' <> []) by congruence.
      assert (A2 : (3 * List.length (k' :: ks') <= f)%nat)
        by (cbn [List.length] in *; lia).
      assert (A3 : pos q + len (nested (k' :: ks')) <= length q) by lia.
      assert (A4 : depth_ok q)
        by (destruct Hd as ((? & ?) & ?); unfold depth_ok; lia).
      assert (A5 : depth q + len (k' :: ks') <= max_depth q) by lia.
      assert (A6 : 2 <= max_string q < SIZE_MAX1) by (rewrite Hsq'; exact Hms).
      assert (A0 : 0 <= pos q) by lia.
      destruct (IH f q (93 :: rest) A1 A2 Hsq A0 A3 Hhq A4 A5 A6)
        as (p3 & -> & Hj3 & Hl3 & Hp3 & Hm3 & Hms3 & He3 & Hd3 & Hh3).
      assert (Hs3 : suffix_at p3 = 93 :: rest).
      { rewrite (suffix_at_forward q p3 (len (nested (k' :: ks'))))
          by (auto; lia).
        rewrite Hsq. now apply skipn_len_app. }
      unfold and_then. cbn [Z.eqb].
      rewrite (json_skip_whitespace_at p3 93 rest) by (auto; reflexivity).
      cbv zeta. rewrite byte_at_suffix, Hs3. cbn [hd Z.eqb Pos.eqb].
      destruct f as [|f]; [cbn [List.length] in Hf; lia|]. cbn [array_loop].
      rewrite (array_loop_body_close _ _ _ p3 rest) by (auto; lia).
      eexists; split; [reflexivity|].
      replace (len (nested (k' :: ks')) + 1 + 1)
        with (1 + len (nested (k' :: ks')) + 1) by lia.
      apply close_container_consumed; try congruence; lia.
  - (* an object *)
    destruct ks as [|k' ks'].
    + (* the innermost container *)
      cbn [nested app] in Hs, Hl |- *. rewrite ?len_cons, ?(@len_nil Z) in Hl |- *.
      rewrite (json_parse_value_object _ p _ Hs) by lia.
      cbn [json_parse_object]. unfold json_parse_object_body.
      destruct (container_body_enter JSON_TOKEN_OBJECT 125
                  (object_loop (S f)) p)
        as (q & token & -> & Hj & Hlq & Hpq & Hmq & Hsq' & Heq & Hdq & Hhq);
        auto; [lia|].
      assert (Hsq : suffix_at q = 125 :: rest).
      { rewrite (suffix_at_forward p q 1), Hs by (auto; lia). reflexivity. }
      rewrite (json_skip_whitespace_at q 125 rest) by (auto; reflexivity).
      cbv zeta. rewrite byte_at_suffix, Hsq. cbn [hd Z.eqb Pos.eqb].
      eexists; split; [reflexivity|].
      now apply close_container_consumed.
    + set (inner := nested (k' :: ks')) in *.
      assert (En : nested (InObject :: k' :: ks')
                   = 123 :: 34 :: 107 :: 34 :: 58 :: inner ++ [125])
        by reflexivity.
      rewrite En in Hs, Hl |- *. clear En.
      cbn [app] in Hs. rewrite <- app_assoc in Hs. cbn [app] in Hs.
      rewrite ?len_cons, ?len_app, ?len_cons, ?(@len_nil Z) in Hl |- *.
      rewrite (json_parse_value_object _ p _ Hs) by lia.
      cbn [json_parse_object]. unfold json_parse_object_body.
      destruct (container_body_enter JSON_TOKEN_OBJECT 125
                  (object_loop (S f)) p)
        as (q & token & -> & Hj & Hlq & Hpq & Hmq & Hsq' & Heq & Hdq & Hhq);
        auto; [lia|].
      assert (Hsq : suffix_at q
                    = 34 :: encode [Plain 107]
                         ++ 34 :: 58 :: inner ++ 125 :: rest).
      { rewrite (suffix_at_forward p q 1), Hs by (auto; lia). reflexivity. }
      rewrite (json_skip_whitespace_at q 34 _ Hsq) by reflexivity.
      cbv zeta. rewrite byte_at_suffix, Hsq. cbn [hd Z.eqb Pos.eqb].
      cbn [object_loop].
      rewrite (object_loop_body_member _ _ _ _ q _ Hsq) by lia.
      assert (B1 : pos q + len (encode [Plain 107]) + 2 <= length q)
        by (cbn; lia).
      assert (B2 : 1 <= max_string q < SIZE_MAX1) by (rewrite Hsq'; lia).
      assert (B3 : len [Plain 107] <= max_string q - 1)
        by (rewrite Hsq'; cbn; lia).
      assert (B4 : (List.length [Plain 107] < f)%nat)
        by (cbn [List.length] in *; lia).
      assert (B0 : 0 <= pos q) by lia.
      destruct (json_parse_string_quoted f q [Plain 107]
                  (58 :: inner ++ 125 :: rest) Hhq eq_refl Hsq B0 B1 B2 B3 B4)
        as (p2 & E2 & _ & Hp2 & Hj2 & Hl2 & He2).
      destruct (json_parse_string_fields _ _ _ _ E2)
        as (((_ & _ & Hmd2 & Hms2) & _ & Hd2 & _) & _).
      pose proof (proj1 (json_parse_string_reports _ _ _ _ E2) Hhq) as Hh2.
      rewrite E2.
      cbn [encode flat_map item_bytes app] in Hp2.
      rewrite ?len_cons, ?(@len_nil Z) in Hp2.
      assert (Hs2 : suffix_at p2 = 58 :: inner ++ 125 :: rest).
      { rewrite (suffix_at_forward q p2 3), Hsq by (auto; lia). reflexivity. }
      unfold and_then at 1. cbn [Z.eqb].
      rewrite (json_skip_whitespace_at p2 58 _ Hs2) by reflexivity.
      cbv zeta. rewrite byte_at_suffix, Hs2. cbn [hd Z.eqb Pos.eqb negb].
      set (q2 := set_pos p2 (pos p2 + 1)).
      assert (A1 : k' :: ks' <> []) by congruence.
      assert (A2 : (3 * List.length (k' :: ks') <= f)%nat)
        by (cbn [List.length] in *; lia).
      assert (As : suffix_at q2 = inner ++ 125 :: rest).
      { unfold q2. rewrite (suffix_at_forward p2 _ 1), Hs2
          by (cbn; auto; lia).
        reflexivity. }
      assert (A0 : 0 <= pos q2) by (unfold q2; cbn [pos set_pos]; lia).
      assert (A3 : pos q2 + len inner <= length q2)
        by (unfold q2; cbn [pos length set_pos]; lia).
      assert (A4 : depth_ok q2).
      { destruct Hd as ((? & ?) & ?). unfold depth_ok, q2.
        cbn [depth max_depth set_pos]. lia. }
      assert (A5 : depth q2 + len (k' :: ks') <= max_depth q2)
        by (unfold q2; cbn [depth max_depth set_pos]; lia).
      assert (A6 : 2 <= max_string q2 < SIZE_MAX1)
        by (unfold q2; cbn [max_string set_pos]; rewrite Hms2, Hsq';
            exact Hms).
      destruct (IH f q2 (125 :: rest) A1 A2 As A0 A3 Hh2 A4 A5 A6)
        as (p3 & -> & Hj3 & Hl3 & Hp3 & Hm3 & Hms3 & He3 & Hd3 & Hh3).
      unfold q2 in Hj3, Hl3, Hp3, Hm3, Hms3, He3, Hd3.
      cbn [pos set_pos length heap max_depth max_string depth json error]
        in Hj3, Hl3, Hp3, Hm3, Hms3, He3, Hd3.
      assert (Hs3 : suffix_at p3 = 125 :: rest).
      { rewrite (suffix_at_forward p2 p3 (1 + len inner)), Hs2
          by (try congruence; lia).
        replace (Z.to_nat (1 + len inner)) with (S (Z.to_nat (len inner)))
          by lia.
        cbn [skipn]. now apply skipn_len_app. }
      unfold and_then. cbn [Z.eqb].
      rewrite (json_skip_whitespace_at p3 125 rest) by (auto; reflexivity).
      cbv zeta. rewrite byte_at_suffix, Hs3. cbn [hd Z.eqb Pos.eqb].
      destruct f as [|f]; [cbn [List.length] in Hf; lia|]. cbn [object_loop].
      rewrite (object_loop_body_close _ _ _ _ p3 rest) by (auto; lia).
      eexists; split; [reflexivity|].
      replace (len inner + 1 + 1 + 1 + 1 + 1 + 1)
        with (5 + len inner + 1) by lia.
      apply close_container_consumed; try congruence; lia.
Qed.

(** A chain with more containers than levels of depth are left: the
    value handler fails and latches [JSON_ERROR_NESTING_DEPTH]. *)
Lemma nested_too_deep ks :
  forall fuel p rest,
    ks <> [] -> (3 * List.length ks <= fuel)%nat ->
    suffix_at p = nested ks ++ rest ->
    0 <= pos p -> pos p + len (nested ks) <= length p ->
    heap p = [] -> depth_ok p -> max_depth p < depth p + len ks ->
    2 <= max_string p < SIZE_MAX1 -> error p = JSON_ERROR_NONE ->
    exists p',
      json_parse_value fuel p = Some (-1, p') /\
      error p' = JSON_ERROR_NESTING_DEPTH.
Proof.
  induction ks as [|k ks IH];
    intros fuel p rest Hne Hf Hs Hp Hl Hh Hd Hm Hms He; [congruence|].
  destruct fuel as [|[|[|f]]]; cbn [List.length] in Hf; try lia.
  rewrite len_cons in Hm.
  pose proof (len_nonneg ks) as Hks.
  pose proof (len_nonneg (nested ks)) as Hnk.
  destruct (Z_lt_le_dec (depth p) (max_depth p)) as [Hlt|Hge].
  2:{ (* at the limit: the first container fails *)
      destruct (nested_starts (k :: ks) Hne) as (c & tl & Ec & Hc).
      rewrite Ec in Hs, Hl. cbn [app] in Hs. rewrite len_cons in Hl.
      pose proof (len_nonneg tl).
      destruct Hc as [-> | ->].
      - rewrite (json_parse_value_array _ p _ Hs) by lia.
        cbn [json_parse_array]. unfold json_parse_array_body.
        now apply container_body_too_deep.
      - rewrite (json_parse_value_object _ p _ Hs) by lia.
        cbn [json_parse_object]. unfold json_parse_object_body.
        now apply container_body_too_deep. }
  destruct ks as [|k' ks']; [rewrite (@len_nil container_kind) in Hm; lia|].
  assert (A1 : k' :: ks' <> []) by congruence.
  assert (A2 : (3 * List.length (k' :: ks') <= f)%nat)
    by (cbn [List.length] in *; lia).
  set (inner := nested (k' :: ks')) in *.
  destruct k.
  - (* an array *)
    assert (En : nested (InArray :: k' :: ks') = 91 :: inner ++ [93])
      by reflexivity.
    rewrite En in Hs, Hl. clear En.
    cbn [app] in Hs. rewrite <- app_assoc in Hs. cbn [app] in Hs.
    rewrite ?len_cons, ?len_app, ?len_cons, ?(@len_nil Z) in Hl.
    rewrite (json_parse_value_array _ p _ Hs) by lia.
    cbn [json_parse_array]. unfold json_parse_array_body.
    destruct (container_body_enter JSON_TOKEN_ARRAY 93 (array_loop (S f)) p)
      as (q & token & -> & Hj & Hlq & Hpq & Hmq & Hsq' & Heq & Hdq & Hhq);
      auto.
    assert (Hsq : suffix_at q = inner ++ 93 :: rest).
    { rewrite (suffix_at_forward p q 1), Hs by (auto; lia). reflexivity. }
    destruct (nested_starts (k' :: ks') A1) as (c & tl & Ec & Hc).
    pose proof Hsq as Hsqc. fold inner in Ec. rewrite Ec in Hsqc.
    cbn [app] in Hsqc.
    assert (Hcs : isspace c = false /\ (c =? 93) = false)
      by (destruct Hc; subst; split; reflexivity).
    destruct Hcs as (Hsp & H93).
    rewrite (json_skip_whitespace_at q c _ Hsqc Hsp).
    cbv zeta. rewrite byte_at_suffix, Hsqc. cbn [hd]. rewrite H93.
    cbn [array_loop].
    rewrite (array_loop_body_value _ _ _ q c _ Hsqc Hsp H93) by lia.
    assert (A3 : pos q + len inner <= length q) by lia.
    assert (A4 : depth_ok q)
      by (destruct Hd as ((? & ?) & ?); unfold depth_ok; lia).
    assert (A5 : max_depth q < depth q + len (k' :: ks')) by lia.
    assert (A6 : 2 <= max_string q < SIZE_MAX1) by (rewrite Hsq'; exact Hms).
    assert (A0 : 0 <= pos q) by lia.
    assert (A7 : error q = JSON_ERROR_NONE) by congruence.
    destruct (IH f q (93 :: rest) A1 A2 Hsq A0 A3 Hhq A4 A5 A6 A7)
      as (p3 & -> & He3).
    exists p3. split; [reflexivity|exact He3].
  - (* an object *)
    assert (En : nested (InObject :: k' :: ks')
                 = 123 :: 34 :: 107 :: 34 :: 58 :: inner ++ [125])
      by reflexivity.
    rewrite En in Hs, Hl. clear En.
    cbn [app] in Hs. rewrite <- app_assoc in Hs. cbn [app] in Hs.
    rewrite ?len_cons, ?len_app, ?len_cons, ?(@len_nil Z) in Hl.
    rewrite (json_parse_value_object _ p _ Hs) by lia.
    cbn [json_parse_object]. unfold json_parse_object_body.
    destruct (container_body_enter JSON_TOKEN_OBJECT 125
                (object_loop (S f)) p)
      as (q & token & -> & Hj & Hlq & Hpq & Hmq & Hsq' & Heq & Hdq & Hhq);
      auto.
    assert (Hsq : suffix_at q
                  = 34 :: encode [Plain 107]
                       ++ 34 :: 58 :: inner ++ 125 :: rest).
    { rewrite (suffix_at_forward p q 1), Hs by (auto; lia). reflexivity. }
    rewrite (json_skip_whitespace_at q 34 _ Hsq) by reflexivity.
    cbv zeta. rewrite byte_at_suffix, Hsq. cbn [hd Z.eqb Pos.eqb].
    cbn [object_loop].
    rewrite (object_loop_body_member _ _ _ _ q _ Hsq) by lia.
    assert (B1 : pos q + len (encode [Plain 107]) + 2 <= length q)
      by (cbn; lia).
    assert (B2 : 1 <= max_string q < SIZE_MAX1) by (rewrite Hsq'; lia).
    assert (B3 : len [Plain 107] <= max_string q - 1)
      by (rewrite Hsq'; cbn; lia).
    assert (B4 : (List.length [Plain 107] < f)%nat)
      by (cbn [List.length] in *; lia).
    assert (B0 : 0 <= pos q) by lia.
    destruct (json_parse_string_quoted f q [Plain 107]
                (58 :: inner ++ 125 :: rest) Hhq eq_refl Hsq B0 B1 B2 B3 B4)
      as (p2 & E2 & _ & Hp2 & Hj2 & Hl2 & He2).
    destruct (json_parse_string_fields _ _ _ _ E2)
      as (((_ & _ & Hmd2 & Hms2) & _ & Hd2 & _) & _).
    pose proof (proj1 (json_parse_string_reports _ _ _ _ E2) Hhq) as Hh2.
    rewrite E2.
    cbn [encode flat_map item_bytes app] in Hp2.
    rewrite ?len_cons, ?(@len_nil Z) in Hp2.
    assert (Hs2 : suffix_at p2 = 58 :: inner ++ 125 :: rest).
    { rewrite (suffix_at_forward q p2 3), Hsq by (auto; lia). reflexivity. }
    unfold and_then at 1. cbn [Z.eqb].
    rewrite (json_skip_whitespace_at p2 58 _ Hs2) by reflexivity.
    cbv zeta. rewrite byte_at_suffix, Hs2. cbn [hd Z.eqb Pos.eqb negb].
    set (q2 := set_pos p2 (pos p2 + 1)).
    assert (As : suffix_at q2 = inner ++ 125 :: rest).
    { unfold q2. rewrite (suffix_at_forward p2 _ 1), Hs2
        by (cbn; auto; lia).
      reflexivity. }
    assert (A0 : 0 <= pos q2) by (unfold q2; cbn [pos set_pos]; lia).
    assert (A3 : pos q2 + len inner <= length q2)
      by (unfold q2; cbn [pos length set_pos]; lia).
    assert (A4 : depth_ok q2).
    { destruct Hd as ((? & ?) & ?). unfold depth_ok, q2.
      cbn [depth max_depth set_pos]. lia. }
    assert (A5 : max_depth q2 < depth q2 + len (k' :: ks'))
      by (unfold q2; cbn [depth max_depth set_pos]; lia).
    assert (A6 : 2 <= max_string q2 < SIZE_MAX1)
      by (unfold q2; cbn [max_string set_pos]; rewrite Hms2, Hsq';
          exact Hms).
    assert (A7 : error q2 = JSON_ERROR_NONE)
      by (unfold q2; cbn [error set_pos]; congruence).
    destruct (IH f q2 (125 :: rest) A1 A2 As A0 A3 Hh2 A4 A5 A6 A7)
      as (p3 & -> & He3).
    exists p3. split; [reflexivity|exact He3].
Qed.

Lemma nested_not_blank ks :
  ks <> [] ->
  exists c tl, nested ks = c :: tl /\ isspace c = false.
Proof.
  intros Hne. destruct (nested_starts ks Hne) as (c & tl & Ec & Hc).
  exists c, tl. split; [exact Ec|]. destruct Hc; subst; reflexivity.
Qed.

Section NestedChains.
Variables (ks : list container_kind) (m : Z).
Hypothesis Hne : ks <> [].
Hypothesis Hm : 0 <= m < SIZE_MAX1.

Let p0 := set_error (parser_with_max_depth (nested ks) m) JSON_ERROR_NONE.

Lemma nested_parse_start :
  json_parser_parse (parser_with_max_depth (nested ks) m) =
  match json_parse_value (parse_fuel p0) p0 with
  | None => None
  | Some (rc, p) =>
      if rc <? 0 then Some (error p, p)
      else
        let p := json_skip_whitespace p in
        let p := if negb (pos p =? length p)
                 then json_set_error p JSON_ERROR_TRAILING_CHARS
                 else p in
        Some (error p, p)
  end.
Proof.
  unfold json_parser_parse. fold p0.
  destruct (nested_not_blank ks Hne) as (c & tl & Ec & Hc).
  assert (Hs : suffix_at p0 = c :: tl) by (rewrite <- Ec; reflexivity).
  rewrite (json_skip_whitespace_at p0 c tl Hs Hc).
  replace (length p0 <=? pos p0) with false; [reflexivity|].
  symmetry. apply Z.leb_gt.
  change (0 < len (nested ks)). rewrite Ec, len_cons.
  pose proof (len_nonneg tl). lia.
Qed.

Lemma parse_fuel_nested : (3 * List.length ks <= parse_fuel p0)%nat.
Proof.
  pose proof (len_nested_ge ks) as H. unfold parse_fuel.
  change (length p0) with (len (nested ks)). change (pos p0) with 0.
  unfold len in *. lia.
Qed.

Lemma nested_start_state :
  suffix_at p0 = nested ks ++ [] /\ pos p0 = 0 /\
  length p0 = len (nested ks) /\ heap p0 = [] /\ depth p0 = 0 /\
  max_depth p0 = m /\ max_string p0 = JSON_DEFAULT_MAX_STRING /\
  error p0 = JSON_ERROR_NONE.
Proof. rewrite app_nil_r. repeat split. Qed.

Lemma nested_within_limit_parses :
  len ks <= m ->
  exists p',
    json_parser_parse (parser_with_max_depth (nested ks) m)
    = Some (JSON_ERROR_NONE, p') /\
    pos p' = length p' /\ depth p' = 0.
Proof.
  intros Hk. rewrite nested_parse_start.
  destruct nested_start_state as (Q1 & Q2 & Q3 & Q4 & Q5 & Q6 & Q7 & Q8).
  pose proof (len_nonneg (nested ks)) as Hn.
  assert (P2 : 0 <= pos p0) by lia.
  assert (P3 : pos p0 + len (nested ks) <= length p0) by lia.
  assert (P4 : depth_ok p0) by (unfold depth_ok; lia).
  assert (P5 : depth p0 + len ks <= max_depth p0) by lia.
  assert (P6 : 2 <= max_string p0 < SIZE_MAX1)
    by (rewrite Q7; unfold JSON_DEFAULT_MAX_STRING, SIZE_MAX1; lia).
  destruct (nested_value ks (parse_fuel p0) p0 [] Hne parse_fuel_nested
              Q1 P2 P3 Q4 P4 P5 P6)
    as (p' & -> & Hj & Hl & Hp & _ & _ & He & Hd & _).
  cbn [Z.ltb Z.compare].
  rewrite json_skip_whitespace_end by lia.
  replace (pos p' =? length p') with true
    by (symmetry; apply Z.eqb_eq; lia).
  cbn [negb]. exists p'. rewrite He, Q8. repeat split; lia.
Qed.

Lemma nested_past_limit_is_rejected :
  m < len ks ->
  parse_error (json_parser_parse (parser_with_max_depth (nested ks) m))
  = Some JSON_ERROR_NESTING_DEPTH.
Proof.
  intros Hk. rewrite nested_parse_start.
  destruct nested_start_state as (Q1 & Q2 & Q3 & Q4 & Q5 & Q6 & Q7 & Q8).
  pose proof (len_nonneg (nested ks)) as Hn.
  assert (P2 : 0 <= pos p0) by lia.
  assert (P3 : pos p0 + len (nested ks) <= length p0) by lia.
  assert (P4 : depth_ok p0) by (unfold depth_ok; lia).
  assert (P5 : max_depth p0 < depth p0 + len ks) by lia.
  assert (P6 : 2 <= max_string p0 < SIZE_MAX1)
    by (rewrite Q7; unfold JSON_DEFAULT_MAX_STRING, SIZE_MAX1; lia).
  destruct (nested_too_deep ks (parse_fuel p0) p0 [] Hne parse_fuel_nested
              Q1 P2 P3 Q4 P4 P5 P6 Q8)
    as (p' & -> & He).
  cbn [Z.ltb Z.compare parse_error option_map fst]. now rewrite He.
Qed.

End NestedChains.

(** X17.  The depth limit counts arrays and objects alike.  For a
    chain of containers, each the only element of the array or the value
    of the only member of the object around it: with a limit of at least
    as many levels as the chain has containers the parse succeeds, the
    whole text is consumed and the depth is back at zero; with a smaller
    limit it fails with [JSON_ERROR_NESTING_DEPTH]. *)
Theorem nested_chain_boundary ks m :
  ks <> [] -> 0 <= m < SIZE_MAX1 ->
  (len ks <= m ->
   exists p',
     json_parser_parse (parser_with_max_depth (nested ks) m)
     = Some (JSON_ERROR_NONE, p') /\
     pos p' = length p' /\ depth p' = 0) /\
  (m < len ks ->
   parse_error (json_parser_parse (parser_with_max_depth (nested ks) m))
   = Some JSON_ERROR_NESTING_DEPTH).
Proof.
  intros Hne Hm. split.
  - now apply nested_within_limit_parses.
  - now apply nested_past_limit_is_rejected.
Qed.

(** [{"k":[{"k":[]}]}] with a limit of four levels, and of three. *)
Lemma nested_chain_boundary_witness :
  nested [InObject; InArray; InObject; InArray] = text "{'k':[{'k':[]}]}" /\
  (exists p',
     json_parser_parse
       (parser_with_max_depth (text "{'k':[{'k':[]}]}") 4)
     = Some (JSON_ERROR_NONE, p') /\
     pos p' = length p' /\ depth p' = 0) /\
  parse_error
    (json_parser_parse (parser_with_max_depth (text "{'k':[{'k':[]}]}") 3))
  = Some JSON_ERROR_NESTING_DEPTH.
Proof.
  split; [reflexivity|].
  assert (Hne : [InObject; InArray; InObject; InArray] <> []) by discriminate.
  split.
  - apply (proj1 (nested_chain_boundary
                    [InObject; InArray; InObject; InArray] 4 Hne
                    ltac:(unfold SIZE_MAX1; lia))).
    vm_compute; discriminate.
  - apply (proj2 (nested_chain_boundary
                    [InObject; InArray; InObject; InArray] 3 Hne
                    ltac:(unfold SIZE_MAX1; lia))).
    reflexivity.
Defined.

(** * Further properties of the dispatcher *)

(** ** White space before a value *)

Lemma byte_at_skipn buf q : byte_at buf q = hd 0 (skipn (Z.to_nat q) buf).
Proof.
  unfold byte_at. generalize (Z.to_nat q).
  induction buf as [|c buf IH]; intros [|n]; simpl; auto.
Qed.

(** The loop of [json_skip_whitespace] over white space that ends before
    a byte of another kind, or at the end of the input. *)
Lemma skip_whitespace_loop_over ws :
  forall n buf l q r,
    skipn (Z.to_nat q) buf = ws ++ r -> 0 <= q ->
    forallb isspace ws = true ->
    (q + len ws <? l) && isspace (hd 0 r) = false ->
    (List.length ws <= n)%nat -> q + len ws <= l ->
    skip_whitespace_loop n buf l q = q + len ws.
Proof.
  induction ws as [|w ws IH]; intros n buf l q r Hs Hq Hw Hr Hn Hl.
  - rewrite len_nil, Z.add_0_r in *. apply skip_whitespace_loop_stop.
    cbn [app] in Hs. now rewrite byte_at_skipn, Hs.
  - cbn [forallb] in Hw. apply andb_prop in Hw. destruct Hw as [Hw1 Hw2].
    rewrite len_cons in *. pose proof (len_nonneg ws) as Hws.
    destruct n as [|n]; [cbn [List.length] in Hn; lia|].
    cbn [skip_whitespace_loop].
    rewrite byte_at_skipn, Hs. cbn [app hd]. rewrite Hw1.
    replace (q <? l) with true by (symmetry; apply Z.ltb_lt; lia).
    cbn [andb].
    rewrite (IH n buf l (q + 1) r); try lia; auto.
    + replace (Z.to_nat (q + 1)) with (S (Z.to_nat q)) by lia.
      rewrite skipn_tl, Hs. reflexivity.
    + replace (q + 1 + len ws) with (q + (len ws + 1)) by lia. exact Hr.
    + cbn [List.length] in Hn. lia.
Qed.

Lemma json_skip_whitespace_over p ws r :
  suffix_at p = ws ++ r -> 0 <= pos p ->
  forallb isspace ws = true ->
  (pos p + len ws <? length p) && isspace (hd 0 r) = false ->
  pos p + len ws <= length p ->
  json_skip_whitespace p = set_pos p (pos p + len ws).
Proof.
  intros Hs Hp Hw Hr Hl. unfold json_skip_whitespace.
  rewrite (skip_whitespace_loop_over ws _ _ _ _ r); auto.
  unfold len in *. lia.
Qed.

(** [json_parser_parse] from a fresh parser on white space followed by a
    byte of another kind: the state the value handler starts in. *)
Lemma parse_text_start ws c rest :
  forallb isspace ws = true -> isspace c = false ->
  exists p,
    parse_text (ws ++ c :: rest) =
    match json_parse_value (parse_fuel p) p with
    | None => None
    | Some (rc, p) =>
        if rc <? 0 then Some (error p, p)
        else
          let p := json_skip_whitespace p in
          let p := if negb (pos p =? length p)
                   then json_set_error p JSON_ERROR_TRAILING_CHARS
                   else p in
          Some (error p, p)
    end /\
    p = set_pos (json_parser_init (ws ++ c :: rest) (len (ws ++ c :: rest)))
                (len ws) /\
    suffix_at p = c :: rest /\ pos p < length p.
Proof.
  intros Hw Hc.
  pose proof (len_nonneg ws) as Hws. pose proof (len_nonneg rest) as Hr.
  assert (Hlen : len (ws ++ c :: rest) = len ws + (len rest + 1))
    by (now rewrite len_app, len_cons).
  set (p := set_pos (json_parser_init (ws ++ c :: rest)
                       (len (ws ++ c :: rest))) (len ws)).
  assert (Hsk : json_skip_whitespace
                  (set_error (json_parser_init (ws ++ c :: rest)
                                (len (ws ++ c :: rest))) JSON_ERROR_NONE)
                = p).
  { rewrite (json_skip_whitespace_over _ ws (c :: rest));
      cbn [pos length set_error json_parser_init json hd]; auto; try lia.
    rewrite Hc. apply andb_false_r. }
  exists p. split; [|split; [reflexivity|split]].
  - unfold parse_text, json_parser_parse. rewrite Hsk.
    replace (length p <=? pos p) with false; [reflexivity|].
    symmetry. apply Z.leb_gt. unfold p.
    cbn [pos length set_pos json_parser_init]. lia.
  - unfold suffix_at, p. cbn [pos json set_pos json_parser_init].
    now apply skipn_len_app.
  - unfold p. cbn [pos length set_pos json_parser_init]. lia.
Qed.

(** ** Bytes that start no value *)

(** The bytes on which [json_parse_value] calls a handler. *)
Definition starts_value (c : Z) : bool :=
  (c =? 123) || (c =? 91) || (c =? 34) || (c =? 116) || (c =? 102)
  || (c =? 110) || (c =? 45) || isdigit c || (c =? 46).

(** X18.  A text whose first byte behind the leading white space is
    none of [{], [[], the quote, [t], [f], [n], the minus, a digit or the
    point ends the parse with [JSON_ERROR_INVALID_TOKEN], and no token is
    stored, whatever follows that byte. *)
Theorem stray_byte_is_invalid_token ws c rest :
  forallb isspace ws = true -> isspace c = false -> starts_value c = false ->
  parse_error (parse_text (ws ++ c :: rest)) = Some JSON_ERROR_INVALID_TOKEN /\
  parse_tokens (parse_text (ws ++ c :: rest)) = Some [].
Proof.
  intros Hw Hc Hv.
  destruct (parse_text_start ws c rest Hw Hc) as (p & -> & Hp & Hs & Hl).
  unfold starts_value in Hv.
  repeat (apply orb_false_elim in Hv; destruct Hv as [Hv ?]).
  unfold parse_fuel. destruct (Z.to_nat (length p - pos p)) eqn:En; [lia|].
  replace (3 * S n + 3)%nat with (S (3 * S n + 2)) by lia.
  cbn [json_parse_value]. unfold json_parse_value_body.
  rewrite (json_skip_whitespace_at p c rest Hs Hc).
  apply Z.leb_gt in Hl. rewrite Hl, byte_at_suffix, Hs. cbn [hd].
  repeat match goal with
         | X : (_ =? _) = false |- _ => rewrite X; clear X
         | X : isdigit _ = false |- _ => rewrite X; clear X
         end.
  cbn [orb Z.ltb Z.compare parse_error parse_tokens option_map fst snd].
  rewrite Hp. split; reflexivity.
Qed.

Lemma stray_byte_is_invalid_token_witness :
  parse_error (parse_text (bytes "  }x")) = Some JSON_ERROR_INVALID_TOKEN /\
  parse_tokens (parse_text (bytes "  }x")) = Some [].
Proof.
  apply (stray_byte_is_invalid_token [32; 32] 125 [120]); reflexivity.
Defined.

(** ** The literals *)

(** The text of a literal token. *)
Definition literal_text (ty : json_token_type_t) : list Z :=
  match ty with
  | JSON_TOKEN_TRUE => bytes "true"
  | JSON_TOKEN_FALSE => bytes "false"
  | JSON_TOKEN_NULL => bytes "null"
  | _ => []
  end.

Lemma strncmp_eq_app lit r : strncmp_eq (lit ++ r) lit = true.
Proof.
  induction lit as [|a lit IH]; [reflexivity|].
  cbn [app strncmp_eq hd tl]. now rewrite Z.eqb_refl, IH.
Qed.

(** [json_parse_literal] on the literal it looks for, with an allocator
    that does not fail: the token is appended behind the literal. *)
Lemma json_parse_literal_accepts p lit ty r :
  heap p = [] -> suffix_at p = lit ++ r ->
  pos p + len lit <= length p ->
  exists p',
    json_parse_literal p lit ty = (0, p') /\
    tokens p' = tokens p ++
      [mk_token ty ValueZero (pos p + len lit) (pos p + len lit)] /\
    pos p' = pos p + len lit /\ json p' = json p /\ length p' = length p /\
    error p' = error p.
Proof.
  intros Hh Hs Hl. unfold json_parse_literal.
  replace (length p <? pos p + len lit) with false
    by (symmetry; apply Z.ltb_ge; lia).
  fold (suffix_at p). rewrite Hs, strncmp_eq_app. cbn [negb].
  destruct (json_add_token_ok (set_pos p (pos p + len lit)) ty Hh)
    as (p1 & -> & Ht & Hj & Hl1 & Hp & _ & _ & He & _).
  cbn [Z.eqb negb]. exists p1. repeat split; auto.
Qed.

(** The value dispatcher on the first letter of a literal. *)
Lemma json_parse_value_literal fuel p ty r :
  ty = JSON_TOKEN_TRUE \/ ty = JSON_TOKEN_FALSE \/ ty = JSON_TOKEN_NULL ->
  suffix_at p = literal_text ty ++ r -> pos p < length p ->
  json_parse_value (S fuel) p
  = Some (json_parse_literal p (literal_text ty) ty).
Proof.
  intros Hty Hs Hl. cbn [json_parse_value]. unfold json_parse_value_body.
  destruct Hty as [-> | [-> | ->]]; cbn [literal_text bytes app] in Hs |- *;
    (erewrite (json_skip_whitespace_at p _ _ Hs) by reflexivity);
    apply Z.leb_gt in Hl; rewrite Hl, byte_at_suffix, Hs; reflexivity.
Qed.

(** X19.  The literals and their spans.  [true], [false] and [null],
    with white space before and behind, parse into one token of the
    type, and the token holds no span of the literal: its [start] and
    its [end] are both the offset behind the last letter. *)
Theorem literal_token_span ty ws1 ws2 :
  ty = JSON_TOKEN_TRUE \/ ty = JSON_TOKEN_FALSE \/ ty = JSON_TOKEN_NULL ->
  forallb isspace ws1 = true -> forallb isspace ws2 = true ->
  parse_error (parse_text (ws1 ++ literal_text ty ++ ws2))
  = Some JSON_ERROR_NONE /\
  parse_tokens (parse_text (ws1 ++ literal_text ty ++ ws2))
  = Some [mk_token ty ValueZero (len ws1 + len (literal_text ty))
                   (len ws1 + len (literal_text ty))].
Proof.
  intros Hty Hw1 Hw2.
  assert (Hc : exists c r, literal_text ty = c :: r /\ isspace c = false).
  { destruct Hty as [-> | [-> | ->]]; eexists; eexists; split; reflexivity. }
  destruct Hc as (c & r & Ec & Hc).
  pose proof (len_nonneg ws1) as H1. pose proof (len_nonneg ws2) as H2.
  pose proof (len_nonneg r) as H3.
  pose proof (len_nonneg (literal_text ty)) as H4.
  assert (Etext : ws1 ++ literal_text ty ++ ws2 = ws1 ++ c :: r ++ ws2)
    by (now rewrite Ec).
  destruct (parse_text_start ws1 c (r ++ ws2) Hw1 Hc) as (p & E & Hp & Hs & Hl).
  rewrite Etext, E. clear E.
  assert (Hs' : suffix_at p = literal_text ty ++ ws2) by (now rewrite Ec).
  unfold parse_fuel. destruct (Z.to_nat (length p - pos p)) eqn:En; [lia|].
  replace (3 * S n + 3)%nat with (S (3 * S n + 2)) by lia.
  rewrite (json_parse_value_literal _ p ty ws2 Hty Hs' Hl).
  assert (Hpos : pos p = len ws1) by (rewrite Hp; reflexivity).
  assert (Hlen : length p = len ws1 + len (literal_text ty) + len ws2).
  { rewrite Hp. cbn [length set_pos json_parser_init].
    rewrite <- Etext, !len_app. lia. }
  destruct (json_parse_literal_accepts p (literal_text ty) ty ws2)
    as (p' & -> & Ht & Hp' & Hj' & Hl' & He'); auto; try lia.
  { rewrite Hp. reflexivity. }
  cbn [Z.ltb Z.compare].
  assert (Hs2 : suffix_at p' = ws2 ++ []).
  { rewrite (suffix_at_forward p p' (len (literal_text ty)) Hj'
               ltac:(lia) H4 Hp').
    rewrite Hs', app_nil_r. now apply skipn_len_app. }
  assert (Hend : (pos p' + len ws2 <? length p') && isspace (hd 0 []) = false).
  { replace (pos p' + len ws2 <? length p') with false; [reflexivity|].
    symmetry. apply Z.ltb_ge. lia. }
  rewrite (json_skip_whitespace_over p' ws2 [] Hs2 ltac:(lia) Hw2 Hend
             ltac:(lia)).
  cbn [pos length set_pos].
  replace (pos p' + len ws2 =? length p') with true
    by (symmetry; apply Z.eqb_eq; lia).
  cbn [negb parse_error parse_tokens option_map fst snd error tokens set_pos].
  rewrite He', Ht, Hpos, Hp. split; reflexivity.
Qed.

Lemma literal_token_span_witness :
  parse_tokens (parse_text (bytes " null ")) =
    Some [mk_token JSON_TOKEN_NULL ValueZero 5 5] /\
  parse_tokens (parse_text (bytes "true")) =
    Some [mk_token JSON_TOKEN_TRUE ValueZero 4 4].
Proof.
  split.
  - apply (literal_token_span JSON_TOKEN_NULL [32] [32]); auto.
  - apply (literal_token_span JSON_TOKEN_TRUE [] []); auto.
Defined.

(** ** The members of an object *)

(** Entry of a container below the depth limit, with an allocator that
    does not fail: the token of the container is the last of the array,
    with the sentinel 0 in [end]. *)
Lemma container_body_open ty closer loop p :
  heap p = [] -> depth_ok p -> depth p < max_depth p ->
  exists q,
    container_body ty closer loop p =
      (let q' := json_skip_whitespace q in
       if byte_at (json q') (pos q') =? closer
       then Some (0, close_container (last_token_ptr q) q')
       else loop (last_token_ptr q) q') /\
    tokens q = tokens p ++ [mk_token ty ValueZero (pos p) 0] /\
    json q = json p /\ length q = length p /\ pos q = pos p + 1 /\
    max_depth q = max_depth p /\ max_string q = max_string p /\
    error q = error p /\ depth q = depth p + 1 /\ heap q = [].
Proof.
  intros Hh (Hd & Hm) Hlt. unfold container_body.
  rewrite to_size_t_small by (unfold SIZE_MAX1 in Hm; cbn in Hm; lia).
  apply Z.leb_gt in Hlt. rewrite Hlt.
  destruct (json_add_token_ok (set_depth p (depth p + 1)) ty Hh)
    as (p1 & -> & Ht & Hj & Hl & Hp & Hmd & Hms & He & Hdp & Hh1).
  cbn [Z.ltb Z.compare].
  cbn [tokens pos set_depth] in Ht.
  rewrite (store_last_token _ p1 _ _ Ht).
  rewrite (store_last_token_later _ p1 (set_tokens p1 _) _ _ _ Ht eq_refl
             eq_refl).
  match goal with
  | |- context [json_skip_whitespace ?q0] => exists q0
  end.
  split.
  - replace (last_token_ptr p1)
      with (last_token_ptr
              (set_pos
                 (set_tokens
                    (set_tokens p1
                       (tokens p ++
                        [with_start (pos p)
                           (mk_token ty ValueZero (pos p) (pos p))]))
                    (tokens p ++
                     [with_end 0
                        (with_start (pos p)
                           (mk_token ty ValueZero (pos p) (pos p)))]))
                 (pos
                    (set_tokens
                       (set_tokens p1
                          (tokens p ++
                           [with_start (pos p)
                              (mk_token ty ValueZero (pos p) (pos p))]))
                       (tokens p ++
                        [with_end 0
                           (with_start (pos p)
                              (mk_token ty ValueZero (pos p) (pos p)))]))
                  + 1))); [reflexivity|].
    unfold last_token_ptr. cbn [tokens tokens_block set_tokens set_pos].
    now rewrite Ht, !length_app.
  - cbn. cbn in Hj, Hl, Hp, Hmd, Hms, He, Hdp.
    repeat split; auto. lia.
Qed.

Lemma depth_ok_start s l x : depth_ok (set_pos (json_parser_init s l) x).
Proof.
  unfold depth_ok. cbn [depth max_depth set_pos json_parser_init].
  unfold JSON_DEFAULT_MAX_DEPTH, SIZE_MAX1. lia.
Qed.

Lemma parse_fuel_ge p n :
  Z.of_nat n <= length p - pos p -> (3 * n + 3 <= parse_fuel p)%nat.
Proof. unfold parse_fuel. lia. Qed.

(** X20.  An object member needs a string key and a colon.  Behind the
    opening brace, a byte that is neither white space, the closing brace
    nor a quote ends the parse with [JSON_ERROR_UNEXPECTED_CHAR], and the
    token of the object stays in the array with the sentinel 0 in its
    [end]; behind a key, a byte that is neither white space nor a colon
    ends it with the same code. *)
Theorem object_member_errors :
  (forall c rest,
      isspace c = false -> c <> 125 -> c <> 34 ->
      parse_error (parse_text (123 :: c :: rest))
      = Some JSON_ERROR_UNEXPECTED_CHAR /\
      parse_tokens (parse_text (123 :: c :: rest))
      = Some [mk_token JSON_TOKEN_OBJECT ValueZero 0 0]) /\
  (forall items c rest,
      forallb item_ok items = true -> len items <= 255 ->
      isspace c = false -> c <> 58 ->
      parse_error (parse_text (123 :: quoted (encode items) ++ c :: rest))
      = Some JSON_ERROR_UNEXPECTED_CHAR).
Proof.
  split.
  - intros c rest Hc H125 H34.
    destruct (parse_text_start [] 123 (c :: rest) eq_refl eq_refl)
      as (p & E & Hp & Hs & Hl).
    cbn [app] in E. rewrite E. clear E.
    pose proof (len_nonneg rest) as Hr.
    assert (Hlen : length p = len rest + 2).
    { rewrite Hp. cbn [length set_pos json_parser_init app].
      rewrite !len_cons. lia. }
    assert (Hpos : pos p = 0) by (rewrite Hp; reflexivity).
    pose proof (parse_fuel_ge p 1 ltac:(lia)) as Hf.
    destruct (parse_fuel p) as [|[|[|f]]]; try lia.
    rewrite (json_parse_value_object _ p _ Hs Hl).
    cbn [json_parse_object]. unfold json_parse_object_body.
    destruct (container_body_open JSON_TOKEN_OBJECT 125 (object_loop (S f)) p)
      as (q & -> & Ht & Hj & Hlq & Hpq & _ & _ & He & _ & _);
      try (rewrite Hp; reflexivity).
    { rewrite Hp. apply depth_ok_start. }
    assert (Hsq : suffix_at q = c :: rest).
    { rewrite (suffix_at_forward p q 1), Hs by (auto; lia). reflexivity. }
    rewrite (json_skip_whitespace_at q c rest Hsq Hc).
    cbv zeta. rewrite byte_at_suffix, Hsq. cbn [hd].
    apply Z.eqb_neq in H125, H34. rewrite H125.
    cbn [object_loop]. unfold object_loop_body.
    rewrite (json_skip_whitespace_at q c rest Hsq Hc).
    replace (pos q <? length q) with true by (symmetry; apply Z.ltb_lt; lia).
    replace (length q <=? pos q) with false
      by (symmetry; apply Z.leb_gt; lia).
    rewrite byte_at_suffix, Hsq. cbn [hd]. rewrite H125, H34.
    cbn [negb Z.ltb Z.compare parse_error parse_tokens option_map fst snd].
    rewrite json_set_error_first, tokens_json_set_error, Ht
      by (rewrite He, Hp; reflexivity).
    rewrite Hp. split; reflexivity.
  - intros items c rest Hok Hb Hc H58.
    destruct (parse_text_start [] 123
                (quoted (encode items) ++ c :: rest) eq_refl eq_refl)
      as (p & E & Hp & Hs & Hl).
    cbn [app] in E. rewrite E. clear E.
    pose proof (len_nonneg rest) as Hr.
    pose proof (len_nonneg (encode items)) as Henc.
    pose proof (len_encode_ge items) as Hge.
    pose proof (len_nonneg items) as Hit.
    assert (Hlen : length p = len (encode items) + len rest + 4).
    { rewrite Hp. cbn [length set_pos json_parser_init app]. unfold quoted.
      rewrite !len_cons, !len_app, !len_cons, len_app, len_cons, len_nil.
      lia. }
    assert (Hpos : pos p = 0) by (rewrite Hp; reflexivity).
    pose proof (parse_fuel_ge p (S (List.length items))
                  ltac:(unfold len in *; lia)) as Hf.
    destruct (parse_fuel p) as [|[|[|f]]]; try lia.
    rewrite (json_parse_value_object _ p _ Hs Hl).
    cbn [json_parse_object]. unfold json_parse_object_body.
    destruct (container_body_open JSON_TOKEN_OBJECT 125 (object_loop (S f)) p)
      as (q & -> & Ht & Hj & Hlq & Hpq & _ & Hms & He & _ & Hhq);
      try (rewrite Hp; reflexivity).
    { rewrite Hp. apply depth_ok_start. }
    assert (Hsq : suffix_at q = 34 :: encode items ++ 34 :: c :: rest).
    { rewrite (suffix_at_forward p q 1), Hs by (auto; lia).
      unfold quoted. cbn [skipn Z.to_nat Pos.to_nat Pos.iter_op Nat.add app].
      now rewrite <- app_assoc. }
    rewrite (json_skip_whitespace_at q 34 _ Hsq) by reflexivity.
    cbv zeta. rewrite byte_at_suffix, Hsq. cbn [hd Z.eqb Pos.eqb].
    cbn [object_loop].
    rewrite (object_loop_body_member _ _ _ _ q _ Hsq) by lia.
    assert (Hmq : max_string q = 256) by (rewrite Hms, Hp; reflexivity).
    assert (B1 : pos q + len (encode items) + 2 <= length q) by lia.
    assert (B2 : 1 <= max_string q < SIZE_MAX1)
      by (rewrite Hmq; unfold SIZE_MAX1; lia).
    assert (B3 : len items <= max_string q - 1) by lia.
    assert (B4 : (List.length items < f)%nat) by lia.
    assert (B0 : 0 <= pos q) by lia.
    destruct (json_parse_string_quoted f q items (c :: rest)
                Hhq Hok Hsq B0 B1 B2 B3 B4)
      as (p2 & -> & _ & Hp2 & Hj2 & Hl2 & He2).
    assert (Hs2 : suffix_at p2 = c :: rest).
    { rewrite (suffix_at_forward q p2 (len (encode items) + 2)), Hsq
        by (auto; lia).
      replace (34 :: encode items ++ 34 :: c :: rest)
        with ((34 :: encode items ++ [34]) ++ c :: rest)
        by (cbn [app]; now rewrite <- app_assoc).
      apply skipn_len_app.
      rewrite len_cons, len_app, len_cons, len_nil. lia. }
    unfold and_then. cbn [Z.eqb].
    rewrite (json_skip_whitespace_at p2 c rest Hs2 Hc).
    cbv zeta. rewrite byte_at_suffix, Hs2. cbn [hd].
    apply Z.eqb_neq in H58. rewrite H58.
    cbn [negb Z.ltb Z.compare parse_error option_map fst].
    rewrite json_set_error_first; [reflexivity|].
    cbn [error set_pos]. rewrite He2, He, Hp. reflexivity.
Qed.

Lemma object_member_errors_witness :
  parse_tokens (parse_text (text "{1:2}"))
  = Some [mk_token JSON_TOKEN_OBJECT ValueZero 0 0] /\
  parse_error (parse_text (text "{'a' 1}"))
  = Some JSON_ERROR_UNEXPECTED_CHAR.
Proof.
  destruct object_member_errors as (H1 & H2). split.
  - apply (H1 49 (text ":2}")); [reflexivity|discriminate|discriminate].
  - apply (H2 [Plain 97] 49 (text "}"));
      [reflexivity|vm_compute; discriminate|reflexivity|discriminate].
Defined.

(** * The span of a container *)

(** ** When the token array is moved *)

(** [settled p p']: the array has not shrunk, and it is in the block it
    was in with the capacity it had, unless it holds more tokens than
    the capacity it had. *)
Definition settled (p p' : json_parser_t) : Prop :=
  len (tokens p) <= len (tokens p') /\
  ((tokens_block p' = tokens_block p /\ token_cap p' = token_cap p) \/
   token_cap p < len (tokens p')).

Definition settling (h : handler) : Prop :=
  forall p rc p', h p = Some (rc, p') -> settled p p'.

Lemma settled_refl p : settled p p.
Proof. unfold settled. split; [lia|now left]. Qed.

Lemma settled_trans p q r : settled p q -> settled q r -> settled p r.
Proof.
  unfold settled. intros (L1 & [(B1 & C1)|G1]) (L2 & [(B2 & C2)|G2]);
    (split; [lia|]);
    first [ left; split; congruence | right; lia | right; rewrite <- C1; lia ].
Qed.

Lemma settled_fields p q :
  tokens q = tokens p -> tokens_block q = tokens_block p ->
  token_cap q = token_cap p -> settled p q.
Proof. unfold settled. intros -> -> ->. split; [lia|now left]. Qed.

Lemma settled_store_token q f p : settled p (store_token q f p).
Proof.
  unfold settled, len. rewrite length_tokens_store_token.
  split; [lia|left]. now fields.
Qed.

Lemma token_cap_close_container token p :
  token_cap (close_container token p) = token_cap p.
Proof. unfold close_container. cbn. now fields. Qed.

Lemma settled_close_container token p : settled p (close_container token p).
Proof.
  unfold settled, len.
  rewrite tokens_close_container_length, tokens_block_close_container,
    token_cap_close_container.
  split; [lia|now left].
Qed.

Lemma settled_json_add_token p ty rc p' :
  json_add_token p ty = (rc, p') -> settled p p'.
Proof.
  unfold json_add_token, token_count; intros H.
  destruct (token_cap p <=? Z.of_nat (List.length (tokens p))) eqn:Ec.
  - apply Z.leb_le in Ec.
    destruct (allocate p) as [a p1] eqn:Ea.
    apply allocate_fields in Ea.
    destruct Ea as (_ & _ & _ & Ht & Hb & Hc & _).
    destruct a; inversion H; subst; unfold settled, len; fields;
      rewrite ?Ht, ?Hb, ?Hc, ?length_app; cbn [List.length].
    + split; [lia|now left].
    + split; [lia|right; lia].
    + split; [lia|right; lia].
  - inversion H; subst. unfold settled, len. cbn.
    rewrite length_app. cbn [List.length]. split; [lia|now left].
Qed.

Ltac settled_chain :=
  repeat match goal with
         | |- settled ?p ?p => apply settled_refl
         | H : settled ?q ?r |- settled _ ?r =>
             apply (settled_trans _ q); [clear H|exact H]
         | |- settled _ (close_container ?t ?q) =>
             apply (settled_trans _ q); [|apply settled_close_container]
         | |- settled _ (store_token ?t ?f ?q) =>
             apply (settled_trans _ q); [|apply settled_store_token]
         | |- settled _ (json_set_error ?q ?e) =>
             apply (settled_trans _ q);
             [|apply settled_fields; now fields]
         | |- settled _ (set_pos ?q _) =>
             apply (settled_trans _ q);
             [|apply settled_fields; reflexivity]
         | |- settled _ (set_depth ?q _) =>
             apply (settled_trans _ q);
             [|apply settled_fields; reflexivity]
         | |- settled _ (json_skip_whitespace ?q) =>
             apply (settled_trans _ q);
             [|apply settled_fields; reflexivity]
         end.

Lemma token_cap_read_hex4 n p cp rc p' cp' :
  read_hex4 n p cp = (rc, p', cp') -> token_cap p' = token_cap p.
Proof.
  revert p cp; induction n as [|n IH]; intros p cp H; simpl in H.
  - now inversion H.
  - repeat split_match H;
      first [ apply IH in H; exact H | now inversion H ].
Qed.

Lemma settled_json_parse_unicode_escape p buf rc p' buf' :
  json_parse_unicode_escape p buf = (rc, p', buf') -> settled p p'.
Proof.
  intros H.
  pose proof (json_parse_unicode_escape_fields _ _ _ _ _ H)
    as (_ & _ & _ & _ & Ht & Hb).
  apply settled_fields; auto.
  unfold json_parse_unicode_escape in H.
  repeat (split_match H;
          try match goal with
              | E : read_hex4 _ _ _ = _ |- _ =>
                  apply token_cap_read_hex4 in E; cbn in E
              end);
    first [ apply utf8_append_fields in H | inversion H ];
    subst; cbn in *; congruence.
Qed.

Lemma string_loop_settled fuel token p buf rc p' :
  string_loop fuel token p buf = Some (rc, p') -> settled p p'.
Proof.
  revert p buf rc p'; induction fuel as [|fuel IH]; intros p buf rc p' H;
    [discriminate|].
  simpl in H.
  repeat (split_match H;
          try match goal with
              | E : json_parse_unicode_escape _ _ = _ |- _ =>
                  apply settled_json_parse_unicode_escape in E
              end);
    first [ apply IH in H | inversion H; subst ];
    settled_chain.
Qed.

Lemma json_parse_string_settled fuel : settling (json_parse_string fuel).
Proof.
  intros p rc p' H. unfold json_parse_string in H.
  destruct (json_add_token p JSON_TOKEN_STRING) as [rc1 p1] eqn:Ea.
  apply settled_json_add_token in Ea.
  destruct (negb (rc1 =? 0)) eqn:Erc.
  - inversion H; subst. exact Ea.
  - destruct (allocate _) as [a p2] eqn:Eal.
    apply allocate_fields in Eal.
    destruct Eal as (_ & _ & _ & Ht & Hb & Hc & _).
    assert (K : settled p p2).
    { apply (settled_trans _ _ _ Ea).
      eapply settled_trans; [apply settled_store_token|].
      apply settled_fields; eassumption. }
    destruct a; try (apply string_loop_settled in H);
      try (inversion H; subst); settled_chain; exact K.
Qed.

Lemma json_parse_number_settled p rc p' :
  json_parse_number p = (rc, p') -> settled p p'.
Proof.
  unfold json_parse_number; intros H.
  destruct (number_scan _) as [s|] eqn:Es.
  - destruct (strtod _) as [num consumed].
    destruct (negb (consumed =? _)).
    + inversion H; subst. settled_chain.
    + destruct (json_add_token p JSON_TOKEN_NUMBER) as [rc1 p1] eqn:Ea.
      apply settled_json_add_token in Ea.
      destruct (negb (rc1 =? 0)) eqn:Erc; inversion H; subst; settled_chain.
  - inversion H; subst. settled_chain.
Qed.

Lemma json_parse_literal_settled p literal ty rc p' :
  json_parse_literal p literal ty = (rc, p') -> settled p p'.
Proof.
  unfold json_parse_literal; intros H.
  destruct (length p <? _); [inversion H; subst; settled_chain|].
  destruct (negb (strncmp_eq _ _)); [inversion H; subst; settled_chain|].
  destruct (json_add_token _ ty) as [rc1 p1] eqn:Ea.
  apply settled_json_add_token in Ea.
  destruct (negb (rc1 =? 0)) eqn:Erc; inversion H; subst; settled_chain.
Qed.

Ltac use_settling :=
  match goal with
  | E : json_parse_number _ = (_, _) |- _ =>
      apply json_parse_number_settled in E
  | E : json_parse_literal _ _ _ = (_, _) |- _ =>
      apply json_parse_literal_settled in E
  | E : json_add_token _ _ = (_, _) |- _ =>
      apply settled_json_add_token in E
  | Hh : settling ?h, E : ?h _ = Some _ |- _ => apply Hh in E
  | Hh : forall t, settling (?h t), E : ?h _ _ = Some _ |- _ =>
      apply Hh in E
  end.

Ltac run_settling H :=
  unfold and_then in H;
  repeat (first [ split_match H | progress (try use_settling) ]);
  try discriminate;
  try match type of H with
      | Some _ = Some _ => inversion H; subst; clear H
      end;
  repeat use_settling.

Lemma json_parse_value_body_settled po pa ps :
  settling po -> settling pa -> settling ps ->
  settling (json_parse_value_body po pa ps).
Proof.
  intros Ho Ha Hs p rc p' H. unfold json_parse_value_body in H.
  run_settling H; settled_chain.
Qed.

Lemma container_body_settled ty closer loop :
  (forall t, settling (loop t)) -> settling (container_body ty closer loop).
Proof.
  intros Hl p rc p' H. unfold container_body in H.
  run_settling H; settled_chain.
Qed.

Lemma object_loop_body_settled ps pv again token :
  settling ps -> settling pv -> settling again ->
  settling (object_loop_body ps pv again token).
Proof.
  intros Hs Hv Ha p rc p' H. unfold object_loop_body in H.
  run_settling H; settled_chain.
Qed.

Lemma array_loop_body_settled pv again token :
  settling pv -> settling again ->
  settling (array_loop_body pv again token).
Proof.
  intros Hv Ha p rc p' H. unfold array_loop_body in H.
  run_settling H; settled_chain.
Qed.

Lemma handlers_settle fuel :
  settling (json_parse_value fuel) /\
  settling (json_parse_object fuel) /\
  (forall t, settling (object_loop fuel t)) /\
  settling (json_parse_array fuel) /\
  (forall t, settling (array_loop fuel t)).
Proof.
  induction fuel as [|fuel (Hv & Ho & Hol & Ha & Hal)].
  - repeat split; repeat intro; discriminate.
  - split; [|split; [|split; [|split]]]; [| |intros t| |intros t];
      cbn [json_parse_value json_parse_object object_loop json_parse_array
           array_loop].
    + apply json_parse_value_body_settled; auto.
      apply json_parse_string_settled.
    + apply container_body_settled; auto.
    + apply object_loop_body_settled; auto.
      apply json_parse_string_settled.
    + apply container_body_settled; auto.
    + apply array_loop_body_settled; auto.
Qed.

(** ** The token of a container *)

Lemma nth_error_update_nth i f ts :
  nth_error (update_nth i f ts) i = option_map f (nth_error ts i).
Proof. revert i; induction ts as [|a ts IH]; intros [|i]; simpl; auto. Qed.

Lemma nth_error_firstn_S (ts ts' : list json_token_t) i :
  firstn (S i) ts' = firstn (S i) ts -> nth_error ts' i = nth_error ts i.
Proof.
  revert ts ts'; induction i as [|i IH]; intros [|a ts] [|b ts'] H;
    simpl in *; try congruence.
  inversion H. apply IH. assumption.
Qed.

(** [closing t h]: a successful run of [h] that starts and ends with the
    token array in the block of the address [t] leaves the token at [t] as
    it was, but for [end], which is the final position. *)
Definition closing (t : token_ptr) (h : handler) : Prop :=
  forall p p', h p = Some (0, p') ->
    tokens_block p = ptr_block t -> tokens_block p' = ptr_block t ->
    (ptr_index t < List.length (tokens p))%nat ->
    nth_error (tokens p') (ptr_index t) =
      option_map (with_end (pos p')) (nth_error (tokens p) (ptr_index t)).

Lemma close_container_closing t q :
  tokens_block q = ptr_block t ->
  nth_error (tokens (close_container t q)) (ptr_index t) =
    option_map (with_end (pos (close_container t q)))
               (nth_error (tokens q) (ptr_index t)).
Proof.
  intros Hb. unfold close_container, store_token. cbn.
  rewrite Hb, Nat.eqb_refl. cbn. apply nth_error_update_nth.
Qed.

(** The element or member parsed by [h] leaves the token at [t] alone,
    and the array in its block when the rest of the loop ends there. *)
Lemma closing_step t (h again : handler) p q rc r p' :
  growing h -> keeping (S (ptr_index t)) h -> growing again ->
  closing t again ->
  h p = Some (rc, q) ->
  tokens r = tokens q -> tokens_block r = tokens_block q ->
  again r = Some (0, p') ->
  tokens_block p = ptr_block t -> tokens_block p' = ptr_block t ->
  (ptr_index t < List.length (tokens p))%nat ->
  nth_error (tokens p') (ptr_index t) =
    option_map (with_end (pos p')) (nth_error (tokens p) (ptr_index t)).
Proof.
  intros Hg Hk Hga Hc Hh Ht Hb Ha Hp Hp' Hi.
  pose proof (Hg _ _ _ Hh) as (_ & G1 & _).
  pose proof (Hga _ _ _ Ha) as (_ & G2 & _).
  destruct (Hk _ _ _ Hh) as (K1 & K2); [lia|].
  rewrite (Hc _ _ Ha); try lia.
  - f_equal. rewrite Ht. now apply nth_error_firstn_S.
  - rewrite Ht. lia.
Qed.

Lemma array_loop_body_closing pv again t :
  growing pv -> keeping (S (ptr_index t)) pv ->
  growing again -> closing t again ->
  closing t (array_loop_body pv again t).
Proof.
  intros Hg Hk Hga Hc p p' H Hb Hb' Hi.
  unfold array_loop_body, and_then in H.
  repeat split_match H; try discriminate.
  - inversion H; subst.
    now apply (close_container_closing t (json_skip_whitespace p)).
  - refine (closing_step t pv again _ _ _ _ _ Hg Hk Hga Hc Heqr _ _ H
                          Hb Hb' Hi); reflexivity.
  - refine (closing_step t pv again _ _ _ _ _ Hg Hk Hga Hc Heqr _ _ H
                          Hb Hb' Hi); reflexivity.
Qed.

Lemma object_loop_body_closing ps pv again t :
  growing ps -> keeping (S (ptr_index t)) ps ->
  growing pv -> keeping (S (ptr_index t)) pv ->
  growing again -> closing t again ->
  closing t (object_loop_body ps pv again t).
Proof.
  intros Hgs Hks Hg Hk Hga Hc p p' H Hb Hb' Hi.
  unfold object_loop_body, and_then in H.
  repeat split_match H; try discriminate.
  - inversion H; subst.
    now apply (close_container_closing t (json_skip_whitespace p)).
  - pose proof (Hgs _ _ _ Heqr) as (_ & G1 & _).
    pose proof (Hg _ _ _ Heqr0) as (_ & G2 & _).
    pose proof (Hga _ _ _ H) as (_ & G3 & _).
    destruct (Hks _ _ _ Heqr) as (K1 & K2); [cbn; lia|].
    cbn in G1, G2, G3, K1.
    rewrite <- (nth_error_firstn_S _ _ _ K1).
    refine (closing_step t pv again _ _ _ _ _ Hg Hk Hga Hc Heqr0 _ _ H _
                         Hb' _); try reflexivity; cbn; lia.
  - pose proof (Hgs _ _ _ Heqr) as (_ & G1 & _).
    pose proof (Hg _ _ _ Heqr0) as (_ & G2 & _).
    pose proof (Hga _ _ _ H) as (_ & G3 & _).
    destruct (Hks _ _ _ Heqr) as (K1 & K2); [cbn; lia|].
    cbn in G1, G2, G3, K1.
    rewrite <- (nth_error_firstn_S _ _ _ K1).
    refine (closing_step t pv again _ _ _ _ _ Hg Hk Hga Hc Heqr0 _ _ H _
                         Hb' _); try reflexivity; cbn; lia.
Qed.

Lemma loops_closing fuel t :
  closing t (object_loop fuel t) /\ closing t (array_loop fuel t).
Proof.
  induction fuel as [|fuel (Ho & Ha)].
  - split; intros p p' H; discriminate.
  - pose proof (handlers_grow fuel) as (Gv & _ & Gol & _ & Gal).
    pose proof (handlers_keep_tokens (S (ptr_index t)) fuel) as (Kv & _).
    split; cbn [object_loop array_loop].
    + apply object_loop_body_closing; auto.
      * apply json_parse_string_grows.
      * apply json_parse_string_kept.
    + apply array_loop_body_closing; auto.
Qed.

Lemma nth_error_last (ts : list json_token_t) t :
  nth_error (ts ++ [t]) (List.length ts) = Some t.
Proof. rewrite nth_error_app2, Nat.sub_diag by lia. reflexivity. Qed.

(** The token of a container that is parsed without a move of the token
    array: its type, where the container starts and where it ends. *)
Lemma container_body_span ty closer loop p p' :
  (forall t, growing (loop t)) -> (forall t, closing t (loop t)) ->
  container_body ty closer loop p = Some (0, p') ->
  tokens_block p' = tokens_block p ->
  nth_error (tokens p') (List.length (tokens p)) =
    Some (mk_token ty ValueZero (pos p) (pos p')).
Proof.
  intros Hg Hc H Hb. unfold container_body in H.
  destruct (max_depth p <=? _); [discriminate|].
  destruct (json_add_token _ ty) as [rc p1] eqn:Ea.
  apply json_add_token_tokens in Ea. cbn in Ea.
  destruct Ea as (Hp & Hb1 & [[-> Ht]|[-> Ht]]); [|discriminate].
  cbn [Z.ltb Z.compare] in H.
  set (token := last_token_ptr p1) in *.
  set (q0 := store_token token (with_end 0)
               (store_token token (with_start (pos p)) p1)) in *.
  assert (Hq : tokens q0 = tokens p ++ [mk_token ty ValueZero (pos p) 0] /\
               tokens_block q0 = tokens_block p1 /\ pos q0 = pos p).
  { unfold q0, token. rewrite (store_last_token _ _ _ _ Ht).
    unfold store_token, last_token_ptr. cbn. rewrite Nat.eqb_refl. cbn.
    rewrite Ht.
    replace (List.length (tokens p ++ [mk_token ty ValueZero (pos p) (pos p)]))
      with (List.length (tokens p ++
              [with_start (pos p) (mk_token ty ValueZero (pos p) (pos p))]))
      by (now rewrite !length_app).
    rewrite update_nth_last. auto. }
  destruct Hq as (Hq & Hqb & Hqp).
  assert (Hi : ptr_index token = List.length (tokens p)).
  { unfold token, last_token_ptr. cbn. rewrite Ht, length_app. cbn. lia. }
  assert (Hpb : ptr_block token = tokens_block p1) by reflexivity.
  set (q := json_skip_whitespace (set_pos q0 (pos q0 + 1))) in *.
  assert (Hqt : tokens q = tokens q0) by reflexivity.
  assert (Hqb' : tokens_block q = tokens_block q0) by reflexivity.
  destruct (byte_at (json q) (pos q) =? closer).
  - inversion H; subst p'.
    rewrite <- Hi, close_container_closing by congruence.
    rewrite Hqt, Hq, Hi, nth_error_last. reflexivity.
  - pose proof (Hg _ _ _ _ H) as (_ & G & _).
    rewrite <- Hi, (Hc _ _ _ H).
    + rewrite Hqt, Hq, Hi, nth_error_last. reflexivity.
    + congruence.
    + lia.
    + rewrite Hqt, Hq, Hi, length_app. cbn. lia.
Qed.

(** [ending c h]: a successful run of [h] stops right behind a byte [c]. *)
Definition ending (c : Z) (h : handler) : Prop :=
  forall p p', h p = Some (0, p') -> byte_at (json p') (pos p' - 1) = c.

Lemma close_container_ending c token q :
  (byte_at (json q) (pos q) =? c) = true ->
  byte_at (json (close_container token q)) (pos (close_container token q) - 1)
    = c.
Proof.
  intros H. apply Z.eqb_eq in H. unfold close_container. cbn. fields.
  rewrite ?pos_store_token. cbn.
  replace (pos q + 1 - 1) with (pos q) by lia. exact H.
Qed.

Lemma array_loop_body_ending pv again token :
  ending 93 again -> ending 93 (array_loop_body pv again token).
Proof.
  intros Ha p p' H. unfold array_loop_body, and_then in H.
  repeat split_match H; try discriminate;
    first [ now apply Ha in H
          | inversion H; subst; now apply close_container_ending ].
Qed.

Lemma object_loop_body_ending ps pv again token :
  ending 125 again -> ending 125 (object_loop_body ps pv again token).
Proof.
  intros Ha p p' H. unfold object_loop_body, and_then in H.
  repeat split_match H; try discriminate;
    first [ now apply Ha in H
          | inversion H; subst; now apply close_container_ending ].
Qed.

Lemma container_body_ending ty closer loop :
  (forall t, ending closer (loop t)) ->
  ending closer (container_body ty closer loop).
Proof.
  intros Hl p p' H. unfold container_body in H.
  repeat split_match H; try discriminate;
    first [ now apply Hl in H
          | inversion H; subst; now apply close_container_ending ].
Qed.

Lemma loops_ending fuel t :
  ending 125 (object_loop fuel t) /\ ending 93 (array_loop fuel t).
Proof.
  induction fuel as [|fuel (Ho & Ha)].
  - split; intros p p' H; discriminate.
  - split; cbn [object_loop array_loop].
    + now apply object_loop_body_ending.
    + now apply array_loop_body_ending.
Qed.

(** A parse that ends with no more tokens than the array could hold when
    it began has not moved the array. *)
Lemma settled_in_place p p' :
  settled p p' -> token_count p' <= token_cap p ->
  tokens_block p' = tokens_block p.
Proof.
  unfold settled, token_count, len. intros (_ & [(Hb & _)|Hc]) H; [auto|lia].
Qed.

(** X21. A container that [json_parse_array] or [json_parse_object]
    parses with success, ending with no more tokens than the token array
    could hold on entry, has its token right: the token is the first one
    added, it has the type of the container, [start] is the offset the
    handler was entered at, [end] is the offset the handler stops at, and
    the byte before that offset is the closing bracket or brace. *)
Theorem container_token_span fuel p p' :
  token_count p' <= token_cap p ->
  (json_parse_array fuel p = Some (0, p') ->
   nth_error (tokens p') (List.length (tokens p)) =
     Some (mk_token JSON_TOKEN_ARRAY ValueZero (pos p) (pos p')) /\
   byte_at (json p') (pos p' - 1) = 93) /\
  (json_parse_object fuel p = Some (0, p') ->
   nth_error (tokens p') (List.length (tokens p)) =
     Some (mk_token JSON_TOKEN_OBJECT ValueZero (pos p) (pos p')) /\
   byte_at (json p') (pos p' - 1) = 125).
Proof.
  intros Hc.
  destruct fuel as [|fuel]; [split; discriminate|].
  pose proof (handlers_settle (S fuel)) as (_ & So & _ & Sa & _).
  pose proof (handlers_grow fuel) as (_ & _ & Gol & _ & Gal).
  split; intros H.
  - pose proof (settled_in_place _ _ (Sa _ _ _ H) Hc) as Hb.
    cbn [json_parse_array] in H. unfold json_parse_array_body in H. split.
    + apply (container_body_span _ _ _ _ _ Gal
               (fun t => proj2 (loops_closing fuel t)) H Hb).
    + apply (container_body_ending _ _ _
               (fun t => proj2 (loops_ending fuel t)) _ _ H).
  - pose proof (settled_in_place _ _ (So _ _ _ H) Hc) as Hb.
    cbn [json_parse_object] in H. unfold json_parse_object_body in H. split.
    + apply (container_body_span _ _ _ _ _ Gol
               (fun t => proj1 (loops_closing fuel t)) H Hb).
    + apply (container_body_ending _ _ _
               (fun t => proj1 (loops_ending fuel t)) _ _ H).
Qed.

Lemma container_token_span_witness :
  exists p',
    json_parse_array 20 (json_parser_init (text "[1,[2]]") 7) = Some (0, p') /\
    token_count p' <= 128 /\
    nth_error (tokens p') 0 = Some (mk_token JSON_TOKEN_ARRAY ValueZero 0 7) /\
    byte_at (json p') (pos p' - 1) = 93.
Proof.
  eexists. split; [vm_compute; reflexivity|].
  match goal with
  | |- token_count ?p' <= _ /\ _ =>
      assert (Hc : token_count p' <=
                   token_cap (json_parser_init (text "[1,[2]]") 7))
        by (vm_compute; discriminate)
  end.
  split; [exact Hc|].
  apply (proj1 (container_token_span 20 _ _ Hc)).
  vm_compute; reflexivity.
Defined.

(** * Trailing bytes *)

(** Where [json_skip_whitespace] stops when it has rounds enough: at the
    end of the input or at a byte that is no white space, having passed
    white space only. *)
Lemma skip_whitespace_loop_spec n buf l q :
  l - q <= Z.of_nat n ->
  q <= skip_whitespace_loop n buf l q /\
  (skip_whitespace_loop n buf l q <? l) &&
    isspace (byte_at buf (skip_whitespace_loop n buf l q)) = false /\
  (forall i, q <= i < skip_whitespace_loop n buf l q ->
             isspace (byte_at buf i) = true).
Proof.
  revert q; induction n as [|n IH]; intros q Hn; cbn [skip_whitespace_loop].
  - split; [lia|split; [|intros i Hi; lia]].
    replace (q <? l) with false by (symmetry; apply Z.ltb_ge; lia).
    reflexivity.
  - destruct ((q <? l) && isspace (byte_at buf q)) eqn:E.
    + destruct (IH (q + 1)) as (H1 & H2 & H3); [lia|].
      split; [lia|split; [exact H2|]].
      intros i Hi. destruct (Z.eq_dec i q) as [->|Hne].
      * apply andb_prop in E. tauto.
      * apply H3. lia.
    + split; [lia|split; [exact E|intros i Hi; lia]].
Qed.

Lemma json_skip_whitespace_spec p :
  pos p <= pos (json_skip_whitespace p) /\
  (pos (json_skip_whitespace p) <? length p) &&
    isspace (byte_at (json p) (pos (json_skip_whitespace p))) = false /\
  (forall i, pos p <= i < pos (json_skip_whitespace p) ->
             isspace (byte_at (json p) i) = true).
Proof.
  unfold json_skip_whitespace. cbn [pos set_pos].
  apply skip_whitespace_loop_spec. lia.
Qed.

(** X22.  What [JSON_ERROR_TRAILING_CHARS] tells.  A parse returns this
    code only behind a complete value: the value handler has succeeded,
    having consumed at least one byte, only white space lies between the
    end of the value and the cursor, and the cursor is left within the
    buffer on the first byte behind the value that is no white space. *)
Theorem trailing_chars_follow_a_value p p' :
  in_bounds p ->
  json_parser_parse p = Some (JSON_ERROR_TRAILING_CHARS, p') ->
  exists r,
    json_parse_value
      (parse_fuel (json_skip_whitespace (set_error p JSON_ERROR_NONE)))
      (json_skip_whitespace (set_error p JSON_ERROR_NONE)) = Some (0, r) /\
    pos p <= pos (json_skip_whitespace (set_error p JSON_ERROR_NONE)) /\
    pos (json_skip_whitespace (set_error p JSON_ERROR_NONE)) < pos r /\
    pos r <= pos p' /\ pos p' < length p' /\
    json p' = json p /\ length p' = length p /\
    (forall i, pos r <= i < pos p' -> isspace (byte_at (json p) i) = true) /\
    isspace (byte_at (json p) (pos p')) = false.
Proof.
  intros Hb H. unfold json_parser_parse in H.
  set (q := json_skip_whitespace (set_error p JSON_ERROR_NONE)) in *.
  assert (Hq : in_bounds q) by (now apply in_bounds_start).
  assert (Hqp : pos p <= pos q)
    by apply (pos_json_skip_whitespace_ge (set_error p JSON_ERROR_NONE)).
  assert (Hqe : error q = JSON_ERROR_NONE) by reflexivity.
  assert (Hqj : json q = json p /\ length q = length p) by (split; reflexivity).
  destruct (length q <=? pos q).
  { unfold json_set_error in H. rewrite Hqe in H. cbn in H. discriminate. }
  destruct (json_parse_value (parse_fuel q) q) as [[rc r]|] eqn:V;
    [|discriminate].
  pose proof (json_parse_value_well_behaved _ _ _ _ V)
    as ((Sj & Sl & _) & _ & Hadv & Hrc & _ & Hok).
  pose proof (proj1 (handlers_report _) _ _ _ V) as (_ & Hrep).
  destruct (rc <? 0) eqn:R.
  { inversion H as [[He Hp]]. rewrite Hqe in Hrep.
    destruct Hrep as [Hrep|(_ & _ & _ & Hrep & _)]; congruence. }
  apply Z.ltb_ge in R. assert (rc = 0) by lia. subst rc.
  specialize (Hadv eq_refl). specialize (Hok eq_refl).
  pose proof (proj1 (handlers_bounded _) _ _ _ V Hq)
    as (_ & _ & _ & _ & Hin).
  specialize (Hin eq_refl).
  destruct (json_skip_whitespace_spec r) as (W1 & W2 & W3).
  set (s := json_skip_whitespace r) in *.
  assert (Hs : json s = json r /\ length s = length r /\ error s = error r)
    by (repeat split; reflexivity).
  destruct Hs as (Hsj & Hsl & Hse).
  destruct (negb (pos s =? length s)) eqn:N.
  - inversion H as [[He Hp]]. rewrite He in Hp. subst p'.
    exists r. split; [reflexivity|].
    rewrite !pos_json_set_error, json_json_set_error, length_json_set_error.
    rewrite Hsj, Hsl.
    apply negb_true_iff, Z.eqb_neq in N.
    assert (Hle : pos s <= length r).
    { unfold s, json_skip_whitespace. cbn [pos set_pos].
      apply skip_whitespace_loop_le. lia. }
    destruct Hqj as (Hqj & Hql).
    assert (Hlt : pos s < length r) by lia.
    apply Z.ltb_lt in Hlt. rewrite Hlt in W2. cbn [andb] in W2.
    apply Z.ltb_lt in Hlt.
    rewrite <- Hqj, Sj in *.
    repeat split; auto; try lia; try congruence.
  - inversion H as [[He Hp]]. congruence.
Qed.

Lemma trailing_chars_follow_a_value_witness :
  in_bounds (json_parser_init (text "[1]  x") 6) /\
  exists p' r,
    json_parser_parse (json_parser_init (text "[1]  x") 6)
    = Some (JSON_ERROR_TRAILING_CHARS, p') /\
    pos r = 3 /\ pos p' = 5 /\
    isspace (byte_at (text "[1]  x") (pos p')) = false.
Proof.
  assert (Hb : in_bounds (json_parser_init (text "[1]  x") 6))
    by (unfold in_bounds; cbn; lia).
  split; [exact Hb|].
  destruct (json_parser_parse (json_parser_init (text "[1]  x") 6))
    as [[e p']|] eqn:E; [|vm_compute in E; discriminate].
  assert (He : e = JSON_ERROR_TRAILING_CHARS)
    by (vm_compute in E; inversion E; reflexivity).
  subst e.
  destruct (trailing_chars_follow_a_value _ p' Hb E)
    as (r & V & _ & _ & _ & _ & _ & _ & _ & Hn).
  exists p', r. split; [reflexivity|].
  vm_compute in V, E. inversion V; subst r. inversion E; subst p'.
  repeat split.
Defined.

(** * The types of the tokens *)

(** [typed p p']: the tokens of [p] are still in the array of [p'], each
    with the type it had; tokens may have been appended. *)
Definition typed (p p' : json_parser_t) : Prop :=
  exists more, map type (tokens p') = map type (tokens p) ++ more.

Definition typing (h : handler) : Prop :=
  forall p rc p', h p = Some (rc, p') -> typed p p'.

Lemma typed_refl p : typed p p.
Proof. exists []. now rewrite app_nil_r. Qed.

Lemma typed_trans p q r : typed p q -> typed q r -> typed p r.
Proof.
  intros (m1 & H1) (m2 & H2). exists (m1 ++ m2).
  now rewrite H2, H1, app_assoc.
Qed.

Lemma typed_tokens p q : tokens q = tokens p -> typed p q.
Proof. intros H. exists []. now rewrite H, app_nil_r. Qed.

Lemma map_type_update_nth i f ts :
  (forall t, type (f t) = type t) ->
  map type (update_nth i f ts) = map type ts.
Proof.
  intros Hf. revert i; induction ts as [|t ts IH]; intros [|i]; simpl; auto.
  - now rewrite Hf.
  - now rewrite IH.
Qed.

Lemma typed_store_token q f p :
  (forall t, type (f t) = type t) -> typed p (store_token q f p).
Proof.
  intros Hf. exists []. rewrite app_nil_r. unfold store_token.
  destruct Nat.eqb; cbn; auto using map_type_update_nth.
Qed.

Lemma typed_close_container token p : typed p (close_container token p).
Proof.
  unfold close_container.
  apply (typed_trans _ (store_token token
                          (with_end (pos (set_pos p (pos p + 1))))
                          (set_pos p (pos p + 1)))).
  - apply (typed_trans _ (set_pos p (pos p + 1)));
      [now apply typed_tokens|now apply typed_store_token].
  - now apply typed_tokens.
Qed.

Lemma typed_json_add_token p ty rc p' :
  json_add_token p ty = (rc, p') -> typed p p'.
Proof.
  intros H. apply json_add_token_tokens in H.
  destruct H as (_ & _ & [[_ Ht]|[_ Ht]]).
  - eexists. rewrite Ht, map_app. reflexivity.
  - now apply typed_tokens.
Qed.

Ltac typed_chain :=
  repeat match goal with
         | |- typed ?p ?p => apply typed_refl
         | H : typed ?q ?r |- typed _ ?r =>
             apply (typed_trans _ q); [clear H|exact H]
         | |- typed _ (close_container ?t ?q) =>
             apply (typed_trans _ q); [|apply typed_close_container]
         | |- typed _ (store_token ?t ?f ?q) =>
             apply (typed_trans _ q);
             [|apply typed_store_token; intros; reflexivity]
         | |- typed _ (json_set_error ?q ?e) =>
             apply (typed_trans _ q);
             [|apply typed_tokens; apply tokens_json_set_error]
         | |- typed _ (set_pos ?q _) =>
             apply (typed_trans _ q); [|apply typed_tokens; reflexivity]
         | |- typed _ (set_depth ?q _) =>
             apply (typed_trans _ q); [|apply typed_tokens; reflexivity]
         | |- typed _ (json_skip_whitespace ?q) =>
             apply (typed_trans _ q); [|apply typed_tokens; reflexivity]
         end.

Lemma string_loop_typed fuel token p buf rc p' :
  string_loop fuel token p buf = Some (rc, p') -> typed p p'.
Proof.
  revert p buf rc p'; induction fuel as [|fuel IH]; intros p buf rc p' H;
    [discriminate|].
  simpl in H.
  repeat (split_match H;
          try match goal with
              | E : json_parse_unicode_escape _ _ = _ |- _ =>
                  apply json_parse_unicode_escape_fields in E; cbn in E;
                  destruct E as (_ & _ & _ & _ & E & _);
                  apply typed_tokens in E
              end);
    first [ apply IH in H | inversion H; subst ];
    typed_chain.
Qed.

(** What [json_parse_string] does behind [json_add_token]. *)
Lemma json_parse_string_rest fuel p rc p' :
  json_parse_string fuel p = Some (rc, p') ->
  exists rc1 p1,
    json_add_token p JSON_TOKEN_STRING = (rc1, p1) /\ typed p1 p' /\
    (rc = 0 -> rc1 = 0).
Proof.
  intros H. unfold json_parse_string in H.
  destruct (json_add_token p JSON_TOKEN_STRING) as [rc1 p1] eqn:Ea.
  exists rc1, p1. split; [reflexivity|].
  destruct (negb (rc1 =? 0)) eqn:Erc.
  - inversion H; subst. split; [apply typed_refl|discriminate].
  - split; [|intros _; destruct (rc1 =? 0) eqn:E; [lia|discriminate]].
    destruct (allocate _) as [a p2] eqn:Eal.
    apply allocate_fields in Eal.
    destruct Eal as (_ & _ & _ & Ht2 & _).
    apply typed_tokens in Ht2.
    destruct a; try (apply string_loop_typed in H);
      try (inversion H; subst); typed_chain.
Qed.

Lemma json_parse_string_typed fuel : typing (json_parse_string fuel).
Proof.
  intros p rc p' H.
  destruct (json_parse_string_rest _ _ _ _ H) as (rc1 & p1 & Ea & T & _).
  apply typed_json_add_token in Ea. typed_chain.
Qed.

Lemma json_parse_number_rest p rc p' :
  json_parse_number p = (rc, p') ->
  (rc = -1 /\ typed p p') \/
  exists p1, json_add_token p JSON_TOKEN_NUMBER = (0, p1) /\ typed p1 p'.
Proof.
  unfold json_parse_number; intros H.
  destruct (number_scan _) as [s|] eqn:Es.
  - destruct (strtod _) as [num consumed].
    destruct (negb (consumed =? _)).
    + inversion H; subst. left. split; [reflexivity|typed_chain].
    + destruct (json_add_token p JSON_TOKEN_NUMBER) as [rc1 p1] eqn:Ea.
      destruct (negb (rc1 =? 0)) eqn:Erc; inversion H; subst.
      * left. split; [reflexivity|]. now apply typed_json_add_token in Ea.
      * assert (rc1 = 0) by (destruct (rc1 =? 0) eqn:E; [lia|discriminate]).
        subst rc1. right. exists p1. split; [reflexivity|typed_chain].
  - inversion H; subst. left. split; [reflexivity|typed_chain].
Qed.

Lemma json_parse_number_typed p rc p' :
  json_parse_number p = (rc, p') -> typed p p'.
Proof.
  intros H. destruct (json_parse_number_rest _ _ _ H) as [[_ T]|(p1 & Ea & T)];
    [exact T|].
  apply typed_json_add_token in Ea. typed_chain.
Qed.

Lemma json_parse_literal_rest p literal ty rc p' :
  json_parse_literal p literal ty = (rc, p') ->
  (rc = -1 /\ typed p p') \/
  exists q, tokens q = tokens p /\ json_add_token q ty = (0, p').
Proof.
  unfold json_parse_literal; intros H.
  destruct (length p <? _);
    [inversion H; subst; left; split; [reflexivity|apply typed_refl]|].
  destruct (negb (strncmp_eq _ _));
    [inversion H; subst; left; split; [reflexivity|apply typed_refl]|].
  destruct (json_add_token _ ty) as [rc1 p1] eqn:Ea.
  destruct (negb (rc1 =? 0)) eqn:Erc; inversion H; subst.
  - left. split; [reflexivity|].
    apply typed_json_add_token in Ea. typed_chain.
  - assert (rc1 = 0) by (destruct (rc1 =? 0) eqn:E; [lia|discriminate]).
    subst rc1. right. eexists. split; [|exact Ea]. reflexivity.
Qed.

Lemma json_parse_literal_typed p literal ty rc p' :
  json_parse_literal p literal ty = (rc, p') -> typed p p'.
Proof.
  intros H.
  destruct (json_parse_literal_rest _ _ _ _ _ H) as [[_ T]|(q & Ht & Ea)];
    [exact T|].
  apply typed_json_add_token in Ea.
  apply (typed_trans _ q); [now apply typed_tokens|exact Ea].
Qed.

Ltac use_typing :=
  match goal with
  | E : json_parse_number _ = (_, _) |- _ =>
      apply json_parse_number_typed in E
  | E : json_parse_literal _ _ _ = (_, _) |- _ =>
      apply json_parse_literal_typed in E
  | E : json_add_token _ _ = (_, _) |- _ =>
      apply typed_json_add_token in E
  | Hh : typing ?h, E : ?h _ = Some _ |- _ => apply Hh in E
  | Hh : forall t, typing (?h t), E : ?h _ _ = Some _ |- _ =>
      apply Hh in E
  end.

Ltac run_typing H :=
  unfold and_then in H;
  repeat (first [ split_match H | progress (try use_typing) ]);
  try discriminate;
  try match type of H with
      | Some _ = Some _ => inversion H; subst; clear H
      end;
  repeat use_typing.

Lemma json_parse_value_body_typed po pa ps :
  typing po -> typing pa -> typing ps ->
  typing (json_parse_value_body po pa ps).
Proof.
  intros Ho Ha Hs p rc p' H. unfold json_parse_value_body in H.
  run_typing H; typed_chain.
Qed.

Lemma container_body_typed ty closer loop :
  (forall t, typing (loop t)) -> typing (container_body ty closer loop).
Proof.
  intros Hl p rc p' H. unfold container_body in H.
  run_typing H; typed_chain.
Qed.

Lemma object_loop_body_typed ps pv again token :
  typing ps -> typing pv -> typing again ->
  typing (object_loop_body ps pv again token).
Proof.
  intros Hs Hv Ha p rc p' H. unfold object_loop_body in H.
  run_typing H; typed_chain.
Qed.

Lemma array_loop_body_typed pv again token :
  typing pv -> typing again -> typing (array_loop_body pv again token).
Proof.
  intros Hv Ha p rc p' H. unfold array_loop_body in H.
  run_typing H; typed_chain.
Qed.

Lemma handlers_typed fuel :
  typing (json_parse_value fuel) /\
  typing (json_parse_object fuel) /\
  (forall t, typing (object_loop fuel t)) /\
  typing (json_parse_array fuel) /\
  (forall t, typing (array_loop fuel t)).
Proof.
  induction fuel as [|fuel (Hv & Ho & Hol & Ha & Hal)].
  - repeat split; repeat intro; discriminate.
  - split; [|split; [|split; [|split]]]; [| |intros t| |intros t];
      cbn [json_parse_value json_parse_object object_loop json_parse_array
           array_loop].
    + apply json_parse_value_body_typed; auto.
      apply json_parse_string_typed.
    + apply container_body_typed; auto.
    + apply object_loop_body_typed; auto.
      apply json_parse_string_typed.
    + apply container_body_typed; auto.
    + apply array_loop_body_typed; auto.
Qed.

(** The type of the token a value starts with, read off the dispatch of
    [json_parse_value] on the first byte. *)
Definition value_type (c : Z) : json_token_type_t :=
  if c =? 123 then JSON_TOKEN_OBJECT
  else if c =? 91 then JSON_TOKEN_ARRAY
  else if c =? 34 then JSON_TOKEN_STRING
  else if c =? 116 then JSON_TOKEN_TRUE
  else if c =? 102 then JSON_TOKEN_FALSE
  else if c =? 110 then JSON_TOKEN_NULL
  else JSON_TOKEN_NUMBER.

(** [introduces ty p p']: the first token appended is of type [ty]. *)
Definition introduces (ty : json_token_type_t) (p p' : json_parser_t)
  : Prop :=
  exists more, map type (tokens p') = map type (tokens p) ++ ty :: more.

Lemma introduces_add ty p q p1 p' :
  tokens q = tokens p -> json_add_token q ty = (0, p1) -> typed p1 p' ->
  introduces ty p p'.
Proof.
  intros Hq Ea (more & T). apply json_add_token_tokens in Ea.
  destruct Ea as (_ & _ & [[_ Ht]|[? _]]); [|lia].
  exists more. rewrite T, Ht, Hq, map_app, <- app_assoc. reflexivity.
Qed.

Lemma json_parse_string_introduces fuel p p' :
  json_parse_string fuel p = Some (0, p') ->
  introduces JSON_TOKEN_STRING p p'.
Proof.
  intros H.
  destruct (json_parse_string_rest _ _ _ _ H) as (rc1 & p1 & Ea & T & Hrc).
  rewrite (Hrc eq_refl) in Ea.
  exact (introduces_add _ p p p1 p' eq_refl Ea T).
Qed.

Lemma json_parse_number_introduces p p' :
  json_parse_number p = (0, p') -> introduces JSON_TOKEN_NUMBER p p'.
Proof.
  intros H.
  destruct (json_parse_number_rest _ _ _ H) as [[? _]|(p1 & Ea & T)]; [lia|].
  exact (introduces_add _ p p p1 p' eq_refl Ea T).
Qed.

Lemma json_parse_literal_introduces p literal ty p' :
  json_parse_literal p literal ty = (0, p') -> introduces ty p p'.
Proof.
  intros H.
  destruct (json_parse_literal_rest _ _ _ _ _ H) as [[? _]|(q & Ht & Ea)];
    [lia|].
  exact (introduces_add _ p q p' p' Ht Ea (typed_refl _)).
Qed.

Lemma container_body_introduces ty closer loop p p' :
  (forall t, typing (loop t)) ->
  container_body ty closer loop p = Some (0, p') -> introduces ty p p'.
Proof.
  intros Hl H. unfold container_body in H.
  destruct (max_depth p <=? _); [discriminate|].
  destruct (json_add_token _ ty) as [rc1 p1] eqn:Ea.
  destruct (rc1 <? 0) eqn:Erc; [discriminate|].
  assert (rc1 = 0).
  { pose proof (json_add_token_tokens _ _ _ _ Ea) as (_ & _ & [[? _]|[? _]]);
      [assumption|]. apply Z.ltb_ge in Erc. lia. }
  subst rc1.
  refine (introduces_add _ p _ p1 p' _ Ea _); [reflexivity|].
  destruct (_ =? closer).
  - inversion H; subst. typed_chain.
  - apply Hl in H. typed_chain.
Qed.

(** X23.  The types of the tokens.  A token keeps the type it was added
    with: after a value handler or a whole parse, whatever the outcome,
    the tokens that were in the array are still there in the same order
    and with the same types (where a container is closed only its [end]
    is written).  And the first token a value handler adds on success is
    the token of the value itself, of the type its first byte behind the
    leading white space announces: Object for a brace, Array for a
    bracket, String for a quote, True, False or Null for [t], [f] or
    [n], and Number otherwise. *)
Theorem token_types_are_stable p :
  (forall fuel rc p',
      json_parse_value fuel p = Some (rc, p') ->
      exists more, map type (tokens p') = map type (tokens p) ++ more) /\
  (forall e p',
      json_parser_parse p = Some (e, p') ->
      exists more, map type (tokens p') = map type (tokens p) ++ more) /\
  (forall fuel p',
      json_parse_value fuel p = Some (0, p') ->
      exists more,
        map type (tokens p') =
        map type (tokens p) ++
        value_type (byte_at (json p) (pos (json_skip_whitespace p))) :: more).
Proof.
  split; [|split].
  - intros fuel rc p' V. exact (proj1 (handlers_typed fuel) _ _ _ V).
  - intros e p' H.
    destruct (json_parser_parse_cases p e p' _ eq_refl H)
      as (_ & [(Hl & ->)|(Hl & rc & r & V & C)]).
    + change (typed p (json_set_error
                         (json_skip_whitespace (set_error p JSON_ERROR_NONE))
                         JSON_ERROR_INVALID_TOKEN)).
      typed_chain. now apply typed_tokens.
    + apply (proj1 (handlers_typed _)) in V.
      change (typed p p').
      destruct C as [(_ & ->)|(_ & [->| ->])]; typed_chain;
        now apply typed_tokens.
  - intros [|fuel] p' V; [discriminate|].
    cbn [json_parse_value] in V. unfold json_parse_value_body in V.
    set (q := json_skip_whitespace p) in *.
    change (introduces (value_type (byte_at (json q) (pos q))) q p').
    unfold value_type.
    repeat split_match V; try discriminate.
    + destruct fuel as [|f]; [discriminate|].
      pose proof (handlers_typed f) as (_ & _ & T & _).
      exact (container_body_introduces _ _ _ q p' T V).
    + destruct fuel as [|f]; [discriminate|].
      pose proof (handlers_typed f) as (_ & _ & _ & _ & T).
      exact (container_body_introduces _ _ _ q p' T V).
    + now apply (json_parse_string_introduces fuel).
    + inversion V as [V']. now apply json_parse_literal_introduces in V'.
    + inversion V as [V']. now apply json_parse_literal_introduces in V'.
    + inversion V as [V']. now apply json_parse_literal_introduces in V'.
    + inversion V as [V']. now apply json_parse_number_introduces.
Qed.

Lemma token_types_are_stable_witness :
  exists p' more,
    json_parse_value 20 (json_parser_init (text " [true]") 7) = Some (0, p') /\
    map type (tokens p') = JSON_TOKEN_ARRAY :: more.
Proof.
  destruct (json_parse_value 20 (json_parser_init (text " [true]") 7))
    as [[rc p']|] eqn:E; [|vm_compute in E; discriminate].
  assert (rc = 0) by (vm_compute in E; inversion E; reflexivity). subst rc.
  destruct (proj2 (proj2 (token_types_are_stable _)) _ _ E) as (more & Hm).
  exists p', more. split; [reflexivity|exact Hm].
Defined.

(** ** The elements of an array *)

(** X24.  An array that is not closed, and an element that is not
    followed by a comma or the closing bracket.  An opening bracket or
    brace with nothing but white space behind it, up to the terminator
    of the C string, ends the parse with [JSON_ERROR_UNEXPECTED_CHAR],
    and the token of the container stays in the array with the sentinel
    0 in its [end]; behind a string element
    of an array, a byte that is neither white space, a comma nor the
    closing bracket ends it with the same code. *)
Theorem array_element_errors :
  (forall o ws,
      o = 91 \/ o = 123 -> forallb isspace ws = true ->
      parse_error (parse_text (o :: ws)) = Some JSON_ERROR_UNEXPECTED_CHAR /\
      parse_tokens (parse_text (o :: ws))
      = Some [mk_token (value_type o) ValueZero 0 0]) /\
  (forall items c rest,
      forallb item_ok items = true -> len items <= 255 ->
      isspace c = false -> c <> 93 -> c <> 44 ->
      parse_error (parse_text (91 :: quoted (encode items) ++ c :: rest))
      = Some JSON_ERROR_UNEXPECTED_CHAR).
Proof.
  split.
  - intros o ws Ho Hw.
    assert (Hso : isspace o = false) by (destruct Ho as [->| ->]; reflexivity).
    destruct (parse_text_start [] o ws eq_refl Hso) as (p & E & Hp & Hs & Hl).
    cbn [app] in E. rewrite E. clear E.
    pose proof (len_nonneg ws) as Hr.
    assert (Hlen : length p = len ws + 1).
    { rewrite Hp. cbn [length set_pos json_parser_init app].
      rewrite !len_cons. lia. }
    assert (Hpos : pos p = 0) by (rewrite Hp; reflexivity).
    pose proof (parse_fuel_ge p 1 ltac:(lia)) as Hf.
    destruct (parse_fuel p) as [|[|[|f]]]; try lia.
    assert (Hd : depth_ok p) by (rewrite Hp; apply depth_ok_start).
    assert (Hend : forall q, suffix_at q = ws -> 0 <= pos q ->
                     pos q + len ws = length q ->
                     json_skip_whitespace q = set_pos q (length q)).
    { intros q Hsq Hq0 Hql. rewrite <- Hql.
      apply (json_skip_whitespace_over q ws []); auto; try lia;
        first [ now rewrite app_nil_r
              | replace (pos q + len ws <? length q) with false;
                [reflexivity|symmetry; apply Z.ltb_ge; lia] ]. }
    destruct Ho as [->| ->].
    + rewrite (json_parse_value_array _ p _ Hs Hl).
      cbn [json_parse_array]. unfold json_parse_array_body.
      destruct (container_body_open JSON_TOKEN_ARRAY 93 (array_loop (S f)) p)
        as (q & -> & Ht & Hj & Hlq & Hpq & _ & _ & He & _ & _);
        auto; try (rewrite Hp; reflexivity).
      assert (Hsq : suffix_at q = ws).
      { rewrite (suffix_at_forward p q 1), Hs by (auto; lia). reflexivity. }
      rewrite (Hend q Hsq) by lia.
      cbv zeta. cbn [json pos length set_pos].
      assert (Hz : byte_at (json q) (length q) = 0).
      { unfold byte_at. apply nth_overflow. rewrite Hj, Hp.
        cbn [json set_pos json_parser_init app]. rewrite Hlq, Hlen.
        unfold len. cbn [List.length]. lia. }
      rewrite Hz. cbn [Z.eqb].
      cbn [array_loop]. unfold array_loop_body. cbn [pos length set_pos].
      rewrite Z.ltb_irrefl.
      cbn [Z.ltb Z.compare parse_error parse_tokens option_map fst snd].
      rewrite json_set_error_first, tokens_json_set_error
        by (cbn [error set_pos]; rewrite He, Hp; reflexivity).
      cbn [tokens set_pos]. rewrite Ht, Hp. split; reflexivity.
    + rewrite (json_parse_value_object _ p _ Hs Hl).
      cbn [json_parse_object]. unfold json_parse_object_body.
      destruct (container_body_open JSON_TOKEN_OBJECT 125 (object_loop (S f)) p)
        as (q & -> & Ht & Hj & Hlq & Hpq & _ & _ & He & _ & _);
        auto; try (rewrite Hp; reflexivity).
      assert (Hsq : suffix_at q = ws).
      { rewrite (suffix_at_forward p q 1), Hs by (auto; lia). reflexivity. }
      rewrite (Hend q Hsq) by lia.
      cbv zeta. cbn [json pos length set_pos].
      assert (Hz : byte_at (json q) (length q) = 0).
      { unfold byte_at. apply nth_overflow. rewrite Hj, Hp.
        cbn [json set_pos json_parser_init app]. rewrite Hlq, Hlen.
        unfold len. cbn [List.length]. lia. }
      rewrite Hz. cbn [Z.eqb].
      cbn [object_loop]. unfold object_loop_body. cbn [pos length set_pos].
      rewrite Z.ltb_irrefl.
      cbn [Z.ltb Z.compare parse_error parse_tokens option_map fst snd].
      rewrite json_set_error_first, tokens_json_set_error
        by (cbn [error set_pos]; rewrite He, Hp; reflexivity).
      cbn [tokens set_pos]. rewrite Ht, Hp. split; reflexivity.
  - intros items c rest Hok Hb Hc H93 H44.
    destruct (parse_text_start [] 91
                (quoted (encode items) ++ c :: rest) eq_refl eq_refl)
      as (p & E & Hp & Hs & Hl).
    cbn [app] in E. rewrite E. clear E.
    pose proof (len_nonneg rest) as Hr.
    pose proof (len_nonneg (encode items)) as Henc.
    pose proof (len_encode_ge items) as Hge.
    pose proof (len_nonneg items) as Hit.
    assert (Hlen : length p = len (encode items) + len rest + 4).
    { rewrite Hp. cbn [length set_pos json_parser_init app]. unfold quoted.
      rewrite !len_cons, !len_app, !len_cons, len_app, len_cons, len_nil.
      lia. }
    assert (Hpos : pos p = 0) by (rewrite Hp; reflexivity).
    pose proof (parse_fuel_ge p (S (List.length items))
                  ltac:(unfold len in *; lia)) as Hf.
    destruct (parse_fuel p) as [|[|[|[|f]]]]; try lia.
    rewrite (json_parse_value_array _ p _ Hs Hl).
    cbn [json_parse_array]. unfold json_parse_array_body.
    destruct (container_body_open JSON_TOKEN_ARRAY 93 (array_loop (S (S f))) p)
      as (q & -> & Ht & Hj & Hlq & Hpq & _ & Hms & He & _ & Hhq);
      try (rewrite Hp; reflexivity).
    { rewrite Hp. apply depth_ok_start. }
    assert (Hsq : suffix_at q = 34 :: encode items ++ 34 :: c :: rest).
    { rewrite (suffix_at_forward p q 1), Hs by (auto; lia).
      unfold quoted. cbn [skipn Z.to_nat Pos.to_nat Pos.iter_op Nat.add app].
      now rewrite <- app_assoc. }
    rewrite (json_skip_whitespace_at q 34 _ Hsq) by reflexivity.
    cbv zeta. rewrite byte_at_suffix, Hsq. cbn [hd Z.eqb Pos.eqb].
    cbn [array_loop].
    rewrite (array_loop_body_value _ _ _ q 34 _ Hsq) by (try reflexivity; lia).
    rewrite (json_parse_value_string _ q _ Hsq) by lia.
    assert (Hmq : max_string q = 256) by (rewrite Hms, Hp; reflexivity).
    assert (B1 : pos q + len (encode items) + 2 <= length q) by lia.
    assert (B2 : 1 <= max_string q < SIZE_MAX1)
      by (rewrite Hmq; unfold SIZE_MAX1; lia).
    assert (B3 : len items <= max_string q - 1) by lia.
    assert (B4 : (List.length items < f)%nat) by lia.
    assert (B0 : 0 <= pos q) by lia.
    destruct (json_parse_string_quoted f q items (c :: rest)
                Hhq Hok Hsq B0 B1 B2 B3 B4)
      as (p2 & -> & _ & Hp2 & Hj2 & Hl2 & He2).
    assert (Hs2 : suffix_at p2 = c :: rest).
    { rewrite (suffix_at_forward q p2 (len (encode items) + 2)), Hsq
        by (auto; lia).
      replace (34 :: encode items ++ 34 :: c :: rest)
        with ((34 :: encode items ++ [34]) ++ c :: rest)
        by (cbn [app]; now rewrite <- app_assoc).
      apply skipn_len_app.
      rewrite len_cons, len_app, len_cons, len_nil. lia. }
    unfold and_then. cbn [Z.eqb].
    rewrite (json_skip_whitespace_at p2 c rest Hs2 Hc).
    cbv zeta. rewrite byte_at_suffix, Hs2. cbn [hd].
    apply Z.eqb_neq in H93, H44. rewrite H93, H44.
    cbn [Z.ltb Z.compare parse_error option_map fst].
    rewrite json_set_error_first; [reflexivity|].
    rewrite He2, He, Hp. reflexivity.
Qed.

Lemma array_element_errors_witness :
  parse_tokens (parse_text (text "[ "))
  = Some [mk_token JSON_TOKEN_ARRAY ValueZero 0 0] /\
  parse_error (parse_text (text "['a'x]"))
  = Some JSON_ERROR_UNEXPECTED_CHAR.
Proof.
  destruct array_element_errors as (H1 & H2). split.
  - apply (H1 91 [32]); [now left|reflexivity].
  - apply (H2 [Plain 97] 120 (text "]"));
      [reflexivity|vm_compute; discriminate|reflexivity|discriminate
      |discriminate].
Defined.

(** * The depth limit *)

(** C6.  The depth counter stays between zero and [max_depth] through
    every handler and through [json_parser_parse], and a handler that
    succeeds gives the depth back as it found it.  Containers of either
    kind, arrays and objects in any order, nested no deeper than
    [max_depth], so in particular exactly [max_depth] deep, parse, and
    the depth is back at zero; nested deeper, so in particular
    [max_depth + 1] deep, they fail with [JSON_ERROR_NESTING_DEPTH]. *)
Theorem depth_stays_within_limit :
  (forall fuel p rc p',
      depth_ok p -> json_parse_value fuel p = Some (rc, p') ->
      depth_ok p' /\ (rc = 0 -> depth p' = depth p)) /\
  (forall p e p',
      depth_ok p -> json_parser_parse p = Some (e, p') -> depth_ok p') /\
  (forall ks m,
      ks <> [] -> 0 <= m < SIZE_MAX1 -> len ks <= m ->
      exists p',
        json_parser_parse (parser_with_max_depth (nested ks) m)
        = Some (JSON_ERROR_NONE, p') /\
        pos p' = length p' /\ depth p' = 0) /\
  (forall ks m,
      ks <> [] -> 0 <= m < SIZE_MAX1 -> m < len ks ->
      parse_error (json_parser_parse (parser_with_max_depth (nested ks) m))
      = Some JSON_ERROR_NESTING_DEPTH).
Proof.
  split; [|split; [|split]].
  - intros fuel p rc p' Hd H.
    exact (json_parse_value_keeps_depth fuel p rc p' H Hd).
  - exact json_parser_parse_keeps_depth.
  - intros ks m Hne Hm Hk. exact (nested_within_limit_parses ks m Hne Hm Hk).
  - intros ks m Hne Hm Hk.
    exact (nested_past_limit_is_rejected ks m Hne Hm Hk).
Qed.

(** A parse that fails two levels down, and [{"k":[{"k":[]}]}], four
    containers deep, with a limit of four levels and of three. *)
Lemma depth_stays_within_limit_witness :
  (exists rc p',
      json_parse_value 20 (json_parser_init (text "[{'a':") 6) = Some (rc, p')
      /\ rc = -1 /\ depth p' = 2 /\ depth_ok p') /\
  (exists e p',
      json_parser_parse (json_parser_init (text "[{'a':") 6) = Some (e, p')
      /\ depth_ok p') /\
  (exists p',
      json_parser_parse
        (parser_with_max_depth (text "{'k':[{'k':[]}]}") 4)
      = Some (JSON_ERROR_NONE, p') /\ depth p' = 0) /\
  parse_error
    (json_parser_parse (parser_with_max_depth (text "{'k':[{'k':[]}]}") 3))
  = Some JSON_ERROR_NESTING_DEPTH.
Proof.
  destruct depth_stays_within_limit as (Hv & Hp & Hok & Hdeep).
  assert (H0 : depth_ok (json_parser_init (text "[{'a':") 6))
    by (unfold depth_ok; cbn [depth max_depth json_parser_init];
        unfold JSON_DEFAULT_MAX_DEPTH, SIZE_MAX1; lia).
  split; [|split; [|split]].
  - destruct (json_parse_value 20 (json_parser_init (text "[{'a':") 6))
      as [[rc p']|] eqn:E; [|vm_compute in E; discriminate].
    exists rc, p'. split; [reflexivity|].
    destruct (Hv 20%nat _ rc p' H0 E) as (Hd & _).
    vm_compute in E. inversion E; subst.
    split; [reflexivity|]. split; [reflexivity|]. exact Hd.
  - destruct (json_parser_parse (json_parser_init (text "[{'a':") 6))
      as [[e p']|] eqn:E; [|vm_compute in E; discriminate].
    exists e, p'. split; [reflexivity|]. exact (Hp _ e p' H0 E).
  - destruct (Hok [InObject; InArray; InObject; InArray] 4)
      as (p' & E & _ & Hd);
      [discriminate|unfold SIZE_MAX1; lia|vm_compute; discriminate|].
    exists p'. split; [exact E|exact Hd].
  - apply (Hdeep [InObject; InArray; InObject; InArray] 3);
      [discriminate|unfold SIZE_MAX1; lia|reflexivity].
Defined.

(** * The limit on decoded strings, with [\u] escapes *)

(** ** The check of [json_parse_unicode_escape] before it writes *)

(** The number of bytes of the UTF-8 encoding of a code point, and the
    encoding. *)
Definition utf8_size (cp : Z) : Z :=
  if cp <=? 127 then 1
  else if cp <=? 2047 then 2
  else if cp <=? 65535 then 3
  else 4.

Definition utf8 (cp : Z) : list Z :=
  if cp <=? 65535 then utf8_bmp cp else utf8_4 cp.

Lemma len_utf8 cp : len (utf8 cp) = utf8_size cp.
Proof.
  unfold utf8, utf8_size, utf8_bmp, utf8_4.
  destruct (cp <=? 127) eqn:E1.
  - apply Z.leb_le in E1.
    replace (cp <=? 65535) with true by (symmetry; apply Z.leb_le; lia).
    replace (cp <? 128) with true by (symmetry; apply Z.ltb_lt; lia).
    reflexivity.
  - apply Z.leb_gt in E1.
    replace (cp <? 128) with false by (symmetry; apply Z.ltb_ge; lia).
    destruct (cp <=? 2047) eqn:E2.
    + apply Z.leb_le in E2.
      replace (cp <=? 65535) with true by (symmetry; apply Z.leb_le; lia).
      replace (cp <? 2048) with true by (symmetry; apply Z.ltb_lt; lia).
      reflexivity.
    + apply Z.leb_gt in E2.
      replace (cp <? 2048) with false by (symmetry; apply Z.ltb_ge; lia).
      destruct (cp <=? 65535); reflexivity.
Qed.

(** [json_parse_unicode_escape] writes the encoding where the bytes and the
    terminator fit, and fails where they do not.  The encoding is taken
    to be no longer than the buffer: below that the subtraction in the
    check wraps. *)
Lemma utf8_append_checked p buf cp :
  0 <= cp <= 1114111 ->
  utf8_size cp <= max_string p < SIZE_MAX1 ->
  utf8_append p buf cp =
  if max_string p - utf8_size cp <=? len buf
  then (-1, p, buf)
  else (0, p, buf ++ utf8 cp).
Proof.
  intros Hcp Hm.
  assert (H5 : 4 <= 5 < SIZE_MAX1) by (unfold SIZE_MAX1; lia).
  assert (Hsz : to_size_t (max_string p - utf8_size cp)
                = max_string p - utf8_size cp).
  { apply to_size_t_small. unfold SIZE_MAX1, utf8_size in *.
    cbn in Hm |- *.
    destruct (cp <=? 127), (cp <=? 2047), (cp <=? 65535); lia. }
  destruct (cp <=? 65535) eqn:E.
  - apply Z.leb_le in E.
    pose proof (utf8_append_bmp (set_max_string p 5) [] cp
                  ltac:(lia) H5 ltac:(rewrite len_nil; cbn; lia)) as H.
    unfold utf8_append in H |- *. unfold utf8_size in *. unfold utf8.
    replace (cp <=? 65535) with true in * by (symmetry; apply Z.leb_le; lia).
    cbn [max_string set_max_string] in H.
    destruct (cp <=? 127); [|destruct (cp <=? 2047)];
      rewrite Hsz; destruct (_ <=? len buf); try reflexivity;
      match type of H with
      | (if ?c then _ else _) = _ =>
          replace c with false in H by reflexivity
      end;
      apply (f_equal snd) in H; cbn [snd app] in H; now rewrite H.
  - apply Z.leb_gt in E.
    pose proof (utf8_append_supplementary (set_max_string p 5) [] cp
                  ltac:(lia) H5 ltac:(rewrite len_nil; cbn; lia)) as H.
    unfold utf8_append in H |- *. unfold utf8_size in *. unfold utf8.
    replace (cp <=? 127) with false in * by (symmetry; apply Z.leb_gt; lia).
    replace (cp <=? 2047) with false in * by (symmetry; apply Z.leb_gt; lia).
    replace (cp <=? 65535) with false in * by (symmetry; apply Z.leb_gt; lia).
    cbn [max_string set_max_string] in H.
    rewrite Hsz; destruct (_ <=? len buf); try reflexivity.
    match type of H with
    | (if ?c then _ else _) = _ =>
        replace c with false in H by reflexivity
    end.
    apply (f_equal snd) in H; cbn [snd app] in H; now rewrite H.
Qed.

(** ** The content of a string literal *)

(** An item of the content: a literal byte or a simple escape, a [\u]
    escape of a code point that is no surrogate, or the two [\u] escapes
    of a surrogate pair. *)
Inductive string_part : Type :=
| Item (i : string_item)
| Unicode (cs : list Z)
| Pair (hs ls : list Z).

(** The code point a surrogate pair stands for. *)
Definition pair_code (hs ls : list Z) : Z :=
  65536 + (hex_value hs - 55296) * 1024 + (hex_value ls - 56320).

Definition hex4 (cs : list Z) : bool :=
  Nat.eqb (List.length cs) 4 && forallb isxdigit cs.

Definition part_ok (x : string_part) : bool :=
  match x with
  | Item i => item_ok i
  | Unicode cs =>
      hex4 cs && ((hex_value cs <? 55296) || (57343 <? hex_value cs))
  | Pair hs ls =>
      hex4 hs && hex4 ls
      && ((55296 <=? hex_value hs) && (hex_value hs <=? 56319))
      && ((56320 <=? hex_value ls) && (hex_value ls <=? 57343))
  end.

(** The bytes of an item in the input, and the bytes it decodes to. *)
Definition part_bytes (x : string_part) : list Z :=
  match x with
  | Item i => item_bytes i
  | Unicode cs => 92 :: 117 :: cs
  | Pair hs ls => 92 :: 117 :: hs ++ 92 :: 117 :: ls
  end.

Definition part_value (x : string_part) : list Z :=
  match x with
  | Item i => [item_value i]
  | Unicode cs => utf8 (hex_value cs)
  | Pair hs ls => utf8 (pair_code hs ls)
  end.

Definition encode_parts (parts : list string_part) : list Z :=
  flat_map part_bytes parts.

Definition decode_parts (parts : list string_part) : list Z :=
  flat_map part_value parts.

Lemma hex4_facts cs :
  hex4 cs = true ->
  List.length cs = 4%nat /\ forallb isxdigit cs = true /\ len cs = 4 /\
  0 <= hex_value cs <= 65535.
Proof.
  unfold hex4. intros H. apply andb_prop in H. destruct H as [L X].
  apply Nat.eqb_eq in L. repeat split; auto.
  - unfold len. lia.
  - apply (hex_value_range cs L X).
  - apply (hex_value_range cs L X).
Qed.

Lemma len_part_bytes x : part_ok x = true -> 1 <= len (part_bytes x).
Proof.
  intros _. destruct x as [[c|c]|cs|hs ls];
    cbn [part_bytes item_bytes]; rewrite !len_cons;
    match goal with |- context [len ?l] => pose proof (len_nonneg l) end; lia.
Qed.

Lemma len_encode_parts_ge parts :
  forallb part_ok parts = true -> len parts <= len (encode_parts parts).
Proof.
  induction parts as [|x parts IH]; intros H.
  - unfold len; cbn; lia.
  - cbn [forallb] in H. apply andb_prop in H. destruct H as [Hx H].
    cbn [encode_parts flat_map]. fold (encode_parts parts).
    rewrite len_cons, len_app. pose proof (len_part_bytes x Hx).
    specialize (IH H). lia.
Qed.

(** ** The [\u] escapes in the loop *)

(** The escape of a code point that is no surrogate, read behind the
    [u]. *)
Lemma json_parse_unicode_escape_code p buf cs rest :
  hex4 cs = true ->
  hex_value cs < 55296 \/ 57343 < hex_value cs ->
  suffix_at p = cs ++ rest -> 0 <= pos p -> pos p + 4 <= length p ->
  json_parse_unicode_escape p buf =
  utf8_append (set_pos p (pos p + 4)) buf (hex_value cs).
Proof.
  intros H4 R Hs Hp Hl.
  destruct (hex4_facts cs H4) as (L & X & L' & Hr).
  unfold json_parse_unicode_escape.
  replace (length p <? pos p + 4) with false
    by (symmetry; apply Z.ltb_ge; lia).
  rewrite <- L at 1.
  rewrite (read_hex4_digits cs p 0 _ X Hs Hp), hex_value_fold, L'.
  cbn [Z.eqb negb].
  replace ((55296 <=? hex_value cs) && (hex_value cs <=? 56319)) with false.
  2:{ symmetry. apply andb_false_iff.
      destruct R; [left; apply Z.leb_gt|right; apply Z.leb_gt]; lia. }
  replace ((56320 <=? hex_value cs) && (hex_value cs <=? 57343)) with false.
  2:{ symmetry. apply andb_false_iff.
      destruct R; [left; apply Z.leb_gt|right; apply Z.leb_gt]; lia. }
  reflexivity.
Qed.

(** The escapes of a surrogate pair, read behind the first [u]. *)
Lemma json_parse_unicode_escape_pair_code p buf hs ls rest :
  hex4 hs = true -> hex4 ls = true ->
  55296 <= hex_value hs <= 56319 -> 56320 <= hex_value ls <= 57343 ->
  suffix_at p = hs ++ 92 :: 117 :: ls ++ rest ->
  0 <= pos p -> pos p + 10 <= length p ->
  json_parse_unicode_escape p buf =
  utf8_append (set_pos p (pos p + 10)) buf (pair_code hs ls).
Proof.
  intros H4h H4l Hh Hl Hs Hp Hlen.
  destruct (hex4_facts hs H4h) as (Lh & Xh & Lh' & _).
  destruct (hex4_facts ls H4l) as (Ll & Xl & Ll' & _).
  unfold json_parse_unicode_escape.
  replace (length p <? pos p + 4) with false
    by (symmetry; apply Z.ltb_ge; lia).
  rewrite <- Lh at 1.
  rewrite (read_hex4_digits hs p 0 _ Xh Hs Hp), hex_value_fold, Lh'.
  cbn [Z.eqb negb].
  replace ((55296 <=? hex_value hs) && (hex_value hs <=? 56319)) with true
    by (symmetry; apply andb_true_intro; split; apply Z.leb_le; lia).
  set (p1 := set_pos p (pos p + 4)).
  assert (Hs1 : suffix_at p1 = 92 :: 117 :: ls ++ rest).
  { unfold p1. rewrite (suffix_at_forward p _ 4), Hs;
      cbn [json set_pos pos]; auto; try lia.
    now apply skipn_len_app. }
  destruct (suffix_at_next p1 _ _ Hs1) as (Hc1 & Hs2); [cbn; lia|].
  destruct (suffix_at_next _ _ _ Hs2) as (Hc2 & Hs3); [cbn; lia|].
  cbn [json pos set_pos] in Hc2. rewrite Hc1, Hc2.
  replace (length p1 <? pos p1 + 6) with false
    by (symmetry; apply Z.ltb_ge; cbn; lia).
  cbn [Z.eqb Pos.eqb negb orb].
  rewrite set_pos_set_pos in Hs3.
  change (pos (set_pos p1 (pos p1 + 1))) with (pos p1 + 1) in Hs3.
  replace (pos p1 + 2) with (pos p1 + 1 + 1) by lia.
  rewrite <- Ll at 1.
  rewrite (read_hex4_digits ls _ 0 _ Xl Hs3), hex_value_fold, Ll'
    by (cbn; lia).
  cbn [Z.eqb negb].
  replace ((hex_value ls <? 56320) || (57343 <? hex_value ls)) with false
    by (symmetry; apply orb_false_intro; apply Z.ltb_ge; lia).
  rewrite Z.shiftl_mul_pow2 by lia. change (2 ^ 10) with 1024.
  unfold p1, pair_code. rewrite !set_pos_set_pos. cbn [pos set_pos].
  replace (pos p + 4 + 1 + 1 + 4) with (pos p + 10) by lia. reflexivity.
Qed.

(** The code point of an escape, its range and the size of its encoding. *)
Definition part_code (x : string_part) : Z :=
  match x with
  | Item i => item_value i
  | Unicode cs => hex_value cs
  | Pair hs ls => pair_code hs ls
  end.

Lemma pair_facts hs ls :
  part_ok (Pair hs ls) = true ->
  hex4 hs = true /\ hex4 ls = true /\
  55296 <= hex_value hs <= 56319 /\ 56320 <= hex_value ls <= 57343 /\
  65536 <= pair_code hs ls <= 1114111.
Proof.
  cbn [part_ok]. intros H.
  apply andb_prop in H. destruct H as [H Hl].
  apply andb_prop in H. destruct H as [H Hh].
  apply andb_prop in H. destruct H as [H4h H4l].
  apply andb_prop in Hl. destruct Hl as [Hl1 Hl2].
  apply andb_prop in Hh. destruct Hh as [Hh1 Hh2].
  apply Z.leb_le in Hl1, Hl2, Hh1, Hh2.
  unfold pair_code. repeat split; auto; lia.
Qed.

Lemma unicode_facts cs :
  part_ok (Unicode cs) = true ->
  hex4 cs = true /\ (hex_value cs < 55296 \/ 57343 < hex_value cs) /\
  0 <= hex_value cs <= 65535.
Proof.
  cbn [part_ok]. intros H. apply andb_prop in H. destruct H as [H4 R].
  destruct (hex4_facts cs H4) as (_ & _ & _ & Hr).
  split; [exact H4|]. split; [|exact Hr].
  apply orb_prop in R. destruct R as [R|R]; apply Z.ltb_lt in R; auto.
Qed.

(** A round of the loop on a [\u] escape, or on the two escapes of a
    pair: the bytes are written where they fit with the terminator, and
    the loop fails with [JSON_ERROR_INVALID_UNICODE] where they do not. *)
Lemma string_loop_escape fuel token p buf x rest :
  match x with Item _ => False | _ => True end ->
  part_ok x = true ->
  suffix_at p = part_bytes x ++ rest -> 0 <= pos p ->
  pos p + len (part_bytes x) <= length p ->
  utf8_size (part_code x) <= max_string p < SIZE_MAX1 ->
  string_loop (S fuel) token p buf =
  if max_string p - utf8_size (part_code x) <=? len buf
  then Some (-1, json_set_error (set_pos p (pos p + len (part_bytes x)))
                                JSON_ERROR_INVALID_UNICODE)
  else string_loop fuel token (set_pos p (pos p + len (part_bytes x)))
                   (buf ++ part_value x).
Proof.
  intros Hx Hok Hs Hp Hl Hm.
  destruct x as [i|cs|hs ls]; [destruct Hx| |];
    cbn [part_bytes part_code part_value] in *.
  - destruct (unicode_facts cs Hok) as (H4 & R & Hr).
    destruct (hex4_facts cs H4) as (_ & _ & L' & _).
    rewrite !len_cons, L' in *. cbn [app] in Hs.
    rewrite (string_loop_escape_u _ _ p buf _ Hs) by lia.
    assert (Hs2 : suffix_at (set_pos p (pos p + 1 + 1)) = cs ++ rest).
    { rewrite (suffix_at_forward p _ 2), Hs; cbn [json set_pos pos];
        auto; lia. }
    rewrite (json_parse_unicode_escape_code _ buf cs rest H4 R Hs2)
      by (cbn [pos set_pos length]; lia).
    rewrite utf8_append_checked by (cbn [max_string set_pos]; lia).
    cbn [max_string set_pos pos]. rewrite set_pos_set_pos.
    replace (pos p + 1 + 1 + 4) with (pos p + (4 + 1 + 1)) by lia.
    destruct (_ <=? len buf); reflexivity.
  - destruct (pair_facts hs ls Hok) as (H4h & H4l & Hh & Hlo & Hr).
    destruct (hex4_facts hs H4h) as (_ & _ & Lh' & _).
    destruct (hex4_facts ls H4l) as (_ & _ & Ll' & _).
    rewrite !len_cons, len_app, !len_cons, Lh', Ll' in *.
    cbn [app] in Hs. rewrite <- app_assoc in Hs. cbn [app] in Hs.
    rewrite (string_loop_escape_u _ _ p buf _ Hs) by lia.
    assert (Hs2 : suffix_at (set_pos p (pos p + 1 + 1))
                  = hs ++ 92 :: 117 :: ls ++ rest).
    { rewrite (suffix_at_forward p _ 2), Hs; cbn [json set_pos pos];
        auto; lia. }
    rewrite (json_parse_unicode_escape_pair_code _ buf hs ls rest
               H4h H4l Hh Hlo Hs2)
      by (cbn [pos set_pos length]; lia).
    rewrite utf8_append_checked by (cbn [max_string set_pos]; lia).
    cbn [max_string set_pos pos]. rewrite set_pos_set_pos.
    replace (pos p + 1 + 1 + 10) with (pos p + (4 + (4 + 1 + 1) + 1 + 1))
      by lia.
    destruct (_ <=? len buf); reflexivity.
Qed.

Lemma len_part_value x :
  part_ok x = true ->
  len (part_value x) =
  match x with Item _ => 1 | _ => utf8_size (part_code x) end.
Proof.
  intros _. destruct x; cbn [part_value part_code];
    [reflexivity|apply len_utf8|apply len_utf8].
Qed.

Lemma utf8_size_range cp : 1 <= utf8_size cp <= 4.
Proof.
  unfold utf8_size.
  destruct (cp <=? 127), (cp <=? 2047), (cp <=? 65535); lia.
Qed.

(** The loop of [json_parse_string] over items that fit the buffer with
    the terminator: it writes what they decode to and stops behind
    them. *)
Lemma string_loop_parts parts :
  forall fuel token p buf rest,
    forallb part_ok parts = true ->
    suffix_at p = encode_parts parts ++ rest -> 0 <= pos p ->
    pos p + len (encode_parts parts) <= length p ->
    1 <= max_string p < SIZE_MAX1 ->
    len buf + len (decode_parts parts) <= max_string p - 1 ->
    string_loop (List.length parts + fuel) token p buf =
    string_loop fuel token (set_pos p (pos p + len (encode_parts parts)))
                (buf ++ decode_parts parts).
Proof.
  induction parts as [|x parts IH];
    intros fuel token p buf rest Hok Hs Hp Hl Hm Hb.
  - cbn [encode_parts decode_parts flat_map List.length Nat.add].
    rewrite len_nil, Z.add_0_r, app_nil_r. now destruct p.
  - cbn [forallb] in Hok. apply andb_prop in Hok. destruct Hok as [Hx Hok].
    cbn [encode_parts decode_parts flat_map] in *.
    fold (encode_parts parts) in *. fold (decode_parts parts) in *.
    rewrite len_app in Hl, Hb. rewrite <- app_assoc in Hs.
    pose proof (len_part_bytes x Hx) as Hx1.
    pose proof (len_part_value x Hx) as Hv.
    pose proof (len_nonneg (encode_parts parts)) as Henc.
    pose proof (len_nonneg (decode_parts parts)) as Hdec.
    pose proof (len_nonneg buf) as Hbuf.
    assert (Hstep : string_loop (S (List.length parts + fuel)) token p buf =
                    string_loop (List.length parts + fuel) token
                      (set_pos p (pos p + len (part_bytes x)))
                      (buf ++ part_value x)).
    { destruct x as [i|cs|hs ls].
      - cbn [part_bytes part_value] in *.
        pose proof (string_loop_items [i] (List.length parts + fuel)%nat
                      token p buf (encode_parts parts ++ rest)) as H.
        cbn [encode decode flat_map map List.length Nat.add forallb] in H.
        rewrite app_nil_r, andb_true_r in H. apply H; auto; try lia.
        rewrite len_cons, len_nil. lia.
      - pose proof (utf8_size_range (part_code (Unicode cs))) as Hr.
        rewrite (string_loop_escape _ _ p buf (Unicode cs)
                   (encode_parts parts ++ rest)); auto; try lia.
        replace (max_string p - utf8_size (part_code (Unicode cs))
                 <=? len buf) with false
          by (symmetry; apply Z.leb_gt; lia).
        reflexivity.
      - pose proof (utf8_size_range (part_code (Pair hs ls))) as Hr.
        rewrite (string_loop_escape _ _ p buf (Pair hs ls)
                   (encode_parts parts ++ rest)); auto; try lia.
        replace (max_string p - utf8_size (part_code (Pair hs ls))
                 <=? len buf) with false
          by (symmetry; apply Z.leb_gt; lia).
        reflexivity. }
    cbn [List.length Nat.add]. rewrite Hstep.
    rewrite (IH fuel token _ (buf ++ part_value x) rest);
      cbn [pos set_pos length max_string]; auto; try lia.
    + rewrite set_pos_set_pos, len_app, <- app_assoc.
      replace (pos p + len (part_bytes x) + len (encode_parts parts))
        with (pos p + (len (part_bytes x) + len (encode_parts parts)))
        by lia.
      reflexivity.
    + rewrite (suffix_at_forward p _ (len (part_bytes x))), Hs;
        cbn [json set_pos pos]; auto; try lia.
      now apply skipn_len_app.
    + rewrite len_app. lia.
Qed.

(** The first item whose bytes do not fit: a literal byte or a simple
    escape fails with [JSON_ERROR_STRING_TOO_LONG], a [\u] escape with
    [JSON_ERROR_INVALID_UNICODE]. *)
Definition overflow_error (x : string_part) : json_error_t :=
  match x with
  | Item _ => JSON_ERROR_STRING_TOO_LONG
  | _ => JSON_ERROR_INVALID_UNICODE
  end.

Lemma string_loop_overflow fuel token p buf x rest :
  part_ok x = true ->
  suffix_at p = part_bytes x ++ rest -> 0 <= pos p ->
  pos p + len (part_bytes x) <= length p ->
  1 <= max_string p < SIZE_MAX1 -> len (part_value x) <= max_string p ->
  max_string p - 1 < len buf + len (part_value x) ->
  error p = JSON_ERROR_NONE ->
  exists p',
    string_loop (S fuel) token p buf = Some (-1, p') /\
    error p' = overflow_error x.
Proof.
  intros Hx Hs Hp Hl Hm Hk Hb He.
  pose proof (len_part_value x Hx) as Hv.
  destruct x as [i|cs|hs ls]; cbn [overflow_error].
  - cbn [part_bytes part_value] in *.
    apply (string_loop_full fuel token p buf i rest); auto. lia.
  - rewrite (string_loop_escape _ _ p buf (Unicode cs) rest); auto; try lia.
    replace (max_string p - utf8_size (part_code (Unicode cs)) <=? len buf)
      with true by (symmetry; apply Z.leb_le; lia).
    eexists; split; [reflexivity|]. now apply json_set_error_first.
  - rewrite (string_loop_escape _ _ p buf (Pair hs ls) rest); auto; try lia.
    replace (max_string p - utf8_size (part_code (Pair hs ls)) <=? len buf)
      with true by (symmetry; apply Z.leb_le; lia).
    eexists; split; [reflexivity|]. now apply json_set_error_first.
Qed.

(** The rounds of the loop at the end of the input. *)
Lemma string_loop_at_end fuel token p buf :
  length p <= pos p ->
  string_loop (S fuel) token p buf =
  Some (-1, json_set_error p JSON_ERROR_UNEXPECTED_CHAR).
Proof.
  intros H. cbn [string_loop].
  replace (pos p <? length p) with false by (symmetry; apply Z.ltb_ge; lia).
  reflexivity.
Qed.

Lemma string_loop_lone_backslash fuel token p buf :
  suffix_at p = [92] -> 0 <= pos p -> length p = pos p + 1 ->
  string_loop (S fuel) token p buf =
  Some (-1, json_set_error (set_pos p (pos p + 1))
                           JSON_ERROR_UNEXPECTED_CHAR).
Proof.
  intros Hs Hp Hl. cbn [string_loop].
  destruct (suffix_at_next _ _ _ Hs Hp) as (Hc & _).
  replace (pos p <? length p) with true by (symmetry; apply Z.ltb_lt; lia).
  rewrite Hc. cbn [Z.eqb Pos.eqb length pos set_pos].
  replace (length p <=? pos p + 1) with true
    by (symmetry; apply Z.leb_le; lia).
  reflexivity.
Qed.

Lemma string_loop_cut_escape fuel token p buf tail :
  suffix_at p = 92 :: 117 :: tail -> len tail < 4 -> 0 <= pos p ->
  length p = pos p + 2 + len tail ->
  string_loop (S fuel) token p buf =
  Some (-1, json_set_error (set_pos p (pos p + 1 + 1))
                           JSON_ERROR_INVALID_UNICODE).
Proof.
  intros Hs Ht Hp Hl. pose proof (len_nonneg tail) as Htl.
  rewrite (string_loop_escape_u _ _ p buf tail Hs) by lia.
  unfold json_parse_unicode_escape. cbn [length pos set_pos].
  replace (length p <? pos p + 1 + 1 + 4) with true
    by (symmetry; apply Z.ltb_lt; lia).
  reflexivity.
Qed.

(** ** A string literal at the top of the input *)

Section StringParts.
Variables (m : Z) (parts : list string_part).
Hypothesis Hm : 1 <= m < SIZE_MAX1.
Hypothesis Hok : forallb part_ok parts = true.
Hypothesis Hfit : len (decode_parts parts) <= m - 1.

(** The parse of a text that starts with a quote and the items: the
    loop has copied the items and stands behind them. *)
Lemma parse_string_parts rest :
  exists q fuel,
    json_parser_parse
      (parser_with_max_string (34 :: encode_parts parts ++ rest) m) =
    match string_loop (S fuel) (last_token_ptr q)
                      (set_pos q (1 + len (encode_parts parts)))
                      (decode_parts parts) with
    | None => None
    | Some (rc, p) =>
        if rc <? 0 then Some (error p, p)
        else
          let p := json_skip_whitespace p in
          let p := if negb (pos p =? length p)
                   then json_set_error p JSON_ERROR_TRAILING_CHARS
                   else p in
          Some (error p, p)
    end /\
    tokens q = [] ++ [mk_token JSON_TOKEN_STRING ValueZero 1 0] /\
    suffix_at (set_pos q (1 + len (encode_parts parts))) = rest /\
    length q = 1 + len (encode_parts parts) + len rest /\
    max_string q = m /\ error q = JSON_ERROR_NONE.
Proof.
  set (s := 34 :: encode_parts parts ++ rest).
  set (p0 := parser_with_max_string s m).
  pose proof (len_nonneg (encode_parts parts)) as Henc.
  pose proof (len_nonneg rest) as Hrest.
  pose proof (len_encode_parts_ge parts Hok) as Hge.
  assert (Hlen : len s = 1 + len (encode_parts parts) + len rest).
  { unfold s. rewrite len_cons, len_app. lia. }
  rewrite (json_parser_parse_at_quote p0 (encode_parts parts ++ rest))
    by (try reflexivity; unfold p0; init_fields; lia).
  destruct (json_parse_string_enter (parse_fuel p0 - 1)
              (set_error p0 JSON_ERROR_NONE) eq_refl)
    as (q & -> & Ht & Hj & Hlq & Hpq & Hmq & Heq).
  unfold p0 in Ht, Hj, Hlq, Hpq, Hmq, Heq.
  cbn [pos length error max_string tokens json set_error
       parser_with_max_string set_max_string json_parser_init] in *.
  assert (Hsq : suffix_at q = encode_parts parts ++ rest).
  { unfold suffix_at. rewrite Hj, Hpq. reflexivity. }
  change (0 + 1) with 1 in *.
  assert (Hf : exists fuel,
             (parse_fuel p0 - 1 = List.length parts + S fuel)%nat).
  { exists (parse_fuel p0 - 1 - List.length parts - 1)%nat.
    unfold parse_fuel, p0. init_fields. unfold len in *. lia. }
  destruct Hf as (fuel & ->). exists q, fuel.
  rewrite (string_loop_parts parts _ _ q [] rest); auto;
    try (rewrite ?len_nil; lia).
  cbn [app]. rewrite Hpq.
  split; [reflexivity|]. split; [exact Ht|]. split.
  - rewrite (suffix_at_forward q _ (len (encode_parts parts))), Hsq;
      cbn [json set_pos pos]; auto; try lia.
    now apply skipn_len_app.
  - repeat split; auto; lia.
Qed.

Lemma string_parts_parse :
  parse_error
    (json_parser_parse
       (parser_with_max_string (quoted (encode_parts parts)) m))
  = Some JSON_ERROR_NONE /\
  parse_tokens
    (json_parser_parse
       (parser_with_max_string (quoted (encode_parts parts)) m))
  = Some [mk_token JSON_TOKEN_STRING (ValueString (decode_parts parts))
                   1 (1 + len (encode_parts parts))].
Proof.
  unfold quoted.
  destruct (parse_string_parts [34])
    as (q & fuel & -> & Ht & Hs & Hl & _ & He).
  pose proof (len_nonneg (encode_parts parts)) as Henc.
  rewrite len_cons, len_nil in Hl.
  rewrite (string_loop_close fuel q _ _ [] _ _ Hs) by (try exact Ht; lia).
  cbn [Z.ltb Z.compare].
  rewrite json_skip_whitespace_end by (cbn [pos length set_pos set_tokens]; lia).
  cbn [pos length set_pos set_tokens].
  replace (1 + len (encode_parts parts) + 1 =? length q) with true
    by (symmetry; apply Z.eqb_eq; lia).
  cbn [negb parse_error parse_tokens option_map fst snd error tokens
       set_tokens set_pos app with_value with_end type start].
  rewrite He. split; reflexivity.
Qed.

Lemma string_parts_overflow x rest :
  part_ok x = true -> len (part_value x) <= m ->
  m - 1 < len (decode_parts parts) + len (part_value x) ->
  parse_error
    (json_parser_parse
       (parser_with_max_string
          (34 :: encode_parts parts ++ part_bytes x ++ rest) m))
  = Some (overflow_error x).
Proof.
  intros Hx Hk Hb.
  destruct (parse_string_parts (part_bytes x ++ rest))
    as (q & fuel & -> & Ht & Hs & Hl & Hmq & He).
  pose proof (len_nonneg (encode_parts parts)) as Henc.
  pose proof (len_nonneg rest) as Hrest.
  rewrite len_app in Hl.
  destruct (string_loop_overflow fuel (last_token_ptr q)
              (set_pos q (1 + len (encode_parts parts)))
              (decode_parts parts) x rest)
    as (p' & -> & Hp'); auto;
    cbn [pos length max_string error set_pos]; try lia.
  cbn [Z.ltb Z.compare parse_error option_map fst]. now rewrite Hp'.
Qed.

Lemma string_parts_unterminated tail :
  tail = [] \/ tail = [92] ->
  parse_error
    (json_parser_parse
       (parser_with_max_string (34 :: encode_parts parts ++ tail) m))
  = Some JSON_ERROR_UNEXPECTED_CHAR.
Proof.
  intros Htail.
  destruct (parse_string_parts tail)
    as (q & fuel & -> & Ht & Hs & Hl & Hmq & He).
  pose proof (len_nonneg (encode_parts parts)) as Henc.
  destruct Htail as [-> | ->]; rewrite ?len_cons, len_nil in Hl.
  - rewrite string_loop_at_end by (cbn [pos length set_pos]; lia).
    cbn [Z.ltb Z.compare parse_error option_map fst].
    now rewrite json_set_error_first.
  - rewrite string_loop_lone_backslash
      by (auto; cbn [pos length set_pos]; lia).
    cbn [Z.ltb Z.compare parse_error option_map fst].
    now rewrite json_set_error_first.
Qed.

Lemma string_parts_cut_escape tail :
  len tail < 4 ->
  parse_error
    (json_parser_parse
       (parser_with_max_string
          (34 :: encode_parts parts ++ 92 :: 117 :: tail) m))
  = Some JSON_ERROR_INVALID_UNICODE.
Proof.
  intros Htail.
  destruct (parse_string_parts (92 :: 117 :: tail))
    as (q & fuel & -> & Ht & Hs & Hl & Hmq & He).
  pose proof (len_nonneg (encode_parts parts)) as Henc.
  rewrite !len_cons in Hl.
  rewrite (string_loop_cut_escape _ _ _ _ tail Hs)
    by (auto; cbn [pos length set_pos]; lia).
  cbn [Z.ltb Z.compare parse_error option_map fst].
  now rewrite json_set_error_first.
Qed.

End StringParts.

(** C7, as the code has it.  For a limit [m] of at least one and a
    string literal whose content is made of literal bytes, simple
    escapes and [\u] escapes (of a code point that is no surrogate, or
    of a surrogate pair).  Content that decodes to at most [m - 1] bytes,
    so in particular to exactly [m - 1], makes one String token; the
    buffer of the token holds the decoded bytes, which are the string
    the token points to where none of them is zero.  Behind such content,
    the first item whose bytes do not fit any more fails the parse: with
    [JSON_ERROR_STRING_TOO_LONG] where it is a literal byte or a simple
    escape, so for [m] literal bytes, and with
    [JSON_ERROR_INVALID_UNICODE] where it is a [\u] escape with an
    encoding of at most [m] bytes.  An input that ends where the closing
    quote should be, or behind a lone backslash, fails with
    [JSON_ERROR_UNEXPECTED_CHAR]; an input that ends inside a [\u]
    escape, less than four bytes behind the [u], fails with
    [JSON_ERROR_INVALID_UNICODE]. *)
Theorem string_length_boundary m parts :
  1 <= m < SIZE_MAX1 -> forallb part_ok parts = true ->
  len (decode_parts parts) <= m - 1 ->
  (parse_error
     (json_parser_parse
        (parser_with_max_string (quoted (encode_parts parts)) m))
   = Some JSON_ERROR_NONE /\
   (no_nul (decode_parts parts) = true ->
    parse_tokens
      (json_parser_parse
         (parser_with_max_string (quoted (encode_parts parts)) m))
    = Some [mk_token JSON_TOKEN_STRING (ValueString (decode_parts parts))
                     1 (1 + len (encode_parts parts))])) /\
  (forall x rest,
      part_ok x = true -> len (part_value x) <= m ->
      m - 1 < len (decode_parts parts) + len (part_value x) ->
      parse_error
        (json_parser_parse
           (parser_with_max_string
              (34 :: encode_parts parts ++ part_bytes x ++ rest) m))
      = Some (match x with
              | Item _ => JSON_ERROR_STRING_TOO_LONG
              | _ => JSON_ERROR_INVALID_UNICODE
              end)) /\
  (parse_error
     (json_parser_parse
        (parser_with_max_string (34 :: encode_parts parts) m))
   = Some JSON_ERROR_UNEXPECTED_CHAR /\
   parse_error
     (json_parser_parse
        (parser_with_max_string (34 :: encode_parts parts ++ [92]) m))
   = Some JSON_ERROR_UNEXPECTED_CHAR) /\
  (forall tail,
      len tail < 4 ->
      parse_error
        (json_parser_parse
           (parser_with_max_string
              (34 :: encode_parts parts ++ 92 :: 117 :: tail) m))
      = Some JSON_ERROR_INVALID_UNICODE).
Proof.
  intros Hm Hok Hfit. split; [|split; [|split]].
  - destruct (string_parts_parse m parts Hm Hok Hfit) as (He & Ht).
    split; [exact He|]. intros _. exact Ht.
  - intros x rest Hx Hk Hb.
    exact (string_parts_overflow m parts Hm Hok Hfit x rest Hx Hk Hb).
  - split.
    + rewrite <- (app_nil_r (encode_parts parts)).
      apply string_parts_unterminated; auto.
    + apply string_parts_unterminated; auto.
  - intros tail Ht. now apply string_parts_cut_escape.
Qed.

(** A limit of four bytes: [a] and U+00E9 take three.  One more letter
    fails with [JSON_ERROR_STRING_TOO_LONG], one more escape with
    [JSON_ERROR_INVALID_UNICODE]; and the default limit with 255 and with
    256 letters. *)
Lemma string_length_boundary_witness :
  parse_tokens
    (json_parser_parse
       (parser_with_max_string (quoted (97 :: escape_u "00e9")) 4))
  = Some [mk_token JSON_TOKEN_STRING (ValueString [97; 195; 169]) 1 8] /\
  parse_error
    (json_parser_parse
       (parser_with_max_string (quoted (97 :: escape_u "00e9" ++ [98])) 4))
  = Some JSON_ERROR_STRING_TOO_LONG /\
  parse_error
    (json_parser_parse
       (parser_with_max_string
          (quoted (97 :: escape_u "00e9" ++ escape_u "0041")) 4))
  = Some JSON_ERROR_INVALID_UNICODE /\
  parse_error
    (json_parser_parse
       (parser_with_max_string (34 :: 97 :: escape_u "00e9") 4))
  = Some JSON_ERROR_UNEXPECTED_CHAR /\
  parse_error
    (json_parser_parse
       (parser_with_max_string
          (34 :: 97 :: escape_u "00e9" ++ escape_u "12") 4))
  = Some JSON_ERROR_INVALID_UNICODE /\
  parse_error (parse_text (quoted (repeat 97 255))) = Some JSON_ERROR_NONE /\
  parse_error (parse_text (quoted (repeat 97 256)))
  = Some JSON_ERROR_STRING_TOO_LONG.
Proof.
  assert (H4 : 1 <= 4 < SIZE_MAX1) by (unfold SIZE_MAX1; lia).
  assert (H256 : 1 <= 256 < SIZE_MAX1) by (unfold SIZE_MAX1; lia).
  destruct (string_length_boundary 4
              [Item (Plain 97); Unicode (bytes "00e9")] H4 eq_refl
              ltac:(vm_compute; discriminate))
    as ((_ & Ha) & Hb & (Hc & _) & Hd).
  assert (Hok : forall n,
             forallb part_ok (map (fun c => Item (Plain c)) (repeat 97 n))
             = true).
  { induction n as [|n IH]; [reflexivity|]. cbn [repeat map forallb].
    rewrite IH. reflexivity. }
  assert (Henc : forall n,
             encode_parts (map (fun c => Item (Plain c)) (repeat 97 n))
             = repeat 97 n).
  { induction n as [|n IH]; [reflexivity|].
    cbn [repeat map encode_parts flat_map part_bytes item_bytes app].
    fold (encode_parts (map (fun c => Item (Plain c)) (repeat 97 n))).
    now rewrite IH. }
  assert (Hdec : forall n,
             len (decode_parts (map (fun c => Item (Plain c)) (repeat 97 n)))
             = Z.of_nat n).
  { induction n as [|n IH]; [reflexivity|].
    cbn [repeat map decode_parts flat_map part_value app].
    fold (decode_parts (map (fun c => Item (Plain c)) (repeat 97 n))).
    rewrite len_cons, IH. lia. }
  destruct (string_length_boundary 256
              (map (fun c => Item (Plain c)) (repeat 97 255)) H256
              (Hok 255%nat) ltac:(rewrite Hdec; lia))
    as ((He & _) & Hf & _).
  rewrite Henc in He, Hf.
  split; [|split; [|split; [|split; [|split; [|split]]]]].
  - apply Ha. reflexivity.
  - apply (Hb (Item (Plain 98)) [34]);
      [reflexivity|vm_compute; discriminate|vm_compute; reflexivity].
  - apply (Hb (Unicode (bytes "0041")) [34]);
      [reflexivity|vm_compute; discriminate|vm_compute; reflexivity].
  - exact Hc.
  - apply (Hd (bytes "12")). reflexivity.
  - exact He.
  - assert (E : quoted (repeat 97 256)
                = 34 :: repeat 97 255
                     ++ part_bytes (Item (Plain 97)) ++ [34]).
    { unfold quoted. change 256%nat with (255 + 1)%nat.
      now rewrite repeat_app, <- app_assoc. }
    unfold parse_text. rewrite E.
    change (json_parser_init
              (34 :: repeat 97 255 ++ part_bytes (Item (Plain 97)) ++ [34])
              (len (34 :: repeat 97 255
                       ++ part_bytes (Item (Plain 97)) ++ [34])))
      with (parser_with_max_string
              (34 :: repeat 97 255 ++ part_bytes (Item (Plain 97)) ++ [34])
              256).
    apply (Hf (Item (Plain 97)) [34]);
      [reflexivity|vm_compute; discriminate|rewrite Hdec; vm_compute; reflexivity].
Defined.
